(** * Atzentis CLI: task scheduler, session store, loader, hooks and executor

    A shallow embedding of the orchestrator core
    (core/task-scheduler.ts, core/session-manager.ts, core/task-loader.ts,
    core/hooks-executor.ts, core/worktree-manager.ts, commands/run.ts,
    commands/resume.ts, config/schemas.ts) together with the properties the
    specification states about it (C1 to C10) and further properties read
    off the code (X1 to X30).

    Conventions of the embedding:
    - a JS [Set<string>] used for membership only is a [gset string];
      a JS [Map] used for lookup only is a [gmap];
    - an exception is the [Throw] outcome; [OutOfFuel] exists only because
      the loops that are not structurally recursive are written with fuel.
      For the two loops of [buildExecutionWaves] it is proved unreachable;
      the loops of [topologicalSort] and [chunkArray] take their fuel as an
      argument, and a result that is [OutOfFuel] for every fuel is a loop
      that never ends;
    - everything the process reads from outside (clock, UUID generator,
      file system, child processes) is an explicit input. *)

From Stdlib Require Import ZArith QArith Qminmax Qround Lqa Ascii.
From stdpp Require Import base gmap strings list sets sorting relations pretty.

Set Warnings "-clear-no-such-hyp,-level-tolerance".

(** ** Outcomes *)

(** What the code raises.  Every [throw] site of the embedded sources has a
    constructor; the payload is what the message interpolates. *)
Inductive Exn :=
  | UnknownDependency (task dep : string)
      (* `Task ${task.id} depends on unknown task ${dep}` *)
  | CircularDependency (cycle : list string)
      (* `Circular dependency detected: ${cycle.join(' -> ')}` *)
  | UnschedulableTasks (remaining : list string)
      (* `Could not schedule tasks: ${remaining ids}. ...` *)
  | SessionNotFound (sessionId : string)
      (* `Session ${sessionId} not found` *)
  | SchemaError
      (* a ZodError out of SessionSchema.parse / CheckpointSchema.parse *)
  | SqlError
      (* a statement of the embedded database failed *)
  | HookFailed (hook output : string)
      (* `${hook} hook failed: ${result.output}` *)
  | ExecutionFailed (message : string)
      (* result.error || 'Execution failed' *)
  | CommandFailed (name : string) (code : option Z)
      (* `${name} failed with exit code ${code}` *)
  | CommandNotRun (name message : string)
      (* `Failed to run ${name}: ${err.message}` *)
  | ProcessExit (code : Z)
      (* process.exit(code) *)
  | External (message : string).
      (* an exception out of a collaborator whose code is not part of the
         core: worktree manager, prompt builder, engine *)

Inductive outcome (A : Type) :=
  | Ok (a : A)
  | Throw (e : Exn)
  | OutOfFuel.
Arguments Ok {A} a.
Arguments Throw {A} e.
Arguments OutOfFuel {A}.

#[global] Instance outcome_ret : MRet outcome := @Ok.
#[global] Instance outcome_bind : MBind outcome := λ A B f m,
  match m with
  | Ok a => f a
  | Throw e => Throw e
  | OutOfFuel => OutOfFuel
  end.

(** [for (const a of l) body(a)] over a threaded state. *)
Fixpoint forEach {A S : Type} (body : A → S → outcome S) (l : list A) (s : S)
  : outcome S :=
  match l with
  | [] => Ok s
  | a :: l' => s' ← body a s; forEach body l' s'
  end.

(** ** Data model (config/schemas.ts) *)

(** TaskStatusSchema = z.enum([...]) *)
Inductive TaskStatus := pending | in_progress | completed | failed | blocked.

#[global] Instance TaskStatus_eq_dec : EqDecision TaskStatus.
Proof. solve_decision. Defined.

Inductive Priority := P0 | P1 | P2 | P3.

#[global] Instance Priority_eq_dec : EqDecision Priority.
Proof. solve_decision. Defined.

(** TaskSchema.  The list-of-text fields that only feed the prompt and the
    pull-request body ([files], [acceptanceCriteria], [requirements],
    [businessRules], [testingRequirements], [skills]) play no part below and
    are left out. *)
Record Task := mkTask {
  id : string;
  name : string;
  description : option string;
  status : TaskStatus;
  parallelGroup : Z;
  dependencies : list string;
  estimate : option string;
  priority : option Priority;
  phase : option string;
}.

#[global] Instance Task_eq_dec : EqDecision Task.
Proof. solve_decision. Defined.

(** ** Scheduler (core/task-scheduler.ts) *)

Module Scheduler.

(** *** buildExecutionWaves, first loop: every dependency is a known id *)

Fixpoint checkDependencies (taskIds : gset string) (taskId : string)
    (deps : list string) : outcome unit :=
  match deps with
  | [] => Ok ()
  | dep :: deps' =>
      if decide (dep ∈ taskIds) then checkDependencies taskIds taskId deps'
      else Throw (UnknownDependency taskId dep)
  end.

Fixpoint validateDependencies (taskIds : gset string) (tasks : list Task)
    : outcome unit :=
  match tasks with
  | [] => Ok ()
  | task :: tasks' =>
      checkDependencies taskIds (id task) (dependencies task);;
      validateDependencies taskIds tasks'
  end.

(** *** detectCircularDependencies *)

(** new Map(tasks.map((t) => [t.id, t])): a later entry replaces an
    earlier one with the same key. *)
Definition taskMapOf (tasks : list Task) : gmap string Task :=
  foldl (λ m t, <[id t := t]> m) ∅ tasks.

Record DfsState := mkDfs {
  visited : gset string;
  recursionStack : gset string;
}.

(** The closure [dfs].  [fuel] bounds the depth of the recursion. *)
Fixpoint dfs (fuel : nat) (taskMap : gmap string Task)
    (taskId : string) (path : list string) (st : DfsState)
    : outcome DfsState :=
  match fuel with
  | O => OutOfFuel
  | S fuel' =>
      if decide (taskId ∈ recursionStack st) then
        Throw (CircularDependency (path ++ [taskId]))
      else if decide (taskId ∈ visited st) then Ok st
      else
        let st1 := {| visited := {[taskId]} ∪ visited st;
                      recursionStack := {[taskId]} ∪ recursionStack st |} in
        st2 ← match taskMap !! taskId with
              | Some task =>
                  forEach (λ dep, dfs fuel' taskMap dep (path ++ [taskId]))
                          (dependencies task) st1
              | None => Ok st1
              end;
        Ok {| visited := visited st2;
              recursionStack := recursionStack st2 ∖ {[taskId]} |}
  end.

Definition dfsFuel (taskMap : gmap string Task) : nat := S (size taskMap).

Definition detectCircularDependencies (tasks : list Task) : outcome unit :=
  let taskMap := taskMapOf tasks in
  forEach (λ task st,
             if decide (id task ∈ visited st) then Ok st
             else dfs (dfsFuel taskMap) taskMap (id task) [] st)
          tasks {| visited := ∅; recursionStack := ∅ |};;
  Ok ().

(** *** buildWavesWithDependencies *)

(** task.dependencies.every((dep) => allCompleted.has(dep)) *)
Definition depsCompleted (allCompleted : gset string) (task : Task) : bool :=
  forallb (λ dep, bool_decide (dep ∈ allCompleted)) (dependencies task).

(** The inner [for (let i = remaining.length - 1; i >= 0; i--)] loop.  It
    walks [remaining] from its last element to its first, pushes every
    ready task on [currentWave] and splices it out of [remaining]; the
    result is (currentWave, remaining).  The recursion reaches the tail
    first, so the last element is pushed first. *)
Fixpoint sweep (allCompleted : gset string) (remaining : list Task)
    : list Task * list Task :=
  match remaining with
  | [] => ([], [])
  | task :: rest =>
      let '(currentWave, rest') := sweep allCompleted rest in
      if depsCompleted allCompleted task then (currentWave ++ [task], rest')
      else (currentWave, task :: rest')
  end.

(** for (const task of wave) completed.add(task.id) *)
Definition addAll (completed : gset string) (wave : list Task) : gset string :=
  foldl (λ c t, {[id t]} ∪ c) completed wave.

(** The [while (remaining.length > 0)] loop; each turn either throws or
    takes a task out of [remaining], so [length remaining] turns are
    enough. *)
Fixpoint wavesLoop (fuel : nat) (remaining : list Task)
    (allCompleted : gset string) (waves : list (list Task))
    : outcome (list (list Task)) :=
  match remaining with
  | [] => Ok waves
  | _ :: _ =>
      match fuel with
      | O => OutOfFuel
      | S fuel' =>
          let '(currentWave, remaining') := sweep allCompleted remaining in
          if bool_decide (length currentWave = 0)
             && bool_decide (0 < length remaining')
          then Throw (UnschedulableTasks (id <$> remaining'))
          else if bool_decide (0 < length currentWave)
          then wavesLoop fuel' remaining' (addAll allCompleted currentWave)
                         (waves ++ [currentWave])
          else wavesLoop fuel' remaining' allCompleted waves
      end
  end.

Definition buildWavesWithDependencies (tasks : list Task)
    (completed : gset string) : outcome (list (list Task)) :=
  wavesLoop (length tasks) tasks completed [].

(** *** buildExecutionWaves *)

(** The [groups] map: parallelGroup ↦ tasks of that group, in input
    order. *)
Definition groupTasks (tasks : list Task) : gmap Z (list Task) :=
  foldl (λ groups task,
           let group := default [] (groups !! parallelGroup task) in
           <[parallelGroup task := group ++ [task]]> groups)
        ∅ tasks.

(** [...groups.keys()].sort((a, b) => a - b).  The keys are distinct, so
    the sorted array does not depend on the order in which the map
    enumerates them. *)
Definition sortedGroupNums (groups : gmap Z (list Task)) : list Z :=
  merge_sort Z.le (elements (dom groups)).

(** for (const wave of groupWaves) if (wave.length > 0) { push; add } *)
Fixpoint pushWaves (groupWaves : list (list Task))
    (allWaves : list (list Task)) (completed : gset string)
    : list (list Task) * gset string :=
  match groupWaves with
  | [] => (allWaves, completed)
  | wave :: groupWaves' =>
      if bool_decide (0 < length wave)
      then pushWaves groupWaves' (allWaves ++ [wave]) (addAll completed wave)
      else pushWaves groupWaves' allWaves completed
  end.

(** for (const groupNum of sortedGroupNums) { ... } *)
Fixpoint scheduleGroups (groups : gmap Z (list Task)) (groupNums : list Z)
    (allWaves : list (list Task)) (completed : gset string)
    : outcome (list (list Task)) :=
  match groupNums with
  | [] => Ok allWaves
  | groupNum :: groupNums' =>
      let groupTasks := default [] (groups !! groupNum) in
      groupWaves ← buildWavesWithDependencies groupTasks completed;
      let '(allWaves', completed') := pushWaves groupWaves allWaves completed in
      scheduleGroups groups groupNums' allWaves' completed'
  end.

Definition buildExecutionWaves (tasks : list Task) : outcome (list (list Task)) :=
  if bool_decide (length tasks = 0) then Ok []
  else
    let taskIds : gset string := list_to_set (id <$> tasks) in
    validateDependencies taskIds tasks;;
    detectCircularDependencies tasks;;
    let groups := groupTasks tasks in
    scheduleGroups groups (sortedGroupNums groups) [] ∅.

End Scheduler.

(** *** What the specification says about the scheduler *)

Module SchedulerSpec.

(** [depends tasks a b]: a task of the input with id [a] lists [b] among
    its dependencies. *)
Definition depends (tasks : list Task) (a b : string) : Prop :=
  ∃ t, t ∈ tasks ∧ id t = a ∧ b ∈ dependencies t.

(** All dependencies present. *)
Definition depsPresent (tasks : list Task) : Prop :=
  ∀ t d, t ∈ tasks → d ∈ dependencies t → ∃ u, u ∈ tasks ∧ id u = d.

(** A dependency cycle: an id that reaches itself along one or more
    dependency edges. *)
Definition onCycle (tasks : list Task) (a : string) : Prop :=
  tc (depends tasks) a a.

Definition cyclic (tasks : list Task) : Prop := ∃ a, onCycle tasks a.

Definition acyclic (tasks : list Task) : Prop := ∀ a, ¬ onCycle tasks a.

(** Task ids identify the nodes of the graph. *)
Definition uniqueIds (tasks : list Task) : Prop := NoDup (id <$> tasks).

(** No task depends on a task of a higher parallel group. *)
Definition groupsFollowDependencies (tasks : list Task) : Prop :=
  ∀ t u, t ∈ tasks → u ∈ tasks → id u ∈ dependencies t →
         (parallelGroup u ≤ parallelGroup t)%Z.

(** The union of the waves is the input ... *)
Definition unionIsInput (tasks : list Task) (waves : list (list Task)) : Prop :=
  ∀ t, t ∈ tasks ↔ ∃ w, w ∈ waves ∧ t ∈ w.

(** ... and two different waves share no task (not even a task id). *)
Definition pairwiseDisjoint (waves : list (list Task)) : Prop :=
  ∀ i j w1 w2 t u,
    waves !! i = Some w1 → waves !! j = Some w2 → i ≠ j →
    t ∈ w1 → u ∈ w2 → id t ≠ id u.

(** Every dependency of a task of wave [k] is a task of a wave [k' < k]. *)
Definition depsInEarlierWave (waves : list (list Task)) : Prop :=
  ∀ k w t d,
    waves !! k = Some w → t ∈ w → d ∈ dependencies t →
    ∃ k' w' u, k' < k ∧ waves !! k' = Some w' ∧ u ∈ w' ∧ id u = d.

(** No dependency edge inside a wave. *)
Definition noEdgeWithinWave (waves : list (list Task)) : Prop :=
  ∀ w t u, w ∈ waves → t ∈ w → u ∈ w → id u ∉ dependencies t.

End SchedulerSpec.

(** *** Invariants of the scheduler's loops *)

Module SchedulerInvariants.
Import Scheduler SchedulerSpec.

(** The edges the search follows: those of the task map. *)
Definition medge (tm : gmap string Task) (a b : string) : Prop :=
  ∃ t, tm !! a = Some t ∧ b ∈ dependencies t.

(** A node is finished when it is visited and off the recursion stack.
    Finished nodes only lead to finished nodes, and none lies on a cycle. *)
Record dfsInv (tm : gmap string Task) (st : DfsState) : Prop := {
  inv_stack : recursionStack st ⊆ visited st;
  inv_closed : ∀ b c, b ∈ visited st → b ∉ recursionStack st → medge tm b c →
                      c ∈ visited st ∧ c ∉ recursionStack st;
  inv_acyclic : ∀ b, b ∈ visited st → b ∉ recursionStack st → ¬ tc (medge tm) b b;
}.

Definition reportsCycle (R : relation string) (e : Exn) : Prop :=
  ∃ p c, e = CircularDependency (p ++ [c]) ∧ tc R c c.

Definition dfsPost (tm : gmap string Task) (st : DfsState) (x : string)
    (r : outcome DfsState) : Prop :=
  match r with
  | Ok st' =>
      recursionStack st' = recursionStack st ∧ visited st ⊆ visited st'
      ∧ x ∈ visited st' ∧ x ∉ recursionStack st' ∧ dfsInv tm st'
  | Throw e => reportsCycle (medge tm) e
  | OutOfFuel => False
  end.

Definition idsOf (ts : list Task) : gset string := list_to_set (id <$> ts).

(** Every dependency of a remaining task is completed or is itself a
    remaining task. *)
Definition closedUnder (C : gset string) (remaining : list Task) : Prop :=
  ∀ t d, t ∈ remaining → d ∈ dependencies t →
         d ∈ C ∨ ∃ u, u ∈ remaining ∧ id u = d.

(** The waves built on top of the completed set [C]: the tasks of a wave
    have all their dependencies in [C] or in the waves before it. *)
Fixpoint goodWaves (C : gset string) (waves : list (list Task)) : Prop :=
  match waves with
  | [] => True
  | w :: ws =>
      (∀ t d, t ∈ w → d ∈ dependencies t → d ∈ C) ∧ goodWaves (C ∪ idsOf w) ws
  end.

Definition inGroup (g : Z) (tasks : list Task) : list Task :=
  filter (λ t, parallelGroup t = g) tasks.

Definition groupsFollowDependenciesb (tasks : list Task) : bool :=
  forallb (λ t, forallb (λ u,
     bool_decide (id u ∈ dependencies t → (parallelGroup u ≤ parallelGroup t)%Z))
     tasks) tasks.

End SchedulerInvariants.

(** *** Example inputs *)

Module SchedulerExamples.

Definition task (i : string) (g : Z) (deps : list string) : Task :=
  mkTask i i None pending g deps None None None.

(** Scenario 2 of the specification. *)
Definition fanOut : list Task :=
  [task "A" 1 []; task "B" 1 ["A"]; task "C" 1 ["A"]].

(** Scenario 3 of the specification. *)
Definition twoCycle : list Task := [task "X" 1 ["Y"]; task "Y" 1 ["X"]].

(** A valid DAG whose only edge points to a higher parallel group. *)
Definition backwardGroup : list Task := [task "A" 1 ["B"]; task "B" 2 []].

(** A cycle next to a dependency nobody provides. *)
Definition cycleWithUnknown : list Task :=
  [task "X" 1 ["Y"; "Q"]; task "Y" 1 ["X"]].

Definition danglingDependency : list Task := [task "A" 1 ["Z"]].

End SchedulerExamples.

(** ** Text helpers *)

(** The white space of [\s] and of [String.prototype.trim], for code units
    below 256: tab, line feed, vertical tab, form feed, carriage return,
    space, no-break space. *)
Definition isSpace (c : ascii) : bool :=
  let n := nat_of_ascii c in
  bool_decide (9 ≤ n ≤ 13) || bool_decide (n = 32) || bool_decide (n = 160).

Definition isDigit (c : ascii) : bool :=
  bool_decide (48 ≤ nat_of_ascii c ≤ 57).

Definition toLower (c : ascii) : ascii :=
  let n := nat_of_ascii c in
  if bool_decide (65 ≤ n ≤ 90) then ascii_of_nat (n + 32) else c.

Definition toUpper (c : ascii) : ascii :=
  let n := nat_of_ascii c in
  if bool_decide (97 ≤ n ≤ 122) then ascii_of_nat (n - 32) else c.

Fixpoint mapString (f : ascii → ascii) (s : string) : string :=
  match s with
  | EmptyString => EmptyString
  | String c s' => String (f c) (mapString f s')
  end.

Definition toLowerCase : string → string := mapString toLower.
Definition toUpperCase : string → string := mapString toUpper.

Fixpoint trimStart (s : string) : string :=
  match s with
  | String c s' => if isSpace c then trimStart s' else s
  | EmptyString => EmptyString
  end.

Fixpoint trimEnd (s : string) : string :=
  match s with
  | EmptyString => EmptyString
  | String c s' =>
      match trimEnd s' with
      | EmptyString => if isSpace c then EmptyString else String c EmptyString
      | rest => String c rest
      end
  end.

Definition trim (s : string) : string := trimEnd (trimStart s).

(** ** Effects *)

(** The executor talks to a database, a console, a clock and child
    processes.  The world it changes is the database and the console; what
    it reads from outside is an [Env], indexed by a tick that every
    interaction with the outside advances, so that a collaborator may answer
    differently each time it is asked.  Of the console the model keeps the
    lines that report a decision (warnings, retries, notices), without their
    colour codes; the spinner and the progress banners are left out. *)

Module ExecutionResult.
(** ExecutionResultSchema *)
Record t := mk {
  success : bool;
  output : string;
  exitCode : Z;
  duration : Z;
  completed : bool;
  error : option string;
}.
End ExecutionResult.

Module Checkpoint.
(** CheckpointSchema *)
Record t := mk {
  timestamp : string;
  taskId : string;
  status : TaskStatus;
  prLink : option string;
  duration : option Z;
  error : option string;
}.
End Checkpoint.

Module TaskError.
(** TaskErrorSchema *)
Record t := mk {
  iterations : nat;
  lastError : string;
  retried : bool;
  resolved : bool;
}.
End TaskError.

Module Session.
(** SessionSchema *)
Record t := mk {
  id : string;
  project : string;
  phase : string;
  startedAt : string;
  lastCheckpointAt : option string;
  currentTask : option string;
  completedTasks : list string;
  failedTasks : list string;
  pendingTasks : list string;
  worktrees : gmap string string;
  branches : gmap string string;
  prs : gmap string string;
  checkpoints : list Checkpoint.t;
  errors : gmap string TaskError.t;
}.

(** The assignments the code makes to a session object. *)
Definition setLastCheckpointAt (v : option string) (s : t) : t :=
  mk (id s) (project s) (phase s) (startedAt s) v (currentTask s)
     (completedTasks s) (failedTasks s) (pendingTasks s)
     (worktrees s) (branches s) (prs s) (checkpoints s) (errors s).
Definition setCurrentTask (v : option string) (s : t) : t :=
  mk (id s) (project s) (phase s) (startedAt s) (lastCheckpointAt s) v
     (completedTasks s) (failedTasks s) (pendingTasks s)
     (worktrees s) (branches s) (prs s) (checkpoints s) (errors s).
Definition setCompletedTasks (v : list string) (s : t) : t :=
  mk (id s) (project s) (phase s) (startedAt s) (lastCheckpointAt s)
     (currentTask s) v (failedTasks s) (pendingTasks s)
     (worktrees s) (branches s) (prs s) (checkpoints s) (errors s).
Definition setFailedTasks (v : list string) (s : t) : t :=
  mk (id s) (project s) (phase s) (startedAt s) (lastCheckpointAt s)
     (currentTask s) (completedTasks s) v (pendingTasks s)
     (worktrees s) (branches s) (prs s) (checkpoints s) (errors s).
Definition setPendingTasks (v : list string) (s : t) : t :=
  mk (id s) (project s) (phase s) (startedAt s) (lastCheckpointAt s)
     (currentTask s) (completedTasks s) (failedTasks s) v
     (worktrees s) (branches s) (prs s) (checkpoints s) (errors s).
Definition setWorktrees (v : gmap string string) (s : t) : t :=
  mk (id s) (project s) (phase s) (startedAt s) (lastCheckpointAt s)
     (currentTask s) (completedTasks s) (failedTasks s) (pendingTasks s)
     v (branches s) (prs s) (checkpoints s) (errors s).
Definition setBranches (v : gmap string string) (s : t) : t :=
  mk (id s) (project s) (phase s) (startedAt s) (lastCheckpointAt s)
     (currentTask s) (completedTasks s) (failedTasks s) (pendingTasks s)
     (worktrees s) v (prs s) (checkpoints s) (errors s).
Definition setPrs (v : gmap string string) (s : t) : t :=
  mk (id s) (project s) (phase s) (startedAt s) (lastCheckpointAt s)
     (currentTask s) (completedTasks s) (failedTasks s) (pendingTasks s)
     (worktrees s) (branches s) v (checkpoints s) (errors s).
Definition setErrors (v : gmap string TaskError.t) (s : t) : t :=
  mk (id s) (project s) (phase s) (startedAt s) (lastCheckpointAt s)
     (currentTask s) (completedTasks s) (failedTasks s) (pendingTasks s)
     (worktrees s) (branches s) (prs s) (checkpoints s) v.
End Session.

(** A child process: what it was asked and how it ended. *)
Record SpawnRequest := mkSpawn {
  command : string;
  args : list string;
  cwd : string;
  envVars : list (string * string);
}.

Inductive ProcessOutcome :=
  | Closed (code : option Z) (stdout stderr : string)
      (* the 'close' event; the code is null when a signal ended it *)
  | SpawnFailed (message : string).
      (* the 'error' event *)

(** The rows of the two tables.  A JSON column holds the value it encodes;
    the primary key of a session row is its key in the [sessions] map and
    the rowid of a checkpoint row is its position. *)
Record SessionRow := mkSessionRow {
  row_project : string;
  row_phase : string;
  started_at : string;
  last_checkpoint_at : option string;
  current_task : option string;
  completed_tasks : list string;
  failed_tasks : list string;
  pending_tasks : list string;
  row_worktrees : gmap string string;
  row_branches : gmap string string;
  row_prs : gmap string string;
  row_errors : gmap string TaskError.t;
}.

Record CheckpointRow := mkCheckpointRow {
  session_id : string;
  cp_timestamp : string;
  task_id : string;
  cp_status : TaskStatus;
  pr_link : option string;
  cp_duration : option Z;
  cp_error : option string;
}.

Record Database := mkDatabase {
  sessions : gmap string SessionRow;
  checkpointRows : list CheckpointRow;
}.

Record Env := mkEnv {
  (* new Date().toISOString() *)
  now : nat → string;
  (* crypto.randomUUID() *)
  randomUUID : nat → string;
  (* whether the write statement issued at this tick fails *)
  sqlFails : nat → bool;
  (* the string formats the schema library checks: z.string().uuid(),
     .datetime() and .url() *)
  isUuid : string → bool;
  isDatetime : string → bool;
  isUrl : string → bool;
  (* child_process.spawn *)
  spawn : nat → SpawnRequest → ProcessOutcome;
  (* WorktreeManager *)
  createWorktree : nat → string → string → outcome (string * string);
  removeWorktree : nat → string → outcome unit;
  hasUncommittedChanges : nat → string → outcome bool;
  commitChanges : nat → string → string → outcome string;
  pushBranch : nat → string → outcome unit;
  (* PromptBuilder.build *)
  buildPrompt : nat → Task → outcome string;
  (* Engine.execute of the default engine, on a prompt and a working
     directory, and EngineRegistry.getEngineInfo(...).available *)
  engineExecute : nat → string → string → outcome ExecutionResult.t;
  engineAvailable : nat → bool;
}.

Record World := mkWorld {
  db : Database;
  console : list string;
  tick : nat;
}.

Definition Eff (A : Type) : Type := World → outcome A * World.

#[global] Instance eff_ret : MRet Eff := λ A a w, (Ok a, w).
#[global] Instance eff_bind : MBind Eff := λ A B f m w,
  match m w with
  | (Ok a, w') => f a w'
  | (Throw e, w') => (Throw e, w')
  | (OutOfFuel, w') => (OutOfFuel, w')
  end.

Definition throw {A} (e : Exn) : Eff A := λ w, (Throw e, w).

Definition lift {A} (r : outcome A) : Eff A := λ w, (r, w).

(** try { body } catch (e) { handler(e) } *)
Definition tryCatch {A} (body : Eff A) (handler : Exn → Eff A) : Eff A := λ w,
  match body w with
  | (Throw e, w') => handler e w'
  | r => r
  end.

(** try { body } finally { cleanup }: the cleanup runs on every exit, and an
    exception out of it replaces the outcome of the body.  The cleanup may
    read a flag the body has set; it is given the outcome of the body to
    compute it from. *)
Definition tryFinally {A} (body : Eff A) (cleanup : outcome A → Eff unit)
    : Eff A := λ w,
  let '(r, w') := body w in
  match cleanup r w' with
  | (Ok _, w'') => (r, w'')
  | (Throw e, w'') => (Throw e, w'')
  | (OutOfFuel, w'') => (OutOfFuel, w'')
  end.

Definition ranToEnd {A} (r : outcome A) : bool :=
  match r with
  | Ok _ => true
  | _ => false
  end.

(** One interaction with the outside: read the tick and advance it. *)
Definition nextTick : Eff nat := λ w,
  (Ok (tick w), mkWorld (db w) (console w) (S (tick w))).

Definition ask {A} (oracle : nat → A) : Eff A := k ← nextTick; mret (oracle k).

Definition askOutcome {A} (oracle : nat → outcome A) : Eff A :=
  k ← nextTick; lift (oracle k).

(** console.log / console.warn *)
Definition log (line : string) : Eff unit := λ w,
  (Ok (), mkWorld (db w) (console w ++ [line]) (tick w)).

(** [for (const a of l) await body(a)] *)
Fixpoint forEachEff {A} (body : A → Eff unit) (l : list A) : Eff unit :=
  match l with
  | [] => mret ()
  | a :: l' => body a;; forEachEff body l'
  end.

Definition readDb : Eff Database := λ w, (Ok (db w), w).

Definition writeDb (d : Database) : Eff unit := λ w,
  (Ok (), mkWorld d (console w) (tick w)).

(** JS truthiness of an optional string and of an optional number, as in
    [x || null]. *)
Definition truthyString (x : option string) : option string :=
  match x with
  | Some s => if decide (s = "") then None else Some s
  | None => None
  end.

Definition truthyNumber (x : option Z) : option Z :=
  match x with
  | Some n => if decide (n = 0%Z) then None else Some n
  | None => None
  end.

(** error instanceof Error ? error.message : String(error).  The texts of
    the schema and database errors come from libraries; only their kind is
    kept. *)
Definition message (e : Exn) : string :=
  match e with
  | UnknownDependency task dep =>
      "Task " +:+ task +:+ " depends on unknown task " +:+ dep
  | CircularDependency cycle =>
      "Circular dependency detected: " +:+ String.concat " -> " cycle
  | UnschedulableTasks remaining =>
      "Could not schedule tasks: " +:+ String.concat ", " remaining +:+ ". "
      +:+ "Check for circular dependencies or missing dependency tasks."
  | SessionNotFound sessionId => "Session " +:+ sessionId +:+ " not found"
  | SchemaError => "ZodError"
  | SqlError => "SQLiteError"
  | HookFailed hook output => hook +:+ " hook failed: " +:+ output
  | ExecutionFailed m => m
  | CommandFailed name code =>
      name +:+ " failed with exit code "
      +:+ match code with Some c => pretty c | None => "null" end
  | CommandNotRun name m => "Failed to run " +:+ name +:+ ": " +:+ m
  | ProcessExit code => "exit " +:+ pretty code
  | External m => m
  end.

(** ** Session store (core/session-manager.ts) *)

Module SessionManager.

(** *** Statements *)

Inductive Stmt :=
  | InsertSession (id project phase started_at : string) (tasks : list string)
  | UpdateSession (session : Session.t)
  | InsertCheckpoint (row : CheckpointRow)
  | DeleteCheckpoints (sessionId : string)
  | DeleteSession (sessionId : string).

(** The effect of a statement that succeeds.  [None] is a constraint
    violation (a second row with the same primary key). *)
Definition applyStmt (st : Stmt) (d : Database) : option Database :=
  match st with
  | InsertSession id project phase started tasks =>
      match sessions d !! id with
      | Some _ => None
      | None =>
          Some (mkDatabase
                  (<[id := mkSessionRow project phase started None None [] []
                             tasks ∅ ∅ ∅ ∅]> (sessions d))
                  (checkpointRows d))
      end
  | UpdateSession s =>
      Some (mkDatabase
              (alter (λ row,
                 mkSessionRow (row_project row) (row_phase row) (started_at row)
                   (truthyString (Session.lastCheckpointAt s))
                   (Session.currentTask s)
                   (Session.completedTasks s) (Session.failedTasks s)
                   (Session.pendingTasks s)
                   (Session.worktrees s) (Session.branches s) (Session.prs s)
                   (Session.errors s))
                 (Session.id s) (sessions d))
              (checkpointRows d))
  | InsertCheckpoint row =>
      Some (mkDatabase (sessions d) (checkpointRows d ++ [row]))
  | DeleteCheckpoints sessionId =>
      Some (mkDatabase (sessions d)
              (filter (λ row, session_id row ≠ sessionId) (checkpointRows d)))
  | DeleteSession sessionId =>
      Some (mkDatabase (delete sessionId (sessions d)) (checkpointRows d))
  end.

Section WithEnv.
Context (E : Env).

(** stmt.run(...): one write statement, committed on its own unless a
    transaction is open around it. *)
Definition run (st : Stmt) : Eff unit :=
  k ← nextTick;
  if sqlFails E k then throw SqlError
  else
    d ← readDb;
    match applyStmt st d with
    | Some d' => writeDb d'
    | None => throw SqlError
    end.

(** db.transaction(fn)(): an exception out of [fn] rolls the database back
    to where it was and is thrown on. *)
Definition transaction {A} (fn : Eff A) : Eff A := λ w,
  match fn w with
  | (Throw e, w') => (Throw e, mkWorld (db w) (console w') (tick w'))
  | r => r
  end.

(** *** Schemas *)

(** /^p\d{2}$/i *)
Definition phaseOk (phase : string) : bool :=
  match phase with
  | String p (String d1 (String d2 EmptyString)) =>
      (bool_decide (p = "p"%char) || bool_decide (p = "P"%char))
      && isDigit d1 && isDigit d2
  | _ => false
  end.

Definition optionOk (check : string → bool) (x : option string) : bool :=
  match x with
  | Some s => check s
  | None => true
  end.

Definition checkpointOk (c : Checkpoint.t) : bool :=
  isDatetime E (Checkpoint.timestamp c) && optionOk (isUrl E) (Checkpoint.prLink c).

Definition taskErrorOk (e : TaskError.t) : bool :=
  bool_decide (1 ≤ TaskError.iterations e).

Definition sessionOk (s : Session.t) : bool :=
  isUuid E (Session.id s)
  && bool_decide (Session.project s ≠ "")
  && phaseOk (Session.phase s)
  && isDatetime E (Session.startedAt s)
  && optionOk (isDatetime E) (Session.lastCheckpointAt s)
  && forallb checkpointOk (Session.checkpoints s)
  && bool_decide (map_Forall (λ _ e, taskErrorOk e = true) (Session.errors s)).

(** CheckpointSchema.parse / SessionSchema.parse on typed values *)
Definition parseCheckpoint (c : Checkpoint.t) : outcome Checkpoint.t :=
  if checkpointOk c then Ok c else Throw SchemaError.

Definition parseSession (s : Session.t) : outcome Session.t :=
  if sessionOk s then Ok s else Throw SchemaError.

(** *** Reading *)

(** SELECT * FROM checkpoints WHERE session_id = ? ORDER BY timestamp ASC *)
Definition timestampLe (a b : CheckpointRow) : Prop :=
  String.leb (cp_timestamp a) (cp_timestamp b) = true.

#[global] Instance timestampLe_dec : RelDecision timestampLe.
Proof. intros a b. unfold timestampLe. apply _. Defined.

Definition selectCheckpoints (d : Database) (sessionId : string)
    : list CheckpointRow :=
  merge_sort timestampLe
    (filter (λ row, session_id row = sessionId) (checkpointRows d)).

(** The object literal handed to CheckpointSchema.parse. *)
Definition toCheckpoint (cp : CheckpointRow) : Checkpoint.t :=
  Checkpoint.mk (cp_timestamp cp) (task_id cp) (cp_status cp)
    (truthyString (pr_link cp)) (truthyNumber (cp_duration cp))
    (truthyString (cp_error cp)).

Definition rowToSession (d : Database) (id : string) (row : SessionRow)
    : outcome Session.t :=
  checkpoints ← mapM (λ cp, parseCheckpoint (toCheckpoint cp))
                     (selectCheckpoints d id);
  parseSession
    (Session.mk id (row_project row) (row_phase row) (started_at row)
       (truthyString (last_checkpoint_at row)) (current_task row)
       (completed_tasks row) (failed_tasks row) (pending_tasks row)
       (row_worktrees row) (row_branches row) (row_prs row)
       checkpoints (row_errors row)).

Definition getSession (sessionId : string) : Eff (option Session.t) :=
  d ← readDb;
  match sessions d !! sessionId with
  | None => mret None
  | Some row => s ← lift (rowToSession d sessionId row); mret (Some s)
  end.

(** const session = this.getSession(sessionId);
    if (!session) throw new Error(`Session ${sessionId} not found`) *)
Definition requireSession (sessionId : string) : Eff Session.t :=
  session ← getSession sessionId;
  match session with
  | Some s => mret s
  | None => throw (SessionNotFound sessionId)
  end.

(** *** Writing *)

Definition createSession (project phase : string) (tasks : list string)
    : Eff Session.t :=
  id ← ask (randomUUID E);
  now ← ask (now E);
  run (InsertSession id project phase now tasks);;
  mret (Session.mk id project phase now None None [] [] tasks ∅ ∅ ∅ [] ∅).

Definition updateSession (session : Session.t) : Eff unit :=
  run (UpdateSession session).

Definition startTask (sessionId taskId : string) : Eff unit :=
  session ← requireSession sessionId;
  let session := Session.setCurrentTask (Some taskId) session in
  let session := Session.setPendingTasks
      (filter (λ t, t ≠ taskId) (Session.pendingTasks session)) session in
  updateSession session.

Record CheckpointOptions := mkOptions {
  opt_prLink : option string;
  opt_duration : option Z;
  opt_error : option string;
}.

Definition saveCheckpoint (sessionId taskId : string) (status : TaskStatus)
    (options : CheckpointOptions) : Eff unit :=
  session ← requireSession sessionId;
  now ← ask (now E);
  run (InsertCheckpoint
         (mkCheckpointRow sessionId now taskId status
            (truthyString (opt_prLink options))
            (truthyNumber (opt_duration options))
            (truthyString (opt_error options))));;
  let session := Session.setLastCheckpointAt (Some now) session in
  let session := Session.setCurrentTask None session in
  let session :=
    if decide (status = completed) then
      Session.setCompletedTasks (Session.completedTasks session ++ [taskId]) session
    else if decide (status = failed) then
      Session.setFailedTasks (Session.failedTasks session ++ [taskId]) session
    else session in
  updateSession session.

(** [session.errors[taskId]] is read as a lookup among the entries of the
    table.  The members a plain object inherits from Object.prototype
    (constructor, toString, ...) are not entries of the model; the ids of the
    loader, which start with T and two digits, are none of them. *)
Definition recordError (sessionId taskId error : string) : Eff unit :=
  session ← requireSession sessionId;
  let entry :=
    match Session.errors session !! taskId with
    | Some existing =>
        TaskError.mk (TaskError.iterations existing + 1) error true false
    | None => TaskError.mk 1 error false false
    end in
  updateSession (Session.setErrors (<[taskId := entry]> (Session.errors session)) session).

Definition resolveError (sessionId taskId : string) : Eff unit :=
  session ← requireSession sessionId;
  match Session.errors session !! taskId with
  | Some e =>
      let e' := TaskError.mk (TaskError.iterations e) (TaskError.lastError e)
                             (TaskError.retried e) true in
      updateSession (Session.setErrors (<[taskId := e']> (Session.errors session)) session)
  | None => mret ()
  end.

Definition registerWorktree (sessionId taskId worktreePath : string) : Eff unit :=
  session ← requireSession sessionId;
  updateSession
    (Session.setWorktrees (<[taskId := worktreePath]> (Session.worktrees session)) session).

Definition registerBranch (sessionId taskId branchName : string) : Eff unit :=
  session ← requireSession sessionId;
  updateSession
    (Session.setBranches (<[taskId := branchName]> (Session.branches session)) session).

Definition registerPR (sessionId taskId prUrl : string) : Eff unit :=
  session ← requireSession sessionId;
  updateSession (Session.setPrs (<[taskId := prUrl]> (Session.prs session)) session).

Definition deleteSession (sessionId : string) : Eff unit :=
  transaction (run (DeleteCheckpoints sessionId);; run (DeleteSession sessionId)).

End WithEnv.

End SessionManager.

(** ** Hook runner (core/hooks-executor.ts) *)

Module HooksExecutor.

(** HooksConfigSchema *)
Record HooksConfig := mkHooks {
  beforePhaseCmd : option string;
  beforeTaskCmd : option string;
  afterTaskCmd : option string;
  onSuccessCmd : option string;
  onErrorCmd : option string;
}.

(** keyof HooksConfig *)
Inductive HookName := BeforePhase | BeforeTask | AfterTask | OnSuccess | OnError.

Definition hookLabel (h : HookName) : string :=
  match h with
  | BeforePhase => "beforePhase"
  | BeforeTask => "beforeTask"
  | AfterTask => "afterTask"
  | OnSuccess => "onSuccess"
  | OnError => "onError"
  end.

(** this.hooks?.[hookName] *)
Definition lookupHook (hooks : option HooksConfig) (h : HookName) : option string :=
  match hooks with
  | None => None
  | Some c =>
      match h with
      | BeforePhase => beforePhaseCmd c
      | BeforeTask => beforeTaskCmd c
      | AfterTask => afterTaskCmd c
      | OnSuccess => onSuccessCmd c
      | OnError => onErrorCmd c
      end
  end.

Inductive HookStatus := StatusSuccess | StatusError.

Record HookContext := mkContext {
  ctx_project : string;
  ctx_phase : option string;
  ctx_taskId : option string;
  ctx_taskName : option string;
  ctx_status : option HookStatus;
  ctx_error : option string;
  ctx_cwd : string;
}.

Record HookResult := mkResult {
  hookSuccess : bool;
  hookOutput : string;
}.

Section WithEnv.
Context (E : Env) (hooks : option HooksConfig) (cwd : string).

(** The context variables put in the environment of the child. *)
Definition hookEnv (context : HookContext) : list (string * string) :=
  [ ("ATZENTIS_PROJECT", ctx_project context);
    ("ATZENTIS_PHASE", default "" (truthyString (ctx_phase context)));
    ("ATZENTIS_TASK_ID", default "" (truthyString (ctx_taskId context)));
    ("ATZENTIS_TASK_NAME", default "" (truthyString (ctx_taskName context)));
    ("ATZENTIS_STATUS",
       match ctx_status context with
       | Some StatusSuccess => "success"
       | Some StatusError => "error"
       | None => ""
       end);
    ("ATZENTIS_ERROR", default "" (truthyString (ctx_error context))) ].

Definition executeCommand (command : string) (context : HookContext)
    : Eff HookResult :=
  outcome ← ask (λ k, spawn E k (mkSpawn command [] (ctx_cwd context) (hookEnv context)));
  match outcome with
  | Closed code stdout stderr =>
      mret (mkResult (bool_decide (code = Some 0%Z)) (trim (stdout +:+ stderr)))
  | SpawnFailed m => mret (mkResult false m)
  end.

Definition run (hookName : HookName) (context : HookContext) : Eff HookResult :=
  match truthyString (lookupHook hooks hookName) with
  | None => mret (mkResult true "")
  | Some command => executeCommand command context
  end.

Definition beforePhase (project phase : string) : Eff unit :=
  result ← run BeforePhase (mkContext project (Some phase) None None None None cwd);
  if negb (hookSuccess result)
  then throw (HookFailed "beforePhase" (hookOutput result))
  else mret ().

Definition beforeTask (project : string) (task : Task) : Eff unit :=
  result ← run BeforeTask
    (mkContext project (phase task) (Some (id task)) (Some (name task)) None None cwd);
  if negb (hookSuccess result)
  then throw (HookFailed "beforeTask" (hookOutput result))
  else mret ().

Definition afterTask (project : string) (task : Task) (success : bool) : Eff unit :=
  result ← run AfterTask
    (mkContext project (phase task) (Some (id task)) (Some (name task))
       (Some (if success then StatusSuccess else StatusError)) None cwd);
  if negb (hookSuccess result)
  then log ("Warning: afterTask hook failed: " +:+ hookOutput result)
  else mret ().

Definition onSuccess (project : string) (phase : option string) : Eff unit :=
  result ← run OnSuccess
    (mkContext project phase None None (Some StatusSuccess) None cwd);
  if negb (hookSuccess result)
  then log ("Warning: onSuccess hook failed: " +:+ hookOutput result)
  else mret ().

Definition onError (project error : string) (task : option Task) : Eff unit :=
  result ← run OnError
    (mkContext project (task ≫= phase) (id <$> task) (name <$> task)
       (Some StatusError) (Some error) cwd);
  if negb (hookSuccess result)
  then log ("Warning: onError hook failed: " +:+ hookOutput result)
  else mret ().

End WithEnv.

End HooksExecutor.

(** ** Task loader (core/task-loader.ts) *)

Module TaskLoader.

(** PhaseTaskEntrySchema.  [estimate] is a number of hours; whole hours are
    modelled, whose rendering in a template literal is their decimal
    numeral. *)
Inductive MetaStatus :=
  | meta_not_started | meta_in_progress | meta_completed | meta_failed | meta_blocked.

Record PhaseTaskEntry := mkEntry {
  entry_id : string;
  entry_name : string;
  entry_title : string;
  entry_estimate : Z;
  entry_priority : Priority;
  entry_status : MetaStatus;
  entry_dependencies : list string;
}.

(** PhaseMetaSchema: the loader reads [tasks] only. *)
Record PhaseMeta := mkMeta {
  meta_tasks : list PhaseTaskEntry;
}.

(** What the loader finds on disk.  [descriptor] is what
    [loadTaskFromDir] makes of the directory (the parsed task.yaml, else the
    parsed front matter of tasks.md, else the minimal record); the id of the
    loaded task is the one the caller passes. *)
Record TaskEntry := mkTaskEntry {
  entryName : string;
  entryIsDirectory : bool;
  descriptor : Task;
}.

Inductive MetaFile :=
  | MetaAbsent
  | MetaMalformed
      (* JSON.parse or PhaseMetaSchema.parse throws *)
  | MetaValid (m : PhaseMeta).

Record PhaseFolder := mkFolder {
  folderName : string;
  folderIsDirectory : bool;
  metaFile : MetaFile;
  folderEntries : list TaskEntry;
}.

Record Specs := mkSpecs {
  specsDirExists : bool;
  specEntries : list PhaseFolder;
}.

Record LoadTasksOptions := mkLoadOptions {
  opt_phase : option string;
  opt_taskIds : option (list string);
}.

Definition withId (taskId : string) (t : Task) : Task :=
  mkTask taskId (name t) (description t) (status t) (parallelGroup t)
         (dependencies t) (estimate t) (priority t) (phase t).

Definition loadTaskFromDir (dir : TaskEntry) (taskId : string) : option Task :=
  Some (withId taskId (descriptor dir)).

(** entry.match(/^(P\d{2})-/i): the first group. *)
Definition matchPhaseFolder (entry : string) : option string :=
  match entry with
  | String p (String d1 (String d2 (String "-" _))) =>
      if (bool_decide (p = "P"%char) || bool_decide (p = "p"%char))
         && isDigit d1 && isDigit d2
      then Some (String p (String d1 (String d2 EmptyString)))
      else None
  | _ => None
  end.

(** entry.match(/^(T\d{2}-\d{3})/): the first group. *)
Definition matchTaskDir (entry : string) : option string :=
  match entry with
  | String "T" (String d1 (String d2 (String "-"
      (String d3 (String d4 (String d5 _)))))) =>
      if isDigit d1 && isDigit d2 && isDigit d3 && isDigit d4 && isDigit d5
      then Some (String.substring 0 7 entry)
      else None
  | _ => None
  end.

(** taskId.match(/^T(\d{2})/): the first group. *)
Definition matchTaskPhase (taskId : string) : option string :=
  match taskId with
  | String "T" (String d1 (String d2 _)) =>
      if isDigit d1 && isDigit d2
      then Some (String d1 (String d2 EmptyString))
      else None
  | _ => None
  end.

(** specEntries.find(...) *)
Definition findPhaseFolder (specEntries : list PhaseFolder) (phasePrefix : string)
    : option PhaseFolder :=
  List.find (λ entry,
    match matchPhaseFolder (folderName entry) with
    | Some g => bool_decide (toUpperCase g = phasePrefix)
    | None => false
    end) specEntries.

Definition loadTask (specs : Specs) (taskId : string) : option Task :=
  match matchTaskPhase taskId with
  | None => None
  | Some digits =>
      let phasePrefix := "P" +:+ digits in
      if negb (specsDirExists specs) then None
      else
        match findPhaseFolder (specEntries specs) phasePrefix with
        | None => None
        | Some folder =>
            if negb (folderIsDirectory folder) then None
            else
              match List.find (λ entry,
                      String.prefix taskId (entryName entry)
                      && entryIsDirectory entry) (folderEntries folder) with
              | Some dir => loadTaskFromDir dir taskId
              | None => None
              end
        end
  end.

(** new Map, filled by metaTaskMap.set(taskEntry.id, taskEntry) *)
Definition metaTaskMapOf (m : option PhaseMeta) : gmap string PhaseTaskEntry :=
  match m with
  | Some m => foldl (λ acc e, <[entry_id e := e]> acc) ∅ (meta_tasks m)
  | None => ∅
  end.

(** The merge of a metadata entry into a loaded task. *)
Definition overlay (metaTask : PhaseTaskEntry) (task : Task) : Task :=
  mkTask (id task) (name task) (description task)
    match entry_status metaTask with
    | meta_not_started => status task
    | meta_in_progress => in_progress
    | meta_completed => completed
    | meta_failed => failed
    | meta_blocked => blocked
    end
    (parallelGroup task)
    (entry_dependencies metaTask)
    (Some (pretty (entry_estimate metaTask) +:+ "h"))
    (Some (entry_priority metaTask))
    (phase task).

Definition idLe (a b : Task) : Prop := String.leb (id a) (id b) = true.

#[global] Instance idLe_dec : RelDecision idLe.
Proof. intros a b. unfold idLe. apply _. Defined.

(** The tail of [loadTasks]: all tasks of the phase. *)
Definition loadPhase (specs : Specs) (phase : string) : list Task :=
  let phasePrefix := toUpperCase phase in
  if negb (specsDirExists specs) then []
  else
    match findPhaseFolder (specEntries specs) phasePrefix with
    | None => []
    | Some folder =>
        if negb (folderIsDirectory folder) then []
        else
          let phaseMeta :=
            match metaFile folder with
            | MetaValid m => Some m
            | _ => None
            end in
          let metaTaskMap := metaTaskMapOf phaseMeta in
          let tasks :=
            omap (λ entry,
              match matchTaskDir (entryName entry) with
              | Some taskId =>
                  if entryIsDirectory entry then
                    task ← loadTaskFromDir entry taskId;
                    match metaTaskMap !! id task with
                    | Some metaTask => Some (overlay metaTask task)
                    | None => Some task
                    end
                  else None
              | None => None
              end) (folderEntries folder) in
          (* tasks.sort((a, b) => a.id.localeCompare(b.id)); the ids are
             all of the shape T\d{2}-\d{3}, on which the locale order is
             the order of the code units *)
          merge_sort idLe tasks
    end.

Definition loadTasks (specs : Specs) (options : LoadTasksOptions) : list Task :=
  match opt_taskIds options with
  | Some (taskId :: taskIds) => omap (loadTask specs) (taskId :: taskIds)
  | _ => loadPhase specs (default "p00" (truthyString (opt_phase options)))
  end.

End TaskLoader.

(** ** Executor (commands/run.ts) *)

Definition newline : string := String (ascii_of_nat 10) EmptyString.

(** task.name.toLowerCase().replace(/\s+/g, '-').slice(0, 30) *)
Fixpoint dashSpaces (inRun : bool) (s : string) : string :=
  match s with
  | EmptyString => EmptyString
  | String c s' =>
      if isSpace c then
        if inRun then dashSpaces true s' else String "-" (dashSpaces true s')
      else String c (dashSpaces false s')
  end.

Definition taskSlug (task : Task) : string :=
  String.substring 0 30 (dashSpaces false (toLowerCase (name task))).

Definition commitMessage (task : Task) : string :=
  id task +:+ ": " +:+ name task +:+ newline +:+ newline
  +:+ "Co-Authored-By: Claude Code <noreply@anthropic.com>".

(** CommandsConfigSchema and the part of ProjectConfigSchema the executor
    reads. *)
Record CommandsConfig := mkCommands {
  testCmd : option string;
  lintCmd : option string;
  buildCmd : option string;
}.

Record ProjectConfig := mkProject {
  hooks : option HooksExecutor.HooksConfig;
  commands : option CommandsConfig;
}.

Module TaskExecutor.
Import SessionManager.

Section WithEnv.
Context (E : Env) (projectConfig : option ProjectConfig) (project cwd : string).

Definition maxRetries : nat := 2.

Definition hooksConfig : option HooksExecutor.HooksConfig := projectConfig ≫= hooks.

Definition runShellCommand (command cwd' name : string) : Eff unit :=
  outcome ← ask (λ k, spawn E k (mkSpawn command [] cwd' [("CI", "true")]));
  match outcome with
  | Closed code _ _ =>
      if bool_decide (code = Some 0%Z) then mret ()
      else throw (CommandFailed name code)
  | SpawnFailed m => throw (CommandNotRun name m)
  end.

Definition runValidation (worktreePath : string) : Eff unit :=
  match projectConfig ≫= commands with
  | None => mret ()
  | Some commands =>
      match truthyString (lintCmd commands) with
      | Some lint => runShellCommand lint worktreePath "lint"
      | None => mret ()
      end;;
      match truthyString (testCmd commands) with
      | Some test => runShellCommand test worktreePath "test"
      | None => mret ()
      end
  end.

(** The --body argument is built from fields left out of [Task] and is not
    represented. *)
Definition createPullRequest (task : Task) (worktreePath : string)
    : Eff (option string) :=
  outcome ← ask (λ k, spawn E k
    (mkSpawn "gh" ["pr"; "create"; "--title"; id task +:+ ": " +:+ name task; "--draft"]
             worktreePath []));
  match outcome with
  | Closed code stdout stderr =>
      if bool_decide (code = Some 0%Z) then mret (truthyString (Some (trim stdout)))
      else
        log ("  Warning: Could not create PR: " +:+ trim stderr);;
        mret None
  | SpawnFailed _ =>
      log "  Warning: gh CLI not available, skipping PR creation";;
      mret None
  end.

(** The [try] block of [executeTask]. *)
Definition attemptTask (sessionId : string) (task : Task) (fast : bool) : Eff unit :=
  startTask E sessionId (id task);;
  '(worktreePath, branchName) ←
    askOutcome (λ k, createWorktree E k (id task) (taskSlug task));
  registerWorktree E sessionId (id task) worktreePath;;
  registerBranch E sessionId (id task) branchName;;
  prompt ← askOutcome (λ k, buildPrompt E k task);
  result ← askOutcome (λ k, engineExecute E k prompt worktreePath);
  (if negb (ExecutionResult.success result) || negb (ExecutionResult.completed result)
   then throw (ExecutionFailed
                 (default "Execution failed"
                    (truthyString (ExecutionResult.error result))))
   else mret ());;
  (if negb fast && bool_decide (is_Some (projectConfig ≫= commands))
   then runValidation worktreePath
   else mret ());;
  hasChanges ← askOutcome (λ k, hasUncommittedChanges E k (id task));
  (if hasChanges : bool then
     askOutcome (λ k, commitChanges E k (id task) (commitMessage task));;
     askOutcome (λ k, pushBranch E k (id task));;
     prUrl ← createPullRequest task worktreePath;
     match prUrl with
     | Some url => registerPR E sessionId (id task) url
     | None => mret ()
     end
   else mret ());;
  saveCheckpoint E sessionId (id task) completed
    (mkOptions None (Some (ExecutionResult.duration result)) None).

(** The [catch] block of [executeTask]. *)
Definition recordFailure (sessionId : string) (task : Task) (error : Exn) : Eff unit :=
  let errorMsg := message error in
  recordError E sessionId (id task) errorMsg;;
  saveCheckpoint E sessionId (id task) failed (mkOptions None None (Some errorMsg));;
  throw error.

(** [success] is assigned right after the completed checkpoint and nothing
    that follows it in the [try] block throws, so the [finally] block sees
    [success = true] exactly when the [try] block ran to its end. *)
Definition executeTask (sessionId : string) (task : Task) (fast : bool) : Eff unit :=
  HooksExecutor.beforeTask E hooksConfig cwd project task;;
  tryFinally
    (tryCatch (attemptTask sessionId task fast) (recordFailure sessionId task))
    (λ r, HooksExecutor.afterTask E hooksConfig cwd project task (ranToEnd r)).

(** for (let attempt = 0; attempt <= this.maxRetries; attempt++) { ... };
    throw lastError.  [turns] counts the turns that are left. *)
Fixpoint retryLoop (turns attempt : nat) (lastError : option Exn)
    (sessionId : string) (task : Task) (fast : bool) : Eff unit :=
  match turns with
  | O => throw (default (External "null") lastError)
  | S turns' =>
      tryCatch
        (executeTask sessionId task fast;;
         resolveError E sessionId (id task))
        (λ error,
           (if bool_decide (attempt < maxRetries) then
              log ("  Retry " +:+ pretty (attempt + 1) +:+ "/" +:+ pretty maxRetries
                   +:+ " for " +:+ id task +:+ "...");;
              tryCatch (askOutcome (λ k, removeWorktree E k (id task)))
                       (λ _, mret ())
            else mret ());;
           retryLoop turns' (S attempt) (Some error) sessionId task fast)
  end.

Definition executeTaskWithRetry (sessionId : string) (task : Task) (fast : bool)
    : Eff unit :=
  retryLoop (S maxRetries) 0 None sessionId task fast.

(** [execute] in sequential mode ([options.parallel] false).  A failure is
    thrown on after the onError hook, so the flag [hasErrors] is still false
    whenever the loop ends. *)
Definition execute (sessionId : string) (tasks : list Task) (fast : bool)
    (phase : string) : Eff unit :=
  waves ← lift (Scheduler.buildExecutionWaves tasks);
  HooksExecutor.beforePhase E hooksConfig cwd project phase;;
  forEachEff (λ wave,
    forEachEff (λ task,
      tryCatch (executeTaskWithRetry sessionId task fast)
        (λ error,
           HooksExecutor.onError E hooksConfig cwd project (message error) (Some task);;
           throw error)) wave) waves;;
  HooksExecutor.onSuccess E hooksConfig cwd project (Some phase).

End WithEnv.

End TaskExecutor.

(** ** Resume (commands/resume.ts) *)

Module ResumeExecutor.
Import SessionManager.

Section WithEnv.
Context (E : Env) (projectConfig : option ProjectConfig).

(** The [try] block of [executeTask].  Validation is a comment in this
    executor, and nothing is pushed. *)
Definition attemptTask (sessionId : string) (task : Task) (fast : bool) : Eff unit :=
  startTask E sessionId (id task);;
  '(worktreePath, branchName) ←
    askOutcome (λ k, createWorktree E k (id task) (taskSlug task));
  registerWorktree E sessionId (id task) worktreePath;;
  registerBranch E sessionId (id task) branchName;;
  prompt ← askOutcome (λ k, buildPrompt E k task);
  result ← askOutcome (λ k, engineExecute E k prompt worktreePath);
  (if negb (ExecutionResult.success result) || negb (ExecutionResult.completed result)
   then throw (ExecutionFailed
                 (default "Execution failed"
                    (truthyString (ExecutionResult.error result))))
   else mret ());;
  hasChanges ← askOutcome (λ k, hasUncommittedChanges E k (id task));
  (if hasChanges : bool then
     askOutcome (λ k, commitChanges E k (id task) (commitMessage task));;
     mret ()
   else mret ());;
  saveCheckpoint E sessionId (id task) completed
    (mkOptions None (Some (ExecutionResult.duration result)) None).

Definition executeTask (sessionId : string) (task : Task) (fast : bool) : Eff unit :=
  tryCatch (attemptTask sessionId task fast)
    (λ error,
       let errorMsg := message error in
       recordError E sessionId (id task) errorMsg;;
       saveCheckpoint E sessionId (id task) failed (mkOptions None None (Some errorMsg));;
       throw error).

(** [execute] in sequential mode. *)
Definition execute (sessionId : string) (tasks : list Task) (fast : bool) : Eff unit :=
  waves ← lift (Scheduler.buildExecutionWaves tasks);
  forEachEff (forEachEff (λ task, executeTask sessionId task fast)) waves.




End WithEnv.

End ResumeExecutor.

(** *** What holds of a stored session *)

Module SessionInvariants.
Import SessionManager.

Definition setCheckpoints (v : list Checkpoint.t) (s : Session.t) : Session.t :=
  Session.mk (Session.id s) (Session.project s) (Session.phase s)
    (Session.startedAt s) (Session.lastCheckpointAt s) (Session.currentTask s)
    (Session.completedTasks s) (Session.failedTasks s) (Session.pendingTasks s)
    (Session.worktrees s) (Session.branches s) (Session.prs s) v
    (Session.errors s).

(** The checkpoints and the session object that [rowToSession] builds,
    before validation. *)
Definition checkpointsOf (d : Database) (sessionId : string) : list Checkpoint.t :=
  toCheckpoint <$> selectCheckpoints d sessionId.

Definition sessionOfRow (d : Database) (id : string) (row : SessionRow) : Session.t :=
  Session.mk id (row_project row) (row_phase row) (started_at row)
    (truthyString (last_checkpoint_at row)) (current_task row)
    (completed_tasks row) (failed_tasks row) (pending_tasks row)
    (row_worktrees row) (row_branches row) (row_prs row)
    (checkpointsOf d id) (row_errors row).

(** [stored E d id s]: the session [id] is in the database, reads back as
    [s], and [s] passes the schema. *)
Definition stored (E : Env) (d : Database) (id : string) (s : Session.t) : Prop :=
  ∃ row, sessions d !! id = Some row
         ∧ s = sessionOfRow d id row
         ∧ sessionOk E s = true.

(** The effect of the two statements on the database. *)
Definition afterUpdate (s : Session.t) (d : Database) : Database :=
  default d (applyStmt (UpdateSession s) d).

Definition afterInsert (row : CheckpointRow) (d : Database) : Database :=
  default d (applyStmt (InsertCheckpoint row) d).

(** The session object after [startTask] and after [saveCheckpoint]. *)
Definition started (taskId : string) (s : Session.t) : Session.t :=
  Session.setPendingTasks
    (filter (λ t, t ≠ taskId) (Session.pendingTasks s))
    (Session.setCurrentTask (Some taskId) s).

Definition checkpointed (now taskId : string) (status : TaskStatus)
    (s : Session.t) : Session.t :=
  let s := Session.setCurrentTask None (Session.setLastCheckpointAt (Some now) s) in
  if decide (status = completed) then
    Session.setCompletedTasks (Session.completedTasks s ++ [taskId]) s
  else if decide (status = failed) then
    Session.setFailedTasks (Session.failedTasks s ++ [taskId]) s
  else s.

Definition checkpointRow (sessionId now taskId : string) (status : TaskStatus)
    (options : CheckpointOptions) : CheckpointRow :=
  mkCheckpointRow sessionId now taskId status
    (truthyString (opt_prLink options))
    (truthyNumber (opt_duration options))
    (truthyString (opt_error options)).

(** A database that does not fail and a clock that returns ISO
    timestamps. *)
Record Reliable (E : Env) : Prop := {
  sql_ok : ∀ k, sqlFails E k = false;
  clock_ok : ∀ k, isDatetime E (now E k) = true;
  clock_nonempty : ∀ k, now E k ≠ "";
}.

(** The partition invariant of the specification: every loaded id is in
    exactly one of pending, current, completed, failed. *)
Definition occurrences (taskId : string) (s : Session.t) : nat :=
  length (filter (λ t, t = taskId) (Session.pendingTasks s))
  + length (filter (λ t, t = taskId) (Session.completedTasks s))
  + length (filter (λ t, t = taskId) (Session.failedTasks s))
  + (if decide (Session.currentTask s = Some taskId) then 1 else 0).

Definition partitions (loaded : list string) (s : Session.t) : Prop :=
  ∀ taskId, taskId ∈ loaded → occurrences taskId s = 1.

(** The four fields of the partition invariant. *)
Definition taskState (s : Session.t)
    : option string * list string * list string * list string :=
  (Session.currentTask s, Session.pendingTasks s,
   Session.completedTasks s, Session.failedTasks s).

(** The last checkpoint of the table: task and status. *)
Definition lastCheckpoint (d : Database) : option (string * string * TaskStatus) :=
  (λ row, (session_id row, task_id row, cp_status row)) <$> last (checkpointRows d).

(** What an operation leaves behind: a stored session with the given task
    state, the checkpoint table grown by [rows], the console untouched. *)
Definition leaves (E : Env) (w : World) (id : string)
    (state : option string * list string * list string * list string)
    (rows : list CheckpointRow) (r : outcome unit * World) : Prop :=
  ∃ w' s', r = (Ok (), w') ∧ stored E (db w') id s' ∧ taskState s' = state
           ∧ checkpointRows (db w') = checkpointRows (db w) ++ rows
           ∧ console w' = console w.

End SessionInvariants.

(** *** The policy on hook failures *)

Module HooksSpec.
Import HooksExecutor.

(** A hook fails when its process closes with a code other than 0 or
    cannot be spawned. *)
Definition failure (o : ProcessOutcome) : Prop :=
  match o with
  | Closed code _ _ => code ≠ Some 0%Z
  | SpawnFailed _ => True
  end.

(** The text the runner reports for it. *)
Definition reported (o : ProcessOutcome) : string :=
  match o with
  | Closed _ stdout stderr => trim (stdout +:+ stderr)
  | SpawnFailed m => m
  end.

(** The hook is configured with a non-empty command. *)
Definition configured (hooks : option HooksConfig) (h : HookName)
    (command : string) : Prop :=
  lookupHook hooks h = Some command ∧ command ≠ "".

(** Whatever is started with the command line [cmd] at interaction [k]
    fails; nothing is said of any other process. *)
Definition commandFails (E : Env) (cmd : string) (k : nat) : Prop :=
  ∀ request, command request = cmd → failure (spawn E k request).

(** Hook [h] is configured and its command fails when it is started in [w]. *)
Definition hookFails (E : Env) (hooks : option HooksConfig) (h : HookName)
    (w : World) : Prop :=
  ∃ cmd, configured hooks h cmd ∧ commandFails E cmd (tick w).

(** The configuration in which hook [h] is not set. *)
Definition withoutHook (h : HookName) (config : option HooksConfig)
    : option HooksConfig :=
  (λ c,
     match h with
     | BeforePhase =>
         mkHooks None (beforeTaskCmd c) (afterTaskCmd c) (onSuccessCmd c) (onErrorCmd c)
     | BeforeTask =>
         mkHooks (beforePhaseCmd c) None (afterTaskCmd c) (onSuccessCmd c) (onErrorCmd c)
     | AfterTask =>
         mkHooks (beforePhaseCmd c) (beforeTaskCmd c) None (onSuccessCmd c) (onErrorCmd c)
     | OnSuccess =>
         mkHooks (beforePhaseCmd c) (beforeTaskCmd c) (afterTaskCmd c) None (onErrorCmd c)
     | OnError =>
         mkHooks (beforePhaseCmd c) (beforeTaskCmd c) (afterTaskCmd c) (onSuccessCmd c)
           None
     end) <$> config.

Definition dropHook (h : HookName) (projectConfig : option ProjectConfig)
    : option ProjectConfig :=
  (λ c, mkProject (withoutHook h (hooks c)) (commands c)) <$> projectConfig.

(** Two runs end alike: same outcome, same database. *)
Definition endAlike {A} (r r' : outcome A * World) : Prop :=
  r.1 = r'.1 ∧ db r.2 = db r'.2.

(** The computation returns normally and prints [lines], touching nothing
    else than the tick. *)
Definition onlyWarns (lines : list string) (w : World) (r : outcome unit * World)
    : Prop :=
  ∃ w', r = (Ok (), w') ∧ db w' = db w ∧ console w' = console w ++ lines.

End HooksSpec.

(** *** What is assumed of the collaborators *)

Module ExecutorSpec.

(** Collaborators that do their job: worktree manager, prompt builder and
    child processes never fail. *)
Record Cooperative (E : Env) : Prop := {
  worktree_ok : ∀ k taskId slug, ∃ r, createWorktree E k taskId slug = Ok r;
  prompt_ok : ∀ k task, ∃ prompt, buildPrompt E k task = Ok prompt;
  changes_ok : ∀ k taskId, ∃ b, hasUncommittedChanges E k taskId = Ok b;
  commit_ok : ∀ k taskId m, ∃ c, commitChanges E k taskId m = Ok c;
  push_ok : ∀ k taskId, pushBranch E k taskId = Ok ();
  spawn_ok : ∀ k request, ∃ out err, spawn E k request = Closed (Some 0%Z) out err;
  url_ok : ∀ url, isUrl E url = true;
}.

(** An engine that answers [r] whenever it is asked. *)
Definition engineAnswers (E : Env) (r : ExecutionResult.t) : Prop :=
  ∀ k prompt dir, engineExecute E k prompt dir = Ok r.

(** The test the two executors apply to the result of the engine. *)
Definition accepted (r : ExecutionResult.t) : bool :=
  ExecutionResult.success r && ExecutionResult.completed r.

(** What the executors throw when the test fails. *)
Definition rejection (r : ExecutionResult.t) : Exn :=
  ExecutionFailed (default "Execution failed" (truthyString (ExecutionResult.error r))).

(** What a run of [executeTask] ends in: its outcome, the task state of the
    stored session and the last checkpoint of the table. *)
Definition endsIn (E : Env) (w : World) (sid : string) (out : outcome unit)
    (state : option string * list string * list string * list string)
    (taskId : string) (status : TaskStatus) (r : outcome unit * World) : Prop :=
  ∃ w' s', r = (out, w')
           ∧ SessionInvariants.stored E (db w') sid s'
           ∧ SessionInvariants.taskState s' = state
           ∧ SessionInvariants.lastCheckpoint (db w') = Some (sid, taskId, status).

End ExecutorSpec.

(** *** Example worlds *)

Module StoreExamples.
Import SessionManager.

Definition goodResult : ExecutionResult.t :=
  ExecutionResult.mk true "<promise>COMPLETE</promise>" 0 1200 true None.

(** The completion token was seen, the process exited non-zero. *)
Definition completedButFailed : ExecutionResult.t :=
  ExecutionResult.mk false "<promise>COMPLETE</promise>" 1 1200 true None.

Definition failedResult : ExecutionResult.t :=
  ExecutionResult.mk false "" 1 1200 false (Some "boom").

(** An environment in which everything works and the engine answers as
    [engine] says. *)
Definition envWith (sqlFails : nat → bool)
    (engine : nat → outcome ExecutionResult.t) : Env :=
  mkEnv (λ _, "2026-01-01T00:00:00.000Z")
        (λ _, "3f2c1a9e-0000-4000-8000-000000000001")
        sqlFails
        (λ _, true) (λ _, true) (λ _, true)
        (λ _ _, Closed (Some 0%Z) "" "")
        (λ _ taskId _, Ok ("/tmp/worktrees/" +:+ taskId, "demo/" +:+ taskId))
        (λ _ _, Ok ())
        (λ _ _, Ok true)
        (λ _ _ _, Ok "0a1b2c3")
        (λ _ _, Ok ())
        (λ _ _, Ok "prompt")
        (λ k _ _, engine k)
        (λ _, true).

Definition env0 : Env := envWith (λ _, false) (λ _, Ok goodResult).

Definition emptyWorld : World := mkWorld (mkDatabase ∅ []) [] 0.

Definition sessionId0 : string := "3f2c1a9e-0000-4000-8000-000000000001".

(** After createSession("demo", "p00", [T00-001, T00-002]). *)
Definition world0 : World :=
  snd (createSession env0 "demo" "p00" ["T00-001"; "T00-002"] emptyWorld).

Definition session0 : Session.t :=
  Session.mk sessionId0 "demo" "p00" "2026-01-01T00:00:00.000Z" None None
    [] [] ["T00-001"; "T00-002"] ∅ ∅ ∅ [] ∅.

Definition task1 : Task :=
  mkTask "T00-001" "first task" None pending 1 [] None None None.

Definition envCompletedButFailed : Env :=
  envWith (λ _, false) (λ _, Ok completedButFailed).

(** The engine fails when it is first asked (at tick 8 of a run that starts
    in [world0]) and completes the task from then on. *)
Definition envFlaky : Env :=
  envWith (λ _, false)
          (λ k, if bool_decide (k ≤ 8) then Ok failedResult else Ok goodResult).

(** The process was killed after startTask("T00-001"). *)
Definition worldInterrupted : World :=
  snd (startTask env0 sessionId0 "T00-001" world0).

Definition sessionInterrupted : Session.t :=
  Session.mk sessionId0 "demo" "p00" "2026-01-01T00:00:00.000Z" None
    (Some "T00-001") [] [] ["T00-002"] ∅ ∅ ∅ [] ∅.

(** The sixth interaction fails: in [worldInterrupted], whose tick is 4, it
    is the UPDATE of a saveCheckpoint (clock at 4, INSERT at 5). *)
Definition envUpdateFails : Env :=
  envWith (λ k, bool_decide (k = 6)) (λ _, Ok goodResult).

(** Every hook is configured. *)
Definition allHooks : option HooksExecutor.HooksConfig :=
  Some (HooksExecutor.mkHooks (Some "./before-phase.sh") (Some "./before-task.sh")
          (Some "./after-task.sh") (Some "./on-success.sh") (Some "./on-error.sh")).

End StoreExamples.

(** ** Estimates (core/task-scheduler.ts) *)

Module Estimation.

(** The longest prefix whose characters satisfy [p], and the rest. *)
Fixpoint span (p : ascii → bool) (s : string) : string * string :=
  match s with
  | String c s' =>
      if p c then let '(a, b) := span p s' in (String c a, b)
      else (EmptyString, s)
  | EmptyString => (EmptyString, EmptyString)
  end.

Definition unitWords : list string :=
  ["h"; "d"; "hr"; "hrs"; "hour"; "hours"; "day"; "days"].

(** estimate.match(/^(\d+(?:\.\d+)?)\s*(h|d|hr|hrs|hour|hours|day|days)?$/i).
    The pattern is anchored at both ends and its pieces cannot overlap, so a
    match is found by reading the pieces off from the left.  The result is
    the whole part and the fraction digits of group 1, and group 2. *)
Definition matchEstimate (estimate : string)
    : option (string * string * option string) :=
  let '(whole, rest) := span isDigit estimate in
  if decide (whole = "") then None
  else
    let '(fraction, rest) :=
      match rest with
      | String "." rest' =>
          let '(digits, rest'') := span isDigit rest' in
          if decide (digits = "") then ("", rest) else (digits, rest'')
      | _ => ("", rest)
      end in
    let '(_, rest) := span isSpace rest in
    if decide (rest = "") then Some (whole, fraction, None)
    else if decide (toLowerCase rest ∈ unitWords)
    then Some (whole, fraction, Some rest)
    else None.

(** Number.parseFloat on the text of group 1, as an exact rational (the
    rounding to a double is not modelled). *)
Definition digitValue (c : ascii) : Z := Z.of_nat (nat_of_ascii c) - 48.

Fixpoint digitsValue (acc : Z) (s : string) : Z :=
  match s with
  | EmptyString => acc
  | String c s' => digitsValue (10 * acc + digitValue c) s'
  end.

Definition parseFloat (whole fraction : string) : Q :=
  Qmake (digitsValue 0 (whole +:+ fraction))
        (Z.to_pos (10 ^ Z.of_nat (String.length fraction))).

Definition parseEstimate (estimate : option string) : Q :=
  match truthyString estimate with
  | None => 0
  | Some text =>
      match matchEstimate text with
      | None => 0
      | Some (whole, fraction, unit) =>
          let value := parseFloat whole fraction in
          let unit := toLowerCase (default "h" (truthyString unit)) in
          if String.prefix "d" unit then value * 8 else value
      end
  end.

Record WaveEstimate := mkWaveEstimate {
  wave : nat;
  tasks : list string;
  estimatedHours : Q;
  parallel : bool;
}.

(** The inner loop: waveHours = Math.max(waveHours, hours), from [start]. *)
Definition waveHoursFrom (start : Q) (wave : list Task) : Q :=
  foldl (λ waveHours task, Qmax waveHours (parseEstimate (estimate task)))
        start wave.

Definition waveHours (wave : list Task) : Q := waveHoursFrom 0 wave.

(** The outer loop: totalHours += waveHours, from [start]. *)
Definition totalHoursFrom (start : Q) (waves : list (list Task)) : Q :=
  foldl (λ totalHours wave, totalHours + waveHours wave)%Q start waves.

Definition totalHours (waves : list (list Task)) : Q := totalHoursFrom 0 waves.

(** [calculateEstimatedDuration], up to the rendering of the total as text:
    the total in hours and the breakdown. *)
Definition calculateEstimatedDuration (tasks : list Task)
    : outcome (Q * list WaveEstimate) :=
  waves ← Scheduler.buildExecutionWaves tasks;
  Ok (totalHours waves,
      imap (λ i wave,
              mkWaveEstimate (i + 1) (id <$> wave) (waveHours wave)
                             (bool_decide (1 < length wave)))
           waves).

(** *** The pattern, stated on its own *)

Fixpoint allChars (p : ascii → bool) (s : string) : Prop :=
  match s with
  | EmptyString => True
  | String c s' => p c = true ∧ allChars p s'
  end.

(** A number, an optional fraction, optional white space, an optional hour
    or day unit in any letter case, and nothing else. *)
Definition matchesEstimatePattern (s : string) : Prop :=
  ∃ whole fraction spaces unit,
    s = whole +:+ fraction +:+ spaces +:+ unit
    ∧ whole ≠ "" ∧ allChars isDigit whole
    ∧ (fraction = ""
       ∨ ∃ digits, fraction = "." +:+ digits ∧ digits ≠ "" ∧ allChars isDigit digits)
    ∧ allChars isSpace spaces
    ∧ (unit = "" ∨ toLowerCase unit ∈ unitWords).

(** The estimate is absent or does not match the pattern. *)
Definition unparseable (t : Task) : Prop :=
  match estimate t with
  | None => True
  | Some text => ¬ matchesEstimatePattern text
  end.

End Estimation.

(** *** Example inputs of the loader and of the estimates *)

Module LoaderExamples.
Import TaskLoader.

(** P00-foundation/ with meta.json and two task directories.  The task
    file of T00-002 declares no dependency, "1h" and P2; meta.json says it
    depends on T00-001, takes 3 hours and is P0. *)
Definition specs0 : Specs :=
  mkSpecs true
    [mkFolder "P00-foundation" true
       (MetaValid (mkMeta
          [mkEntry "T00-001" "setup" "Setup" 2 P1 meta_not_started [];
           mkEntry "T00-002" "build" "Build" 3 P0 meta_not_started ["T00-001"]]))
       [mkTaskEntry "T00-001-setup" true
          (mkTask "" "setup" None pending 1 [] None None None);
        mkTaskEntry "T00-002-build" true
          (mkTask "" "build" None pending 1 [] (Some "1h") (Some P2) None);
        mkTaskEntry "meta.json" false
          (mkTask "" "meta.json" None pending 1 [] None None None)]].

Definition vagueTask : Task :=
  mkTask "T00-003" "polish" None pending 1 [] (Some "soon") None None.

End LoaderExamples.

(** ** Scheduler, the remaining methods (core/task-scheduler.ts) *)

Module TopologicalSort.
Import Scheduler.

(** [x || d] on a number that may be undefined. *)
Definition orElse (d : Z) (x : option Z) : Z :=
  match x with
  | Some n => if decide (n = 0%Z) then d else n
  | None => d
  end.

(** The first loop: [inDegree] counts the entries of the dependency list. *)
Definition countDependencies (inDegree : gmap string Z) (task : Task)
    : gmap string Z :=
  let inDegree :=
    if decide (is_Some (inDegree !! id task)) then inDegree
    else <[id task := 0%Z]> inDegree in
  foldl (λ inDegree _dep,
           <[id task := (orElse 0 (inDegree !! id task) + 1)%Z]> inDegree)
        inDegree (dependencies task).

Definition initialDegrees (tasks : list Task) : gmap string Z :=
  foldl countDependencies ∅ tasks.

(** The second loop: the ids whose in-degree is 0, in input order. *)
Definition initialQueue (inDegree : gmap string Z) (tasks : list Task)
    : list string :=
  id <$> filter (λ task, orElse 0 (inDegree !! id task) = 0%Z) tasks.

(** priorityOrder[task.priority || 'P3'] *)
Definition priorityOrder (p : option Priority) : Z :=
  match p with
  | Some P0 => 0
  | Some P1 => 1
  | Some P2 => 2
  | Some P3 | None => 3
  end.

(** The comparator of [queue.sort], on the two tasks it looks up. *)
Definition compareTasks (taskA taskB : Task) : Z :=
  if decide (parallelGroup taskA ≠ parallelGroup taskB)
  then parallelGroup taskA - parallelGroup taskB
  else priorityOrder (priority taskA) - priorityOrder (priority taskB).

(** Array.prototype.sort is stable: an element stays in front of the later
    elements it does not compare greater than. *)
Fixpoint insertSorted {A} (cmp : A → A → Z) (x : A) (l : list A) : list A :=
  match l with
  | [] => [x]
  | y :: l' =>
      if decide (cmp x y ≤ 0)%Z then x :: y :: l' else y :: insertSorted cmp x l'
  end.

Definition stableSort {A} (cmp : A → A → Z) (l : list A) : list A :=
  foldr (insertSorted cmp) [] l.

(** taskMap.get(a)! for every id of the queue.  An id without a task would
    make the comparator, or the caller of the sorted task, read a property
    of undefined. *)
Definition lookupAll (taskMap : gmap string Task) (queue : list string)
    : option (list Task) :=
  mapM (λ a, taskMap !! a) queue.

(** The innermost loop: the in-degree of every task that lists [taskId]
    goes down by one, and the task is queued when it reaches 0. *)
Definition release (taskId : string) (tasks : list Task)
    (inDegree : gmap string Z) (queue : list string)
    : gmap string Z * list string :=
  foldl (λ '(inDegree, queue) otherTask,
           if bool_decide (taskId ∈ dependencies otherTask) then
             let newDegree := (orElse 1 (inDegree !! id otherTask) - 1)%Z in
             (<[id otherTask := newDegree]> inDegree,
              if decide (newDegree = 0%Z) then queue ++ [id otherTask] else queue)
           else (inDegree, queue))
        (inDegree, queue) tasks.

Definition undefinedTask : Exn :=
  External "undefined is not an object".

(** The [while (queue.length > 0)] loop.  Nothing in the code bounds the
    number of its turns; [fuel] does. *)
Fixpoint sortLoop (fuel : nat) (tasks : list Task) (taskMap : gmap string Task)
    (inDegree : gmap string Z) (queue : list string) (result : list Task)
    : outcome (list Task) :=
  match queue with
  | [] => Ok result
  | _ :: _ =>
      match fuel with
      | O => OutOfFuel
      | S fuel' =>
          match lookupAll taskMap queue with
          | None => Throw undefinedTask
          | Some queued =>
              match stableSort compareTasks queued with
              | [] => Ok result
              | task :: sorted =>
                  let '(inDegree, queue) :=
                    release (id task) tasks inDegree (id <$> sorted) in
                  sortLoop fuel' tasks taskMap inDegree queue (result ++ [task])
              end
          end
      end
  end.

Definition incompleteSort : Exn :=
  External "Could not complete topological sort - circular dependency detected".

Definition topologicalSort (fuel : nat) (tasks : list Task) : outcome (list Task) :=
  let taskMap := taskMapOf tasks in
  let inDegree := initialDegrees tasks in
  result ← sortLoop fuel tasks taskMap inDegree (initialQueue inDegree tasks) [];
  if decide (length result ≠ length tasks) then Throw incompleteSort
  else Ok result.

(** Every dependency of a task of the list stands in front of it. *)
Definition dependenciesFirst (result : list Task) : Prop :=
  ∀ i t d, result !! i = Some t → d ∈ dependencies t →
           ∃ j u, j < i ∧ result !! j = Some u ∧ id u = d.

(** What the loop keeps.  [hits done t] counts the processed ids that the
    dependency list of [t] names. *)
Definition hits (done : list string) (t : Task) : nat :=
  length (filter (λ x, x ∈ dependencies t) done).

Record sortInv (tasks : list Task) (inDegree : gmap string Z)
    (queue : list string) (result : list Task) : Prop := {
  inv_nodup : NoDup (queue ++ (id <$> result));
  inv_known : ∀ x, x ∈ queue ++ (id <$> result) → x ∈ id <$> tasks;
  inv_result : ∀ r, r ∈ result → r ∈ tasks;
  inv_degree : ∀ t, t ∈ tasks →
    inDegree !! id t
    = Some (Z.of_nat (length (dependencies t)) - Z.of_nat (hits (id <$> result) t))%Z;
  inv_zero : ∀ t, t ∈ tasks →
    id t ∈ queue ++ (id <$> result)
    ↔ length (dependencies t) = hits (id <$> result) t;
  inv_order : dependenciesFirst result;
}.

End TopologicalSort.

(** *** getReadyTasks and what the waves are compared with *)

Module SchedulerQueries.
Import Scheduler.

(** getReadyTasks *)
Definition getReadyTasks (tasks : list Task) (completed : gset string) : list Task :=
  filter (λ task, status task = pending
                  ∧ forallb (λ dep, bool_decide (dep ∈ completed))
                            (dependencies task) = true) tasks.

(** Higher groups run after lower ones: a task of a lower parallel group
    sits in an earlier wave. *)
Definition groupsInOrder (waves : list (list Task)) : Prop :=
  ∀ i j w1 w2 t u,
    waves !! i = Some w1 → waves !! j = Some w2 → t ∈ w1 → u ∈ w2 →
    (parallelGroup t < parallelGroup u)%Z → i < j.

(** A change to a task that the scheduler cannot see: id, dependencies and
    parallel group stay. *)
Definition keepsGraph (f : Task → Task) : Prop :=
  ∀ t, id (f t) = id t ∧ dependencies (f t) = dependencies t
       ∧ parallelGroup (f t) = parallelGroup t.

Definition mapWaves (f : Task → Task) (r : outcome (list (list Task)))
    : outcome (list (list Task)) :=
  match r with
  | Ok waves => Ok ((λ wave : list Task, f <$> wave) <$> waves)
  | Throw e => Throw e
  | OutOfFuel => OutOfFuel
  end.

Definition withStatus (s : TaskStatus) (t : Task) : Task :=
  mkTask (id t) (name t) (description t) s (parallelGroup t)
         (dependencies t) (estimate t) (priority t) (phase t).

End SchedulerQueries.

(** *** Example inputs of the plan *)

Module PlanExamples.
Import SchedulerExamples.

(** The task of the higher group comes first in the input. *)
Definition lateGroupFirst : list Task := [task "A" 2 []; task "B" 1 []].

Definition estimated (i : string) (deps : list string) (hours : string) : Task :=
  mkTask i i None pending 1 deps (Some hours) None None.

(** Two hours, then a day next to three hours. *)
Definition estimatedFanOut : list Task :=
  [estimated "A" [] "2h"; estimated "B" ["A"] "1d"; estimated "C" ["A"] "3h"].

Definition prioritised (i : string) (g : Z) (p : Priority) (deps : list string)
    : Task :=
  mkTask i i None pending g deps None (Some p) None.

(** Three tasks without dependencies, of two groups and two priorities, and
    a task that waits for one of them. *)
Definition mixedQueue : list Task :=
  [prioritised "A" 2 P0 []; prioritised "B" 1 P2 []; prioritised "C" 1 P0 [];
   prioritised "D" 1 P3 ["B"]].

End PlanExamples.

(** *** The plan shown before a run *)

Module ExecutionPlan.
Import Scheduler Estimation.

(** What [formatHours] puts in its template; the rendering of the numbers
    as text is left out, and so is the rounding of the division. *)
Inductive FormattedHours :=
  | DaysAndHours (days : Z) (remainingHours : Q)
      (* `${days}d ${remainingHours}h` *)
  | Days (days : Z)
      (* `${days}d` *)
  | Hours (hours : Q).
      (* `${hours}h` *)

Definition formatHours (hours : Q) : FormattedHours :=
  if Qlt_le_dec hours 8 then Hours hours
  else
    let days := Qfloor (hours / 8) in
    (* hours % 8, on hours that are not negative *)
    let remainingHours := (hours - 8 * inject_Z days)%Q in
    if Qlt_le_dec 0 remainingHours then DaysAndHours days remainingHours
    else Days days.

Record PlanTask := mkPlanTask {
  planTaskId : string;
  planTaskName : string;
  planTaskEstimate : option string;
  planTaskDependencies : list string;
  planTaskPriority : option Priority;
}.

Record PlanWave := mkPlanWave {
  number : nat;
  planTasks : list PlanTask;
  planParallel : bool;
  planEstimatedHours : Q;
}.

Record t := mkPlan {
  totalTasks : nat;
  totalWaves : nat;
  estimatedDuration : FormattedHours;
  planWaves : list PlanWave;
}.

Definition planTask (t : Task) : PlanTask :=
  mkPlanTask (id t) (name t) (estimate t) (dependencies t) (priority t).

(** estimate.breakdown[i].estimatedHours: reading a property of an entry
    that is not there throws. *)
Definition planWave (breakdown : list WaveEstimate) (i : nat) (wave : list Task)
    : outcome PlanWave :=
  match breakdown !! i with
  | Some entry =>
      Ok (mkPlanWave (i + 1) (planTask <$> wave) (bool_decide (1 < length wave))
                     (estimatedHours entry))
  | None => Throw (External "undefined is not an object")
  end.

Definition generateExecutionPlan (tasks : list Task) : outcome t :=
  waves ← buildExecutionWaves tasks;
  '(total, breakdown) ← calculateEstimatedDuration tasks;
  planned ← mapM (λ '(i, wave), planWave breakdown i wave)
                 (imap (λ i wave, (i, wave)) waves);
  Ok (mkPlan (length tasks) (length waves) (formatHours total) planned).

(** The sum of a list of hours, and the hours of a list of tasks. *)
Definition sumHours (hours : list Q) : Q := foldr Qplus 0%Q hours.

Definition estimates (tasks : list Task) : list Q :=
  (λ t, parseEstimate (estimate t)) <$> tasks.

End ExecutionPlan.

(** ** Session store, the queries (core/session-manager.ts) *)

Module SessionQueries.
Import SessionManager.

(** ORDER BY started_at DESC *)
Definition startedAfter (a b : string * SessionRow) : Prop :=
  String.le (started_at b.2) (started_at a.2).

#[global] Instance startedAfter_dec : RelDecision startedAfter.
Proof. intros a b. unfold startedAfter. apply _. Defined.

(** SELECT * FROM sessions WHERE project = ? ORDER BY started_at DESC.
    The order among rows with the same started_at is the database's
    choice; the model takes what the sort makes of the key order. *)
Definition selectSessions (d : Database) (project : string)
    : list (string * SessionRow) :=
  merge_sort startedAfter
    (filter (λ r, row_project r.2 = project) (map_to_list (sessions d))).

(** pendingTasks.length === 0 && !row.current_task *)
Definition rowCompleted (row : SessionRow) : bool :=
  bool_decide (length (pending_tasks row) = 0)
  && bool_decide (truthyString (current_task row) = None).

Section WithEnv.
Context (E : Env).

Definition getActiveSession (project : string) : Eff (option Session.t) :=
  d ← readDb;
  match selectSessions d project with
  | [] => mret None
  | (id, row) :: _ =>
      if rowCompleted row then mret None
      else s ← lift (rowToSession E d id row); mret (Some s)
  end.

Definition getAllSessions (project : string) : Eff (list Session.t) :=
  d ← readDb;
  lift (mapM (λ r, rowToSession E d r.1 r.2) (selectSessions d project)).

End WithEnv.

(** A session with work left: a pending task, or a task that was started
    and never checkpointed. *)
Definition unfinished (s : Session.t) : Prop :=
  Session.pendingTasks s ≠ [] ∨ is_Some (truthyString (Session.currentTask s)).

End SessionQueries.

(** *** Example worlds of the queries *)

Module QueryExamples.
Import SessionManager StoreExamples.

(** After createSession("demo", "p00", []): a session with nothing to do. *)
Definition worldDone : World :=
  snd (createSession env0 "demo" "p00" [] emptyWorld).

Definition rowDone : SessionRow :=
  mkSessionRow "demo" "p00" "2026-01-01T00:00:00.000Z" None None [] [] [] ∅ ∅ ∅ ∅.

(** Two sessions of the project: the older one stopped with T00-002
    pending, the one started a day later has nothing to do. *)
Definition sessionIdOlder : string := "3f2c1a9e-0000-4000-8000-000000000002".

Definition rowUnfinished : SessionRow :=
  mkSessionRow "demo" "p00" "2026-01-01T00:00:00.000Z" None None
    ["T00-001"] [] ["T00-002"] ∅ ∅ ∅ ∅.

Definition rowLater : SessionRow :=
  mkSessionRow "demo" "p00" "2026-01-02T00:00:00.000Z" None None [] [] [] ∅ ∅ ∅ ∅.

Definition worldTwoSessions : World :=
  mkWorld
    (mkDatabase (<[sessionId0 := rowLater]> {[ sessionIdOlder := rowUnfinished ]}) [])
    [] 0.

End QueryExamples.

(** *** What the store keeps apart *)

Module StoreSpec.
Import SessionManager.

(** The statements an operation on the session [id] issues: each names the
    session in its WHERE clause or in the row it inserts. *)
Definition targets (id : string) (st : Stmt) : Prop :=
  match st with
  | InsertSession _ _ _ _ _ => False
  | UpdateSession s => Session.id s = id
  | InsertCheckpoint row => session_id row = id
  | DeleteCheckpoints sessionId => sessionId = id
  | DeleteSession sessionId => sessionId = id
  end.

(** The rows every session other than [id] is read from are the same in
    the two databases. *)
Definition sameElsewhere (id : string) (d d' : Database) : Prop :=
  ∀ other, other ≠ id →
    sessions d' !! other = sessions d !! other
    ∧ filter (λ row, session_id row = other) (checkpointRows d')
      = filter (λ row, session_id row = other) (checkpointRows d).

(** A computation that leaves the other sessions alone, however it ends. *)
Definition keepsOthers {A} (id : string) (m : Eff A) : Prop :=
  ∀ w, sameElsewhere id (db w) (db (m w).2).

(** The entry of the error table after [count] more failures, the last of
    them [error]. *)
Definition errorAfter (prior : option TaskError.t) (count : nat) (error : string)
    : TaskError.t :=
  TaskError.mk (default 0 (TaskError.iterations <$> prior) + count) error
    (bool_decide (is_Some prior ∨ 2 ≤ count)) false.

End StoreSpec.

(** ** Chunks of a wave (commands/run.ts, commands/resume.ts) *)

Module Chunks.

(** The value of [Number.parseInt(options.maxParallel, 10)]: an integer, or
    NaN when the text does not start with one. *)
Inductive Num := NaN | Int (z : Z).

(** i + size *)
Definition add (a b : Num) : Num :=
  match a, b with
  | Int x, Int y => Int (x + y)
  | _, _ => NaN
  end.

(** i < array.length *)
Definition ltLength (i : Num) (len : nat) : bool :=
  match i with
  | Int z => bool_decide (z < Z.of_nat len)%Z
  | NaN => false
  end.

(** The index [Array.prototype.slice] makes of an argument: NaN counts as
    0, a negative number counts from the end, and the result is clamped to
    the array. *)
Definition relativeIndex (len : nat) (x : Num) : nat :=
  match x with
  | NaN => 0
  | Int z =>
      if bool_decide (z < 0)%Z then Z.to_nat (Z.max (Z.of_nat len + z) 0)
      else Z.to_nat (Z.min z (Z.of_nat len))
  end.

(** array.slice(start, end) *)
Definition slice {A} (array : list A) (start finish : Num) : list A :=
  let k := relativeIndex (length array) start in
  let final := relativeIndex (length array) finish in
  take (final - k) (drop k array).

(** for (let i = 0; i < array.length; i += size)
      chunks.push(array.slice(i, i + size)) *)
Fixpoint chunkLoop {A} (fuel : nat) (array : list A) (size i : Num)
    (chunks : list (list A)) : outcome (list (list A)) :=
  match fuel with
  | O => OutOfFuel
  | S fuel' =>
      if ltLength i (length array)
      then chunkLoop fuel' array size (add i size)
             (chunks ++ [slice array i (add i size)])
      else Ok chunks
  end.

Definition chunkArray {A} (fuel : nat) (array : list A) (size : Num)
    : outcome (list (list A)) :=
  chunkLoop fuel array size (Int 0) [].

(** Every chunk but the last has [size] elements. *)
Definition fullButLast {A} (size : Z) (chunks : list (list A)) : Prop :=
  ∀ i chunk, chunks !! i = Some chunk → S i < length chunks →
             Z.of_nat (length chunk) = size.

End Chunks.

(** ** Work trees and branches (core/worktree-manager.ts) *)

Module WorktreeManager.

(** const slug = taskSlug ? `-${taskSlug}` : '';
    return `${this.project}/${taskId.toLowerCase()}${slug}` *)
Definition getBranchName (project taskId : string) (taskSlug : option string)
    : string :=
  let slug :=
    match truthyString taskSlug with
    | Some s => "-" +:+ s
    | None => ""
    end in
  project +:+ "/" +:+ toLowerCase taskId +:+ slug.

(** The branch [createWorktree] checks out for a task of run.ts, which
    passes the slug of the task name. *)
Definition createdBranch (project : string) (task : Task) : string :=
  getBranchName project (id task) (Some (taskSlug task)).

(** The branch [pushBranch] pushes: [getBranchName(taskId)], no slug. *)
Definition pushedBranch (project : string) (task : Task) : string :=
  getBranchName project (id task) None.

End WorktreeManager.

(** *** Example worlds of resume *)

Module ResumeExamples.
Import StoreExamples.


End ResumeExamples.

(** *** Example worlds of the hooks *)

Module HookExamples.
Import StoreExamples.

(** The process started with the command line [failing] exits 1; every other
    child process (lint, test, gh, the other hooks) exits 0. *)
Definition envHookFails (failing : string) : Env :=
  mkEnv (now env0) (randomUUID env0) (sqlFails env0)
        (isUuid env0) (isDatetime env0) (isUrl env0)
        (λ _ request,
           if bool_decide (command request = failing)
           then Closed (Some 1%Z) "" "hook said no"
           else Closed (Some 0%Z) "" "")
        (createWorktree env0) (removeWorktree env0) (hasUncommittedChanges env0)
        (commitChanges env0) (pushBranch env0) (buildPrompt env0)
        (engineExecute env0) (engineAvailable env0).

(** Every hook is configured, and so are lint and test. *)
Definition hookedProject : option ProjectConfig :=
  Some (mkProject allHooks (Some (mkCommands (Some "npm test") (Some "npm run lint") None))).

(** A run of [executeTask] on [task1] in which only the afterTask hook
    fails: the world after the beforeTask hook, and the world after the
    try/catch block. *)
Definition hookedStart : World :=
  snd (HooksExecutor.beforeTask (envHookFails "./after-task.sh") allHooks "/repo"
         "demo" task1 world0).

Definition hookedEnd : World :=
  snd (tryCatch
         (TaskExecutor.attemptTask (envHookFails "./after-task.sh") hookedProject
            sessionId0 task1 false)
         (TaskExecutor.recordFailure (envHookFails "./after-task.sh") sessionId0
            task1) hookedStart).

End HookExamples.

(** * Part II: properties *)

(** ** Session store *)

Module SessionProofs.
Import SessionManager SessionInvariants.

Lemma bind_ok {A B} (m : Eff A) (f : A → Eff B) w a w' :
  m w = (Ok a, w') → (m ≫= f) w = f a w'.
Proof. intros H. unfold mbind, eff_bind. by rewrite H. Qed.

Lemma bind_throw {A B} (m : Eff A) (f : A → Eff B) w e w' :
  m w = (Throw e, w') → (m ≫= f) w = (Throw e, w').
Proof. intros H. unfold mbind, eff_bind. by rewrite H. Qed.

Lemma ask_eq {A} (oracle : nat → A) w :
  ask oracle w = (Ok (oracle (tick w)), mkWorld (db w) (console w) (S (tick w))).
Proof. done. Qed.

Lemma askOutcome_eq {A} (oracle : nat → outcome A) w :
  askOutcome oracle w = (oracle (tick w), mkWorld (db w) (console w) (S (tick w))).
Proof. done. Qed.

Lemma truthyString_idemp x : truthyString (truthyString x) = truthyString x.
Proof.
  destruct x as [x|]; [|done]. simpl. destruct (decide (x = "")); [done|].
  simpl. by rewrite decide_False.
Qed.

Lemma forallb_Permutation {A} (f : A → bool) l l' :
  l ≡ₚ l' → forallb f l = forallb f l'.
Proof.
  induction 1 as [|x l l' _ IH|x y l|l l' l'' _ IH1 _ IH2]; simpl.
  - done.
  - by rewrite IH.
  - by rewrite !andb_assoc, (andb_comm (f y)).
  - congruence.
Qed.

Section WithEnv.
Context (E : Env).

Lemma mapM_parseCheckpoint (rows : list CheckpointRow) :
  mapM (λ cp, parseCheckpoint E (toCheckpoint cp)) rows
  = if forallb (checkpointOk E) (toCheckpoint <$> rows)
    then Ok (toCheckpoint <$> rows) else Throw SchemaError.
Proof.
  induction rows as [|cp rows IH]; [reflexivity|].
  cbn [mapM]. rewrite IH, fmap_cons. cbn [forallb]. unfold parseCheckpoint.
  destruct (checkpointOk E (toCheckpoint cp)); [|reflexivity].
  by destruct (forallb _ _).
Qed.

Lemma rowToSession_eq d id row :
  rowToSession E d id row
  = if sessionOk E (sessionOfRow d id row)
    then Ok (sessionOfRow d id row) else Throw SchemaError.
Proof.
  unfold rowToSession. rewrite mapM_parseCheckpoint.
  fold (checkpointsOf d id).
  destruct (forallb (checkpointOk E) (checkpointsOf d id)) eqn:Hcps; simpl.
  - done.
  - unfold sessionOk. simpl. rewrite Hcps.
    by rewrite !andb_false_r.
Qed.

Lemma getSession_stored w id s :
  stored E (db w) id s → getSession E id w = (Ok (Some s), w).
Proof.
  intros (row & Hrow & -> & Hok). unfold getSession, readDb, mbind, eff_bind.
  rewrite Hrow. unfold lift. by rewrite rowToSession_eq, Hok.
Qed.

Lemma requireSession_stored w id s :
  stored E (db w) id s → requireSession E id w = (Ok s, w).
Proof.
  intros H. unfold requireSession. by rewrite (bind_ok _ _ _ _ _ (getSession_stored _ _ _ H)).
Qed.

Lemma stored_inv w id s r :
  getSession E id w = (Ok (Some s), r) → stored E (db w) id s.
Proof.
  unfold getSession, readDb, mbind, eff_bind.
  destruct (sessions (db w) !! id) as [row|] eqn:Hrow; [|done].
  unfold lift. rewrite rowToSession_eq.
  destruct (sessionOk E _) eqn:Hok; [|done].
  intros [= <- _]. by exists row.
Qed.

(** One write statement on a reliable database. *)
Lemma run_ok st w d' :
  sqlFails E (tick w) = false → applyStmt st (db w) = Some d' →
  run E st w = (Ok (), mkWorld d' (console w) (S (tick w))).
Proof.
  intros Hsql Happly. unfold run, nextTick, mbind, eff_bind. simpl.
  rewrite Hsql. unfold readDb. simpl. by rewrite Happly.
Qed.

Lemma updateSession_ok s w :
  sqlFails E (tick w) = false →
  updateSession E s w
  = (Ok (), mkWorld (afterUpdate s (db w)) (console w) (S (tick w))).
Proof. intros Hsql. unfold updateSession. by apply run_ok. Qed.

Lemma checkpointsOf_afterUpdate s d id :
  checkpointsOf (afterUpdate s d) id = checkpointsOf d id.
Proof. done. Qed.

Lemma afterUpdate_setCheckpoints cps s d :
  afterUpdate (setCheckpoints cps s) d = afterUpdate s d.
Proof. done. Qed.

(** Writing a session object back leaves it stored, provided it agrees
    with the row on the columns [updateSession] does not write. *)
Lemma stored_afterUpdate_gen d id row s :
  sessions d !! id = Some row →
  Session.id s = id →
  Session.project s = row_project row →
  Session.phase s = row_phase row →
  Session.startedAt s = started_at row →
  Session.checkpoints s = checkpointsOf d id →
  Session.lastCheckpointAt s ≠ Some "" →
  sessionOk E s = true →
  stored E (afterUpdate s d) id s.
Proof.
  intros Hrow Hid Hproj Hphase Hstart Hcps Hne Hok.
  assert (Htruthy : truthyString (Session.lastCheckpointAt s) = Session.lastCheckpointAt s).
  { destruct (Session.lastCheckpointAt s) as [x|]; [|done]. simpl.
    destruct (decide (x = "")); [congruence|done]. }
  unfold afterUpdate. simpl. rewrite Hid.
  match goal with |- stored _ {| sessions := alter ?f _ _ |} _ _ => exists (f row) end.
  split_and!; [|  |done].
  - simpl. by rewrite lookup_alter_eq, Hrow.
  - unfold sessionOfRow. simpl. rewrite !Htruthy.
    change (checkpointsOf _ id) with (checkpointsOf d id).
    destruct s; simpl in *. by subst.
Qed.

Lemma sessionOk_intro s0 s :
  sessionOk E s0 = true →
  Session.id s = Session.id s0 →
  Session.project s = Session.project s0 →
  Session.phase s = Session.phase s0 →
  Session.startedAt s = Session.startedAt s0 →
  optionOk (isDatetime E) (Session.lastCheckpointAt s) = true →
  forallb (checkpointOk E) (Session.checkpoints s) = true →
  map_Forall (λ _ e, taskErrorOk e = true) (Session.errors s) →
  sessionOk E s = true.
Proof.
  intros Hok Hid Hproj Hphase Hstart Hdate Hcps Herr.
  unfold sessionOk in *. rewrite Hid, Hproj, Hphase, Hstart, Hdate, Hcps.
  repeat (apply andb_prop in Hok as [Hok ?]).
  repeat (apply andb_true_intro; split); auto.
  by apply bool_decide_eq_true.
Qed.

Lemma sessionOk_errors s :
  sessionOk E s = true →
  map_Forall (λ _ e, taskErrorOk e = true) (Session.errors s).
Proof.
  unfold sessionOk. intros [_ H]%andb_prop. by apply bool_decide_eq_true in H.
Qed.

Lemma sessionOk_checkpoints s :
  sessionOk E s = true → forallb (checkpointOk E) (Session.checkpoints s) = true.
Proof. unfold sessionOk. by intros [[_ H]%andb_prop _]%andb_prop. Qed.

Lemma sessionOk_lastCheckpointAt s :
  sessionOk E s = true →
  optionOk (isDatetime E) (Session.lastCheckpointAt s) = true.
Proof. unfold sessionOk. by intros [[[_ H]%andb_prop _]%andb_prop _]%andb_prop. Qed.

Lemma stored_sessionOk d id s : stored E d id s → sessionOk E s = true.
Proof. by intros (row & _ & _ & ?). Qed.

Lemma stored_lastCheckpointAt d id s :
  stored E d id s → Session.lastCheckpointAt s ≠ Some "".
Proof.
  intros (row & _ & -> & _). simpl.
  destruct (last_checkpoint_at row) as [x|]; [|done]. simpl.
  destruct (decide (x = "")); [done|]. congruence.
Qed.

(** The same, for an object read from the store and changed in the
    fields [updateSession] writes. *)
Lemma stored_afterUpdate d id s0 s :
  stored E d id s0 →
  Session.id s = Session.id s0 →
  Session.project s = Session.project s0 →
  Session.phase s = Session.phase s0 →
  Session.startedAt s = Session.startedAt s0 →
  Session.checkpoints s = Session.checkpoints s0 →
  optionOk (isDatetime E) (Session.lastCheckpointAt s) = true →
  Session.lastCheckpointAt s ≠ Some "" →
  map_Forall (λ _ e, taskErrorOk e = true) (Session.errors s) →
  stored E (afterUpdate s d) id s.
Proof.
  intros (row & Hrow & -> & Hok) Hid Hproj Hphase Hstart Hcps Hdate Hne Herr.
  apply (stored_afterUpdate_gen d id row); auto.
  eapply sessionOk_intro; eauto. rewrite Hcps. by apply sessionOk_checkpoints.
Qed.

(** *** The operations on a stored session *)

Context (HE : Reliable E).

Lemma startTask_ok w id s taskId :
  stored E (db w) id s →
  startTask E id taskId w
  = (Ok (), mkWorld (afterUpdate (started taskId s) (db w)) (console w) (S (tick w)))
  ∧ stored E (afterUpdate (started taskId s) (db w)) id (started taskId s).
Proof.
  intros Hs. split.
  - unfold startTask. rewrite (bind_ok _ _ _ _ _ (requireSession_stored _ _ _ Hs)).
    apply updateSession_ok, HE.
  - pose proof (stored_lastCheckpointAt _ _ _ Hs).
    pose proof (stored_sessionOk _ _ _ Hs) as Hok.
    pose proof (sessionOk_lastCheckpointAt _ Hok).
    pose proof (sessionOk_errors _ Hok).
    by apply (stored_afterUpdate _ _ s).
Qed.

Lemma checkpointsOf_afterInsert_ok row d id :
  forallb (checkpointOk E) (checkpointsOf (afterInsert row d) id)
  = forallb (checkpointOk E) (checkpointsOf d id)
    && (if decide (session_id row = id) then checkpointOk E (toCheckpoint row)
        else true).
Proof.
  unfold checkpointsOf, selectCheckpoints, afterInsert. simpl.
  rewrite !(forallb_Permutation _ (_ <$> merge_sort _ _) (toCheckpoint <$> _))
    by (by rewrite merge_sort_Permutation).
  rewrite filter_app, fmap_app, forallb_app. f_equal.
  destruct (decide (session_id row = id)).
  - rewrite filter_cons_True by done. simpl. by rewrite andb_true_r.
  - by rewrite filter_cons_False.
Qed.

(** [saveCheckpoint] on a stored session: the row it appends and the session
    it writes back. *)
Lemma saveCheckpoint_ok w id s taskId status options :
  stored E (db w) id s →
  let now := now E (tick w) in
  let row := checkpointRow id now taskId status options in
  let d' := afterUpdate (checkpointed now taskId status s) (afterInsert row (db w)) in
  saveCheckpoint E id taskId status options w
  = (Ok (), mkWorld d' (console w) (S (S (S (tick w)))))
  ∧ (optionOk (isUrl E) (truthyString (opt_prLink options)) = true →
     stored E d' id
       (setCheckpoints (checkpointsOf d' id) (checkpointed now taskId status s))).
Proof.
  intros Hs now row d'. split.
  - unfold saveCheckpoint.
    rewrite (bind_ok _ _ _ _ _ (requireSession_stored _ _ _ Hs)).
    rewrite (bind_ok _ _ _ _ _ (ask_eq _ _)).
    erewrite bind_ok by (apply run_ok; [apply HE|reflexivity]).
    rewrite updateSession_ok by apply HE. simpl.
    unfold d', checkpointed, row, checkpointRow, now.
    by repeat case_decide.
  - intros Hurl. destruct Hs as (srow & Hrow & Heq & Hok).
    subst d'. set (d1 := afterInsert row (db w)).
    change (stored E
              (afterUpdate (setCheckpoints (checkpointsOf d1 id)
                              (checkpointed now taskId status s)) d1) id
              (setCheckpoints (checkpointsOf d1 id)
                 (checkpointed now taskId status s))).
    apply (stored_afterUpdate_gen d1 id srow).
    + done.
    + unfold checkpointed. subst s. by repeat case_decide.
    + unfold checkpointed. subst s. by repeat case_decide.
    + unfold checkpointed. subst s. by repeat case_decide.
    + unfold checkpointed. subst s. by repeat case_decide.
    + unfold checkpointed. by repeat case_decide.
    + unfold checkpointed.
      repeat case_decide; simpl; intros [= Hempty];
        by apply (clock_nonempty E HE) in Hempty.
    + apply (sessionOk_intro s); auto.
      * unfold checkpointed. by repeat case_decide.
      * unfold checkpointed. by repeat case_decide.
      * unfold checkpointed. by repeat case_decide.
      * unfold checkpointed. by repeat case_decide.
      * unfold checkpointed. repeat case_decide; simpl; apply HE.
      * assert (Session.checkpoints
                  (setCheckpoints (checkpointsOf d1 id)
                     (checkpointed now taskId status s)) = checkpointsOf d1 id) as ->.
        { unfold checkpointed. by repeat case_decide. }
        unfold d1. rewrite checkpointsOf_afterInsert_ok.
        apply sessionOk_checkpoints in Hok. subst s. simpl in Hok. rewrite Hok.
        simpl. rewrite decide_True by done.
        unfold checkpointOk, row, checkpointRow, now. simpl.
        by rewrite truthyString_idemp, (clock_ok E HE), Hurl.
      * assert (Session.errors
                  (setCheckpoints (checkpointsOf d1 id)
                     (checkpointed now taskId status s)) = Session.errors s) as ->.
        { unfold checkpointed. by repeat case_decide. }
        by apply sessionOk_errors.
Qed.

(** The operations that write one field back. *)
Lemma modify_ok w id s (f : Session.t → Session.t) :
  stored E (db w) id s →
  Session.id (f s) = Session.id s →
  Session.project (f s) = Session.project s →
  Session.phase (f s) = Session.phase s →
  Session.startedAt (f s) = Session.startedAt s →
  Session.checkpoints (f s) = Session.checkpoints s →
  Session.lastCheckpointAt (f s) = Session.lastCheckpointAt s →
  map_Forall (λ _ e, taskErrorOk e = true) (Session.errors (f s)) →
  (requireSession E id ≫= λ session, updateSession E (f session)) w
  = (Ok (), mkWorld (afterUpdate (f s) (db w)) (console w) (S (tick w)))
  ∧ stored E (afterUpdate (f s) (db w)) id (f s).
Proof.
  intros Hs Hid Hproj Hphase Hstart Hcps Hlast Herr. split.
  - rewrite (bind_ok _ _ _ _ _ (requireSession_stored _ _ _ Hs)).
    apply updateSession_ok, HE.
  - pose proof (stored_lastCheckpointAt _ _ _ Hs).
    pose proof (stored_sessionOk _ _ _ Hs) as Hok.
    pose proof (sessionOk_lastCheckpointAt _ Hok).
    apply (stored_afterUpdate _ _ s); auto; by rewrite Hlast.
Qed.

Lemma leaves_modify w id s (f : Session.t → Session.t) (m : Eff unit) :
  stored E (db w) id s →
  m = (requireSession E id ≫= λ session, updateSession E (f session)) →
  Session.id (f s) = Session.id s →
  Session.project (f s) = Session.project s →
  Session.phase (f s) = Session.phase s →
  Session.startedAt (f s) = Session.startedAt s →
  Session.checkpoints (f s) = Session.checkpoints s →
  Session.lastCheckpointAt (f s) = Session.lastCheckpointAt s →
  map_Forall (λ _ e, taskErrorOk e = true) (Session.errors (f s)) →
  leaves E w id (taskState (f s)) [] (m w).
Proof.
  intros Hs -> Hid Hproj Hphase Hstart Hcps Hlast Herr.
  destruct (modify_ok w id s f) as [-> Hst]; auto.
  eexists _, (f s). split_and!; try done. simpl. by rewrite (right_id_L [] (++)).
Qed.

Lemma registerWorktree_leaves w id s taskId path :
  stored E (db w) id s →
  leaves E w id (taskState s) [] (registerWorktree E id taskId path w).
Proof.
  intros Hs.
  apply (leaves_modify w id s
    (λ session, Session.setWorktrees (<[taskId := path]> (Session.worktrees session)) session));
    auto.
  by apply sessionOk_errors, (stored_sessionOk _ _ _ Hs).
Qed.

Lemma registerBranch_leaves w id s taskId branch :
  stored E (db w) id s →
  leaves E w id (taskState s) [] (registerBranch E id taskId branch w).
Proof.
  intros Hs.
  apply (leaves_modify w id s
    (λ session, Session.setBranches (<[taskId := branch]> (Session.branches session)) session));
    auto.
  by apply sessionOk_errors, (stored_sessionOk _ _ _ Hs).
Qed.

Lemma registerPR_leaves w id s taskId url :
  stored E (db w) id s →
  leaves E w id (taskState s) [] (registerPR E id taskId url w).
Proof.
  intros Hs.
  apply (leaves_modify w id s
    (λ session, Session.setPrs (<[taskId := url]> (Session.prs session)) session));
    auto.
  by apply sessionOk_errors, (stored_sessionOk _ _ _ Hs).
Qed.

Lemma recordError_leaves w id s taskId error :
  stored E (db w) id s →
  leaves E w id (taskState s) [] (recordError E id taskId error w).
Proof.
  intros Hs.
  apply (leaves_modify w id s
    (λ session,
       Session.setErrors
         (<[taskId := match Session.errors session !! taskId with
                      | Some existing =>
                          TaskError.mk (TaskError.iterations existing + 1) error true false
                      | None => TaskError.mk 1 error false false
                      end]> (Session.errors session)) session)); auto.
  simpl. apply map_Forall_insert_2.
  - unfold taskErrorOk. apply bool_decide_eq_true.
    destruct (Session.errors s !! taskId); simpl; lia.
  - by apply sessionOk_errors, (stored_sessionOk _ _ _ Hs).
Qed.


Lemma startTask_leaves w id s taskId :
  stored E (db w) id s →
  leaves E w id
    (Some taskId, filter (λ t, t ≠ taskId) (Session.pendingTasks s),
     Session.completedTasks s, Session.failedTasks s) []
    (startTask E id taskId w).
Proof.
  intros Hs. destruct (startTask_ok w id s taskId Hs) as [-> Hst].
  eexists _, _. split_and!; try done. simpl. by rewrite (right_id_L [] (++)).
Qed.

Lemma saveCheckpoint_leaves w id s taskId status options :
  stored E (db w) id s →
  optionOk (isUrl E) (truthyString (opt_prLink options)) = true →
  leaves E w id (taskState (checkpointed (now E (tick w)) taskId status s))
    [checkpointRow id (now E (tick w)) taskId status options]
    (saveCheckpoint E id taskId status options w).
Proof.
  intros Hs Hurl. destruct (saveCheckpoint_ok w id s taskId status options Hs) as [-> Hst].
  eexists _, _. split_and!; [done|by apply Hst| |done|done].
  unfold checkpointed. by repeat case_decide.
Qed.

End WithEnv.

Lemma afterUpdate_lookup s d row :
  sessions d !! Session.id s = Some row →
  sessions (afterUpdate s d) !! Session.id s
  = Some (mkSessionRow (row_project row) (row_phase row) (started_at row)
            (truthyString (Session.lastCheckpointAt s)) (Session.currentTask s)
            (Session.completedTasks s) (Session.failedTasks s)
            (Session.pendingTasks s) (Session.worktrees s) (Session.branches s)
            (Session.prs s) (Session.errors s)).
Proof.
  intros Hrow. unfold afterUpdate. simpl. by rewrite lookup_alter_eq, Hrow.
Qed.

Lemma stored_id E d id s : stored E d id s → Session.id s = id.
Proof. by intros (row & _ & -> & _). Qed.

Lemma stored_row E d id s : stored E d id s → is_Some (sessions d !! id).
Proof. intros (row & -> & _). eauto. Qed.

(** C9.  A checkpoint whose status is neither completed nor failed is
    accepted: the row is appended, currentTask is cleared, lastCheckpointAt
    is set to the time of the call, and the three task lists are written
    back as they were.  After [startTask] has taken the id out of
    pendingTasks it is therefore in none of the membership sets. *)
Theorem saveCheckpoint_other_status (E : Env) (w : World) (id : string)
    (s : Session.t) (taskId : string) (status : TaskStatus)
    (options : CheckpointOptions) :
  Reliable E → stored E (db w) id s →
  status ≠ completed → status ≠ failed →
  (∃ w' row',
     saveCheckpoint E id taskId status options w = (Ok (), w')
     ∧ checkpointRows (db w')
       = checkpointRows (db w)
           ++ [checkpointRow id (now E (tick w)) taskId status options]
     ∧ sessions (db w') !! id = Some row'
     ∧ current_task row' = None
     ∧ last_checkpoint_at row' = Some (now E (tick w))
     ∧ completed_tasks row' = Session.completedTasks s
     ∧ failed_tasks row' = Session.failedTasks s
     ∧ pending_tasks row' = Session.pendingTasks s)
  ∧ (taskId ∉ Session.completedTasks s → taskId ∉ Session.failedTasks s →
     ∃ w' row',
       (startTask E id taskId;; saveCheckpoint E id taskId status options) w
       = (Ok (), w')
       ∧ sessions (db w') !! id = Some row'
       ∧ current_task row' = None
       ∧ taskId ∉ pending_tasks row'
       ∧ taskId ∉ completed_tasks row'
       ∧ taskId ∉ failed_tasks row').
Proof.
  intros HE Hs Hc Hf.
  assert (Hsave : ∀ w1 s1, stored E (db w1) id s1 →
    ∃ w' row',
      saveCheckpoint E id taskId status options w1 = (Ok (), w')
      ∧ checkpointRows (db w')
        = checkpointRows (db w1)
            ++ [checkpointRow id (now E (tick w1)) taskId status options]
      ∧ sessions (db w') !! id = Some row'
      ∧ current_task row' = None
      ∧ last_checkpoint_at row' = Some (now E (tick w1))
      ∧ completed_tasks row' = Session.completedTasks s1
      ∧ failed_tasks row' = Session.failedTasks s1
      ∧ pending_tasks row' = Session.pendingTasks s1).
  { intros w1 s1 Hs1.
    destruct (saveCheckpoint_ok E HE w1 id s1 taskId status options Hs1) as [-> _].
    destruct (stored_row _ _ _ _ Hs1) as [row Hrow].
    pose proof (stored_id _ _ _ _ Hs1) as Hid.
    set (s2 := checkpointed (now E (tick w1)) taskId status s1).
    set (d1 := afterInsert _ (db w1)).
    assert (Hs2 : s2 = Session.setCurrentTask None
                         (Session.setLastCheckpointAt (Some (now E (tick w1))) s1)).
    { unfold s2, checkpointed. by rewrite !decide_False. }
    pose proof (afterUpdate_lookup s2 d1 row) as Hl.
    assert (Hid2 : Session.id s2 = id) by (by rewrite Hs2).
    rewrite Hid2 in Hl. specialize (Hl Hrow).
    eexists _, _. split; [reflexivity|]. cbn [db].
    split; [reflexivity|]. split; [exact Hl|].
    rewrite Hs2. simpl. split_and!; try done.
    rewrite decide_False; [done|]. apply HE. }
  split; [by apply Hsave|].
  intros Hnc Hnf.
  destruct (startTask_ok E HE w id s taskId Hs) as [Hstart Hs1].
  rewrite (bind_ok _ _ _ _ _ Hstart).
  destruct (Hsave (mkWorld (afterUpdate (started taskId s) (db w)) (console w)
                           (S (tick w))) _ Hs1)
    as (w' & row' & -> & _ & Hrow' & Hcur & _ & Hco & Hfa & Hpe).
  exists w', row'. split_and!; try done.
  - rewrite Hpe. simpl. intros [? _]%list_elem_of_filter. done.
  - by rewrite Hco.
  - by rewrite Hfa.
Qed.

(** C3, on the code: when the UPDATE of [saveCheckpoint] fails after its
    INSERT went through, the call throws and leaves the checkpoint row in
    the table next to a session row that was not touched. *)
Theorem saveCheckpoint_torn_write (E : Env) (w : World) (id : string)
    (s : Session.t) (taskId : string) (status : TaskStatus)
    (options : CheckpointOptions) :
  stored E (db w) id s →
  sqlFails E (S (tick w)) = false →
  sqlFails E (S (S (tick w))) = true →
  ∃ w',
    saveCheckpoint E id taskId status options w = (Throw SqlError, w')
    ∧ checkpointRows (db w')
      = checkpointRows (db w)
          ++ [checkpointRow id (now E (tick w)) taskId status options]
    ∧ sessions (db w') = sessions (db w).
Proof.
  intros Hs Hins Hupd. unfold saveCheckpoint.
  rewrite (bind_ok _ _ _ _ _ (requireSession_stored _ _ _ _ Hs)).
  rewrite (bind_ok _ _ _ _ _ (ask_eq _ _)).
  erewrite bind_ok by (apply run_ok; [exact Hins|reflexivity]).
  unfold updateSession, run.
  erewrite bind_ok by reflexivity. simpl. rewrite Hupd.
  eexists. split; [reflexivity|]. done.
Qed.

(** X20.  The sibling of [saveCheckpoint]: [deleteSession] runs its two
    statements in a transaction, and a failure of either leaves the database
    as it was. *)
Lemma deleteSession_atomic (E : Env) (w : World) (id : string) :
  let '(r, w') := deleteSession E id w in
  (r = Ok ()
   ∧ sessions (db w') = delete id (sessions (db w))
   ∧ checkpointRows (db w')
     = filter (λ row, session_id row ≠ id) (checkpointRows (db w)))
  ∨ (r = Throw SqlError ∧ db w' = db w).
Proof.
  unfold deleteSession, transaction, run, mbind, eff_bind, nextTick, readDb,
    writeDb, throw. simpl.
  destruct (sqlFails E (tick w)); simpl; [by right|].
  destruct (sqlFails E (S (tick w))); simpl; [by right|by left].
Qed.

End SessionProofs.

(** ** Hook runner *)

Module HooksProofs.
Import HooksExecutor HooksSpec SessionProofs.

Section WithEnv.
Context (E : Env) (hooks : option HooksConfig) (cwd : string).

Lemma run_unconfigured h context w :
  truthyString (lookupHook hooks h) = None →
  run E hooks h context w = (Ok (mkResult true ""), w).
Proof. intros H. unfold run. by rewrite H. Qed.

Lemma run_configured h context command w :
  configured hooks h command →
  let o := spawn E (tick w) (mkSpawn command [] (ctx_cwd context) (hookEnv context)) in
  run E hooks h context w
  = (Ok (match o with
         | Closed code stdout stderr =>
             mkResult (bool_decide (code = Some 0%Z)) (trim (stdout +:+ stderr))
         | SpawnFailed m => mkResult false m
         end),
     mkWorld (db w) (console w) (S (tick w))).
Proof.
  intros [Hlook Hne] o. unfold run. rewrite Hlook. simpl.
  rewrite decide_False by done. unfold executeCommand.
  rewrite (bind_ok _ _ _ _ _ (ask_eq _ _)). fold o. by destruct o.
Qed.

(** A hook either is not configured, and then nothing happens, or it is,
    and then one child process is started. *)
Lemma run_cases h context w :
  (run E hooks h context w = (Ok (mkResult true ""), w))
  ∨ (∃ command, configured hooks h command
       ∧ run E hooks h context w
         = (Ok (match spawn E (tick w)
                        (mkSpawn command [] (ctx_cwd context) (hookEnv context)) with
                | Closed code stdout stderr =>
                    mkResult (bool_decide (code = Some 0%Z)) (trim (stdout +:+ stderr))
                | SpawnFailed m => mkResult false m
                end),
            mkWorld (db w) (console w) (S (tick w)))).
Proof.
  destruct (truthyString (lookupHook hooks h)) as [command|] eqn:Hcmd.
  - right. exists command.
    assert (Hconf : configured hooks h command).
    { unfold configured. destruct (lookupHook hooks h) as [c|]; [|done].
      simpl in Hcmd. destruct (decide (c = "")); [done|].
      injection Hcmd as <-. by split. }
    split; [done|]. by apply run_configured.
  - left. by apply run_unconfigured.
Qed.

Lemma failure_result o :
  failure o →
  match o with
  | Closed code stdout stderr =>
      mkResult (bool_decide (code = Some 0%Z)) (trim (stdout +:+ stderr))
  | SpawnFailed m => mkResult false m
  end = mkResult false (reported o).
Proof.
  destruct o as [code out err|m]; simpl; [|done].
  intros Hcode. by rewrite bool_decide_eq_false_2.
Qed.

(** The three hooks that only warn return normally whatever the child
    process does. *)
Lemma warning_hook_total (label : string) h context w :
  ∃ lines w',
    (result ← run E hooks h context;
     if negb (hookSuccess result)
     then log (label +:+ hookOutput result)
     else mret ()) w = (Ok (), w')
    ∧ db w' = db w ∧ console w' = console w ++ lines.
Proof.
  destruct (run_cases h context w) as [Hrun|(command & _ & Hrun)].
  - rewrite (bind_ok _ _ _ _ _ Hrun). simpl. exists [], w.
    by rewrite (right_id_L [] (++)).
  - rewrite (bind_ok _ _ _ _ _ Hrun).
    destruct (spawn E _ _) as [code out err|m]; simpl.
    + destruct (bool_decide (code = Some 0%Z)); simpl.
      * eexists [], _. split_and!; [reflexivity|done|]. simpl.
        by rewrite (right_id_L [] (++)).
      * eexists [_], _. split_and!; [reflexivity|done|done].
    + eexists [_], _. split_and!; [reflexivity|done|done].
Qed.

Lemma afterTask_total project task success w :
  ∃ lines w', afterTask E hooks cwd project task success w = (Ok (), w')
              ∧ db w' = db w ∧ console w' = console w ++ lines.
Proof. apply warning_hook_total. Qed.

Lemma onSuccess_total project phase w :
  ∃ lines w', onSuccess E hooks cwd project phase w = (Ok (), w')
              ∧ db w' = db w ∧ console w' = console w ++ lines.
Proof. apply warning_hook_total. Qed.

Lemma onError_total project error task w :
  ∃ lines w', onError E hooks cwd project error task w = (Ok (), w')
              ∧ db w' = db w ∧ console w' = console w ++ lines.
Proof. apply warning_hook_total. Qed.

(** With child processes that exit 0 the two fatal hooks pass. *)
Lemma beforeTask_passes project task w :
  (∀ k request, ∃ out err, spawn E k request = Closed (Some 0%Z) out err) →
  ∃ w', beforeTask E hooks cwd project task w = (Ok (), w')
        ∧ db w' = db w ∧ console w' = console w.
Proof.
  intros Hspawn. unfold beforeTask.
  destruct (run_cases BeforeTask
              (mkContext project (phase task) (Some (id task)) (Some (name task))
                 None None cwd) w) as [Hrun|(command & _ & Hrun)].
  - rewrite (bind_ok _ _ _ _ _ Hrun). simpl. by exists w.
  - rewrite (bind_ok _ _ _ _ _ Hrun).
    destruct (Hspawn (tick w)
                (mkSpawn command [] cwd
                   (hookEnv (mkContext project (phase task) (Some (id task))
                               (Some (name task)) None None cwd))))
      as (out & err & Heq).
    simpl in *. rewrite Heq. simpl. eexists. split_and!; [reflexivity|done|done].
Qed.

End WithEnv.

End HooksProofs.

(** ** Executors *)

Module ExecutorProofs.
Import SessionManager SessionInvariants SessionProofs ExecutorSpec.

(** Take one step of a computation whose first operation is known to leave
    a stored session behind. *)
Tactic Notation "run_op" constr(H) "as" ident(w') ident(s') ident(Hst) ident(Hts)
    ident(Hrows) :=
  let Heq := fresh "Heq" in
  destruct H as (w' & s' & Heq & Hst & Hts & Hrows & _);
  rewrite (bind_ok _ _ _ _ _ Heq); clear Heq.

Ltac run_oracle H :=
  erewrite bind_ok by (rewrite askOutcome_eq, H; reflexivity).

(** The world the computation in the goal is about to run in. *)
Ltac with_world tac :=
  match goal with
  | |- context [mbind _ _ ?W] => tac W
  end.

Lemma taskState_checkpointed_completed now taskId s :
  taskState (checkpointed now taskId completed s)
  = (None, Session.pendingTasks s, Session.completedTasks s ++ [taskId],
     Session.failedTasks s).
Proof. done. Qed.

Lemma taskState_checkpointed_failed now taskId s :
  taskState (checkpointed now taskId failed s)
  = (None, Session.pendingTasks s, Session.completedTasks s,
     Session.failedTasks s ++ [taskId]).
Proof. done. Qed.

Lemma taskState_inv s cur pend comp fail :
  taskState s = (cur, pend, comp, fail) →
  Session.currentTask s = cur ∧ Session.pendingTasks s = pend
  ∧ Session.completedTasks s = comp ∧ Session.failedTasks s = fail.
Proof. unfold taskState. by intros [= -> -> -> ->]. Qed.

Lemma accepted_true r :
  accepted r = true →
  ExecutionResult.success r = true ∧ ExecutionResult.completed r = true.
Proof. unfold accepted. by intros ?%andb_prop. Qed.

Lemma accepted_false r :
  accepted r = false →
  negb (ExecutionResult.success r) || negb (ExecutionResult.completed r) = true.
Proof.
  unfold accepted.
  by destruct (ExecutionResult.success r), (ExecutionResult.completed r).
Qed.

Section WithEnv.
Context (E : Env) (HE : Reliable E) (HC : Cooperative E).
Context (projectConfig : option ProjectConfig).

Lemma lastCheckpoint_snoc d rows sid now taskId status options :
  checkpointRows d = rows ++ [checkpointRow sid now taskId status options] →
  lastCheckpoint d = Some (sid, taskId, status).
Proof. intros H. unfold lastCheckpoint. by rewrite H, last_snoc. Qed.

(** *** ResumeExecutor *)

Lemma resume_attemptTask_accepted w sid s task fast r :
  engineAnswers E r → accepted r = true → stored E (db w) sid s →
  endsIn E w sid (Ok ())
    (None, filter (λ t, t ≠ id task) (Session.pendingTasks s),
     Session.completedTasks s ++ [id task], Session.failedTasks s)
    (id task) completed
    (ResumeExecutor.attemptTask E sid task fast w).
Proof.
  intros Hengine [Hsucc Hcomp]%accepted_true Hs.
  unfold ResumeExecutor.attemptTask.
  pose proof (startTask_leaves E HE w sid s (id task) Hs) as H.
  run_op H as w1 s1 Hst1 Hts1 Hrows1.
  destruct (worktree_ok E HC (tick w1) (id task) (taskSlug task))
    as [[path branch] Hwt].
  run_oracle Hwt. cbv beta iota.
  with_world ltac:(fun W =>
    pose proof (registerWorktree_leaves E HE W sid s1 (id task) path Hst1) as H).
  run_op H as w2 s2 Hst2 Hts2 Hrows2.
  pose proof (registerBranch_leaves E HE w2 sid s2 (id task) branch Hst2) as H.
  run_op H as w3 s3 Hst3 Hts3 Hrows3.
  destruct (prompt_ok E HC (tick w3) task) as [prompt Hprompt].
  run_oracle Hprompt. run_oracle Hengine.
  rewrite Hsucc, Hcomp. simpl negb. cbv beta iota.
  erewrite bind_ok by reflexivity.
  with_world ltac:(fun W =>
    destruct (changes_ok E HC (tick W) (id task)) as [hasChanges Hchanges]).
  run_oracle Hchanges.
  assert (Hcommit : ∀ W, stored E (db W) sid s3 →
    ∃ W', ((if hasChanges
            then askOutcome (λ k, commitChanges E k (id task) (commitMessage task))
                 ≫= λ _ : string, mret ()
            else mret ()) : Eff unit) W = (Ok (), W') ∧ stored E (db W') sid s3).
  { intros W HW. destruct hasChanges.
    - destruct (commit_ok E HC (tick W) (id task) (commitMessage task)) as [c Hc].
      run_oracle Hc. eexists. split; [reflexivity|done].
    - eexists. split; [reflexivity|done]. }
  with_world ltac:(fun W => destruct (Hcommit W Hst3) as (w4 & Heq4 & Hst4)).
  rewrite (bind_ok _ _ _ _ _ Heq4).
  pose proof (saveCheckpoint_leaves E HE w4 sid s3 (id task) completed
                (mkOptions None (Some (ExecutionResult.duration r)) None) Hst4 eq_refl) as H.
  destruct H as (w5 & s5 & -> & Hst5 & Hts5 & Hrows5 & _).
  exists w5, s5. split_and!; [done|done| |by eapply lastCheckpoint_snoc].
  rewrite Hts5, taskState_checkpointed_completed.
  rewrite Hts2, Hts1 in Hts3. by apply taskState_inv in Hts3 as (_ & -> & -> & ->).
Qed.

Lemma tryCatch_ok {A} (body : Eff A) handler w a w' :
  body w = (Ok a, w') → tryCatch body handler w = (Ok a, w').
Proof. intros H. unfold tryCatch. by rewrite H. Qed.

Lemma tryCatch_throw {A} (body : Eff A) handler w e w' :
  body w = (Throw e, w') → tryCatch body handler w = handler e w'.
Proof. intros H. unfold tryCatch. by rewrite H. Qed.

(** The [catch] block of both executors. *)
Lemma failure_recorded w sid s task e :
  stored E (db w) sid s →
  endsIn E w sid (Throw e)
    (None, Session.pendingTasks s, Session.completedTasks s,
     Session.failedTasks s ++ [id task])
    (id task) failed
    ((recordError E sid (id task) (message e);;
      saveCheckpoint E sid (id task) failed (mkOptions None None (Some (message e)));;
      throw e) w).
Proof.
  intros Hs.
  pose proof (recordError_leaves E HE w sid s (id task) (message e) Hs) as H.
  run_op H as w1 s1 Hst1 Hts1 Hrows1.
  pose proof (saveCheckpoint_leaves E HE w1 sid s1 (id task) failed
                (mkOptions None None (Some (message e))) Hst1 eq_refl) as H.
  run_op H as w2 s2 Hst2 Hts2 Hrows2.
  exists w2, s2. split_and!; [done|done| |by eapply lastCheckpoint_snoc].
  rewrite Hts2, taskState_checkpointed_failed.
  by apply taskState_inv in Hts1 as (_ & -> & -> & ->).
Qed.

Lemma resume_attemptTask_rejected w sid s task fast r :
  engineAnswers E r → accepted r = false → stored E (db w) sid s →
  ∃ w' s', ResumeExecutor.attemptTask E sid task fast w = (Throw (rejection r), w')
           ∧ stored E (db w') sid s'
           ∧ taskState s'
             = (Some (id task), filter (λ t, t ≠ id task) (Session.pendingTasks s),
                Session.completedTasks s, Session.failedTasks s).
Proof.
  intros Hengine Hrej%accepted_false Hs.
  unfold ResumeExecutor.attemptTask.
  pose proof (startTask_leaves E HE w sid s (id task) Hs) as H.
  run_op H as w1 s1 Hst1 Hts1 Hrows1.
  destruct (worktree_ok E HC (tick w1) (id task) (taskSlug task))
    as [[path branch] Hwt].
  run_oracle Hwt. cbv beta iota.
  with_world ltac:(fun W =>
    pose proof (registerWorktree_leaves E HE W sid s1 (id task) path Hst1) as H).
  run_op H as w2 s2 Hst2 Hts2 Hrows2.
  pose proof (registerBranch_leaves E HE w2 sid s2 (id task) branch Hst2) as H.
  run_op H as w3 s3 Hst3 Hts3 Hrows3.
  destruct (prompt_ok E HC (tick w3) task) as [prompt Hprompt].
  run_oracle Hprompt. run_oracle Hengine.
  rewrite Hrej. erewrite bind_throw by reflexivity.
  eexists _, s3. split_and!; [reflexivity|done|]. by rewrite Hts3, Hts2.
Qed.

Lemma resume_executeTask_accepted w sid s task fast r :
  engineAnswers E r → accepted r = true → stored E (db w) sid s →
  endsIn E w sid (Ok ())
    (None, filter (λ t, t ≠ id task) (Session.pendingTasks s),
     Session.completedTasks s ++ [id task], Session.failedTasks s)
    (id task) completed
    (ResumeExecutor.executeTask E sid task fast w).
Proof.
  intros Hengine Hacc Hs.
  destruct (resume_attemptTask_accepted w sid s task fast r Hengine Hacc Hs)
    as (w' & s' & Heq & H).
  exists w', s'. split; [|done]. unfold ResumeExecutor.executeTask.
  by apply tryCatch_ok.
Qed.

Lemma resume_executeTask_rejected w sid s task fast r :
  engineAnswers E r → accepted r = false → stored E (db w) sid s →
  endsIn E w sid (Throw (rejection r))
    (None, filter (λ t, t ≠ id task) (Session.pendingTasks s),
     Session.completedTasks s, Session.failedTasks s ++ [id task])
    (id task) failed
    (ResumeExecutor.executeTask E sid task fast w).
Proof.
  intros Hengine Hrej Hs.
  destruct (resume_attemptTask_rejected w sid s task fast r Hengine Hrej Hs)
    as (w1 & s1 & Heq & Hst1 & Hts1).
  unfold ResumeExecutor.executeTask. rewrite (tryCatch_throw _ _ _ _ _ Heq).
  destruct (failure_recorded w1 sid s1 task (rejection r) Hst1)
    as (w2 & s2 & Heq2 & Hst2 & Hts2 & Hlast).
  exists w2, s2. split_and!; [done|done| |done].
  rewrite Hts2. by apply taskState_inv in Hts1 as (_ & -> & -> & ->).
Qed.

(** *** TaskExecutor *)

Context (project cwd : string).

Lemma runShellCommand_ok command dir label w :
  ∃ w', TaskExecutor.runShellCommand E command dir label w = (Ok (), w')
        ∧ db w' = db w.
Proof.
  unfold TaskExecutor.runShellCommand.
  rewrite (bind_ok _ _ _ _ _ (ask_eq _ _)).
  destruct (spawn_ok E HC (tick w) (mkSpawn command [] dir [("CI", "true")]))
    as (out & err & ->).
  simpl. eexists. split; [reflexivity|done].
Qed.

Lemma validation_ok path fast w :
  ∃ w', ((if negb fast && bool_decide (is_Some (projectConfig ≫= commands))
          then TaskExecutor.runValidation E projectConfig path
          else mret ()) : Eff unit) w = (Ok (), w')
        ∧ db w' = db w.
Proof.
  destruct (negb fast && _); [|by exists w].
  unfold TaskExecutor.runValidation.
  destruct (projectConfig ≫= commands) as [cmds|]; [|by exists w].
  assert (Hlint : ∃ w1,
    (match truthyString (lintCmd cmds) with
     | Some lint => TaskExecutor.runShellCommand E lint path "lint"
     | None => mret ()
     end : Eff unit) w = (Ok (), w1) ∧ db w1 = db w).
  { destruct (truthyString (lintCmd cmds)); [apply runShellCommand_ok|by exists w]. }
  destruct Hlint as (w1 & Heq1 & Hdb1). rewrite (bind_ok _ _ _ _ _ Heq1).
  destruct (truthyString (testCmd cmds)).
  - destruct (runShellCommand_ok s path "test" w1) as (w2 & -> & Hdb2).
    exists w2. split; [done|congruence].
  - by exists w1.
Qed.

Lemma createPullRequest_ok task path w :
  ∃ url w', TaskExecutor.createPullRequest E task path w = (Ok url, w')
            ∧ db w' = db w.
Proof.
  unfold TaskExecutor.createPullRequest.
  rewrite (bind_ok _ _ _ _ _ (ask_eq _ _)).
  destruct (spawn E _ _) as [code out err|m]; simpl.
  - destruct (bool_decide (code = Some 0%Z)); simpl.
    + eexists _, _. split; [reflexivity|done].
    + eexists _, _. split; [reflexivity|done].
  - eexists _, _. split; [reflexivity|done].
Qed.

(** The commit, push and pull-request step. *)
Lemma publish_ok sid s task path hasChanges w :
  stored E (db w) sid s →
  ∃ w' s',
    ((if hasChanges : bool then
        askOutcome (λ k, commitChanges E k (id task) (commitMessage task));;
        askOutcome (λ k, pushBranch E k (id task));;
        prUrl ← TaskExecutor.createPullRequest E task path;
        match prUrl with
        | Some url => registerPR E sid (id task) url
        | None => mret ()
        end
      else mret ()) : Eff unit) w = (Ok (), w')
    ∧ stored E (db w') sid s' ∧ taskState s' = taskState s
    ∧ checkpointRows (db w') = checkpointRows (db w).
Proof.
  intros Hs. destruct hasChanges; [|by exists w, s].
  destruct (commit_ok E HC (tick w) (id task) (commitMessage task)) as [c Hc].
  run_oracle Hc. run_oracle (push_ok E HC).
  with_world ltac:(fun W =>
    destruct (createPullRequest_ok task path W) as (url & w1 & Heq1 & Hdb1)).
  rewrite (bind_ok _ _ _ _ _ Heq1). simpl in Hdb1.
  assert (Hs1 : stored E (db w1) sid s) by (by rewrite Hdb1).
  destruct url as [url|].
  - destruct (registerPR_leaves E HE w1 sid s (id task) url Hs1)
      as (w2 & s2 & -> & Hst2 & Hts2 & Hrows2 & _).
    exists w2, s2. split_and!; try done.
    by rewrite Hrows2, (right_id_L [] (++)), Hdb1.
  - exists w1, s. split_and!; try done. by rewrite Hdb1.
Qed.

Lemma run_attemptTask_accepted w sid s task fast r :
  engineAnswers E r → accepted r = true → stored E (db w) sid s →
  endsIn E w sid (Ok ())
    (None, filter (λ t, t ≠ id task) (Session.pendingTasks s),
     Session.completedTasks s ++ [id task], Session.failedTasks s)
    (id task) completed
    (TaskExecutor.attemptTask E projectConfig sid task fast w).
Proof.
  intros Hengine [Hsucc Hcomp]%accepted_true Hs.
  unfold TaskExecutor.attemptTask.
  pose proof (startTask_leaves E HE w sid s (id task) Hs) as H.
  run_op H as w1 s1 Hst1 Hts1 Hrows1.
  destruct (worktree_ok E HC (tick w1) (id task) (taskSlug task))
    as [[path branch] Hwt].
  run_oracle Hwt. cbv beta iota.
  with_world ltac:(fun W =>
    pose proof (registerWorktree_leaves E HE W sid s1 (id task) path Hst1) as H).
  run_op H as w2 s2 Hst2 Hts2 Hrows2.
  pose proof (registerBranch_leaves E HE w2 sid s2 (id task) branch Hst2) as H.
  run_op H as w3 s3 Hst3 Hts3 Hrows3.
  destruct (prompt_ok E HC (tick w3) task) as [prompt Hprompt].
  run_oracle Hprompt. run_oracle Hengine.
  rewrite Hsucc, Hcomp. simpl negb. cbv beta iota.
  erewrite bind_ok by reflexivity.
  with_world ltac:(fun W =>
    destruct (validation_ok path fast W) as (w4 & Heq4 & Hdb4)).
  rewrite (bind_ok _ _ _ _ _ Heq4). simpl in Hdb4.
  with_world ltac:(fun W =>
    destruct (changes_ok E HC (tick W) (id task)) as [hasChanges Hchanges]).
  run_oracle Hchanges.
  assert (Hst4 : stored E (db w4) sid s3) by (by rewrite Hdb4).
  with_world ltac:(fun W =>
    destruct (publish_ok sid s3 task path hasChanges W Hst4)
      as (w5 & s5 & Heq5 & Hst5 & Hts5 & Hrows5)).
  rewrite (bind_ok _ _ _ _ _ Heq5).
  pose proof (saveCheckpoint_leaves E HE w5 sid s5 (id task) completed
                (mkOptions None (Some (ExecutionResult.duration r)) None) Hst5 eq_refl) as H.
  destruct H as (w6 & s6 & -> & Hst6 & Hts6 & Hrows6 & _).
  exists w6, s6. split_and!; [done|done| |by eapply lastCheckpoint_snoc].
  rewrite Hts6, taskState_checkpointed_completed.
  rewrite Hts3, Hts2, Hts1 in Hts5.
  by apply taskState_inv in Hts5 as (_ & -> & -> & ->).
Qed.

Lemma run_attemptTask_rejected w sid s task fast r :
  engineAnswers E r → accepted r = false → stored E (db w) sid s →
  ∃ w' s', TaskExecutor.attemptTask E projectConfig sid task fast w
           = (Throw (rejection r), w')
           ∧ stored E (db w') sid s'
           ∧ taskState s'
             = (Some (id task), filter (λ t, t ≠ id task) (Session.pendingTasks s),
                Session.completedTasks s, Session.failedTasks s).
Proof.
  intros Hengine Hrej%accepted_false Hs.
  unfold TaskExecutor.attemptTask.
  pose proof (startTask_leaves E HE w sid s (id task) Hs) as H.
  run_op H as w1 s1 Hst1 Hts1 Hrows1.
  destruct (worktree_ok E HC (tick w1) (id task) (taskSlug task))
    as [[path branch] Hwt].
  run_oracle Hwt. cbv beta iota.
  with_world ltac:(fun W =>
    pose proof (registerWorktree_leaves E HE W sid s1 (id task) path Hst1) as H).
  run_op H as w2 s2 Hst2 Hts2 Hrows2.
  pose proof (registerBranch_leaves E HE w2 sid s2 (id task) branch Hst2) as H.
  run_op H as w3 s3 Hst3 Hts3 Hrows3.
  destruct (prompt_ok E HC (tick w3) task) as [prompt Hprompt].
  run_oracle Hprompt. run_oracle Hengine.
  rewrite Hrej. erewrite bind_throw by reflexivity.
  eexists _, s3. split_and!; [reflexivity|done|]. by rewrite Hts3, Hts2.
Qed.

Lemma tryFinally_total {A} (body : Eff A) cleanup w r w1 w2 :
  body w = (r, w1) → cleanup r w1 = (Ok (), w2) →
  tryFinally body cleanup w = (r, w2).
Proof. intros Hb Hc. unfold tryFinally. by rewrite Hb, Hc. Qed.

(** [executeTask] of run.ts around an attempt whose outcome is known: the
    hooks before and after leave the outcome and the database alone. *)
Lemma run_executeTask_around w sid task fast :
  ∃ w0, db w0 = db w ∧ ∀ out w1,
    tryCatch (TaskExecutor.attemptTask E projectConfig sid task fast)
             (TaskExecutor.recordFailure E sid task) w0 = (out, w1) →
    ∃ w2, TaskExecutor.executeTask E projectConfig project cwd sid task fast w
          = (out, w2) ∧ db w2 = db w1.
Proof.
  destruct (HooksProofs.beforeTask_passes E (TaskExecutor.hooksConfig projectConfig)
              cwd project task w (spawn_ok E HC)) as (w0 & Hbefore & Hdb0 & _).
  exists w0. split; [done|]. intros out w1 Hbody.
  destruct (HooksProofs.afterTask_total E (TaskExecutor.hooksConfig projectConfig)
              cwd project task (ranToEnd out) w1) as (lines & w2 & Hafter & Hdb2 & _).
  exists w2. split; [|done]. unfold TaskExecutor.executeTask.
  rewrite (bind_ok _ _ _ _ _ Hbefore).
  by apply (tryFinally_total _ _ _ _ w1).
Qed.

Lemma run_executeTask_accepted w sid s task fast r :
  engineAnswers E r → accepted r = true → stored E (db w) sid s →
  endsIn E w sid (Ok ())
    (None, filter (λ t, t ≠ id task) (Session.pendingTasks s),
     Session.completedTasks s ++ [id task], Session.failedTasks s)
    (id task) completed
    (TaskExecutor.executeTask E projectConfig project cwd sid task fast w).
Proof.
  intros Hengine Hacc Hs.
  destruct (run_executeTask_around w sid task fast) as (w0 & Hdb0 & Haround).
  assert (Hs0 : stored E (db w0) sid s) by (by rewrite Hdb0).
  destruct (run_attemptTask_accepted w0 sid s task fast r Hengine Hacc Hs0)
    as (w1 & s1 & Heq & Hst1 & Hts1 & Hlast1).
  destruct (Haround (Ok ()) w1) as (w2 & -> & Hdb2); [by apply tryCatch_ok|].
  exists w2, s1. rewrite Hdb2. by split_and!.
Qed.

Lemma run_executeTask_rejected w sid s task fast r :
  engineAnswers E r → accepted r = false → stored E (db w) sid s →
  endsIn E w sid (Throw (rejection r))
    (None, filter (λ t, t ≠ id task) (Session.pendingTasks s),
     Session.completedTasks s, Session.failedTasks s ++ [id task])
    (id task) failed
    (TaskExecutor.executeTask E projectConfig project cwd sid task fast w).
Proof.
  intros Hengine Hrej Hs.
  destruct (run_executeTask_around w sid task fast) as (w0 & Hdb0 & Haround).
  assert (Hs0 : stored E (db w0) sid s) by (by rewrite Hdb0).
  destruct (run_attemptTask_rejected w0 sid s task fast r Hengine Hrej Hs0)
    as (w1 & s1 & Heq & Hst1 & Hts1).
  destruct (failure_recorded w1 sid s1 task (rejection r) Hst1)
    as (w2 & s2 & Heq2 & Hst2 & Hts2 & Hlast2).
  destruct (Haround (Throw (rejection r)) w2) as (w3 & -> & Hdb3).
  { rewrite (tryCatch_throw _ _ _ _ _ Heq). exact Heq2. }
  exists w3, s2. rewrite Hdb3. split_and!; [done|done| |done].
  rewrite Hts2. by apply taskState_inv in Hts1 as (_ & -> & -> & ->).
Qed.

End WithEnv.

Import StoreExamples.

Lemma env_reliable engine : Reliable (envWith (λ _, false) engine).
Proof. by split. Qed.

Lemma env_cooperative sqlFails engine : Cooperative (envWith sqlFails engine).
Proof. split; simpl; eauto. Qed.

Lemma world0_stored : stored env0 (db world0) sessionId0 session0.
Proof. apply (stored_inv env0 world0 _ _ world0). vm_compute. reflexivity. Qed.

(** Both executors treat the task as completed, and go on to the completed
    checkpoint, exactly when the result of the engine has success = true
    and completed = true; with any other result, completed = true and
    success = false included, they throw and record a failed checkpoint.
    Stated for an engine that answers [r], collaborators that do their job
    and a session that is stored. *)
Lemma executors_verdict
    (E : Env) (projectConfig : option ProjectConfig) (project cwd : string)
    (w : World) (sid : string) (s : Session.t) (task : Task) (fast : bool)
    (r : ExecutionResult.t) :
  Reliable E → Cooperative E → engineAnswers E r → stored E (db w) sid s →
  let remaining := filter (λ t, t ≠ id task) (Session.pendingTasks s) in
  let verdict (run : outcome unit * World) :=
    if accepted r
    then endsIn E w sid (Ok ())
           (None, remaining, Session.completedTasks s ++ [id task],
            Session.failedTasks s)
           (id task) completed run
    else endsIn E w sid (Throw (rejection r))
           (None, remaining, Session.completedTasks s,
            Session.failedTasks s ++ [id task])
           (id task) failed run in
  verdict (TaskExecutor.executeTask E projectConfig project cwd sid task fast w)
  ∧ verdict (ResumeExecutor.executeTask E sid task fast w).
Proof.
  intros HE HC Hengine Hs remaining verdict. unfold verdict, remaining.
  destruct (accepted r) eqn:Hacc.
  - split.
    + by eapply run_executeTask_accepted.
    + by eapply resume_executeTask_accepted.
  - split.
    + by eapply run_executeTask_rejected.
    + by eapply resume_executeTask_rejected.
Qed.

(** C4 as stated fails: the completion token was present, the exit code was
    not 0, and the executor records a failure. *)
Lemma completed_without_success_is_rejected :
  ExecutionResult.completed completedButFailed = true
  ∧ ExecutionResult.success completedButFailed = false
  ∧ endsIn envCompletedButFailed world0 sessionId0
      (Throw (ExecutionFailed "Execution failed"))
      (None, ["T00-002"], [], ["T00-001"]) "T00-001" failed
      (TaskExecutor.executeTask envCompletedButFailed None "demo" "/repo"
         sessionId0 task1 false world0).
Proof.
  split; [done|]. split; [done|].
  eexists _, _. split; [vm_compute; reflexivity|].
  split; [eapply stored_inv; vm_compute; reflexivity|].
  split; vm_compute; reflexivity.
Qed.



(** C2, on the code: the outer retry of run.ts starts the task again after
    a failed checkpoint has put its id in failedTasks.  With an engine that
    fails once and then completes the task, the id ends up both in
    failedTasks and in completedTasks: the membership sets do not partition
    the loaded ids. *)
Theorem retry_breaks_partition :
  ∃ w' s',
    TaskExecutor.executeTaskWithRetry envFlaky None "demo" "/repo"
      sessionId0 task1 false world0 = (Ok (), w')
    ∧ stored envFlaky (db w') sessionId0 s'
    ∧ taskState s' = (None, ["T00-002"], ["T00-001"], ["T00-001"])
    ∧ (task_id <$> checkpointRows (db w')) = ["T00-001"; "T00-001"]
    ∧ (cp_status <$> checkpointRows (db w')) = [failed; completed]
    ∧ occurrences "T00-001" s' = 2
    ∧ ¬ partitions ["T00-001"; "T00-002"] s'.
Proof.
  eexists _, _. split; [vm_compute; reflexivity|].
  split; [eapply stored_inv; vm_compute; reflexivity|].
  split_and!; [vm_compute; reflexivity..|].
  intros Hpart. specialize (Hpart "T00-001").
  assert (Hin : "T00-001" ∈ ["T00-001"; "T00-002"]) by (apply elem_of_cons; by left).
  apply Hpart in Hin. vm_compute in Hin. discriminate.
Qed.

(** Without a retry in between, the same two operations keep the
    partition: start and checkpoint move the id from pending to completed
    or failed. *)
Lemma start_checkpoint_moves_task (E : Env) (w : World) (sid : string)
    (s : Session.t) (taskId : string) (status : TaskStatus)
    (options : CheckpointOptions) :
  Reliable E → stored E (db w) sid s →
  optionOk (isUrl E) (truthyString (opt_prLink options)) = true →
  status = completed ∨ status = failed →
  ∃ w' s',
    (startTask E sid taskId;; saveCheckpoint E sid taskId status options) w
    = (Ok (), w')
    ∧ stored E (db w') sid s'
    ∧ taskState s'
      = (None, filter (λ t, t ≠ taskId) (Session.pendingTasks s),
         (if decide (status = completed) then Session.completedTasks s ++ [taskId]
          else Session.completedTasks s),
         (if decide (status = completed) then Session.failedTasks s
          else Session.failedTasks s ++ [taskId])).
Proof.
  intros HE Hs Hurl Hstatus.
  pose proof (startTask_leaves E HE w sid s taskId Hs) as H.
  run_op H as w1 s1 Hst1 Hts1 Hrows1.
  pose proof (saveCheckpoint_leaves E HE w1 sid s1 taskId status options Hst1 Hurl) as H.
  destruct H as (w2 & s2 & -> & Hst2 & Hts2 & _).
  exists w2, s2. split_and!; [done|done|]. rewrite Hts2.
  apply taskState_inv in Hts1 as (_ & Hp & Hc & Hf).
  destruct Hstatus as [->| ->].
  - rewrite taskState_checkpointed_completed, Hp, Hc, Hf. by rewrite decide_True.
  - rewrite taskState_checkpointed_failed, Hp, Hc, Hf. by rewrite decide_False.
Qed.

(** C3, at a concrete input. *)
Lemma saveCheckpoint_torn_write_witness :
  ∃ w',
    saveCheckpoint envUpdateFails sessionId0 "T00-001" completed
      (mkOptions None (Some 1200%Z) None) worldInterrupted
    = (Throw SqlError, w')
    ∧ checkpointRows (db w')
      = checkpointRows (db worldInterrupted)
          ++ [checkpointRow sessionId0 (now envUpdateFails (tick worldInterrupted))
                "T00-001" completed (mkOptions None (Some 1200%Z) None)]
    ∧ sessions (db w') = sessions (db worldInterrupted).
Proof.
  apply (saveCheckpoint_torn_write envUpdateFails worldInterrupted sessionId0
           sessionInterrupted).
  - apply (stored_inv envUpdateFails worldInterrupted _ _ worldInterrupted).
    vm_compute. reflexivity.
  - vm_compute. reflexivity.
  - vm_compute. reflexivity.
Defined.

(** C9, at a concrete input. *)
Lemma saveCheckpoint_other_status_witness :
  (∃ w' row',
     saveCheckpoint env0 sessionId0 "T00-001" blocked (mkOptions None None None) world0
     = (Ok (), w')
     ∧ checkpointRows (db w')
       = checkpointRows (db world0)
           ++ [checkpointRow sessionId0 (now env0 (tick world0)) "T00-001" blocked
                 (mkOptions None None None)]
     ∧ sessions (db w') !! sessionId0 = Some row'
     ∧ current_task row' = None
     ∧ last_checkpoint_at row' = Some (now env0 (tick world0))
     ∧ completed_tasks row' = Session.completedTasks session0
     ∧ failed_tasks row' = Session.failedTasks session0
     ∧ pending_tasks row' = Session.pendingTasks session0)
  ∧ ("T00-001" ∉ Session.completedTasks session0 →
     "T00-001" ∉ Session.failedTasks session0 →
     ∃ w' row',
       (startTask env0 sessionId0 "T00-001";;
        saveCheckpoint env0 sessionId0 "T00-001" blocked (mkOptions None None None))
         world0
       = (Ok (), w')
       ∧ sessions (db w') !! sessionId0 = Some row'
       ∧ current_task row' = None
       ∧ "T00-001" ∉ pending_tasks row'
       ∧ "T00-001" ∉ completed_tasks row'
       ∧ "T00-001" ∉ failed_tasks row').
Proof.
  apply (saveCheckpoint_other_status env0 world0 sessionId0 session0 "T00-001"
           blocked (mkOptions None None None)).
  - apply env_reliable.
  - exact world0_stored.
  - discriminate.
  - discriminate.
Defined.

End ExecutorProofs.

(** ** Estimates *)

Module EstimationProofs.
Import Estimation.

Lemma span_spec p s :
  let '(a, b) := span p s in
  s = a +:+ b ∧ allChars p a ∧ (∀ c b', b = String c b' → p c = false).
Proof.
  induction s as [|c s IH]; simpl; [done|].
  destruct (p c) eqn:Hc.
  - destruct (span p s) as [a b]. destruct IH as (-> & Ha & Hb). by split_and!.
  - split_and!; [done|done|]. by intros c' b' [= -> ->].
Qed.

Lemma span_app p a b :
  allChars p a → (∀ c b', b = String c b' → p c = false) →
  span p (a +:+ b) = (a, b).
Proof.
  intros Ha Hb. induction a as [|c a IH]; simpl.
  - destruct b as [|c b]; [done|]. simpl. by rewrite (Hb c b).
  - destruct Ha as [-> Ha]. by rewrite IH.
Qed.

(** The matcher accepts only what the pattern describes ... *)
Lemma matchEstimate_sound s whole fraction unit :
  matchEstimate s = Some (whole, fraction, unit) → matchesEstimatePattern s.
Proof.
  unfold matchEstimate.
  pose proof (span_spec isDigit s) as H1.
  destruct (span isDigit s) as [w rest1]. destruct H1 as (-> & Hw & _).
  destruct (decide (w = "")) as [|Hne]; [done|].
  assert (Hfrac : ∀ f rest2,
    match rest1 with
    | String "." rest' =>
        let '(digits, rest'') := span isDigit rest' in
        if decide (digits = "") then ("", rest1) else (digits, rest'')
    | _ => ("", rest1)
    end = (f, rest2) →
    ∃ ftext, rest1 = ftext +:+ rest2
             ∧ (ftext = "" ∨ ∃ digits, ftext = "." +:+ digits ∧ digits ≠ ""
                                        ∧ allChars isDigit digits)).
  { intros f rest2 Heq.
    assert (Hnone : ("", rest1) = (f, rest2) →
      ∃ ftext, rest1 = ftext +:+ rest2
               ∧ (ftext = "" ∨ ∃ digits, ftext = "." +:+ digits ∧ digits ≠ ""
                                          ∧ allChars isDigit digits)).
    { intros [= <- <-]. exists "". by split; [|left]. }
    destruct rest1 as [|c rest']; [by apply Hnone|].
    destruct (decide (c = "."%char)) as [->|Hc].
    - pose proof (span_spec isDigit rest') as H2.
      destruct (span isDigit rest') as [digits rest''].
      destruct H2 as (-> & Hd & _).
      destruct (decide (digits = "")) as [|Hdne]; [by apply Hnone|].
      injection Heq as <- <-. exists ("." +:+ digits). split; [done|].
      right. by exists digits.
    - apply Hnone. revert Heq. clear -Hc.
      destruct c as [[] [] [] [] [] [] [] []]; done. }
  destruct (match rest1 with String "." _ => _ | _ => _ end) as [f rest2].
  destruct (Hfrac f rest2 eq_refl) as (ftext & -> & Hftext).
  pose proof (span_spec isSpace rest2) as H3.
  destruct (span isSpace rest2) as [sp rest3]. destruct H3 as (-> & Hsp & _).
  destruct (decide (rest3 = "")) as [->|Hr3].
  - intros _. exists w, ftext, sp, "". split_and!; auto.
  - destruct (decide (toLowerCase rest3 ∈ unitWords)) as [Hunit|]; [|done].
    intros _. exists w, ftext, sp, rest3. split_and!; auto.
Qed.

Lemma lower_h_or_d c :
  toLower c = "h"%char ∨ toLower c = "d"%char →
  isDigit c = false ∧ isSpace c = false ∧ c ≠ "."%char.
Proof.
  destruct c as [[] [] [] [] [] [] [] []]; vm_compute; intros [?|?]; try done.
Qed.

Lemma unit_first_letter unit :
  toLowerCase unit ∈ unitWords →
  ∃ c rest, unit = String c rest ∧ (toLower c = "h"%char ∨ toLower c = "d"%char).
Proof.
  destruct unit as [|c rest]; simpl.
  - intros H. exfalso. revert H. unfold unitWords.
    rewrite !elem_of_cons, elem_of_nil. naive_solver.
  - intros H. exists c, rest. split; [done|]. revert H. unfold unitWords.
    rewrite !elem_of_cons, elem_of_nil.
    intros [H|[H|[H|[H|[H|[H|[H|[H|[]]]]]]]]]; injection H as H _; auto.
Qed.

(** ... and everything the pattern describes. *)
Lemma matchEstimate_complete s :
  matchesEstimatePattern s → is_Some (matchEstimate s).
Proof.
  intros (whole & fraction & spaces & unit & -> & Hne & Hw & Hf & Hsp & Hunit).
  (* what the unit starts with *)
  assert (Hu : ∀ c b', unit = String c b' →
                isDigit c = false ∧ isSpace c = false ∧ c ≠ "."%char).
  { intros c b' ->. destruct Hunit as [|Hunit]; [done|].
    destruct (unit_first_letter _ Hunit) as (c' & rest & [= <- <-] & Hc).
    by apply lower_h_or_d. }
  assert (Hspace_not_digit : ∀ c, isSpace c = true →
                               isDigit c = false ∧ c ≠ "."%char).
  { intros c. destruct c as [[] [] [] [] [] [] [] []]; vm_compute; done. }
  (* what the spaces and the unit start with *)
  assert (Hsu : ∀ c b', spaces +:+ unit = String c b' →
                  isDigit c = false ∧ c ≠ "."%char).
  { intros c b'. destruct spaces as [|c0 sp]; simpl.
    - intros Heq. destruct (Hu c b' Heq) as (? & _ & ?). done.
    - intros [= -> _]. destruct Hsp as [Hc _]. by apply Hspace_not_digit. }
  unfold matchEstimate.
  assert (Hfirst : ∀ c b', fraction +:+ spaces +:+ unit = String c b' →
                     isDigit c = false).
  { intros c b'. destruct Hf as [->|(digits & -> & _)]; simpl.
    - intros Heq. by destruct (Hsu c b' Heq).
    - by intros [= <- _]. }
  rewrite (span_app isDigit whole _ Hw Hfirst).
  rewrite decide_False by done.
  assert (Hrest : ∃ f,
    match fraction +:+ spaces +:+ unit with
    | String "." rest' =>
        let '(digits, rest'') := span isDigit rest' in
        if decide (digits = "") then ("", fraction +:+ spaces +:+ unit)
        else (digits, rest'')
    | _ => ("", fraction +:+ spaces +:+ unit)
    end = (f, spaces +:+ unit)).
  { destruct Hf as [->|(digits & -> & Hdne & Hd)]; simpl.
    - exists "". destruct (spaces +:+ unit) as [|c b'] eqn:Heq; [done|].
      destruct (Hsu c b' eq_refl) as [_ Hdot].
      revert Hdot. clear. destruct c as [[] [] [] [] [] [] [] []]; done.
    - exists digits. rewrite (span_app isDigit digits _ Hd).
      + by rewrite decide_False.
      + intros c b' Heq. by destruct (Hsu c b' Heq). }
  destruct Hrest as [f ->].
  rewrite (span_app isSpace spaces unit Hsp).
  2:{ intros c b' Heq. by destruct (Hu c b' Heq) as (_ & ? & _). }
  destruct (decide (unit = "")); [done|].
  destruct Hunit as [|Hunit]; [done|]. by rewrite decide_True.
Qed.

Lemma matchEstimate_None s :
  matchEstimate s = None ↔ ¬ matchesEstimatePattern s.
Proof.
  split.
  - intros Hnone Hpat. apply matchEstimate_complete in Hpat as [m Hm]. congruence.
  - intros Hnot. destruct (matchEstimate s) as [[[w f] u]|] eqn:Hm; [|done].
    exfalso. by eapply Hnot, matchEstimate_sound.
Qed.

(** *** Hours *)

Lemma waveHoursFrom_compat a a' wave :
  Qeq a a' → Qeq (waveHoursFrom a wave) (waveHoursFrom a' wave).
Proof.
  unfold waveHoursFrom. revert a a'.
  induction wave as [|t wave IH]; intros a a' Heq; simpl; [done|].
  apply IH. by apply Q.max_compat.
Qed.

Lemma waveHoursFrom_app a before after :
  waveHoursFrom a (before ++ after)
  = waveHoursFrom (waveHoursFrom a before) after.
Proof. unfold waveHoursFrom. by rewrite foldl_app. Qed.

Lemma waveHoursFrom_ge a wave : (a <= waveHoursFrom a wave)%Q.
Proof.
  unfold waveHoursFrom. revert a.
  induction wave as [|t wave IH]; intros a; simpl; [apply Qle_refl|].
  eapply Qle_trans; [|apply IH]. apply Q.le_max_l.
Qed.

Lemma totalHoursFrom_compat a a' waves :
  Qeq a a' → Qeq (totalHoursFrom a waves) (totalHoursFrom a' waves).
Proof.
  unfold totalHoursFrom. revert a a'.
  induction waves as [|w waves IH]; intros a a' Heq; simpl; [done|].
  apply IH. by rewrite Heq.
Qed.

Lemma totalHoursFrom_app a before after :
  totalHoursFrom a (before ++ after)
  = totalHoursFrom (totalHoursFrom a before) after.
Proof. unfold totalHoursFrom. by rewrite foldl_app. Qed.

(** C10.  A task whose estimate is absent or does not match the pattern
    "number, optional hour or day unit" parses to 0 hours, and taking it out
    of its wave changes neither the duration of the wave (the maximum over
    its tasks) nor the total (the sum over the waves). *)
Theorem unparseable_estimate_counts_nothing (t : Task) :
  unparseable t →
  parseEstimate (estimate t) = 0%Q
  ∧ (∀ before after,
       Qeq (waveHours (before ++ t :: after)) (waveHours (before ++ after)))
  ∧ (∀ wavesBefore wavesAfter before after,
       Qeq (totalHours (wavesBefore ++ (before ++ t :: after) :: wavesAfter))
           (totalHours (wavesBefore ++ (before ++ after) :: wavesAfter))).
Proof.
  intros Hun.
  assert (Hzero : parseEstimate (estimate t) = 0%Q).
  { unfold parseEstimate, unparseable in *.
    destruct (estimate t) as [text|]; [|done]. simpl.
    destruct (decide (text = "")); [done|].
    apply matchEstimate_None in Hun. by rewrite Hun. }
  assert (Hwave : ∀ before after,
    Qeq (waveHours (before ++ t :: after)) (waveHours (before ++ after))).
  { intros before after. unfold waveHours.
    rewrite !waveHoursFrom_app.
    change (waveHoursFrom (waveHoursFrom 0 before) (t :: after))
      with (waveHoursFrom (Qmax (waveHoursFrom 0 before) (parseEstimate (estimate t)))
              after).
    apply waveHoursFrom_compat. rewrite Hzero.
    apply Q.max_l, (waveHoursFrom_ge 0%Q before). }
  split_and!; [done|done|].
  intros wavesBefore wavesAfter before after. unfold totalHours.
  rewrite !totalHoursFrom_app.
  set (sofar := totalHoursFrom 0 wavesBefore).
  change (Qeq (totalHoursFrom (sofar + waveHours (before ++ t :: after)) wavesAfter)
              (totalHoursFrom (sofar + waveHours (before ++ after)) wavesAfter)).
  apply totalHoursFrom_compat. by rewrite Hwave.
Qed.

Example parseEstimate_hours : parseEstimate (Some "8h") = 8%Q.
Proof. reflexivity. Qed.

Example parseEstimate_days : Qeq (parseEstimate (Some "2 Days")) 16.
Proof. reflexivity. Qed.

Example parseEstimate_fraction : Qeq (parseEstimate (Some "1.5hrs")) (3 # 2).
Proof. reflexivity. Qed.

Example parseEstimate_bare_number : parseEstimate (Some "4") = 4%Q.
Proof. reflexivity. Qed.

Lemma unparseable_estimate_counts_nothing_witness :
  unparseable LoaderExamples.vagueTask
  ∧ parseEstimate (estimate LoaderExamples.vagueTask) = 0%Q
  ∧ (∀ before after,
       Qeq (waveHours (before ++ LoaderExamples.vagueTask :: after))
           (waveHours (before ++ after)))
  ∧ (∀ wavesBefore wavesAfter before after,
       Qeq (totalHours (wavesBefore
                          ++ (before ++ LoaderExamples.vagueTask :: after)
                          :: wavesAfter))
           (totalHours (wavesBefore ++ (before ++ after) :: wavesAfter))).
Proof.
  assert (H : unparseable LoaderExamples.vagueTask).
  { apply matchEstimate_None. vm_compute. reflexivity. }
  split; [exact H|].
  apply (unparseable_estimate_counts_nothing LoaderExamples.vagueTask H).
Defined.

End EstimationProofs.

(** ** Task loader *)

Module LoaderProofs.
Import TaskLoader LoaderExamples.

(** What [loadTask] returns is the task file's record under the requested
    id: it never looks at the metadata of the phase. *)
Lemma loadTask_returns_descriptor specs taskId t :
  loadTask specs taskId = Some t →
  ∃ folder dir, folder ∈ specEntries specs ∧ dir ∈ folderEntries folder
                ∧ t = withId taskId (descriptor dir).
Proof.
  unfold loadTask. destruct (matchTaskPhase taskId) as [digits|]; [|done].
  destruct (negb (specsDirExists specs)); [done|].
  unfold findPhaseFolder.
  destruct (List.find _ (specEntries specs)) as [folder|] eqn:Hfolder; [|done].
  destruct (negb (folderIsDirectory folder)); [done|].
  destruct (List.find _ (folderEntries folder)) as [dir|] eqn:Hdir; [|done].
  intros [= <-]. exists folder, dir.
  apply find_some in Hfolder as [Hfolder _]. apply find_some in Hdir as [Hdir _].
  by rewrite !list_elem_of_In.
Qed.

(** The sibling path: a task loaded with its phase carries the values of
    its metadata entry. *)
Lemma loadPhase_overlays specs phase t :
  t ∈ loadPhase specs phase →
  ∃ folder, folder ∈ specEntries specs ∧
    ∀ m metaTask,
      metaFile folder = MetaValid m →
      metaTaskMapOf (Some m) !! id t = Some metaTask →
      dependencies t = entry_dependencies metaTask
      ∧ estimate t = Some (pretty (entry_estimate metaTask) +:+ "h")
      ∧ priority t = Some (entry_priority metaTask).
Proof.
  unfold loadPhase. destruct (negb (specsDirExists specs)).
  { by intros ?%elem_of_nil. }
  unfold findPhaseFolder.
  destruct (List.find _ (specEntries specs)) as [folder|] eqn:Hfolder.
  2:{ by intros ?%elem_of_nil. }
  destruct (negb (folderIsDirectory folder)).
  { by intros ?%elem_of_nil. }
  rewrite merge_sort_Permutation, list_elem_of_omap.
  intros (entry & _ & Hentry). exists folder. split.
  { apply find_some in Hfolder as [Hfolder _]. by rewrite list_elem_of_In. }
  intros m metaTask Hmeta Hlook. rewrite Hmeta in Hentry.
  destruct (matchTaskDir (entryName entry)) as [taskId|]; [|done].
  destruct (entryIsDirectory entry); [|done].
  unfold loadTaskFromDir in Hentry. cbn -[metaTaskMapOf] in Hentry.
  destruct (metaTaskMapOf (Some m) !! taskId) as [metaTask'|] eqn:Hlook'.
  - injection Hentry as <-. cbn -[metaTaskMapOf] in Hlook. rewrite Hlook' in Hlook.
    by injection Hlook as <-.
  - injection Hentry as <-. cbn -[metaTaskMapOf] in Hlook. congruence.
Qed.

(** C5, on the code: the same task, loaded with its phase and loaded by
    id.  With the phase it carries the metadata values; by id, the way
    [loadTasks] with explicit ids and resume load it, it carries what the
    task file declares. *)
Theorem loadTask_skips_metadata :
  (∃ t, t ∈ loadTasks specs0 (mkLoadOptions (Some "p00") None)
        ∧ id t = "T00-002"
        ∧ dependencies t = ["T00-001"]
        ∧ estimate t = Some "3h"
        ∧ priority t = Some P0)
  ∧ (∃ t, loadTask specs0 "T00-002" = Some t
          ∧ dependencies t = []
          ∧ estimate t = Some "1h"
          ∧ priority t = Some P2)
  ∧ (∃ t, loadTasks specs0 (mkLoadOptions None (Some ["T00-002"])) = [t]
          ∧ dependencies t = []
          ∧ estimate t = Some "1h"
          ∧ priority t = Some P2).
Proof.
  split_and!.
  - exists (mkTask "T00-002" "build" None pending 1 ["T00-001"] (Some "3h")
              (Some P0) None).
    split; [|by split_and!].
    vm_compute. apply elem_of_cons. right. apply elem_of_cons. by left.
  - eexists. split; [vm_compute; reflexivity|]. by split_and!.
  - eexists. split; [vm_compute; reflexivity|]. by split_and!.
Qed.

End LoaderProofs.

(** ** Hook policy *)

(** ** Scheduler *)

Module SchedulerProofs.
Import Scheduler SchedulerSpec SchedulerInvariants.

(** *** Dependency validation *)

Lemma checkDependencies_spec taskIds taskId deps :
  (checkDependencies taskIds taskId deps = Ok () ∧ ∀ d, d ∈ deps → d ∈ taskIds)
  ∨ (∃ d, checkDependencies taskIds taskId deps = Throw (UnknownDependency taskId d)
          ∧ d ∈ deps ∧ d ∉ taskIds).
Proof.
  induction deps as [|dep deps IH]; simpl.
  - left. split; [done|]. intros d Hd. by apply elem_of_nil in Hd.
  - destruct (decide (dep ∈ taskIds)) as [Hin|Hout].
    + destruct IH as [[-> Hall]|(d & -> & Hd & Hnot)].
      * left. split; [done|]. intros d [->|Hd]%elem_of_cons; auto.
      * right. exists d. split_and!; [done| |done]. by apply elem_of_cons; right.
    + right. exists dep. split_and!; [done| |done]. by apply elem_of_cons; left.
Qed.

Lemma validateDependencies_spec taskIds tasks :
  (validateDependencies taskIds tasks = Ok ()
   ∧ ∀ t d, t ∈ tasks → d ∈ dependencies t → d ∈ taskIds)
  ∨ (∃ t d, validateDependencies taskIds tasks = Throw (UnknownDependency (id t) d)
            ∧ t ∈ tasks ∧ d ∈ dependencies t ∧ d ∉ taskIds).
Proof.
  induction tasks as [|task tasks IH]; simpl.
  - left. split; [done|]. intros t d Ht. by apply elem_of_nil in Ht.
  - destruct (checkDependencies_spec taskIds (id task) (dependencies task))
      as [[-> Hall]|(d & -> & Hd & Hnot)]; simpl.
    + destruct IH as [[-> Hall']|(t & d & -> & Ht & Hd & Hnot)].
      * left. split; [done|]. intros t d [->|Ht]%elem_of_cons; eauto.
      * right. exists t, d. split_and!; auto. by apply elem_of_cons; right.
    + right. exists task, d. split_and!; auto. by apply elem_of_cons; left.
Qed.

(** *** The task map *)

Lemma taskMap_fold_lookup tasks (m : gmap string Task) a t :
  foldl (λ m t, <[id t := t]> m) m tasks !! a = Some t →
  (t ∈ tasks ∧ id t = a) ∨ m !! a = Some t.
Proof.
  revert m. induction tasks as [|t0 tasks IH]; intros m; simpl; [by right|].
  intros [[Hin Hid]|Hm]%IH.
  - left. split; [|done]. by apply elem_of_cons; right.
  - destruct (decide (id t0 = a)) as [<-|Hne].
    + rewrite lookup_insert_eq in Hm. injection Hm as <-.
      left. split; [|done]. by apply elem_of_cons; left.
    + rewrite lookup_insert_ne in Hm; [|done]. by right.
Qed.

Lemma taskMapOf_lookup tasks a t :
  taskMapOf tasks !! a = Some t → t ∈ tasks ∧ id t = a.
Proof.
  intros [H|H]%taskMap_fold_lookup; [done|]. by rewrite lookup_empty in H.
Qed.

Lemma taskMap_fold_other tasks (m : gmap string Task) a :
  a ∉ id <$> tasks →
  foldl (λ m t, <[id t := t]> m) m tasks !! a = m !! a.
Proof.
  revert m. induction tasks as [|t0 tasks IH]; intros m Hnot; simpl; [done|].
  rewrite fmap_cons in Hnot. apply not_elem_of_cons in Hnot as [Hne Hnot].
  rewrite IH; [|done]. by rewrite lookup_insert_ne.
Qed.

Lemma taskMap_fold_unique tasks (m : gmap string Task) t :
  NoDup (id <$> tasks) → t ∈ tasks →
  foldl (λ m t, <[id t := t]> m) m tasks !! id t = Some t.
Proof.
  revert m. induction tasks as [|t0 tasks IH]; intros m Hnd Hin; simpl.
  - by apply elem_of_nil in Hin.
  - rewrite fmap_cons in Hnd. apply NoDup_cons in Hnd as [Hfresh Hnd].
    apply elem_of_cons in Hin as [->|Hin]; [|by apply IH].
    rewrite taskMap_fold_other; [|done]. by rewrite lookup_insert_eq.
Qed.

Lemma taskMapOf_unique tasks t :
  uniqueIds tasks → t ∈ tasks → taskMapOf tasks !! id t = Some t.
Proof. apply taskMap_fold_unique. Qed.

(** *** Depth-first search *)

Lemma closed_tc (R : relation string) (P : string → Prop) a b :
  (∀ x y, P x → R x y → P y) → tc R a b → P a → P b.
Proof. intros Hcl Htc. induction Htc; eauto. Qed.

Lemma size_unvisited_insert (tm : gmap string Task) (vis : gset string) x :
  x ∈ dom tm → x ∉ vis →
  size (dom tm ∖ vis) = S (size (dom tm ∖ ({[x]} ∪ vis))).
Proof.
  intros Hdom Hvis.
  assert (dom tm ∖ vis = {[x]} ∪ (dom tm ∖ ({[x]} ∪ vis))) as ->.
  { apply set_eq. intros y. destruct (decide (y = x)); set_solver. }
  rewrite size_union; [|set_solver]. by rewrite size_singleton.
Qed.

Lemma dfs_spec tm fuel : ∀ x path st,
  size (dom tm ∖ visited st) < fuel →
  dfsInv tm st →
  (∀ s, s ∈ recursionStack st → tc (medge tm) s x) →
  dfsPost tm st x (dfs fuel tm x path st).
Proof.
  induction fuel as [|fuel IH]; intros x path st Hfuel Hinv Hchain; [lia|].
  simpl. destruct (decide (x ∈ recursionStack st)) as [Hstack|Hstack].
  { exists path, x. split; [done|]. by apply Hchain. }
  destruct (decide (x ∈ visited st)) as [Hvis|Hvis].
  { simpl. split_and!; auto. }
  set (st1 := {| visited := {[x]} ∪ visited st;
                 recursionStack := {[x]} ∪ recursionStack st |}).
  assert (Hinv1 : dfsInv tm st1).
  { destruct Hinv as [Hs Hc Ha]. split; simpl.
    - set_solver.
    - intros b c Hb Hnb Hbc.
      assert (b ∈ visited st ∧ b ∉ recursionStack st) as [Hb1 Hb2] by set_solver.
      destruct (Hc b c Hb1 Hb2 Hbc) as [Hc1 Hc2].
      split; [set_solver|]. intros [->%elem_of_singleton|?]%elem_of_union; done.
    - intros b Hb Hnb. apply Ha; set_solver. }
  (* leaving [x]: it comes off the stack and is finished *)
  assert (Hleave : ∀ st2,
    recursionStack st2 = recursionStack st1 → visited st1 ⊆ visited st2 →
    dfsInv tm st2 →
    (∀ c, medge tm x c → c ∈ visited st2 ∧ c ∉ recursionStack st2) →
    dfsPost tm st x (Ok {| visited := visited st2;
                           recursionStack := recursionStack st2 ∖ {[x]} |})).
  { intros st2 Hst Hsub [Hs Hc Ha] Hdeps. simpl in *.
    assert (Heq : recursionStack st2 ∖ {[x]} = recursionStack st).
    { rewrite Hst. apply set_eq. intros y. destruct (decide (y = x)); set_solver. }
    rewrite !Heq.
    assert (Hx2 : x ∈ recursionStack st2) by (rewrite Hst; set_solver).
    split_and!; [done|set_solver|set_solver|done|].
    split; simpl; rewrite ?Heq.
    - set_solver.
    - intros b c Hb Hnb Hbc. destruct (decide (b = x)) as [->|Hne].
      + destruct (Hdeps c Hbc) as [? Hc2]. split; [done|]. set_solver.
      + assert (b ∉ recursionStack st2) by (rewrite Hst; set_solver).
        destruct (Hc b c Hb H Hbc) as [? Hc2]. split; [done|]. set_solver.
    - intros b Hb Hnb. destruct (decide (b = x)) as [->|Hne].
      + intros Hcyc.
        assert (Hfin : ∃ c, medge tm x c ∧ (c = x ∨ tc (medge tm) c x)).
        { inversion Hcyc; subst; eauto. }
        destruct Hfin as (c & Hxc & Hcx). destruct (Hdeps c Hxc) as [Hc1 Hc2].
        destruct Hcx as [->|Hcx]; [done|].
        assert (x ∈ visited st2 ∧ x ∉ recursionStack st2) as [_ ?]; [|done].
        eapply (closed_tc (medge tm)
                  (λ y, y ∈ visited st2 ∧ y ∉ recursionStack st2)); [|done|done].
        intros y z [? ?] ?. eauto.
      + apply Ha; [done|]. rewrite Hst; set_solver. }
  destruct (tm !! x) as [task|] eqn:Hlook; simpl.
  2:{ apply (Hleave st1); [done|done|done|].
      intros c (t & Ht & _). congruence. }
  (* the loop over the dependencies of [x] *)
  assert (Hloop : ∀ deps st',
    (∀ d, d ∈ deps → d ∈ dependencies task) →
    recursionStack st' = recursionStack st1 → visited st1 ⊆ visited st' →
    dfsInv tm st' →
    match forEach (λ dep, dfs fuel tm dep (path ++ [x])) deps st' with
    | Ok st2 =>
        recursionStack st2 = recursionStack st1 ∧ visited st' ⊆ visited st2
        ∧ dfsInv tm st2
        ∧ ∀ d, d ∈ deps → d ∈ visited st2 ∧ d ∉ recursionStack st2
    | Throw e => reportsCycle (medge tm) e
    | OutOfFuel => False
    end).
  { induction deps as [|d deps IHdeps]; intros st' Hd Hst Hsub Hinv'; simpl.
    { split_and!; auto. intros d Hin. by apply elem_of_nil in Hin. }
    assert (Hcall : dfsPost tm st' d (dfs fuel tm d (path ++ [x]) st')).
    { apply IH; [|done|].
      - assert (x ∈ dom tm) by (apply elem_of_dom; eauto).
        rewrite (size_unvisited_insert tm (visited st) x) in Hfuel by done.
        assert (size (dom tm ∖ visited st') ≤ size (dom tm ∖ ({[x]} ∪ visited st))).
        { apply subseteq_size. simpl in Hsub. set_solver. }
        lia.
      - intros s Hs. rewrite Hst in Hs. simpl in Hs.
        assert (Hxd : medge tm x d).
        { exists task. split; [done|]. apply Hd. by apply elem_of_cons; left. }
        apply elem_of_union in Hs as [->%elem_of_singleton|Hs].
        + by apply tc_once.
        + eapply tc_r; [by apply Hchain|done]. }
    destruct (dfs fuel tm d (path ++ [x]) st') as [st''| |]; simpl in *; [|done|done].
    destruct Hcall as (Hst'' & Hsub'' & Hdv & Hds & Hinv'').
    specialize (IHdeps st'').
    destruct (forEach _ deps st'') as [st2| |]; simpl in *.
    - destruct IHdeps as (Hst2 & Hsub2 & Hinv2 & Hall); [| |set_solver|done|].
      { intros d' ?. apply Hd. by apply elem_of_cons; right. }
      { congruence. }
      split_and!; [done|set_solver|done|].
      intros d' [->|Hin]%elem_of_cons; [|by apply Hall].
      split; [set_solver|]. rewrite Hst2, <- Hst, <- Hst''. done.
    - apply IHdeps; [|congruence|set_solver|done].
      intros d' ?. apply Hd. by apply elem_of_cons; right.
    - apply IHdeps; [|congruence|set_solver|done].
      intros d' ?. apply Hd. by apply elem_of_cons; right. }
  specialize (Hloop (dependencies task) st1).
  destruct (forEach _ (dependencies task) st1) as [st2| |]; simpl in *.
  - destruct Hloop as (Hst2 & Hsub2 & Hinv2 & Hall); [done|done|done|done|].
    apply (Hleave st2); [done|done|done|].
    intros c (t & Ht & Hc). apply Hall. congruence.
  - by apply Hloop.
  - by apply Hloop.
Qed.

(** The outer loop of [detectCircularDependencies]. *)
Lemma detectCircularDependencies_spec tasks :
  let tm := taskMapOf tasks in
  match detectCircularDependencies tasks with
  | Ok _ => ∀ t, t ∈ tasks → ¬ tc (medge tm) (id t) (id t)
  | Throw e => reportsCycle (medge tm) e
  | OutOfFuel => False
  end.
Proof.
  intros tm. unfold detectCircularDependencies. fold tm.
  set (body := λ (task : Task) (st : DfsState),
         if decide (id task ∈ visited st) then Ok st
         else dfs (dfsFuel tm) tm (id task) [] st).
  assert (Hloop : ∀ ts st,
    recursionStack st = ∅ → dfsInv tm st →
    match forEach body ts st with
    | Ok st' => recursionStack st' = ∅ ∧ visited st ⊆ visited st' ∧ dfsInv tm st'
                ∧ ∀ t, t ∈ ts → id t ∈ visited st'
    | Throw e => reportsCycle (medge tm) e
    | OutOfFuel => False
    end).
  { induction ts as [|t ts IH]; intros st Hst Hinv; simpl.
    { split_and!; auto. intros t Ht. by apply elem_of_nil in Ht. }
    assert (Hcall : match body t st with
                    | Ok st' => recursionStack st' = ∅ ∧ visited st ⊆ visited st'
                                ∧ dfsInv tm st' ∧ id t ∈ visited st'
                    | Throw e => reportsCycle (medge tm) e
                    | OutOfFuel => False
                    end).
    { unfold body. destruct (decide (id t ∈ visited st)); [by split_and!|].
      pose proof (dfs_spec tm (dfsFuel tm) (id t) [] st) as Hdfs.
      destruct (dfs _ _ _ _ _) as [st'| |]; simpl in *.
      - destruct Hdfs as (Hst' & ? & ? & ? & ?); [|done| |].
        + unfold dfsFuel. rewrite <- size_dom.
          assert (size (dom tm ∖ visited st) ≤ size (dom tm)); [|lia].
          apply subseteq_size. set_solver.
        + intros s. rewrite Hst. set_solver.
        + split_and!; auto. congruence.
      - apply Hdfs; [|done|intros s; rewrite Hst; set_solver].
        unfold dfsFuel. rewrite <- size_dom.
        assert (size (dom tm ∖ visited st) ≤ size (dom tm)); [|lia].
        apply subseteq_size. set_solver.
      - apply Hdfs; [|done|intros s; rewrite Hst; set_solver].
        unfold dfsFuel. rewrite <- size_dom.
        assert (size (dom tm ∖ visited st) ≤ size (dom tm)); [|lia].
        apply subseteq_size. set_solver. }
    destruct (body t st) as [st'| |]; simpl in *; [|done|done].
    destruct Hcall as (Hst' & Hsub & Hinv' & Ht).
    specialize (IH st' Hst' Hinv').
    destruct (forEach body ts st') as [st''| |]; simpl in *; [|done|done].
    destruct IH as (? & ? & ? & Hall). split_and!; [done|set_solver|done|].
    intros t' [->|Hin]%elem_of_cons; [set_solver|by apply Hall]. }
  specialize (Hloop tasks {| visited := ∅; recursionStack := ∅ |}).
  destruct (forEach body tasks _) as [st'| |]; simpl in *.
  - destruct Hloop as (Hst' & _ & Hinv' & Hall); [done| |].
    { split; simpl; set_solver. }
    intros t Ht. apply (inv_acyclic _ _ Hinv'); [by apply Hall|].
    rewrite Hst'. set_solver.
  - apply Hloop; [done|]. split; simpl; set_solver.
  - apply Hloop; [done|]. split; simpl; set_solver.
Qed.

(** The edges of the task map are dependency edges of the input, and with
    unique ids they are all of them. *)
Lemma medge_depends tasks a b :
  medge (taskMapOf tasks) a b → depends tasks a b.
Proof.
  intros (t & [Hin Hid]%taskMapOf_lookup & Hb). by exists t.
Qed.

Lemma depends_medge tasks a b :
  uniqueIds tasks → depends tasks a b → medge (taskMapOf tasks) a b.
Proof.
  intros Hu (t & Hin & <- & Hb). exists t. split; [|done].
  by apply taskMapOf_unique.
Qed.

Lemma tc_mono {A} (R R' : relation A) a b :
  (∀ x y, R x y → R' x y) → tc R a b → tc R' a b.
Proof.
  intros Hsub Htc. induction Htc; [apply tc_once|eapply tc_l]; eauto.
Qed.

Lemma reportsCycle_onCycle tasks e :
  reportsCycle (medge (taskMapOf tasks)) e →
  ∃ p c, e = CircularDependency (p ++ [c]) ∧ onCycle tasks c.
Proof.
  intros (p & c & -> & Hc). exists p, c. split; [done|].
  eapply tc_mono; [|done]. apply medge_depends.
Qed.

Lemma detect_acyclic tasks :
  acyclic tasks → detectCircularDependencies tasks = Ok ().
Proof.
  intros Hac. pose proof (detectCircularDependencies_spec tasks) as H.
  simpl in H. destruct (detectCircularDependencies tasks) as [[]|e|]; [done| |done].
  apply reportsCycle_onCycle in H as (p & c & _ & Hc). by apply Hac in Hc.
Qed.

Lemma detect_cyclic tasks :
  uniqueIds tasks → cyclic tasks →
  ∃ p c, detectCircularDependencies tasks = Throw (CircularDependency (p ++ [c]))
         ∧ onCycle tasks c.
Proof.
  intros Hu [a Ha]. pose proof (detectCircularDependencies_spec tasks) as H.
  simpl in H. destruct (detectCircularDependencies tasks) as [[]|e|]; [|  |done].
  - exfalso.
    assert (∃ t, t ∈ tasks ∧ id t = a) as (t & Ht & <-).
    { inversion Ha as [?? (t & ? & ? & ?)|??? (t & ? & ? & ?)]; eauto. }
    apply (H t Ht). eapply tc_mono; [|exact Ha].
    intros x y. by apply depends_medge.
  - apply reportsCycle_onCycle in H as (p & c & -> & Hc). eauto.
Qed.

(** *** Waves inside one group *)

Lemma elem_of_idsOf ts a : a ∈ idsOf ts ↔ ∃ t, t ∈ ts ∧ id t = a.
Proof.
  unfold idsOf. rewrite elem_of_list_to_set, list_elem_of_fmap. naive_solver.
Qed.

Lemma idsOf_app ts us : idsOf (ts ++ us) = idsOf ts ∪ idsOf us.
Proof. unfold idsOf. by rewrite fmap_app, list_to_set_app_L. Qed.

Lemma addAll_idsOf completed wave : addAll completed wave = completed ∪ idsOf wave.
Proof.
  unfold addAll. revert completed.
  induction wave as [|t wave IH]; intros completed; simpl.
  - unfold idsOf. simpl. set_solver.
  - rewrite IH. unfold idsOf. rewrite fmap_cons. simpl. set_solver.
Qed.

Lemma depsCompleted_true C t :
  depsCompleted C t = true ↔ ∀ d, d ∈ dependencies t → d ∈ C.
Proof.
  unfold depsCompleted. rewrite forallb_forall. split.
  - intros H d Hd. apply list_elem_of_In, H in Hd. by apply bool_decide_eq_true in Hd.
  - intros H d Hd. apply bool_decide_eq_true, H. by apply list_elem_of_In.
Qed.

Lemma depsCompleted_false C t :
  depsCompleted C t = false → ∃ d, d ∈ dependencies t ∧ d ∉ C.
Proof.
  unfold depsCompleted. induction (dependencies t) as [|d ds IH]; simpl; [done|].
  intros [H|H]%andb_false_iff.
  - exists d. split; [by apply elem_of_cons; left|]. by apply bool_decide_eq_false in H.
  - destruct (IH H) as (d' & ? & ?). exists d'. split; [by apply elem_of_cons; right|done].
Qed.

Lemma sweep_spec C remaining :
  let '(wave, rest) := sweep C remaining in
  wave ++ rest ≡ₚ remaining
  ∧ (∀ t, t ∈ wave → depsCompleted C t = true)
  ∧ (∀ t, t ∈ rest → depsCompleted C t = false).
Proof.
  induction remaining as [|t remaining IH]; simpl.
  { split_and!; [done| |]; intros t Ht; by apply elem_of_nil in Ht. }
  destruct (sweep C remaining) as [wave rest].
  destruct IH as (Hperm & Hw & Hr).
  destruct (depsCompleted C t) eqn:Hready.
  - split_and!.
    + rewrite <- Hperm, <- (assoc_L (++)). simpl.
      by rewrite <- Permutation_middle.
    + intros t' [Ht'| ->%list_elem_of_singleton]%elem_of_app; auto.
    + done.
  - split_and!.
    + rewrite <- Hperm. by rewrite <- Permutation_middle.
    + done.
    + intros t' [->|Ht']%elem_of_cons; auto.
Qed.

(** A non-empty finite set in which every element has a successor contains
    a cycle.  The head of the list is short-cut and the tail handled by
    induction, for every relation at once. *)
Lemma closed_set_has_cycle {A} `{EqDecision A} (S : list A) : ∀ (R : relation A),
  S ≠ [] →
  (∀ x, x ∈ S → ∃ y, y ∈ S ∧ R x y) →
  ∃ c, c ∈ S ∧ tc R c c.
Proof.
  induction S as [|x S IH]; intros R Hne Hsucc; [done|].
  destruct (Hsucc x) as (z & Hz & Hxz); [by apply elem_of_cons; left|].
  destruct (decide (z = x)) as [->|Hzx].
  { exists x. split; [by apply elem_of_cons; left|by apply tc_once]. }
  apply elem_of_cons in Hz as [?|Hz]; [done|].
  set (R' := λ a b, R a b ∨ (R a x ∧ R x b)).
  destruct (IH R') as (c & Hc & Hcyc).
  - intros ->. by apply elem_of_nil in Hz.
  - intros y Hy. destruct (Hsucc y) as (w & Hw & Hyw); [by apply elem_of_cons; right|].
    destruct (decide (w = x)) as [->|Hwx].
    + exists z. split; [done|]. right. done.
    + apply elem_of_cons in Hw as [?|Hw]; [done|]. exists w. split; [done|]. by left.
  - exists c. split; [by apply elem_of_cons; right|].
    assert (Hexp : ∀ a b, tc R' a b → tc R a b); [|by apply Hexp].
    clear. intros a b Hab.
    induction Hab as [a b [Hab|[Hax Hxb]]|a b c' [Hab|[Hax Hxb]] _ IHt].
    + by apply tc_once.
    + eapply tc_l; [done|]. by apply tc_once.
    + by eapply tc_l.
    + eapply tc_l; [done|]. by eapply tc_l.
Qed.

Lemma goodWaves_app C ws1 ws2 :
  goodWaves C ws1 → goodWaves (C ∪ idsOf (concat ws1)) ws2 →
  goodWaves C (ws1 ++ ws2).
Proof.
  revert C. induction ws1 as [|w ws1 IH]; intros C; simpl.
  - intros _. unfold idsOf. simpl. by rewrite (right_id_L ∅ (∪)).
  - intros [Hw H1] H2. split; [done|]. apply IH; [done|].
    by rewrite idsOf_app, (assoc_L (∪)) in H2.
Qed.

Lemma stuck_is_cyclic tasks C remaining :
  remaining ≠ [] →
  (∀ t, t ∈ remaining → t ∈ tasks) →
  closedUnder C remaining →
  (∀ t, t ∈ remaining → depsCompleted C t = false) →
  cyclic tasks.
Proof.
  intros Hne Hsub Hcl Hstuck.
  destruct (closed_set_has_cycle remaining
              (λ t u, t ∈ tasks ∧ id u ∈ dependencies t) Hne) as (c & Hc & Hcyc).
  - intros t Ht. destruct (depsCompleted_false C t (Hstuck t Ht)) as (d & Hd & HdC).
    destruct (Hcl t d Ht Hd) as [?|(u & Hu & <-)]; [done|].
    exists u. split_and!; auto.
  - exists (id c). unfold onCycle.
    assert (Hids : ∀ a b, tc (λ t u, t ∈ tasks ∧ id u ∈ dependencies t) a b →
                          tc (depends tasks) (id a) (id b)); [|by apply Hids].
    clear. intros a b Hab.
    induction Hab as [a b [Ha Hab]|a b c' [Ha Hab] _ IHt].
    + apply tc_once. by exists a.
    + eapply tc_l; [|done]. by exists a.
Qed.

Lemma wavesLoop_unfold fuel remaining C waves :
  remaining ≠ [] →
  wavesLoop (S fuel) remaining C waves =
    let '(currentWave, remaining') := sweep C remaining in
    if bool_decide (length currentWave = 0) && bool_decide (0 < length remaining')
    then Throw (UnschedulableTasks (id <$> remaining'))
    else if bool_decide (0 < length currentWave)
    then wavesLoop fuel remaining' (addAll C currentWave) (waves ++ [currentWave])
    else wavesLoop fuel remaining' C waves.
Proof. by destruct remaining. Qed.

Lemma wavesLoop_spec tasks : acyclic tasks → ∀ fuel remaining C waves,
  length remaining ≤ fuel →
  (∀ t, t ∈ remaining → t ∈ tasks) →
  closedUnder C remaining →
  ∃ new, wavesLoop fuel remaining C waves = Ok (waves ++ new)
         ∧ concat new ≡ₚ remaining
         ∧ goodWaves C new
         ∧ Forall (λ w, w ≠ []) new.
Proof.
  intros Hac. induction fuel as [|fuel IH]; intros remaining C waves Hlen Hsub Hcl.
  { destruct remaining; simpl in *; [|lia].
    exists []. by rewrite (right_id_L [] (++)). }
  destruct (decide (remaining = [])) as [->|Hne].
  { exists []. by rewrite (right_id_L [] (++)). }
  rewrite wavesLoop_unfold by done.
  pose proof (sweep_spec C remaining) as Hsw.
  destruct (sweep C remaining) as [wave rest].
  destruct Hsw as (Hperm & Hready & Hnot).
  assert (Hlens : length wave + length rest = length remaining).
  { by rewrite <- length_app, Hperm. }
  destruct wave as [|t wave'] eqn:Hwave.
  - (* nothing is ready *)
    exfalso. simpl in *.
    destruct (stuck_is_cyclic tasks C remaining) as [a Ha]; auto.
    + intros u Hu. apply Hnot. by rewrite Hperm.
    + by apply Hac in Ha.
  - rewrite <- Hwave in *.
    assert (Hw : 0 < length wave) by (rewrite Hwave; simpl; lia).
    rewrite (bool_decide_eq_false_2 (length wave = 0)) by lia.
    rewrite (bool_decide_eq_true_2 (0 < length wave)) by lia. simpl.
    rewrite addAll_idsOf.
    destruct (IH rest (C ∪ idsOf wave) (waves ++ [wave])) as (new & Heq & Hp & Hg & Hn).
    + lia.
    + intros u Hu. apply Hsub. rewrite <- Hperm. apply elem_of_app. by right.
    + intros u d Hu Hd.
      destruct (Hcl u d) as [?|(v & Hv & <-)]; [|done|set_solver|].
      { rewrite <- Hperm. apply elem_of_app. by right. }
      rewrite <- Hperm in Hv. apply elem_of_app in Hv as [Hv|Hv].
      * left. apply elem_of_union. right. apply elem_of_idsOf. eauto.
      * right. eauto.
    + exists (wave :: new). split_and!.
      * by rewrite Heq, <- (assoc_L (++)).
      * simpl. by rewrite Hp.
      * simpl. split; [|done]. intros u d Hu Hd.
        by apply (depsCompleted_true C u); [apply Hready|].
      * constructor; [|done]. intros ->. simpl in Hw. lia.
Qed.

(** *** Groups *)

Lemma pushWaves_nonempty groupWaves allWaves completed :
  Forall (λ w, w ≠ []) groupWaves →
  pushWaves groupWaves allWaves completed
  = (allWaves ++ groupWaves, completed ∪ idsOf (concat groupWaves)).
Proof.
  intros Hne. revert allWaves completed.
  induction Hne as [|w ws Hw _ IH]; intros allWaves completed; simpl.
  - rewrite (right_id_L [] (++)). unfold idsOf. simpl.
    by rewrite (right_id_L ∅ (∪)).
  - rewrite bool_decide_eq_true_2 by (destruct w; simpl; [done|lia]).
    rewrite IH, addAll_idsOf, idsOf_app, <- (assoc_L (++)), (assoc_L (∪)). done.
Qed.

Lemma groupTasks_snoc tasks t :
  groupTasks (tasks ++ [t])
  = <[parallelGroup t :=
        default [] (groupTasks tasks !! parallelGroup t) ++ [t]]> (groupTasks tasks).
Proof. unfold groupTasks. by rewrite foldl_app. Qed.

Lemma groupTasks_lookup tasks g :
  groupTasks tasks !! g
  = if decide (inGroup g tasks = []) then None else Some (inGroup g tasks).
Proof.
  induction tasks as [|t tasks IH] using rev_ind; [done|].
  rewrite groupTasks_snoc. unfold inGroup in *. rewrite filter_app.
  destruct (decide (parallelGroup t = g)) as [<-|Hne].
  - rewrite lookup_insert_eq, IH.
    rewrite (filter_cons_True _ t []), filter_nil by done.
    rewrite (decide_False (P := _ ++ [t] = [])) by (by intros [_ ?]%app_nil).
    by destruct (decide (filter _ tasks = [])) as [->|].
  - rewrite lookup_insert_ne, IH by done.
    rewrite (filter_cons_False _ t []), filter_nil by done.
    by rewrite (right_id_L [] (++)).
Qed.

Lemma groupTasks_default tasks g :
  default [] (groupTasks tasks !! g) = inGroup g tasks.
Proof.
  rewrite groupTasks_lookup. by destruct (decide (inGroup g tasks = [])) as [->|].
Qed.

Lemma groupTasks_dom tasks t :
  t ∈ tasks → parallelGroup t ∈ dom (groupTasks tasks).
Proof.
  intros Ht. apply elem_of_dom. rewrite groupTasks_lookup.
  rewrite decide_False; [done|]. intros Hnil.
  assert (t ∈ inGroup (parallelGroup t) tasks) as Hin.
  { apply list_elem_of_filter. done. }
  rewrite Hnil in Hin. by apply elem_of_nil in Hin.
Qed.

Lemma sortedGroupNums_sorted groups : StronglySorted Z.lt (sortedGroupNums groups).
Proof.
  unfold sortedGroupNums.
  assert (Hs : StronglySorted Z.le (merge_sort Z.le (elements (dom groups)))).
  { apply StronglySorted_merge_sort; apply _. }
  assert (Hnd : NoDup (merge_sort Z.le (elements (dom groups)))).
  { rewrite merge_sort_Permutation. apply NoDup_elements. }
  induction Hs as [|g gs Hs IH Hall]; [constructor|].
  apply NoDup_cons in Hnd as [Hfresh Hnd]. constructor; [by apply IH|].
  rewrite Forall_forall in Hall |- *. intros g' Hg'.
  assert (g ≠ g') by (by intros ->). specialize (Hall g' Hg'). lia.
Qed.

Lemma sortedGroupNums_elem groups g :
  g ∈ sortedGroupNums groups ↔ g ∈ dom groups.
Proof.
  unfold sortedGroupNums. by rewrite merge_sort_Permutation, elem_of_elements.
Qed.

(** Splitting the input by group and putting the groups back together is a
    permutation of the input. *)
Lemma concat_groups_cons (t : Task) (F : Z → list Task) (gs : list Z) :
  NoDup gs → parallelGroup t ∈ gs →
  concat ((λ g, if decide (parallelGroup t = g) then t :: F g else F g) <$> gs)
  ≡ₚ t :: concat (F <$> gs).
Proof.
  induction gs as [|g gs IH]; intros Hnd Hin; [by apply elem_of_nil in Hin|].
  apply NoDup_cons in Hnd as [Hfresh Hnd]. rewrite !fmap_cons. simpl.
  destruct (decide (parallelGroup t = g)) as [Heq|Hne].
  - simpl. constructor. f_equiv.
    assert ((λ g, if decide (parallelGroup t = g) then t :: F g else F g) <$> gs
            = F <$> gs) as ->; [|done].
    apply list_fmap_ext. intros _ g' Hg'%list_elem_of_lookup_2.
    rewrite decide_False; [done|]. intros ?. subst. congruence.
  - apply elem_of_cons in Hin as [?|Hin]; [done|].
    rewrite IH by done. by rewrite Permutation_middle.
Qed.

Lemma concat_groups tasks gs :
  NoDup gs → (∀ t, t ∈ tasks → parallelGroup t ∈ gs) →
  concat ((λ g, inGroup g tasks) <$> gs) ≡ₚ tasks.
Proof.
  intros Hnd. induction tasks as [|t tasks IH]; intros Hall.
  - unfold inGroup. simpl. clear. induction gs; simpl; auto.
  - transitivity (t :: concat ((λ g, inGroup g tasks) <$> gs)).
    2:{ constructor. apply IH. intros t' Ht'. apply Hall. by apply elem_of_cons; right. }
    rewrite <- (concat_groups_cons t (λ g, inGroup g tasks) gs Hnd).
    2:{ apply Hall. by apply elem_of_cons; left. }
    assert ((λ g, inGroup g (t :: tasks)) <$> gs
            = (λ g, if decide (parallelGroup t = g)
                    then t :: inGroup g tasks else inGroup g tasks) <$> gs) as ->;
      [|done].
    apply list_fmap_ext. intros _ g _.
    unfold inGroup. destruct (decide (parallelGroup t = g)).
    + by rewrite filter_cons_True.
    + by rewrite filter_cons_False.
Qed.

Lemma scheduleGroups_spec tasks :
  acyclic tasks → depsPresent tasks → groupsFollowDependencies tasks →
  ∀ groupNums allWaves completed,
  StronglySorted Z.lt groupNums →
  (∀ u, u ∈ tasks → parallelGroup u ∈ groupNums ∨ id u ∈ completed) →
  ∃ new, scheduleGroups (groupTasks tasks) groupNums allWaves completed
         = Ok (allWaves ++ new)
         ∧ concat new ≡ₚ concat ((λ g, inGroup g tasks) <$> groupNums)
         ∧ goodWaves completed new.
Proof.
  intros Hac Hpres Hmono.
  induction groupNums as [|g gs IH]; intros allWaves completed Hsorted Hdone; simpl.
  { exists []. by rewrite (right_id_L [] (++)). }
  apply StronglySorted_inv in Hsorted as [Hsorted Hlt].
  rewrite Forall_forall in Hlt.
  rewrite groupTasks_default. unfold buildWavesWithDependencies.
  destruct (wavesLoop_spec tasks Hac (length (inGroup g tasks)) (inGroup g tasks)
              completed []) as (gw & -> & Hperm & Hgood & Hne).
  - done.
  - intros t [_ Ht]%list_elem_of_filter. done.
  - intros t d [Hg Ht]%list_elem_of_filter Hd.
    destruct (Hpres t d Ht Hd) as (u & Hu & <-).
    specialize (Hmono t u Ht Hu Hd).
    destruct (Hdone u Hu) as [[Heq|Hin]%elem_of_cons|?]; [| |by left].
    + right. exists u. split; [|done]. by apply list_elem_of_filter.
    + specialize (Hlt _ Hin). lia.
  - simpl. rewrite pushWaves_nonempty by done.
    destruct (IH (allWaves ++ gw) (completed ∪ idsOf (concat gw)) Hsorted)
      as (new & -> & Hperm' & Hgood').
    + intros u Hu. destruct (Hdone u Hu) as [[Heq|Hin]%elem_of_cons|?].
      * right. apply elem_of_union. right. apply elem_of_idsOf. exists u.
        split; [|done]. rewrite Hperm. by apply list_elem_of_filter.
      * by left.
      * right. set_solver.
    + exists (gw ++ new). split_and!.
      * by rewrite (assoc_L (++)).
      * by rewrite concat_app, Hperm, Hperm'.
      * by apply goodWaves_app.
Qed.

(** *** From the loop invariants to the stated properties *)

Lemma goodWaves_earlier C waves : goodWaves C waves → ∀ k w t d,
  waves !! k = Some w → t ∈ w → d ∈ dependencies t →
  d ∈ C ∨ ∃ k' w' u, k' < k ∧ waves !! k' = Some w' ∧ u ∈ w' ∧ id u = d.
Proof.
  revert C. induction waves as [|w0 waves IH]; intros C Hgood k w t d Hk Ht Hd.
  { by rewrite lookup_nil in Hk. }
  destruct Hgood as [Hw0 Hgood]. destruct k as [|k]; simpl in Hk.
  - injection Hk as <-. left. eauto.
  - destruct (IH _ Hgood k w t d Hk Ht Hd) as [HdC|(k' & w' & u & ? & ? & ? & ?)].
    + apply elem_of_union in HdC as [?|(u & Hu & <-)%elem_of_idsOf]; [by left|].
      right. exists 0, w0, u. split_and!; auto. lia.
    + right. exists (S k'), w', u. split_and!; auto. lia.
Qed.

Lemma elem_of_concat {A} (x : A) (ls : list (list A)) :
  x ∈ concat ls ↔ ∃ l, l ∈ ls ∧ x ∈ l.
Proof.
  rewrite list_elem_of_In, in_concat. split.
  - intros (l & ?%list_elem_of_In & ?%list_elem_of_In). eauto.
  - intros (l & ?%list_elem_of_In & ?%list_elem_of_In). eauto.
Qed.

Lemma waves_disjoint waves :
  NoDup (id <$> concat waves) → pairwiseDisjoint waves.
Proof.
  induction waves as [|w0 waves IH]; intros Hnd i j w1 w2 t u Hi Hj Hij Ht Hu.
  { by rewrite lookup_nil in Hi. }
  simpl in Hnd. rewrite fmap_app in Hnd.
  apply NoDup_app in Hnd as (_ & Hdisj & Hnd).
  assert (Hin : ∀ k w v, waves !! k = Some w → v ∈ w → id v ∈ id <$> concat waves).
  { intros k w v Hk Hv. apply list_elem_of_fmap. exists v. split; [done|].
    apply elem_of_concat. exists w. split; [|done].
    by eapply list_elem_of_lookup_2. }
  destruct i as [|i], j as [|j]; simpl in *; [done| | |].
  - injection Hi as <-. intros Heq. apply (Hdisj (id t)).
    + by apply list_elem_of_fmap_2.
    + rewrite Heq. eauto.
  - injection Hj as <-. intros Heq. apply (Hdisj (id u)).
    + by apply list_elem_of_fmap_2.
    + rewrite <- Heq. eauto.
  - eapply (IH Hnd i j); eauto.
Qed.

Lemma waves_union tasks waves : concat waves ≡ₚ tasks → unionIsInput tasks waves.
Proof.
  intros Hperm t. by rewrite <- Hperm, elem_of_concat.
Qed.

Lemma waves_no_inner_edge waves :
  pairwiseDisjoint waves → depsInEarlierWave waves → noEdgeWithinWave waves.
Proof.
  intros Hdisj Hearlier w t u [k Hk]%list_elem_of_lookup_1 Ht Hu Hedge.
  destruct (Hearlier k w t (id u) Hk Ht Hedge) as (k' & w' & u' & Hlt & Hk' & Hu' & Hid).
  apply (Hdisj k' k w' w u' u); auto. lia.
Qed.

(** *** Decision procedures for the hypotheses, by running the code *)

Lemma depsPresent_validate tasks :
  validateDependencies (list_to_set (id <$> tasks)) tasks = Ok () ↔ depsPresent tasks.
Proof.
  destruct (validateDependencies_spec (list_to_set (id <$> tasks)) tasks)
    as [[-> Hall]|(t & d & -> & Ht & Hd & Hnot)].
  - split; [|done]. intros _ t d Ht Hd.
    specialize (Hall t d Ht Hd). rewrite elem_of_list_to_set in Hall.
    apply list_elem_of_fmap in Hall as (u & -> & Hu). eauto.
  - split; [done|]. intros Hpres. exfalso. apply Hnot.
    destruct (Hpres t d Ht Hd) as (u & Hu & <-).
    rewrite elem_of_list_to_set. by apply list_elem_of_fmap_2.
Qed.

Lemma acyclic_detect tasks :
  uniqueIds tasks → detectCircularDependencies tasks = Ok () → acyclic tasks.
Proof.
  intros Hu Hok a Ha. destruct (detect_cyclic tasks Hu) as (p & c & Heq & _).
  - by exists a.
  - congruence.
Qed.

Lemma groupsFollowDependenciesb_sound tasks :
  groupsFollowDependenciesb tasks = true → groupsFollowDependencies tasks.
Proof.
  unfold groupsFollowDependenciesb. rewrite forallb_forall.
  intros H t u Ht Hu. apply list_elem_of_In, H in Ht.
  rewrite forallb_forall in Ht. apply list_elem_of_In, Ht in Hu.
  by apply bool_decide_eq_true in Hu.
Qed.

(** *** What [buildExecutionWaves] returns and what it raises *)

Lemma buildExecutionWaves_unfold tasks :
  tasks ≠ [] →
  buildExecutionWaves tasks =
    (validateDependencies (list_to_set (id <$> tasks)) tasks;;
     detectCircularDependencies tasks;;
     scheduleGroups (groupTasks tasks) (sortedGroupNums (groupTasks tasks)) [] ∅).
Proof.
  intros Hne. unfold buildExecutionWaves.
  rewrite bool_decide_eq_false_2; [done|]. by destruct tasks.
Qed.

(** For every task list that forms a valid DAG (unique ids, all
    dependencies present, no cycle) and in which no task depends on a task
    of a higher parallel group, [buildExecutionWaves] returns waves that are
    a permutation of the input cut into pieces: their union is the input,
    two different waves share no task, every dependency of a task of wave k
    sits in a wave k' < k, and no wave contains a dependency edge. *)
Lemma valid_dag_waves (tasks : list Task) :
  uniqueIds tasks → depsPresent tasks → acyclic tasks →
  groupsFollowDependencies tasks →
  ∃ waves, buildExecutionWaves tasks = Ok waves
           ∧ concat waves ≡ₚ tasks
           ∧ unionIsInput tasks waves
           ∧ pairwiseDisjoint waves
           ∧ depsInEarlierWave waves
           ∧ noEdgeWithinWave waves.
Proof.
  intros Huniq Hpres Hac Hmono.
  assert (Hfinish : ∀ waves, concat waves ≡ₚ tasks → goodWaves ∅ waves →
            concat waves ≡ₚ tasks ∧ unionIsInput tasks waves
            ∧ pairwiseDisjoint waves ∧ depsInEarlierWave waves
            ∧ noEdgeWithinWave waves).
  { intros waves Hperm Hgood.
    assert (Hdisj : pairwiseDisjoint waves).
    { apply waves_disjoint. unfold uniqueIds in Huniq. by rewrite Hperm. }
    assert (Hearly : depsInEarlierWave waves).
    { intros k w t d Hk Ht Hd.
      destruct (goodWaves_earlier ∅ waves Hgood k w t d Hk Ht Hd) as [?|?];
        [set_solver|done]. }
    split_and!; auto using waves_union, waves_no_inner_edge. }
  destruct (decide (tasks = [])) as [->|Hne].
  { exists []. split; [done|]. by apply Hfinish. }
  rewrite buildExecutionWaves_unfold by done.
  apply depsPresent_validate in Hpres as Hval. rewrite Hval. simpl.
  rewrite detect_acyclic by done. simpl.
  destruct (scheduleGroups_spec tasks Hac Hpres Hmono
              (sortedGroupNums (groupTasks tasks)) [] ∅) as (waves & -> & Hperm & Hgood).
  - apply sortedGroupNums_sorted.
  - intros u Hu. left. apply sortedGroupNums_elem. by apply groupTasks_dom.
  - exists waves. split; [done|]. apply Hfinish; [|done].
    rewrite Hperm. apply concat_groups.
    + unfold sortedGroupNums. rewrite merge_sort_Permutation. apply NoDup_elements.
    + intros t Ht. apply sortedGroupNums_elem. by apply groupTasks_dom.
Qed.

(** C7 (as amended).  For every cyclic input with unique ids whose
    dependencies are all present, [buildExecutionWaves] raises
    CircularDependency, and the reported path ends in a node that lies on a
    dependency cycle; for every input with a dependency outside its id set
    it raises UnknownDependency for a task of the input and a dependency of
    that task that no input task carries as id. *)
Theorem buildExecutionWaves_errors (tasks : list Task) :
  (uniqueIds tasks → depsPresent tasks → cyclic tasks →
   ∃ path c, buildExecutionWaves tasks = Throw (CircularDependency path)
             ∧ c ∈ path ∧ onCycle tasks c)
  ∧ ((∃ t d, t ∈ tasks ∧ d ∈ dependencies t ∧ d ∉ id <$> tasks) →
     ∃ t d, buildExecutionWaves tasks = Throw (UnknownDependency (id t) d)
            ∧ t ∈ tasks ∧ d ∈ dependencies t ∧ d ∉ id <$> tasks).
Proof.
  split.
  - intros Huniq Hpres Hcyc.
    assert (Hne : tasks ≠ []).
    { intros ->. destruct Hcyc as [a Ha].
      inversion Ha as [?? (t & Ht & _)|??? (t & Ht & _)]; by apply elem_of_nil in Ht. }
    rewrite buildExecutionWaves_unfold by done.
    apply depsPresent_validate in Hpres as ->. simpl.
    destruct (detect_cyclic tasks Huniq Hcyc) as (p & c & -> & Hc). simpl.
    exists (p ++ [c]), c. split_and!; [done| |done].
    apply elem_of_app. right. by apply list_elem_of_singleton.
  - intros (t0 & d0 & Ht0 & Hd0 & Hmiss).
    assert (Hne : tasks ≠ []) by (intros ->; by apply elem_of_nil in Ht0).
    rewrite buildExecutionWaves_unfold by done.
    destruct (validateDependencies_spec (list_to_set (id <$> tasks)) tasks)
      as [[_ Hall]|(t & d & -> & Ht & Hd & Hnot)].
    + exfalso. apply Hmiss. specialize (Hall t0 d0 Ht0 Hd0).
      by rewrite elem_of_list_to_set in Hall.
    + simpl. exists t, d. split_and!; auto.
      by rewrite elem_of_list_to_set in Hnot.
Qed.

(** *** Concrete runs *)

Import SchedulerExamples.

Example fan_out_waves :
  buildExecutionWaves fanOut
  = Ok [[task "A" 1 []]; [task "C" 1 ["A"]; task "B" 1 ["A"]]].
Proof. vm_compute. reflexivity. Qed.

Example two_cycle_path :
  buildExecutionWaves twoCycle = Throw (CircularDependency ["X"; "Y"; "X"]).
Proof. vm_compute. reflexivity. Qed.

(** Hypotheses on a concrete input are settled by evaluation. *)
Ltac by_evaluation :=
  first
    [ apply (bool_decide_unpack _); vm_compute; reflexivity
    | apply depsPresent_validate; vm_compute; reflexivity
    | apply groupsFollowDependenciesb_sound; vm_compute; reflexivity
    | apply acyclic_detect;
      [apply (bool_decide_unpack _); vm_compute; reflexivity
      |vm_compute; reflexivity] ].

Ltac edge_of t :=
  exists t; split_and!; [|reflexivity|]; apply list_elem_of_In; simpl; tauto.

Lemma twoCycle_cyclic : cyclic twoCycle.
Proof.
  exists "X". unfold onCycle. apply (tc_l _ "X" "Y" "X").
  - edge_of (task "X" 1 ["Y"]).
  - apply tc_once. edge_of (task "Y" 1 ["X"]).
Qed.

Lemma cycleWithUnknown_cyclic : cyclic cycleWithUnknown.
Proof.
  exists "X". unfold onCycle. apply (tc_l _ "X" "Y" "X").
  - edge_of (task "X" 1 ["Y"; "Q"]).
  - apply tc_once. edge_of (task "Y" 1 ["X"]).
Qed.

(** C1 as stated fails: a valid DAG that [buildExecutionWaves] rejects. *)
Lemma buildExecutionWaves_rejects_backward_group :
  uniqueIds backwardGroup ∧ depsPresent backwardGroup ∧ acyclic backwardGroup
  ∧ buildExecutionWaves backwardGroup = Throw (UnschedulableTasks ["A"]).
Proof. split_and!; [by_evaluation..|]. vm_compute. reflexivity. Qed.

Lemma buildExecutionWaves_errors_witness :
  (∃ path c, buildExecutionWaves twoCycle = Throw (CircularDependency path)
             ∧ c ∈ path ∧ onCycle twoCycle c)
  ∧ (∃ t d, buildExecutionWaves danglingDependency
            = Throw (UnknownDependency (id t) d)
            ∧ t ∈ danglingDependency ∧ d ∈ dependencies t
            ∧ d ∉ id <$> danglingDependency).
Proof.
  split.
  - apply (proj1 (buildExecutionWaves_errors twoCycle)).
    + by_evaluation.
    + by_evaluation.
    + exact twoCycle_cyclic.
  - apply (proj2 (buildExecutionWaves_errors danglingDependency)).
    exists (task "A" 1 ["Z"]), "Z". split_and!.
    + apply list_elem_of_In. simpl. tauto.
    + apply list_elem_of_In. simpl. tauto.
    + apply (bool_decide_unpack _). vm_compute. reflexivity.
Defined.

(** C7 as stated fails: a cyclic input for which the error is not
    CircularDependency. *)
Lemma buildExecutionWaves_cycle_with_unknown :
  cyclic cycleWithUnknown
  ∧ buildExecutionWaves cycleWithUnknown = Throw (UnknownDependency "X" "Q").
Proof. split; [exact cycleWithUnknown_cyclic|]. vm_compute. reflexivity. Qed.

End SchedulerProofs.

(** ** Topological sort *)

Module TopologicalSortProofs.
Import Scheduler SchedulerSpec SchedulerInvariants SchedulerProofs TopologicalSort.

Lemma unique_task tasks t u :
  uniqueIds tasks → t ∈ tasks → u ∈ tasks → id t = id u → t = u.
Proof.
  intros Hu Ht Hu' Hid.
  pose proof (taskMapOf_unique tasks t Hu Ht) as H1.
  pose proof (taskMapOf_unique tasks u Hu Hu') as H2.
  rewrite Hid in H1. congruence.
Qed.

(** *** The in-degrees the first loop computes *)

Lemma orElse_0 n : orElse 0 (Some n) = n.
Proof. unfold orElse. by case_decide. Qed.

Lemma count_entries (k : string) (deps : list string) : ∀ (m : gmap string Z) n,
  m !! k = Some n →
  foldl (λ m _dep, <[k := (orElse 0 (m !! k) + 1)%Z]> m) m deps
  = <[k := (n + Z.of_nat (length deps))%Z]> m.
Proof.
  induction deps as [|d deps IH]; intros m n Hm; simpl.
  - rewrite Z.add_0_r. by rewrite insert_id.
  - rewrite (IH _ (n + 1)%Z).
    + rewrite insert_insert_eq. f_equal. lia.
    + by rewrite Hm, orElse_0, lookup_insert_eq.
Qed.

Lemma countDependencies_fresh m task :
  m !! id task = None →
  countDependencies m task
  = <[id task := Z.of_nat (length (dependencies task))]> m.
Proof.
  intros Hm. unfold countDependencies.
  rewrite decide_False by (rewrite Hm; by intros [? ?]).
  rewrite (count_entries _ _ _ 0%Z) by apply lookup_insert_eq.
  by rewrite insert_insert_eq.
Qed.

Lemma initialDegrees_fold tasks : ∀ m,
  NoDup (id <$> tasks) →
  (∀ t, t ∈ tasks → m !! id t = None) →
  (∀ t, t ∈ tasks →
     foldl countDependencies m tasks !! id t
     = Some (Z.of_nat (length (dependencies t))))
  ∧ (∀ k, k ∉ id <$> tasks → foldl countDependencies m tasks !! k = m !! k).
Proof.
  induction tasks as [|t0 tasks IH]; intros m Hnd Hfresh; simpl.
  { split; [|done]. intros t Ht. by apply elem_of_nil in Ht. }
  rewrite fmap_cons in Hnd. apply NoDup_cons in Hnd as [Hnot Hnd].
  rewrite countDependencies_fresh by (apply Hfresh; by apply elem_of_cons; left).
  destruct (IH (<[id t0 := Z.of_nat (length (dependencies t0))]> m) Hnd) as [Hin Hout].
  { intros t Ht. rewrite lookup_insert_ne.
    - apply Hfresh. by apply elem_of_cons; right.
    - intros Heq. apply Hnot. rewrite Heq. by apply list_elem_of_fmap_2. }
  split.
  - intros t [->|Ht]%elem_of_cons; [|by apply Hin].
    rewrite Hout by done. apply lookup_insert_eq.
  - intros k Hk. apply not_elem_of_cons in Hk as [Hne Hk].
    rewrite Hout by done. by rewrite lookup_insert_ne.
Qed.

Lemma initialDegrees_lookup tasks t :
  uniqueIds tasks → t ∈ tasks →
  initialDegrees tasks !! id t = Some (Z.of_nat (length (dependencies t))).
Proof.
  intros Hu Ht. by apply (initialDegrees_fold tasks ∅ Hu).
Qed.

(** *** Sorting the queue *)

Lemma insertSorted_Permutation {A} (cmp : A → A → Z) x l :
  insertSorted cmp x l ≡ₚ x :: l.
Proof.
  induction l as [|y l IH]; simpl; [done|].
  case_decide; [done|]. rewrite IH. apply Permutation_swap.
Qed.

Lemma stableSort_Permutation {A} (cmp : A → A → Z) l : stableSort cmp l ≡ₚ l.
Proof.
  induction l as [|x l IH]; simpl; [done|].
  by rewrite insertSorted_Permutation, IH.
Qed.

Lemma lookupAll_spec tasks queue queued :
  lookupAll (taskMapOf tasks) queue = Some queued →
  id <$> queued = queue ∧ ∀ t, t ∈ queued → t ∈ tasks.
Proof.
  unfold lookupAll. rewrite mapM_Some. intros H.
  induction H as [|a t queue queued Hat _ [IH1 IH2]].
  { split; [done|]. intros t Ht. by apply elem_of_nil in Ht. }
  apply taskMapOf_lookup in Hat as [Hin <-]. split; [by rewrite fmap_cons, IH1|].
  intros u [->|Hu]%elem_of_cons; auto.
Qed.

Lemma taskMapOf_known tasks a :
  a ∈ id <$> tasks → is_Some (taskMapOf tasks !! a).
Proof.
  unfold taskMapOf. induction tasks as [|t tasks IH] using rev_ind.
  { intros Ha. by apply elem_of_nil in Ha. }
  rewrite fmap_app, foldl_app. simpl. intros Ha.
  destruct (decide (a = id t)) as [->|Hne].
  - rewrite lookup_insert_eq. by eexists.
  - rewrite lookup_insert_ne by done. apply IH.
    apply elem_of_app in Ha as [Ha|Ha]; [done|].
    by apply list_elem_of_singleton in Ha.
Qed.

Lemma lookupAll_known tasks queue :
  (∀ x, x ∈ queue → x ∈ id <$> tasks) →
  is_Some (lookupAll (taskMapOf tasks) queue).
Proof.
  intros Hknown. unfold lookupAll. apply mapM_is_Some, Forall_forall.
  intros x Hx. unfold compose. by apply taskMapOf_known, Hknown.
Qed.

(** *** Counting the processed dependencies *)

Lemma filter_ext_in {A} (P1 P2 : A → Prop)
    `{!∀ x, Decision (P1 x), !∀ x, Decision (P2 x)} (l : list A) :
  (∀ x, x ∈ l → P1 x ↔ P2 x) → filter P1 l = filter P2 l.
Proof.
  induction l as [|a l IH]; intros Hext; [done|].
  assert (Ha : P1 a ↔ P2 a) by (apply Hext; by apply elem_of_cons; left).
  assert (Hl : filter P1 l = filter P2 l).
  { apply IH. intros x Hx. apply Hext. by apply elem_of_cons; right. }
  destruct (decide (P1 a)).
  - rewrite !filter_cons_True by naive_solver. by rewrite Hl.
  - rewrite !filter_cons_False by naive_solver. done.
Qed.

Lemma hits_submseteq done t :
  NoDup done → filter (λ x, x ∈ dependencies t) done ⊆+ dependencies t.
Proof.
  intros Hnd. apply NoDup_submseteq; [by apply NoDup_filter|].
  intros x. rewrite list_elem_of_filter. tauto.
Qed.

Lemma hits_le done t : NoDup done → hits done t ≤ length (dependencies t).
Proof. intros Hnd. by apply submseteq_length, hits_submseteq. Qed.

Lemma hits_full done t :
  NoDup done → length (dependencies t) = hits done t →
  NoDup (dependencies t) ∧ ∀ d, d ∈ dependencies t → d ∈ done.
Proof.
  intros Hnd Hlen.
  assert (Hperm : filter (λ x, x ∈ dependencies t) done ≡ₚ dependencies t).
  { apply submseteq_length_Permutation; [by apply hits_submseteq|].
    unfold hits in Hlen. lia. }
  split.
  - rewrite <- Hperm. by apply NoDup_filter.
  - intros d Hd. rewrite <- Hperm in Hd. by apply list_elem_of_filter in Hd as [_ ?].
Qed.

Lemma hits_all done t :
  NoDup (dependencies t) → (∀ d, d ∈ dependencies t → d ∈ done) →
  length (dependencies t) ≤ hits done t.
Proof.
  intros Hnd Hall. apply submseteq_length, NoDup_submseteq; [done|].
  intros d Hd. apply list_elem_of_filter. auto.
Qed.

Lemma hits_snoc done x t :
  hits (done ++ [x]) t
  = hits done t + (if decide (x ∈ dependencies t) then 1 else 0).
Proof.
  unfold hits. rewrite filter_app, length_app. f_equal.
  destruct (decide (x ∈ dependencies t)).
  - by rewrite filter_cons_True.
  - by rewrite filter_cons_False.
Qed.

(** *** The innermost loop *)

Lemma release_cons x t l deg q :
  release x (t :: l) deg q
  = if bool_decide (x ∈ dependencies t) then
      release x l (<[id t := (orElse 1 (deg !! id t) - 1)%Z]> deg)
        (if decide ((orElse 1 (deg !! id t) - 1)%Z = 0%Z) then q ++ [id t] else q)
    else release x l deg q.
Proof. unfold release. simpl. by destruct (bool_decide _). Qed.

Lemma release_spec x (l : list Task) : ∀ deg q,
  NoDup (id <$> l) →
  ∃ deg',
    release x l deg q
    = (deg', q ++ (id <$> filter (λ t, x ∈ dependencies t
                                       ∧ (orElse 1 (deg !! id t) - 1 = 0)%Z) l))
    ∧ (∀ k, k ∉ id <$> l → deg' !! k = deg !! k)
    ∧ (∀ t, t ∈ l →
         deg' !! id t
         = if decide (x ∈ dependencies t)
           then Some (orElse 1 (deg !! id t) - 1)%Z else deg !! id t).
Proof.
  induction l as [|t l IH]; intros deg q Hnd.
  { exists deg. split_and!; [|done|].
    - unfold release. simpl. 
      by rewrite (right_id_L [] (++)).
    - intros t Ht. by apply elem_of_nil in Ht. }
  rewrite fmap_cons in Hnd. apply NoDup_cons in Hnd as [Hnot Hnd].
  assert (Hother : ∀ u, u ∈ l → id u ≠ id t).
  { intros u Hu Heq. apply Hnot. rewrite <- Heq. by apply list_elem_of_fmap_2. }
  rewrite release_cons.
  destruct (decide (x ∈ dependencies t)) as [Hx|Hx].
  - rewrite bool_decide_eq_true_2 by done.
    set (newDegree := (orElse 1 (deg !! id t) - 1)%Z).
    destruct (IH (<[id t := newDegree]> deg)
                 (if decide (newDegree = 0%Z) then q ++ [id t] else q) Hnd)
      as (deg' & Heq & Hout & Hin).
    exists deg'. split_and!.
    + fold newDegree. rewrite Heq. f_equal.
      rewrite (filter_ext_in (λ u, x ∈ dependencies u
                 ∧ (orElse 1 (<[id t := newDegree]> deg !! id u) - 1 = 0)%Z)
               (λ u, x ∈ dependencies u ∧ (orElse 1 (deg !! id u) - 1 = 0)%Z)).
      2:{ intros u Hu. by rewrite lookup_insert_ne by (symmetry; by apply Hother). }
      destruct (decide (newDegree = 0%Z)) as [Hz|Hz].
      * rewrite filter_cons_True by done. rewrite fmap_cons.
        by rewrite <- (assoc_L (++)).
      * rewrite filter_cons_False by (intros [_ ?]; done). done.
    + intros k Hk. rewrite fmap_cons in Hk. apply not_elem_of_cons in Hk as [Hne Hk].
      rewrite Hout by done. by rewrite lookup_insert_ne.
    + intros u [->|Hu]%elem_of_cons.
      * rewrite Hout by done. rewrite lookup_insert_eq. by rewrite decide_True.
      * rewrite Hin by done.
        by rewrite lookup_insert_ne by (symmetry; by apply Hother).
  - rewrite bool_decide_eq_false_2 by done.
    destruct (IH deg q Hnd) as (deg' & Heq & Hout & Hin).
    exists deg'. split_and!.
    + rewrite Heq. f_equal.
      rewrite filter_cons_False by (intros [? _]; done). done.
    + intros k Hk. rewrite fmap_cons in Hk. apply not_elem_of_cons in Hk as [Hne Hk].
      by apply Hout.
    + intros u [->|Hu]%elem_of_cons.
      * rewrite Hout by done. by rewrite decide_False.
      * by apply Hin.
Qed.

(** *** One turn of the loop keeps the invariant *)

Lemma NoDup_fmap_filter {A B} (f : A → B) (P : A → Prop)
    `{!∀ x, Decision (P x)} (l : list A) :
  NoDup (f <$> l) → NoDup (f <$> filter P l).
Proof.
  induction l as [|a l IH]; [done|].
  rewrite fmap_cons. intros [Hnot Hnd]%NoDup_cons.
  destruct (decide (P a)).
  - rewrite filter_cons_True by done. rewrite fmap_cons. apply NoDup_cons.
    split; [|by apply IH]. intros (b & Heq & Hb)%list_elem_of_fmap.
    apply list_elem_of_filter in Hb as [_ Hb]. apply Hnot. rewrite Heq.
    by apply list_elem_of_fmap_2.
  - rewrite filter_cons_False by done. by apply IH.
Qed.

Lemma elem_of_ids_filter tasks (P : Task → Prop) `{!∀ t, Decision (P t)} t :
  uniqueIds tasks → t ∈ tasks →
  id t ∈ id <$> filter P tasks ↔ P t.
Proof.
  intros Hu Ht. rewrite list_elem_of_fmap. split.
  - intros (u & Heq & [Hp Hu']%list_elem_of_filter).
    by rewrite (unique_task tasks t u Hu Ht Hu' Heq).
  - intros Hp. exists t. split; [done|]. by apply list_elem_of_filter.
Qed.

Lemma sortInv_initial tasks :
  uniqueIds tasks →
  sortInv tasks (initialDegrees tasks)
    (initialQueue (initialDegrees tasks) tasks) [].
Proof.
  intros Hu.
  assert (Hq : initialQueue (initialDegrees tasks) tasks
               = id <$> filter (λ t, length (dependencies t) = 0) tasks).
  { unfold initialQueue. f_equal. apply filter_ext_in. intros t Ht.
    rewrite (initialDegrees_lookup tasks t Hu Ht), orElse_0. lia. }
  rewrite Hq. constructor; simpl; rewrite ?(right_id_L [] (++)).
  - by apply NoDup_fmap_filter.
  - intros x.
    intros (t & -> & [_ Ht]%list_elem_of_filter)%list_elem_of_fmap.
    by apply list_elem_of_fmap_2.
  - intros r Hr. by apply elem_of_nil in Hr.
  - intros t Ht. rewrite (initialDegrees_lookup tasks t Hu Ht).
    unfold hits. simpl. f_equal. lia.
  - intros t Ht.
    rewrite (elem_of_ids_filter tasks _ t Hu Ht). unfold hits. simpl. done.
  - intros i t d Hi. by rewrite lookup_nil in Hi.
Qed.

Lemma sortInv_step tasks deg queue result queued task sorted :
  uniqueIds tasks →
  sortInv tasks deg queue result →
  lookupAll (taskMapOf tasks) queue = Some queued →
  stableSort compareTasks queued = task :: sorted →
  ∃ deg' queue',
    release (id task) tasks deg (id <$> sorted) = (deg', queue')
    ∧ sortInv tasks deg' queue' (result ++ [task]).
Proof.
  intros Hu Hinv Hlook Hsort.
  destruct (lookupAll_spec _ _ _ Hlook) as [Hids Hsub].
  assert (Hperm : task :: sorted ≡ₚ queued).
  { rewrite <- Hsort. apply stableSort_Permutation. }
  assert (Htask : task ∈ tasks).
  { apply Hsub. rewrite <- Hperm. by apply elem_of_cons; left. }
  assert (Hqueue : id task :: (id <$> sorted) ≡ₚ queue).
  { rewrite <- Hids, <- Hperm. by rewrite fmap_cons. }
  destruct Hinv as [Hnd Hknown Hresult Hdegree Hzero Horder].
  set (x := id task). set (done := id <$> result) in *.
  assert (Hall : (id <$> sorted) ++ (done ++ [x]) ≡ₚ queue ++ done).
  { rewrite <- Hqueue. simpl. rewrite (assoc_L (++)).
    by rewrite <- Permutation_cons_append. }
  assert (Hnd' : NoDup (done ++ [x])).
  { rewrite <- Hall in Hnd. by apply NoDup_app in Hnd as (_ & _ & ?). }
  assert (Hgrow : ∀ t, x ∈ dependencies t →
            hits (done ++ [x]) t = S (hits done t)
            ∧ S (hits done t) ≤ length (dependencies t)).
  { intros t Hx. pose proof (hits_le _ t Hnd') as Hle.
    rewrite hits_snoc, decide_True in Hle by done.
    rewrite hits_snoc, decide_True by done. lia. }
  assert (Hsame : ∀ t, x ∉ dependencies t → hits (done ++ [x]) t = hits done t).
  { intros t Hx. rewrite hits_snoc, decide_False by done. lia. }
  destruct (release_spec x tasks deg (id <$> sorted) Hu)
    as (deg' & Heq & _ & Hdeg').
  set (pushed := id <$> filter (λ t, x ∈ dependencies t
                   ∧ (orElse 1 (deg !! id t) - 1 = 0)%Z) tasks) in Heq.
  assert (Hpushed : ∀ t, t ∈ tasks →
            id t ∈ pushed
            ↔ x ∈ dependencies t
              ∧ length (dependencies t) = hits (done ++ [x]) t).
  { intros t Ht. unfold pushed. rewrite (elem_of_ids_filter tasks _ t Hu Ht).
    rewrite (Hdegree t Ht).
    split; intros [Hx Hz]; (split; [done|]);
      destruct (Hgrow t Hx) as [Hh Hle]; unfold orElse in *;
      case_decide; lia. }
  assert (Hfresh : ∀ t, t ∈ tasks → id t ∈ pushed → id t ∉ queue ++ done).
  { intros t Ht [Hx Hlen]%Hpushed; [|done].
    rewrite (Hzero t Ht).
    destruct (Hgrow t Hx). lia. }
  assert (Hsplit : ((id <$> sorted) ++ pushed) ++ (done ++ [x])
                   ≡ₚ pushed ++ (queue ++ done)).
  { rewrite <- Hall, !(assoc_L (++)).
    by rewrite (Permutation_app_comm pushed (id <$> sorted)). }
  exists deg', ((id <$> sorted) ++ pushed). split; [done|].
  constructor; rewrite ?fmap_app; simpl; fold x; fold done.
  - rewrite Hsplit. apply NoDup_app. split_and!; [|  |done].
    + by apply NoDup_fmap_filter.
    + intros p Hp. pose proof Hp as Hp'.
      apply list_elem_of_fmap in Hp' as (t & -> & [_ Ht]%list_elem_of_filter).
      by apply Hfresh.
  - intros p. rewrite Hsplit. intros [Hp|Hp]%elem_of_app.
    + apply list_elem_of_fmap in Hp as (t & -> & [_ Ht]%list_elem_of_filter).
      by apply list_elem_of_fmap_2.
    + by apply Hknown.
  - intros r [Hr|Hr]%elem_of_app; [by apply Hresult|].
    by apply list_elem_of_singleton in Hr as ->.
  - intros t Ht. rewrite (Hdeg' t Ht), (Hdegree t Ht).
    destruct (decide (x ∈ dependencies t)) as [Hx|Hx].
    + destruct (Hgrow t Hx) as [-> Hle]. f_equal. unfold orElse.
      case_decide; lia.
    + by rewrite (Hsame t Hx).
  - intros t Ht. rewrite Hsplit, elem_of_app, (Hpushed t Ht).
    rewrite (Hzero t Ht).
    destruct (decide (x ∈ dependencies t)) as [Hx|Hx].
    + destruct (Hgrow t Hx) as [Hh Hle]. rewrite Hh. split; [|intros ?; left; done].
      intros [[_ ?]|?]; lia.
    + rewrite (Hsame t Hx). split; [|by right]. by intros [[? _]|?].
  - intros i t d Hi Hd.
    destruct (decide (i < length result)) as [Hlt|Hge].
    + rewrite lookup_app_l in Hi by done.
      destruct (Horder i t d Hi Hd) as (j & u & Hj & Hu' & Hid).
      exists j, u. split_and!; [done| |done].
      rewrite lookup_app_l by lia. done.
    + assert (t = task) as ->.
      { rewrite lookup_app_r in Hi by lia.
        apply list_lookup_singleton_Some in Hi as [_ ?]. done. }
      assert (Hin : x ∈ queue ++ done).
      { apply elem_of_app. left. rewrite <- Hqueue. by apply elem_of_cons; left. }
      apply (Hzero task Htask) in Hin.
      assert (Hnd0 : NoDup done) by (by apply NoDup_app in Hnd as (_ & _ & ?)).
      destruct (hits_full done task Hnd0 Hin) as [_ Hall'].
      apply Hall' in Hd. unfold done in Hd.
      apply list_elem_of_fmap in Hd as (u & -> & Hu').
      apply list_elem_of_lookup_1 in Hu' as [j Hj].
      exists j, u. split_and!; [|by apply lookup_app_l_Some|done].
      apply lookup_lt_Some in Hj.
      apply lookup_lt_Some in Hi. rewrite length_app in Hi. simpl in Hi. lia.
Qed.

(** *** The loop *)

Lemma sortLoop_unfold fuel tasks taskMap deg queue result :
  queue ≠ [] →
  sortLoop (S fuel) tasks taskMap deg queue result
  = match lookupAll taskMap queue with
    | None => Throw undefinedTask
    | Some queued =>
        match stableSort compareTasks queued with
        | [] => Ok result
        | task :: sorted =>
            let '(inDegree, queue) :=
              release (id task) tasks deg (id <$> sorted) in
            sortLoop fuel tasks taskMap inDegree queue (result ++ [task])
        end
    end.
Proof. by destruct queue. Qed.

Lemma sortLoop_spec tasks : uniqueIds tasks → ∀ fuel deg queue result,
  sortInv tasks deg queue result →
  match sortLoop fuel tasks (taskMapOf tasks) deg queue result with
  | Ok result' => ∃ deg', sortInv tasks deg' [] result'
  | Throw _ => False
  | OutOfFuel => fuel + length result < length tasks
  end.
Proof.
  intros Hu. induction fuel as [|fuel IH]; intros deg queue result Hinv.
  - destruct queue as [|a queue]; simpl; [by exists deg|].
    pose proof (inv_nodup _ _ _ _ Hinv) as Hnd.
    pose proof (inv_known _ _ _ _ Hinv) as Hknown.
    pose proof (submseteq_length _ _ (NoDup_submseteq _ _ Hnd Hknown)) as Hlen.
    rewrite length_app, !length_fmap in Hlen. simpl in Hlen. lia.
  - destruct (decide (queue = [])) as [->|Hne]; [by exists deg|].
    rewrite sortLoop_unfold by done.
    destruct (lookupAll_known tasks queue) as [queued Hlook].
    { intros x Hx. apply (inv_known _ _ _ _ Hinv), elem_of_app. by left. }
    rewrite Hlook.
    destruct (stableSort compareTasks queued) as [|task sorted] eqn:Hsort.
    { exfalso. pose proof (stableSort_Permutation compareTasks queued) as Hperm.
      rewrite Hsort in Hperm. apply Permutation_nil_l in Hperm. subst queued.
      apply lookupAll_spec in Hlook as [Hids _]. by rewrite <- Hids in Hne. }
    destruct (sortInv_step _ _ _ _ _ _ _ Hu Hinv Hlook Hsort)
      as (deg' & queue' & -> & Hinv').
    specialize (IH deg' queue' (result ++ [task]) Hinv').
    destruct (sortLoop fuel _ _ _ _ _); [done|done|].
    rewrite length_app in IH. simpl in IH. lia.
Qed.

Lemma topologicalSort_loop fuel tasks :
  uniqueIds tasks →
  match sortLoop fuel tasks (taskMapOf tasks) (initialDegrees tasks)
          (initialQueue (initialDegrees tasks) tasks) [] with
  | Ok result => ∃ deg, sortInv tasks deg [] result
  | Throw _ => False
  | OutOfFuel => fuel < length tasks
  end.
Proof.
  intros Hu.
  pose proof (sortLoop_spec tasks Hu fuel _ _ _ (sortInv_initial tasks Hu)) as H.
  destruct (sortLoop _ _ _ _ _ _); [done|done|]. simpl in H. lia.
Qed.

(** *** What the final state says about the input *)

Section Final.
Context (tasks : list Task) (deg : gmap string Z) (result : list Task).
Context (Hu : uniqueIds tasks) (Hinv : sortInv tasks deg [] result).

Lemma final_NoDup : NoDup result.
Proof.
  pose proof (inv_nodup _ _ _ _ Hinv) as Hnd. simpl in Hnd.
  by apply NoDup_fmap_1 in Hnd.
Qed.

Lemma final_submseteq : result ⊆+ tasks.
Proof. apply NoDup_submseteq; [apply final_NoDup|apply (inv_result _ _ _ _ Hinv)]. Qed.

Lemma final_complete :
  length result = length tasks → result ≡ₚ tasks.
Proof.
  intros Hlen. apply submseteq_length_Permutation; [apply final_submseteq|lia].
Qed.

Lemma final_processed t :
  t ∈ tasks → t ∈ result ↔ length (dependencies t) = hits (id <$> result) t.
Proof.
  intros Ht. rewrite <- (inv_zero _ _ _ _ Hinv t Ht). simpl. split.
  - apply list_elem_of_fmap_2.
  - intros (u & Heq & Hu')%list_elem_of_fmap.
    by rewrite (unique_task tasks t u Hu Ht (inv_result _ _ _ _ Hinv u Hu') Heq).
Qed.

Lemma final_done_NoDup : NoDup (id <$> result).
Proof. pose proof (inv_nodup _ _ _ _ Hinv) as Hnd. by simpl in Hnd. Qed.

(** A task that was left out waits for a dependency that was left out, or
    names a dependency twice. *)
Lemma final_left_out t :
  t ∈ tasks → t ∉ result →
  ¬ NoDup (dependencies t)
  ∨ ∃ d, d ∈ dependencies t ∧ d ∉ id <$> result.
Proof.
  intros Ht Hnot. rewrite (final_processed t Ht) in Hnot.
  destruct (decide (NoDup (dependencies t))) as [Hnd|]; [|by left]. right.
  destruct (decide (Forall (λ d, d ∈ id <$> result) (dependencies t)))
    as [Hall|Hsome].
  - exfalso. rewrite Forall_forall in Hall.
    pose proof (hits_all _ t Hnd Hall).
    pose proof (hits_le _ t final_done_NoDup). lia.
  - apply not_Forall_Exists in Hsome; [|apply _].
    apply Exists_exists in Hsome as (d & Hd & Hout). eauto.
Qed.

End Final.

(** An order that puts dependencies first has no cycle. *)
Lemma dependenciesFirst_acyclic tasks result :
  uniqueIds tasks → result ≡ₚ tasks → dependenciesFirst result → acyclic tasks.
Proof.
  intros Hu Hperm Hfirst.
  assert (Hedge : ∀ a b, tc (depends tasks) a b → ∀ i t,
            result !! i = Some t → id t = a →
            ∃ j u, j < i ∧ result !! j = Some u ∧ id u = b).
  { intros a b Htc. induction Htc as [a b (t' & Ht' & <- & Hb)|a b c (t' & Ht' & <- & Hb) _ IH];
      intros i t Hi Hid.
    - assert (t = t') as ->.
      { apply (unique_task tasks); auto. rewrite <- Hperm.
        by eapply list_elem_of_lookup_2. }
      by apply (Hfirst i t' b).
    - assert (t = t') as ->.
      { apply (unique_task tasks); auto. rewrite <- Hperm.
        by eapply list_elem_of_lookup_2. }
      destruct (Hfirst i t' b Hi Hb) as (j & u & Hj & Hu' & Hidu).
      destruct (IH j u Hu' Hidu) as (k & v & Hk & Hv & Hidv).
      exists k, v. split_and!; auto. lia. }
  intros a Ha.
  assert (Hnone : ∀ i t, result !! i = Some t → id t ≠ a).
  { intros i. induction i as [i IHi] using lt_wf_ind. intros t Hi Hid.
    destruct (Hedge a a Ha i t Hi Hid) as (j & u & Hj & Hu' & Hidu).
    by apply (IHi j Hj u). }
  assert (∃ t, t ∈ tasks ∧ id t = a) as (t & Ht & Hid).
  { inversion Ha as [?? (t & ? & ? & ?)|??? (t & ? & ? & ?)]; eauto. }
  rewrite <- Hperm in Ht. apply list_elem_of_lookup_1 in Ht as [i Hi].
  by apply (Hnone i t).
Qed.

(** *** The order among tasks that are ready together *)

Lemma insertSorted_sorted {A} (cmp : A → A → Z) x l :
  (∀ a b c, (cmp a b ≤ 0)%Z → (cmp b c ≤ 0)%Z → (cmp a c ≤ 0)%Z) →
  (∀ a b, (cmp a b ≤ 0)%Z ∨ (cmp b a ≤ 0)%Z) →
  StronglySorted (λ a b, (cmp a b ≤ 0)%Z) l →
  StronglySorted (λ a b, (cmp a b ≤ 0)%Z) (insertSorted cmp x l).
Proof.
  intros Htrans Htotal. induction l as [|y l IH]; intros Hs; simpl.
  { repeat constructor. }
  apply StronglySorted_inv in Hs as [Hs Hall].
  case_decide as Hxy.
  - constructor; [by constructor|]. constructor; [done|].
    eapply Forall_impl; [exact Hall|]. intros z Hz. by eapply Htrans.
  - constructor; [by apply IH|].
    rewrite insertSorted_Permutation. constructor; [|done].
    destruct (Htotal x y); [done|done].
Qed.

Lemma stableSort_sorted {A} (cmp : A → A → Z) l :
  (∀ a b c, (cmp a b ≤ 0)%Z → (cmp b c ≤ 0)%Z → (cmp a c ≤ 0)%Z) →
  (∀ a b, (cmp a b ≤ 0)%Z ∨ (cmp b a ≤ 0)%Z) →
  StronglySorted (λ a b, (cmp a b ≤ 0)%Z) (stableSort cmp l).
Proof.
  intros Htrans Htotal. induction l as [|x l IH]; simpl; [constructor|].
  by apply insertSorted_sorted.
Qed.

Lemma priorityOrder_range p : (0 ≤ priorityOrder p ≤ 3)%Z.
Proof. destruct p as [[]|]; simpl; lia. Qed.

Lemma compareTasks_le a b :
  (compareTasks a b ≤ 0)%Z
  ↔ (parallelGroup a < parallelGroup b)%Z
    ∨ (parallelGroup a = parallelGroup b
       ∧ (priorityOrder (priority a) ≤ priorityOrder (priority b))%Z).
Proof. unfold compareTasks. case_decide; lia. Qed.

Lemma sortLoop_prefix tasks taskMap : ∀ fuel deg queue result result',
  sortLoop fuel tasks taskMap deg queue result = Ok result' →
  ∃ more, result' = result ++ more.
Proof.
  induction fuel as [|fuel IH]; intros deg queue result result'.
  { destruct queue; simpl; [|done]. intros [= <-]. exists [].
    by rewrite (right_id_L [] (++)). }
  destruct (decide (queue = [])) as [->|Hne].
  { simpl. intros [= <-]. exists []. by rewrite (right_id_L [] (++)). }
  rewrite sortLoop_unfold by done.
  destruct (lookupAll taskMap queue) as [queued|]; [|done].
  destruct (stableSort compareTasks queued) as [|task sorted].
  { intros [= <-]. exists []. by rewrite (right_id_L [] (++)). }
  destruct (release _ _ _ _) as [deg' queue'].
  intros (more & ->)%IH. exists (task :: more). by rewrite <- (assoc_L (++)).
Qed.

Lemma topologicalSort_unfold fuel tasks :
  topologicalSort fuel tasks
  = (result ← sortLoop fuel tasks (taskMapOf tasks) (initialDegrees tasks)
                (initialQueue (initialDegrees tasks) tasks) [];
     if decide (length result ≠ length tasks) then Throw incompleteSort
     else Ok result).
Proof. done. Qed.

(** X1.  Whenever [topologicalSort] returns, with whatever bound on the turns
    of its loop, it returns the input tasks in an order in which every
    dependency of a task stands in front of it. *)
Theorem topologicalSort_sound (fuel : nat) (tasks result : list Task) :
  uniqueIds tasks →
  topologicalSort fuel tasks = Ok result →
  result ≡ₚ tasks ∧ dependenciesFirst result.
Proof.
  intros Hu. rewrite topologicalSort_unfold.
  pose proof (topologicalSort_loop fuel tasks Hu) as Hloop.
  destruct (sortLoop _ _ _ _ _ _) as [sorted| |]; simpl; [|done..].
  destruct Hloop as [deg Hinv].
  case_decide as Hlen; [done|]. intros [= <-].
  split; [|apply (inv_order _ _ _ _ Hinv)].
  apply (final_complete tasks deg sorted Hinv). lia.
Qed.

(** X2.  On a valid DAG (unique ids, every dependency present, no cycle) whose
    dependency lists name no id twice, [topologicalSort] returns once its loop
    is given as many turns as there are tasks. *)
Theorem topologicalSort_valid_dag (fuel : nat) (tasks : list Task) :
  uniqueIds tasks → depsPresent tasks → acyclic tasks →
  (∀ t, t ∈ tasks → NoDup (dependencies t)) →
  length tasks ≤ fuel →
  ∃ result, topologicalSort fuel tasks = Ok result
            ∧ result ≡ₚ tasks ∧ dependenciesFirst result.
Proof.
  intros Hu Hpres Hac Hnd Hfuel. rewrite topologicalSort_unfold.
  pose proof (topologicalSort_loop fuel tasks Hu) as Hloop.
  destruct (sortLoop _ _ _ _ _ _) as [sorted| |]; simpl; [|done|lia].
  destruct Hloop as [deg Hinv].
  assert (Hlen : length sorted = length tasks).
  { destruct (decide (Forall (λ t, t ∈ sorted) tasks)) as [Hall|Hsome].
    - rewrite Forall_forall in Hall.
      pose proof (submseteq_length _ _ (final_submseteq tasks deg sorted Hinv)).
      pose proof (submseteq_length _ _
                    (NoDup_submseteq _ _ (NoDup_fmap_1 id tasks Hu) Hall)).
      lia.
    - exfalso. apply not_Forall_Exists in Hsome; [|apply _].
      apply Exists_exists in Hsome as (t0 & Ht0 & Hout0).
      set (remaining := filter (λ t, t ∉ sorted) tasks).
      assert (Hrem : ∀ t, t ∈ remaining ↔ t ∉ sorted ∧ t ∈ tasks).
      { intros t. unfold remaining. by rewrite list_elem_of_filter. }
      destruct (stuck_is_cyclic tasks (list_to_set (id <$> sorted)) remaining)
        as [a Ha]; [| | | |by apply (Hac a)].
      + intros Hnil. assert (t0 ∈ remaining) as Hin by (by apply Hrem).
        rewrite Hnil in Hin. by apply elem_of_nil in Hin.
      + intros t Ht. by apply Hrem in Ht as [_ ?].
      + intros t d [Hout Ht]%Hrem Hd.
        destruct (Hpres t d Ht Hd) as (u & Hu' & <-).
        destruct (decide (u ∈ sorted)) as [Hin|Hnot].
        * left. rewrite elem_of_list_to_set. by apply list_elem_of_fmap_2.
        * right. exists u. split; [|done]. by apply Hrem.
      + intros t [Hout Ht]%Hrem.
        destruct (final_left_out tasks deg sorted Hu Hinv t Ht Hout)
          as [Hdup|(d & Hd & Hmiss)]; [by destruct Hdup; apply Hnd|].
        destruct (depsCompleted _ t) eqn:Hready; [|done].
        rewrite depsCompleted_true in Hready. specialize (Hready d Hd).
        by rewrite elem_of_list_to_set in Hready. }
  exists sorted. rewrite decide_False by lia.
  split_and!; [done| |apply (inv_order _ _ _ _ Hinv)].
  by apply (final_complete tasks deg sorted Hinv).
Qed.

(** X3.  A dependency that no input task provides, a dependency cycle and a
    dependency list that names an id twice all end in the same error, the one
    that speaks of a circular dependency. *)
Theorem topologicalSort_rejects (fuel : nat) (tasks : list Task) :
  uniqueIds tasks → length tasks ≤ fuel →
  (∃ t d, t ∈ tasks ∧ d ∈ dependencies t ∧ d ∉ id <$> tasks)
  ∨ cyclic tasks
  ∨ (∃ t, t ∈ tasks ∧ ¬ NoDup (dependencies t)) →
  topologicalSort fuel tasks = Throw incompleteSort.
Proof.
  intros Hu Hfuel Hbad. rewrite topologicalSort_unfold.
  pose proof (topologicalSort_loop fuel tasks Hu) as Hloop.
  destruct (sortLoop _ _ _ _ _ _) as [sorted| |]; simpl; [|done|lia].
  destruct Hloop as [deg Hinv].
  case_decide as Hlen; [done|]. exfalso.
  assert (Hperm : sorted ≡ₚ tasks).
  { apply (final_complete tasks deg sorted Hinv). lia. }
  destruct Hbad as [(t & d & Ht & Hd & Hmiss)|[[a Ha]|(t & Ht & Hdup)]].
  - rewrite <- Hperm in Ht. apply list_elem_of_lookup_1 in Ht as [i Hi].
    destruct (inv_order _ _ _ _ Hinv i t d Hi Hd) as (j & u & _ & Hj & <-).
    apply Hmiss, list_elem_of_fmap_2. rewrite <- Hperm.
    by eapply list_elem_of_lookup_2.
  - apply (dependenciesFirst_acyclic tasks sorted Hu Hperm
             (inv_order _ _ _ _ Hinv) a Ha).
  - apply Hdup.
    assert (Hin : t ∈ sorted) by (by rewrite Hperm).
    apply (final_processed tasks deg sorted Hu Hinv t Ht) in Hin.
    by destruct (hits_full _ t (final_done_NoDup tasks deg sorted Hinv) Hin).
Qed.

(** X4.  The task [topologicalSort] returns first has no dependencies, and
    among the tasks without dependencies none has a lower parallel group, or
    the same group and a better priority (P0 first, no priority counting as
    P3). *)
Theorem topologicalSort_first (fuel : nat) (tasks : list Task)
    (first : Task) (rest : list Task) :
  uniqueIds tasks →
  topologicalSort fuel tasks = Ok (first :: rest) →
  dependencies first = []
  ∧ ∀ u, u ∈ tasks → dependencies u = [] →
      (parallelGroup first < parallelGroup u)%Z
      ∨ (parallelGroup first = parallelGroup u
         ∧ (priorityOrder (priority first) ≤ priorityOrder (priority u))%Z).
Proof.
  intros Hu. rewrite topologicalSort_unfold.
  assert (Hq : initialQueue (initialDegrees tasks) tasks
               = id <$> filter (λ t, dependencies t = []) tasks).
  { unfold initialQueue. f_equal. apply filter_ext_in. intros t Ht.
    rewrite (initialDegrees_lookup tasks t Hu Ht), orElse_0.
    destruct (dependencies t); simpl; [done|]. split; [lia|done]. }
  rewrite Hq. set (queue := id <$> filter _ tasks).
  destruct (sortLoop _ _ _ _ _ _) as [sorted| |] eqn:Hloop; simpl; [|done..].
  case_decide; [done|]. intros [= ->].
  destruct fuel as [|fuel]; [by destruct queue|].
  destruct (decide (queue = [])) as [Hnil|Hne]; [by rewrite Hnil in Hloop|].
  rewrite sortLoop_unfold in Hloop by done.
  destruct (lookupAll (taskMapOf tasks) queue) as [queued|] eqn:Hlook; [|done].
  destruct (lookupAll_spec _ _ _ Hlook) as [Hids Hsub].
  pose proof (stableSort_Permutation compareTasks queued) as Hperm.
  assert (Hsorted : StronglySorted (λ a b, (compareTasks a b ≤ 0)%Z)
                      (stableSort compareTasks queued)).
  { apply stableSort_sorted.
    - intros a b c. rewrite !compareTasks_le. lia.
    - intros a b. rewrite !compareTasks_le. lia. }
  destruct (stableSort compareTasks queued) as [|task others]; [done|].
  destruct (release _ _ _ _) as [deg' queue'].
  apply sortLoop_prefix in Hloop as (more & [= <- _]).
  apply StronglySorted_inv in Hsorted as [_ Hmin]. rewrite Forall_forall in Hmin.
  assert (Hready : ∀ t, t ∈ tasks → (t ∈ queued ↔ dependencies t = [])).
  { intros t Ht.
    rewrite <- (elem_of_ids_filter tasks (λ t, dependencies t = []) t Hu Ht).
    fold queue. rewrite <- Hids. split; [apply list_elem_of_fmap_2|].
    intros (v & Heq & Hv)%list_elem_of_fmap.
    by rewrite (unique_task tasks t v Hu Ht (Hsub v Hv) Heq). }
  assert (Hfirst : first ∈ queued).
  { rewrite <- Hperm. by apply elem_of_cons; left. }
  split; [by apply (Hready first (Hsub first Hfirst))|].
  intros u Hu' Hdeps. apply (Hready u Hu') in Hdeps.
  rewrite <- Hperm in Hdeps. apply elem_of_cons in Hdeps as [->|Hin].
  - right. split; [done|lia].
  - by apply compareTasks_le, Hmin.
Qed.

Import SchedulerExamples.

Lemma topologicalSort_first_witness :
  topologicalSort 4 PlanExamples.mixedQueue
  = Ok [PlanExamples.prioritised "C" 1 P0 []; PlanExamples.prioritised "B" 1 P2 [];
        PlanExamples.prioritised "D" 1 P3 ["B"]; PlanExamples.prioritised "A" 2 P0 []]
  ∧ dependencies (PlanExamples.prioritised "C" 1 P0 []) = []
  ∧ ∀ u, u ∈ PlanExamples.mixedQueue → dependencies u = [] →
      (parallelGroup (PlanExamples.prioritised "C" 1 P0 []) < parallelGroup u)%Z
      ∨ (parallelGroup (PlanExamples.prioritised "C" 1 P0 []) = parallelGroup u
         ∧ (priorityOrder (priority (PlanExamples.prioritised "C" 1 P0 []))
            ≤ priorityOrder (priority u))%Z).
Proof.
  split; [vm_compute; reflexivity|].
  apply (topologicalSort_first 4 PlanExamples.mixedQueue
           (PlanExamples.prioritised "C" 1 P0 [])
           [PlanExamples.prioritised "B" 1 P2 []; PlanExamples.prioritised "D" 1 P3 ["B"];
            PlanExamples.prioritised "A" 2 P0 []]); [by_evaluation|].
  vm_compute. reflexivity.
Defined.

Lemma topologicalSort_sound_witness :
  [task "A" 1 []; task "B" 1 ["A"]; task "C" 1 ["A"]] ≡ₚ fanOut
  ∧ dependenciesFirst [task "A" 1 []; task "B" 1 ["A"]; task "C" 1 ["A"]].
Proof.
  apply (topologicalSort_sound 3 fanOut); [by_evaluation|].
  vm_compute. reflexivity.
Defined.

Lemma topologicalSort_valid_dag_witness :
  ∃ result, topologicalSort 5 fanOut = Ok result
            ∧ result ≡ₚ fanOut ∧ dependenciesFirst result.
Proof.
  apply (topologicalSort_valid_dag 5 fanOut); [by_evaluation..| |simpl; lia].
  apply Forall_forall. apply (bool_decide_unpack _). vm_compute. reflexivity.
Defined.

Lemma topologicalSort_rejects_witness :
  acyclic danglingDependency
  ∧ topologicalSort 1 danglingDependency = Throw incompleteSort.
Proof.
  split; [by_evaluation|].
  apply (topologicalSort_rejects 1 danglingDependency);
    [by_evaluation|simpl; lia|].
  left. exists (task "A" 1 ["Z"]), "Z".
  split_and!; [by apply list_elem_of_singleton|by apply list_elem_of_singleton|].
  apply (bool_decide_unpack _). vm_compute. reflexivity.
Defined.

End TopologicalSortProofs.

(** ** Waves, on every input *)

Module WavesProofs.
Import Scheduler SchedulerSpec SchedulerInvariants SchedulerProofs SchedulerQueries.

(** *** Whatever [buildExecutionWaves] returns *)

(** The groups the waves of a list belong to. *)
Lemma wavesLoop_sound : ∀ fuel remaining C waves out,
  wavesLoop fuel remaining C waves = Ok out →
  ∃ new, out = waves ++ new
         ∧ concat new ≡ₚ remaining
         ∧ goodWaves C new
         ∧ Forall (λ w, w ≠ []) new.
Proof.
  induction fuel as [|fuel IH]; intros remaining C waves out.
  { destruct remaining; simpl; [|done]. intros [= <-].
    exists []. by rewrite (right_id_L [] (++)). }
  destruct (decide (remaining = [])) as [->|Hne].
  { simpl. intros [= <-]. exists []. by rewrite (right_id_L [] (++)). }
  rewrite wavesLoop_unfold by done.
  pose proof (sweep_spec C remaining) as Hsweep.
  destruct (sweep C remaining) as [wave rest].
  destruct Hsweep as (Hperm & Hready & _).
  destruct wave as [|t wave].
  - destruct rest as [|r rest].
    + simpl in Hperm. apply Permutation_nil_l in Hperm. by subst.
    + rewrite (bool_decide_eq_true_2 (length [] = 0)) by done.
      rewrite (bool_decide_eq_true_2 (0 < length (r :: rest))) by (simpl; lia).
      done.
  - rewrite (bool_decide_eq_false_2 (length (t :: wave) = 0)) by done.
    rewrite (bool_decide_eq_true_2 (0 < length (t :: wave))) by (simpl; lia).
    simpl.
    intros (new & -> & Hnew & Hgood & Hne')%IH.
    exists ((t :: wave) :: new). split_and!.
    + by rewrite <- (assoc_L (++)).
    + simpl. rewrite Hnew. done.
    + split; [|by rewrite <- addAll_idsOf].
      intros u d Hu Hd. apply Hready in Hu. rewrite depsCompleted_true in Hu. auto.
    + by constructor.
Qed.

(** The waves come group by group: [news] holds the waves of each group. *)
Lemma scheduleGroups_sound tasks : ∀ groupNums allWaves completed out,
  scheduleGroups (groupTasks tasks) groupNums allWaves completed = Ok out →
  ∃ news : list (list (list Task)),
    out = allWaves ++ concat news
    ∧ Forall2 (λ g new, concat new ≡ₚ inGroup g tasks ∧ Forall (λ w, w ≠ []) new)
              groupNums news
    ∧ goodWaves completed (concat news).
Proof.
  induction groupNums as [|g gs IH]; intros allWaves completed out; simpl.
  { intros [= <-]. exists []. simpl. by rewrite (right_id_L [] (++)). }
  rewrite groupTasks_default. unfold buildWavesWithDependencies.
  destruct (wavesLoop _ _ _ _) as [groupWaves| |] eqn:Hloop; simpl; [|done..].
  apply wavesLoop_sound in Hloop as (new & -> & Hperm & Hgood & Hne).
  simpl. rewrite (pushWaves_nonempty new) by done.
  intros (news & -> & Hall & Hgood')%IH.
  exists (new :: news). split_and!.
  - simpl. by rewrite (assoc_L (++)).
  - by constructor.
  - simpl. by apply goodWaves_app.
Qed.

Lemma buildExecutionWaves_structure tasks waves :
  buildExecutionWaves tasks = Ok waves →
  ∃ news : list (list (list Task)),
    waves = concat news
    ∧ Forall2 (λ g new, concat new ≡ₚ inGroup g tasks ∧ Forall (λ w, w ≠ []) new)
              (sortedGroupNums (groupTasks tasks)) news
    ∧ goodWaves ∅ waves.
Proof.
  destruct (decide (tasks = [])) as [->|Hne].
  { intros [= <-]. exists []. split_and!; [done| |done].
    unfold sortedGroupNums, groupTasks. simpl. rewrite dom_empty_L, elements_empty.
    constructor. }
  rewrite buildExecutionWaves_unfold by done.
  destruct (validateDependencies _ _) as [[]| |]; simpl; [|done..].
  destruct (detectCircularDependencies _) as [[]| |]; simpl; [|done..].
  intros (news & -> & Hall & Hgood)%scheduleGroups_sound.
  exists news. by split_and!.
Qed.

Lemma concat_news tasks gs (news : list (list (list Task))) :
  Forall2 (λ g new, concat new ≡ₚ inGroup g tasks ∧ Forall (λ w, w ≠ []) new)
          gs news →
  concat (concat news) ≡ₚ concat ((λ g, inGroup g tasks) <$> gs)
  ∧ Forall (λ w, w ≠ []) (concat news).
Proof.
  induction 1 as [|g new gs news [Hperm Hne] _ [IH1 IH2]]; simpl; [done|].
  split.
  - by rewrite concat_app, Hperm, IH1.
  - by apply Forall_app.
Qed.

Lemma waves_permutation tasks waves :
  buildExecutionWaves tasks = Ok waves → concat waves ≡ₚ tasks.
Proof.
  intros (news & -> & Hall & _)%buildExecutionWaves_structure.
  apply concat_news in Hall as [-> _].
  apply concat_groups.
  - unfold sortedGroupNums. rewrite merge_sort_Permutation. apply NoDup_elements.
  - intros t Ht. by apply sortedGroupNums_elem, groupTasks_dom.
Qed.

Lemma news_groups tasks gs (news : list (list (list Task))) :
  Forall2 (λ g new, concat new ≡ₚ inGroup g tasks ∧ Forall (λ w, w ≠ []) new)
          gs news →
  ∀ w t, w ∈ concat news → t ∈ w → parallelGroup t ∈ gs.
Proof.
  induction 1 as [|g new gs news [Hperm _] _ IH]; simpl; intros w t Hw Ht.
  { by apply elem_of_nil in Hw. }
  apply elem_of_app in Hw as [Hw|Hw].
  - apply elem_of_cons. left.
    assert (Hin : t ∈ inGroup g tasks).
    { rewrite <- Hperm. apply elem_of_concat. eauto. }
    unfold inGroup in Hin. by apply list_elem_of_filter in Hin as [? _].
  - apply elem_of_cons. right. by apply (IH w t).
Qed.

Lemma news_in_order tasks gs (news : list (list (list Task))) :
  StronglySorted Z.lt gs →
  Forall2 (λ g new, concat new ≡ₚ inGroup g tasks ∧ Forall (λ w, w ≠ []) new)
          gs news →
  groupsInOrder (concat news).
Proof.
  intros Hsorted Hall. revert Hsorted.
  induction Hall as [|g new gs news [Hperm _] Hrest IH]; intros Hsorted;
    intros i j w1 w2 t u Hi Hj Ht Hu Hlt; simpl in *.
  { by rewrite lookup_nil in Hi. }
  apply StronglySorted_inv in Hsorted as [Hsorted Hmin].
  rewrite Forall_forall in Hmin.
  assert (Hhere : ∀ k w v, k < length new → (new ++ concat news) !! k = Some w →
            v ∈ w → parallelGroup v = g).
  { intros k w v Hk Hlook Hv. rewrite lookup_app_l in Hlook by done.
    assert (Hin : v ∈ inGroup g tasks).
    { rewrite <- Hperm. apply elem_of_concat. exists w. split; [|done].
      by eapply list_elem_of_lookup_2. }
    unfold inGroup in Hin. by apply list_elem_of_filter in Hin as [? _]. }
  assert (Hlater : ∀ k w v, length new ≤ k → (new ++ concat news) !! k = Some w →
            v ∈ w → (g < parallelGroup v)%Z
                    ∧ concat news !! (k - length new) = Some w).
  { intros k w v Hk Hlook Hv. rewrite lookup_app_r in Hlook by done.
    split; [|done]. apply Hmin, (news_groups tasks gs news Hrest w v); [|done].
    by eapply list_elem_of_lookup_2. }
  destruct (decide (i < length new)) as [Hi'|Hi'],
           (decide (j < length new)) as [Hj'|Hj'].
  - rewrite (Hhere i w1 t), (Hhere j w2 u) in Hlt by done. lia.
  - lia.
  - destruct (Hlater i w1 t) as [Hg _]; [lia|done|done|].
    rewrite (Hhere j w2 u) in Hlt by done. lia.
  - destruct (Hlater i w1 t) as [_ Hi'']; [lia|done|done|].
    destruct (Hlater j w2 u) as [_ Hj'']; [lia|done|done|].
    pose proof (IH Hsorted _ _ _ _ t u Hi'' Hj'' Ht Hu Hlt). lia.
Qed.

Lemma waves_deps_earlier tasks waves :
  buildExecutionWaves tasks = Ok waves → depsInEarlierWave waves.
Proof.
  intros (news & _ & _ & Hgood)%buildExecutionWaves_structure.
  intros k w t d Hk Ht Hd.
  destruct (goodWaves_earlier ∅ waves Hgood k w t d Hk Ht Hd) as [?|?];
    [set_solver|done].
Qed.

Lemma waves_in_order tasks waves :
  buildExecutionWaves tasks = Ok waves → groupsInOrder waves.
Proof.
  intros (news & -> & Hall & _)%buildExecutionWaves_structure.
  eapply news_in_order; [apply sortedGroupNums_sorted|done].
Qed.

(** X5.  Whatever [buildExecutionWaves] returns, on any input, is the input
    cut into non-empty waves, each dependency of a task being the id of a task
    of an earlier wave. *)
Theorem buildExecutionWaves_sound (tasks : list Task) (waves : list (list Task)) :
  buildExecutionWaves tasks = Ok waves →
  concat waves ≡ₚ tasks
  ∧ Forall (λ w, w ≠ []) waves
  ∧ depsInEarlierWave waves.
Proof.
  intros Hok. split_and!.
  - by apply waves_permutation.
  - apply buildExecutionWaves_structure in Hok as (news & -> & Hall & _).
    by apply concat_news in Hall as [_ ?].
  - by eapply waves_deps_earlier.
Qed.

(** X6.  Higher groups run after lower ones: in the waves
    [buildExecutionWaves] returns, a task of a lower parallel group sits in a
    strictly earlier wave than a task of a higher one. *)
Theorem buildExecutionWaves_groups_in_order (tasks : list Task)
    (waves : list (list Task)) :
  buildExecutionWaves tasks = Ok waves → groupsInOrder waves.
Proof.
  intros (news & -> & Hall & _)%buildExecutionWaves_structure.
  revert Hall. generalize (sortedGroupNums_sorted (groupTasks tasks)).
  generalize (sortedGroupNums (groupTasks tasks)). intros gs Hsorted Hall.
  by eapply news_in_order.
Qed.

(** X7.  With unique ids, [buildExecutionWaves] returns only on inputs whose
    dependencies are all present, that have no cycle and in which no task
    depends on a task of a higher parallel group. *)
Theorem buildExecutionWaves_only_valid (tasks : list Task)
    (waves : list (list Task)) :
  uniqueIds tasks →
  buildExecutionWaves tasks = Ok waves →
  depsPresent tasks ∧ acyclic tasks ∧ groupsFollowDependencies tasks.
Proof.
  intros Hu Hok.
  pose proof (waves_permutation _ _ Hok) as Hperm.
  pose proof (waves_deps_earlier _ _ Hok) as Hearly.
  pose proof (waves_in_order _ _ Hok) as Horder.
  assert (Hne : tasks ≠ [] ∨ tasks = []) by (destruct tasks; auto).
  destruct Hne as [Hne| ->].
  2:{ split_and!.
      - intros t d Ht. by apply elem_of_nil in Ht.
      - intros a Ha.
        inversion Ha as [?? (t & Ht & _)|??? (t & Ht & _)]; by apply elem_of_nil in Ht.
      - intros t u Ht. by apply elem_of_nil in Ht. }
  rewrite buildExecutionWaves_unfold in Hok by done.
  destruct (validateDependencies _ _) as [[]| |] eqn:Hval; simpl in Hok; [|done..].
  destruct (detectCircularDependencies _) as [[]| |] eqn:Hdet; simpl in Hok; [|done..].
  split_and!.
  - by apply depsPresent_validate.
  - by apply acyclic_detect.
  - intros t u Ht Hu' Hdep.
    destruct (Z.le_gt_cases (parallelGroup u) (parallelGroup t)) as [?|Hlt]; [done|].
    exfalso.
    assert (Hwave : ∀ v, v ∈ tasks → ∃ k w, waves !! k = Some w ∧ v ∈ w).
    { intros v Hv. rewrite <- Hperm in Hv.
      apply elem_of_concat in Hv as (w & [k Hk]%list_elem_of_lookup_1 & Hv). eauto. }
    destruct (Hwave t Ht) as (i & w1 & Hi & Htw).
    destruct (Hwave u Hu') as (j & w2 & Hj & Huw).
    pose proof (Horder i j w1 w2 t u Hi Hj Htw Huw Hlt) as Hij.
    destruct (Hearly i w1 t (id u) Hi Htw Hdep) as (k & w3 & u' & Hk & Hk' & Hu3 & Hid).
    assert (Hnd : NoDup (id <$> concat waves)) by (by rewrite Hperm).
    apply (waves_disjoint waves Hnd k j w3 w2 u' u); auto. lia.
Qed.

(** *** What the scheduler does not look at *)

Section KeepsGraph.
Context (f : Task → Task) (Hf : keepsGraph f).

Lemma keeps_id t : id (f t) = id t.
Proof. apply Hf. Qed.

Lemma keeps_dependencies t : dependencies (f t) = dependencies t.
Proof. apply Hf. Qed.

Lemma keeps_group t : parallelGroup (f t) = parallelGroup t.
Proof. apply Hf. Qed.

Lemma keeps_ids (tasks : list Task) : id <$> (f <$> tasks) = id <$> tasks.
Proof.
  rewrite <- list_fmap_compose. apply list_fmap_ext. intros _ t _. apply keeps_id.
Qed.

Lemma validateDependencies_keeps taskIds tasks :
  validateDependencies taskIds (f <$> tasks) = validateDependencies taskIds tasks.
Proof.
  induction tasks as [|t tasks IH]; [done|].
  rewrite fmap_cons. cbn [validateDependencies].
  by rewrite keeps_id, keeps_dependencies, IH.
Qed.

Lemma taskMapOf_keeps tasks : taskMapOf (f <$> tasks) = f <$> taskMapOf tasks.
Proof.
  unfold taskMapOf. induction tasks as [|t tasks IH] using rev_ind; simpl.
  { by rewrite fmap_empty. }
  rewrite fmap_app, !foldl_app. simpl. by rewrite IH, keeps_id, fmap_insert.
Qed.

Lemma forEach_ext {A S} (g h : A → S → outcome S) l s :
  (∀ a s, a ∈ l → g a s = h a s) → forEach g l s = forEach h l s.
Proof.
  revert s. induction l as [|a l IH]; intros s Hext; simpl; [done|].
  rewrite (Hext a s) by (by apply elem_of_cons; left).
  destruct (h a s); simpl; [|done..].
  apply IH. intros b s' Hb. apply Hext. by apply elem_of_cons; right.
Qed.

Lemma dfs_keeps (tm : gmap string Task) : ∀ fuel x path st,
  dfs fuel (f <$> tm) x path st = dfs fuel tm x path st.
Proof.
  induction fuel as [|fuel IH]; intros x path st; simpl; [done|].
  repeat case_decide; try done.
  rewrite lookup_fmap. destruct (tm !! x) as [t|]; simpl; [|done].
  rewrite keeps_dependencies.
  by rewrite (forEach_ext _ (λ dep, dfs fuel tm dep (path ++ [x]))).
Qed.

Lemma detectCircularDependencies_keeps tasks :
  detectCircularDependencies (f <$> tasks) = detectCircularDependencies tasks.
Proof.
  unfold detectCircularDependencies. rewrite taskMapOf_keeps.
  unfold dfsFuel. rewrite map_size_fmap.
  generalize ({| visited := ∅; recursionStack := ∅ |}).
  generalize (S (size (taskMapOf tasks))). intros fuel st0.
  assert (Hloop : ∀ ts st,
    forEach (λ task st, if decide (id task ∈ visited st) then Ok st
                        else dfs fuel (f <$> taskMapOf tasks) (id task) [] st)
            (f <$> ts) st
    = forEach (λ task st, if decide (id task ∈ visited st) then Ok st
                          else dfs fuel (taskMapOf tasks) (id task) [] st) ts st);
    [|by rewrite Hloop].
  induction ts as [|t ts IH]; intros st; simpl; [done|].
  rewrite keeps_id, dfs_keeps.
  destruct (if decide _ then _ else _); simpl; [|done..]. apply IH.
Qed.

Lemma inGroup_keeps g tasks : inGroup g (f <$> tasks) = f <$> inGroup g tasks.
Proof.
  unfold inGroup. induction tasks as [|t tasks IH]; [done|].
  rewrite fmap_cons. destruct (decide (parallelGroup t = g)) as [Hg|Hg].
  - rewrite !filter_cons_True by (by rewrite ?keeps_group). by rewrite fmap_cons, IH.
  - rewrite !filter_cons_False by (by rewrite ?keeps_group). done.
Qed.

Lemma groupTasks_keeps tasks :
  groupTasks (f <$> tasks) = (λ group : list Task, f <$> group) <$> groupTasks tasks.
Proof.
  apply map_eq. intros g. rewrite lookup_fmap, !groupTasks_lookup, inGroup_keeps.
  destruct (decide (inGroup g tasks = [])) as [->|Hne]; [done|].
  rewrite decide_False; [done|]. by destruct (inGroup g tasks).
Qed.

Lemma depsCompleted_keeps C t : depsCompleted C (f t) = depsCompleted C t.
Proof. unfold depsCompleted. by rewrite keeps_dependencies. Qed.

Lemma sweep_keeps C remaining :
  sweep C (f <$> remaining)
  = (f <$> (sweep C remaining).1, f <$> (sweep C remaining).2).
Proof.
  induction remaining as [|t remaining IH]; [done|].
  rewrite fmap_cons. cbn [sweep].
  rewrite IH. destruct (sweep C remaining) as [wave rest]. cbn [fst snd].
  rewrite depsCompleted_keeps. destruct (depsCompleted C t); [|done].
  cbn [fst snd]. by rewrite fmap_app.
Qed.

Lemma addAll_keeps C wave : addAll C (f <$> wave) = addAll C wave.
Proof. by rewrite !addAll_idsOf; unfold idsOf; rewrite keeps_ids. Qed.

Lemma wavesLoop_keeps : ∀ fuel remaining C waves,
  wavesLoop fuel (f <$> remaining) C ((λ w : list Task, f <$> w) <$> waves)
  = mapWaves f (wavesLoop fuel remaining C waves).
Proof.
  induction fuel as [|fuel IH]; intros remaining C waves.
  { by destruct remaining. }
  destruct (decide (remaining = [])) as [->|Hne]; [done|].
  rewrite !wavesLoop_unfold by (by destruct remaining).
  rewrite sweep_keeps. destruct (sweep C remaining) as [wave rest]. simpl.
  rewrite !length_fmap, keeps_ids, addAll_keeps.
  destruct (bool_decide (length wave = 0) && bool_decide (0 < length rest)); [done|].
  destruct (bool_decide (0 < length wave)); [|apply IH].
  rewrite <- IH. by rewrite fmap_app.
Qed.

Lemma pushWaves_keeps groupWaves allWaves completed :
  pushWaves ((λ w : list Task, f <$> w) <$> groupWaves)
            ((λ w : list Task, f <$> w) <$> allWaves) completed
  = (((λ w : list Task, f <$> w) <$> (pushWaves groupWaves allWaves completed).1),
     (pushWaves groupWaves allWaves completed).2).
Proof.
  revert allWaves completed.
  induction groupWaves as [|w ws IH]; intros allWaves completed; [done|].
  rewrite fmap_cons. cbn [pushWaves].
  rewrite length_fmap, addAll_keeps.
  destruct (bool_decide (0 < length w)); [|apply IH].
  rewrite <- IH. by rewrite fmap_app.
Qed.

Lemma scheduleGroups_keeps tasks : ∀ groupNums allWaves completed,
  scheduleGroups (groupTasks (f <$> tasks)) groupNums
    ((λ w : list Task, f <$> w) <$> allWaves) completed
  = mapWaves f (scheduleGroups (groupTasks tasks) groupNums allWaves completed).
Proof.
  induction groupNums as [|g gs IH]; intros allWaves completed; simpl; [done|].
  rewrite !groupTasks_default, inGroup_keeps. unfold buildWavesWithDependencies.
  rewrite length_fmap.
  pose proof (wavesLoop_keeps (length (inGroup g tasks)) (inGroup g tasks)
                completed []) as Hloop.
  simpl in Hloop. rewrite Hloop.
  destruct (wavesLoop _ (inGroup g tasks) completed []) as [groupWaves| |];
    simpl; [|done..].
  rewrite pushWaves_keeps.
  destruct (pushWaves groupWaves allWaves completed) as [allWaves' completed'].
  simpl. apply IH.
Qed.

Lemma buildExecutionWaves_keeps tasks :
  buildExecutionWaves (f <$> tasks) = mapWaves f (buildExecutionWaves tasks).
Proof.
  unfold buildExecutionWaves. rewrite length_fmap.
  case_bool_decide; [done|].
  rewrite keeps_ids, validateDependencies_keeps.
  destruct (validateDependencies _ tasks) as [[]| |]; simpl; [|done..].
  rewrite detectCircularDependencies_keeps.
  destruct (detectCircularDependencies tasks) as [[]| |]; simpl; [|done..].
  assert (sortedGroupNums (groupTasks (f <$> tasks))
          = sortedGroupNums (groupTasks tasks)) as ->.
  { unfold sortedGroupNums. by rewrite groupTasks_keeps, dom_fmap_L. }
  apply (scheduleGroups_keeps tasks _ [] ∅).
Qed.

End KeepsGraph.

Import SchedulerExamples PlanExamples.

Lemma buildExecutionWaves_sound_witness :
  concat [[task "A" 1 []]; [task "C" 1 ["A"]; task "B" 1 ["A"]]] ≡ₚ fanOut
  ∧ Forall (λ w, w ≠ []) [[task "A" 1 []]; [task "C" 1 ["A"]; task "B" 1 ["A"]]]
  ∧ depsInEarlierWave [[task "A" 1 []]; [task "C" 1 ["A"]; task "B" 1 ["A"]]].
Proof.
  apply (buildExecutionWaves_sound fanOut). vm_compute. reflexivity.
Defined.

Lemma buildExecutionWaves_groups_in_order_witness :
  groupsInOrder [[task "B" 1 []]; [task "A" 2 []]].
Proof.
  apply (buildExecutionWaves_groups_in_order lateGroupFirst).
  vm_compute. reflexivity.
Defined.

Lemma buildExecutionWaves_only_valid_witness :
  depsPresent fanOut ∧ acyclic fanOut ∧ groupsFollowDependencies fanOut.
Proof.
  apply (buildExecutionWaves_only_valid fanOut
           [[task "A" 1 []]; [task "C" 1 ["A"]; task "B" 1 ["A"]]]).
  - by_evaluation.
  - vm_compute. reflexivity.
Defined.

(** X8.  [buildExecutionWaves] reads the id, the dependencies and the parallel
    group of a task and nothing else. In particular it does not look at the
    status: a task that is already completed or failed is scheduled like a
    pending one. *)
Theorem buildExecutionWaves_ignores_status (tasks : list Task)
    (newStatus : Task → TaskStatus) :
  buildExecutionWaves ((λ t, withStatus (newStatus t) t) <$> tasks)
  = mapWaves (λ t, withStatus (newStatus t) t) (buildExecutionWaves tasks).
Proof.
  apply buildExecutionWaves_keeps. intros t. by destruct t.
Qed.

End WavesProofs.

(** ** Execution plan *)

Module PlanProofs.
Import Scheduler SchedulerSpec SchedulerInvariants SchedulerProofs SchedulerQueries.
Import Estimation EstimationProofs ExecutionPlan WavesProofs.

(** *** formatHours *)

Lemma floor_of_eighth (hours : Q) :
  let days := Qfloor (hours / 8) in
  (8 * inject_Z days <= hours)%Q ∧ (hours < 8 * inject_Z days + 8)%Q.
Proof.
  intros days.
  pose proof (Qfloor_le (hours / 8)) as Hlo.
  pose proof (Qlt_floor (hours / 8)) as Hhi.
  fold days in Hlo, Hhi.
  assert (Heq : (hours == 8 * (hours / 8))%Q) by (field; done).
  rewrite inject_Z_plus in Hhi. change (inject_Z 1) with 1%Q in Hhi.
  set (x := (hours / 8)%Q) in *. clearbody x.
  set (d := inject_Z days) in *. clearbody d.
  split; lra.
Qed.

(** X11.  [formatHours] loses nothing: below a working day it shows the hours
    as they are; from 8 hours on it shows at least one day and, when the hours
    are not a whole number of days, a rest that is more than 0 and less than 8
    hours, eight times the days plus the rest being the hours. *)
Theorem formatHours_decomposes (hours : Q) :
  match formatHours hours with
  | DaysAndHours days rest =>
      (8 <= hours)%Q ∧ (1 ≤ days)%Z ∧ (0 < rest)%Q ∧ (rest < 8)%Q
      ∧ (hours == 8 * inject_Z days + rest)%Q
  | Days days =>
      (8 <= hours)%Q ∧ (1 ≤ days)%Z ∧ (hours == 8 * inject_Z days)%Q
  | Hours h => (hours < 8)%Q ∧ h = hours
  end.
Proof.
  unfold formatHours. destruct (Qlt_le_dec hours 8) as [Hlt|Hge]; [done|].
  destruct (floor_of_eighth hours) as [Hlo Hhi].
  assert (Hday : (1 ≤ Qfloor (hours / 8))%Z).
  { change 1%Z with (Qfloor (inject_Z 1)). apply Qfloor_resp_le.
    apply Qle_shift_div_l; [done|]. by rewrite Qmult_1_l. }
  destruct (Qlt_le_dec 0 _) as [Hrest|Hrest].
  - split_and!; [done|done|done|lra|ring].
  - split_and!; [done|done|lra].
Qed.

(** *** Estimates are never negative *)

Lemma matchEstimate_digits s whole fraction unit :
  matchEstimate s = Some (whole, fraction, unit) →
  allChars isDigit whole ∧ allChars isDigit fraction.
Proof.
  unfold matchEstimate.
  pose proof (span_spec isDigit s) as H1.
  destruct (span isDigit s) as [w rest1]. destruct H1 as (_ & Hw & _).
  destruct (decide (w = "")) as [|Hne]; [done|].
  assert (Hfrac : ∀ f rest2,
    match rest1 with
    | String "." rest' =>
        let '(digits, rest'') := span isDigit rest' in
        if decide (digits = "") then ("", rest1) else (digits, rest'')
    | _ => ("", rest1)
    end = (f, rest2) → allChars isDigit f).
  { intros f rest2 Heq.
    assert (Hnone : ("", rest1) = (f, rest2) → allChars isDigit f).
    { by intros [= <- <-]. }
    destruct rest1 as [|c rest']; [by apply Hnone|].
    destruct (decide (c = "."%char)) as [->|Hc].
    - pose proof (span_spec isDigit rest') as H2.
      destruct (span isDigit rest') as [digits rest''].
      destruct H2 as (_ & Hd & _).
      destruct (decide (digits = "")) as [|Hdne]; [by apply Hnone|].
      by injection Heq as <- <-.
    - apply Hnone. revert Heq. clear -Hc.
      destruct c as [[] [] [] [] [] [] [] []]; done. }
  destruct (match rest1 with String "." _ => _ | _ => _ end) as [f rest2].
  pose proof (Hfrac f rest2 eq_refl) as Hf.
  destruct (span isSpace rest2) as [sp rest3].
  destruct (decide (rest3 = "")) as [->|Hr3].
  - by intros [= <- <- <-].
  - destruct (decide (toLowerCase rest3 ∈ unitWords)) as [Hunit|]; [|done].
    by intros [= <- <- <-].
Qed.

Lemma digitValue_nonneg c : isDigit c = true → (0 ≤ digitValue c)%Z.
Proof.
  unfold isDigit, digitValue. intros H%bool_decide_eq_true. lia.
Qed.

Lemma digitsValue_nonneg s : ∀ acc,
  (0 ≤ acc)%Z → allChars isDigit s → (0 ≤ digitsValue acc s)%Z.
Proof.
  induction s as [|c s IH]; intros acc Hacc Hs; simpl; [done|].
  destruct Hs as [Hc Hs]. apply IH; [|done].
  pose proof (digitValue_nonneg c Hc). lia.
Qed.

Lemma allChars_app p a b : allChars p a → allChars p b → allChars p (a +:+ b).
Proof. induction a as [|c a IH]; simpl; [done|]. intros [? ?] ?. auto. Qed.

Lemma parseEstimate_nonneg est : (0 <= parseEstimate est)%Q.
Proof.
  unfold parseEstimate. destruct (truthyString est) as [text|]; [|done].
  destruct (matchEstimate text) as [[[whole fraction] unit]|] eqn:Hm; [|done].
  apply matchEstimate_digits in Hm as [Hw Hf].
  assert (Hv : (0 <= parseFloat whole fraction)%Q).
  { unfold parseFloat, Qle. simpl. rewrite Z.mul_1_r.
    apply digitsValue_nonneg; [done|by apply allChars_app]. }
  destruct (String.prefix _ _); [|done].
  apply Qmult_le_0_compat; [done|done].
Qed.

(** *** The duration of a run *)

Lemma sumHours_app a b : (sumHours (a ++ b) == sumHours a + sumHours b)%Q.
Proof.
  unfold sumHours. induction a as [|x a IH]; simpl; [ring|]. rewrite IH. ring.
Qed.

Lemma sumHours_Permutation a b : a ≡ₚ b → (sumHours a == sumHours b)%Q.
Proof.
  unfold sumHours. induction 1 as [|x a b _ IH|x y a|a b c _ IH1 _ IH2]; simpl.
  - done.
  - by rewrite IH.
  - ring.
  - by rewrite IH1.
Qed.

Lemma sumHours_cons x l : sumHours (x :: l) = (x + sumHours l)%Q.
Proof. done. Qed.

Lemma estimates_cons t tasks :
  estimates (t :: tasks) = parseEstimate (estimate t) :: estimates tasks.
Proof. done. Qed.

Lemma sumHours_nonneg tasks : (0 <= sumHours (estimates tasks))%Q.
Proof.
  induction tasks as [|t tasks IH]; [done|].
  rewrite estimates_cons, sumHours_cons.
  pose proof (parseEstimate_nonneg (estimate t)). lra.
Qed.

Lemma waveHoursFrom_cons a t wave :
  waveHoursFrom a (t :: wave)
  = waveHoursFrom (Qmax a (parseEstimate (estimate t))) wave.
Proof. done. Qed.

Lemma waveHoursFrom_le a wave :
  (0 <= a)%Q → (waveHoursFrom a wave <= a + sumHours (estimates wave))%Q.
Proof.
  revert a. induction wave as [|t wave IH]; intros a Ha.
  { unfold waveHoursFrom, sumHours. simpl. lra. }
  rewrite waveHoursFrom_cons, estimates_cons, sumHours_cons.
  pose proof (parseEstimate_nonneg (estimate t)) as Ht.
  eapply Qle_trans; [apply IH|].
  - eapply Qle_trans; [exact Ha|apply Q.le_max_l].
  - apply Q.max_case_strong; [by intros ?? ->|intros|intros]; lra.
Qed.

Lemma waveHoursFrom_member a wave t :
  t ∈ wave → (parseEstimate (estimate t) <= waveHoursFrom a wave)%Q.
Proof.
  revert a. induction wave as [|u wave IH]; intros a Ht.
  { by apply elem_of_nil in Ht. }
  apply elem_of_cons in Ht as [->|Ht].
  - rewrite waveHoursFrom_cons.
    eapply Qle_trans; [apply Q.le_max_r|apply waveHoursFrom_ge].
  - by apply IH.
Qed.

Lemma waveHours_nonneg wave : (0 <= waveHours wave)%Q.
Proof. apply waveHoursFrom_ge. Qed.

Lemma totalHoursFrom_sum a waves :
  (totalHoursFrom a waves == a + sumHours (waveHours <$> waves))%Q.
Proof.
  revert a.
  induction waves as [|w waves IH]; intros a; [unfold sumHours; simpl; ring|].
  rewrite fmap_cons, sumHours_cons.
  change (totalHoursFrom a (w :: waves))
    with (totalHoursFrom (a + waveHours w) waves).
  rewrite IH. ring.
Qed.

Lemma totalHours_le waves :
  (totalHours waves <= sumHours (estimates (concat waves)))%Q.
Proof.
  unfold totalHours. rewrite totalHoursFrom_sum.
  induction waves as [|w waves IH]; [unfold sumHours; simpl; lra|].
  rewrite fmap_cons, sumHours_cons. cbn [concat].
  unfold estimates in *. rewrite fmap_app, sumHours_app.
  pose proof (waveHoursFrom_le 0 w (Qle_refl 0)) as Hw.
  unfold estimates in Hw. change (waveHoursFrom 0 w) with (waveHours w) in Hw. lra.
Qed.

Lemma totalHours_member waves w t :
  w ∈ waves → t ∈ w → (parseEstimate (estimate t) <= totalHours waves)%Q.
Proof.
  intros Hw Ht. unfold totalHours. rewrite totalHoursFrom_sum.
  induction waves as [|w0 waves IH]; [by apply elem_of_nil in Hw|].
  rewrite fmap_cons, sumHours_cons.
  assert (Hrest : (0 <= sumHours (waveHours <$> waves))%Q).
  { clear. induction waves as [|w waves IH]; [done|].
    rewrite fmap_cons, sumHours_cons.
    pose proof (waveHours_nonneg w). lra. }
  apply elem_of_cons in Hw as [->|Hw].
  - pose proof (waveHoursFrom_member 0 w0 t Ht) as Hle.
    change (waveHoursFrom 0 w0) with (waveHours w0) in Hle. lra.
  - specialize (IH Hw). pose proof (waveHours_nonneg w0). lra.
Qed.

Lemma Qmax_cases a b : Qmax a b = a ∨ Qmax a b = b.
Proof. unfold Qmax, GenericMinMax.gmax. destruct (a ?= b)%Q; auto. Qed.

Lemma waveHoursFrom_cases a wave :
  waveHoursFrom a wave = a
  ∨ ∃ t, t ∈ wave ∧ waveHoursFrom a wave = parseEstimate (estimate t).
Proof.
  revert a. induction wave as [|u wave IH]; intros a; [by left|].
  rewrite waveHoursFrom_cons.
  destruct (IH (Qmax a (parseEstimate (estimate u)))) as [->|(t & Ht & ->)].
  - destruct (Qmax_cases a (parseEstimate (estimate u))) as [->| ->]; [by left|].
    right. exists u. split; [by apply elem_of_cons; left|done].
  - right. exists t. split; [by apply elem_of_cons; right|done].
Qed.

Lemma sumHours_zero hours :
  (∀ h, h ∈ hours → (h == 0)%Q) → (sumHours hours == 0)%Q.
Proof.
  induction hours as [|h hours IH]; intros Hall; [done|].
  rewrite sumHours_cons, (Hall h) by (by apply elem_of_cons; left).
  rewrite IH; [ring|]. intros h' Hh'. apply Hall. by apply elem_of_cons; right.
Qed.

Lemma totalHours_wave waves w :
  w ∈ waves → (waveHours w <= totalHours waves)%Q.
Proof.
  intros Hw. unfold totalHours. rewrite totalHoursFrom_sum.
  induction waves as [|w0 waves IH]; [by apply elem_of_nil in Hw|].
  rewrite fmap_cons, sumHours_cons.
  assert (Hrest : (0 <= sumHours (waveHours <$> waves))%Q).
  { clear. induction waves as [|w waves IH]; [done|].
    rewrite fmap_cons, sumHours_cons.
    pose proof (waveHours_nonneg w). lra. }
  apply elem_of_cons in Hw as [->|Hw]; [lra|].
  specialize (IH Hw). pose proof (waveHours_nonneg w0). lra.
Qed.

(** X10.  The breakdown of [calculateEstimatedDuration] has one entry for
    each wave of [buildExecutionWaves], in their order: numbered from 1, with
    the ids of the wave, parallel when the wave has more than one task, and
    with the largest estimate of the wave as its hours (0 when no task of the
    wave has one).  No entry and no task has more hours than the total, and
    the total is 0 when the hours of every entry are. *)
Theorem calculateEstimatedDuration_bounds (tasks : list Task) (total : Q)
    (breakdown : list WaveEstimate) :
  calculateEstimatedDuration tasks = Ok (total, breakdown) →
  ∃ waves,
    buildExecutionWaves tasks = Ok waves
    ∧ length breakdown = length waves
    ∧ (wave <$> breakdown) = seq 1 (length waves)
    ∧ (Estimation.tasks <$> breakdown) = (fmap id) <$> waves
    ∧ (parallel <$> breakdown) = (λ w, bool_decide (1 < length w)) <$> waves
    ∧ Forall2 (λ entry w,
         (∀ t, t ∈ w → (parseEstimate (estimate t) <= estimatedHours entry)%Q)
         ∧ (estimatedHours entry = 0%Q
            ∨ ∃ t, t ∈ w ∧ estimatedHours entry = parseEstimate (estimate t)))
       breakdown waves
    ∧ (∀ entry, entry ∈ breakdown → (estimatedHours entry <= total)%Q)
    ∧ (∀ t, t ∈ tasks → (parseEstimate (estimate t) <= total)%Q)
    ∧ ((∀ entry, entry ∈ breakdown → (estimatedHours entry == 0)%Q) →
       (total == 0)%Q).
Proof.
  unfold calculateEstimatedDuration.
  destruct (buildExecutionWaves tasks) as [waves| |] eqn:Hwaves; simpl; [|done..].
  intros [= <- <-]. pose proof (waves_permutation _ _ Hwaves) as Hperm.
  assert (Hhours : (estimatedHours <$>
                      imap (λ i w, mkWaveEstimate (i + 1) (id <$> w) (waveHours w)
                                     (bool_decide (1 < length w))) waves)
                   = waveHours <$> waves).
  { rewrite fmap_imap. rewrite (imap_ext _ (const waveHours)) by done.
    by rewrite imap_const. }
  exists waves. split_and!.
  - done.
  - by rewrite length_imap.
  - rewrite fmap_imap.
    rewrite (imap_ext _ (λ i _, S i)) by (intros; simpl; lia).
    by rewrite imap_seq_0, fmap_S_seq.
  - rewrite fmap_imap. rewrite (imap_ext _ (const (fmap id))) by done.
    by rewrite imap_const.
  - rewrite fmap_imap.
    rewrite (imap_ext _ (const (λ w : list Task, bool_decide (1 < length w))))
      by done.
    by rewrite imap_const.
  - apply Forall2_same_length_lookup. split; [by rewrite length_imap|].
    intros i entry w Hentry Hw. rewrite list_lookup_imap, Hw in Hentry.
    injection Hentry as <-. simpl. split.
    + intros t Ht. by apply waveHoursFrom_member.
    + apply waveHoursFrom_cases.
  - intros entry Hentry.
    assert (Hin : estimatedHours entry ∈ waveHours <$> waves).
    { rewrite <- Hhours. by apply list_elem_of_fmap_2. }
    apply list_elem_of_fmap in Hin as (w & -> & Hw). by apply totalHours_wave.
  - intros t Ht. rewrite <- Hperm in Ht.
    apply elem_of_concat in Ht as (w & Hw & Ht). by eapply totalHours_member.
  - intros Hzero. unfold totalHours. rewrite totalHoursFrom_sum, <- Hhours.
    rewrite sumHours_zero; [ring|].
    intros h (entry & -> & Hentry)%list_elem_of_fmap. by apply Hzero.
Qed.

Import SchedulerExamples PlanExamples.

Lemma calculateEstimatedDuration_bounds_witness :
  ∃ waves,
    buildExecutionWaves estimatedFanOut = Ok waves
    ∧ length [mkWaveEstimate 1 ["A"] 2 false; mkWaveEstimate 2 ["C"; "B"] 8 true]
      = length waves
    ∧ (wave <$> [mkWaveEstimate 1 ["A"] 2 false; mkWaveEstimate 2 ["C"; "B"] 8 true])
      = seq 1 (length waves)
    ∧ (Estimation.tasks
         <$> [mkWaveEstimate 1 ["A"] 2 false; mkWaveEstimate 2 ["C"; "B"] 8 true])
      = (fmap id) <$> waves
    ∧ (parallel
         <$> [mkWaveEstimate 1 ["A"] 2 false; mkWaveEstimate 2 ["C"; "B"] 8 true])
      = (λ w, bool_decide (1 < length w)) <$> waves
    ∧ Forall2 (λ entry w,
         (∀ t, t ∈ w → (parseEstimate (estimate t) <= estimatedHours entry)%Q)
         ∧ (estimatedHours entry = 0%Q
            ∨ ∃ t, t ∈ w ∧ estimatedHours entry = parseEstimate (estimate t)))
       [mkWaveEstimate 1 ["A"] 2 false; mkWaveEstimate 2 ["C"; "B"] 8 true] waves
    ∧ (∀ entry,
         entry ∈ [mkWaveEstimate 1 ["A"] 2 false; mkWaveEstimate 2 ["C"; "B"] 8 true] →
         (estimatedHours entry <= 10)%Q)
    ∧ (∀ t, t ∈ estimatedFanOut → (parseEstimate (estimate t) <= 10)%Q)
    ∧ ((∀ entry,
          entry ∈ [mkWaveEstimate 1 ["A"] 2 false; mkWaveEstimate 2 ["C"; "B"] 8 true] →
          (estimatedHours entry == 0)%Q) →
       (10 == 0)%Q).
Proof.
  apply (calculateEstimatedDuration_bounds estimatedFanOut).
  vm_compute. reflexivity.
Defined.

Example estimatedFanOut_duration :
  ∃ breakdown, calculateEstimatedDuration estimatedFanOut = Ok (10%Q, breakdown).
Proof. eexists. vm_compute. reflexivity. Qed.

(** *** generateExecutionPlan *)

Lemma mapM_ok {A B} (g : A → outcome B) (h : A → B) (l : list A) :
  (∀ x, x ∈ l → g x = Ok (h x)) → mapM g l = Ok (h <$> l).
Proof.
  induction l as [|x l IH]; intros Hall; [done|].
  cbn [mapM]. rewrite (Hall x) by (by apply elem_of_cons; left).
  rewrite IH by (intros y Hy; apply Hall; by apply elem_of_cons; right).
  done.
Qed.

Lemma sum_list_lengths {A} (ls : list (list A)) :
  sum_list (length <$> ls) = length (concat ls).
Proof.
  induction ls as [|l ls IH]; [done|].
  rewrite fmap_cons. simpl. by rewrite length_app, IH.
Qed.

(** X12.  [generateExecutionPlan] fails exactly as [buildExecutionWaves] does,
    and never on the index into the breakdown. When it returns, the plan has
    the waves of [buildExecutionWaves], numbered from 1, and the sizes of its
    waves add up to the number of tasks it announces. *)
Theorem generateExecutionPlan_follows_waves (tasks : list Task) :
  match buildExecutionWaves tasks with
  | Ok waves =>
      ∃ plan, generateExecutionPlan tasks = Ok plan
              ∧ totalTasks plan = length tasks
              ∧ totalWaves plan = length waves
              ∧ (number <$> planWaves plan) = seq 1 (length waves)
              ∧ (planTasks <$> planWaves plan)
                = (λ wave : list Task, planTask <$> wave) <$> waves
              ∧ sum_list (length <$> (planTasks <$> planWaves plan))
                = totalTasks plan
  | Throw e => generateExecutionPlan tasks = Throw e
  | OutOfFuel => generateExecutionPlan tasks = OutOfFuel
  end.
Proof.
  unfold generateExecutionPlan, calculateEstimatedDuration.
  destruct (buildExecutionWaves tasks) as [waves| |] eqn:Hwaves; simpl; [|done..].
  set (breakdown := imap _ waves).
  set (planned := λ '(i, wave),
         mkPlanWave (i + 1) (planTask <$> wave) (bool_decide (1 < length wave))
                    (waveHours wave)).
  rewrite (mapM_ok _ planned).
  2:{ intros [i wave] Hin.
      apply elem_of_lookup_imap in Hin as (j & w & [= -> ->] & Hj).
      unfold planWave, breakdown. rewrite list_lookup_imap, Hj. done. }
  simpl. eexists. split; [done|]. simpl.
  rewrite <- !list_fmap_compose, !fmap_imap.
  split_and!; [done|done| | |].
  - rewrite (imap_ext _ (λ i _, S i)) by (intros; simpl; lia).
    by rewrite imap_seq_0, fmap_S_seq.
  - rewrite (imap_ext _ (const (λ wave : list Task, planTask <$> wave))) by done.
    by rewrite imap_const.
  - rewrite (imap_ext _ (const (λ wave : list Task, length wave))).
    2:{ intros i w _. simpl. by rewrite length_fmap. }
    rewrite imap_const, sum_list_lengths.
    by rewrite (waves_permutation _ _ Hwaves).
Qed.

(** *** getReadyTasks *)

Lemma sweep_ready C tasks :
  (∀ t, t ∈ tasks → status t = pending) →
  (sweep C tasks).1 = reverse (getReadyTasks tasks C).
Proof.
  unfold getReadyTasks. induction tasks as [|t tasks IH]; intros Hp; [done|].
  cbn [sweep].
  specialize (IH (λ u Hu, Hp u (proj2 (elem_of_cons _ _ _) (or_intror Hu)))).
  assert (Ht : status t = pending) by (apply Hp; by apply elem_of_cons; left).
  destruct (sweep C tasks) as [wave rest]. cbn [fst] in IH.
  unfold depsCompleted.
  destruct (forallb _ (dependencies t)) eqn:Hready.
  - rewrite filter_cons_True by done. rewrite reverse_cons. cbn [fst].
    by rewrite IH.
  - rewrite filter_cons_False by (rewrite Hready; intros [_ ?]; done). by cbn [fst].
Qed.

(** X9.  When all tasks are pending, the first wave that
    [buildWavesWithDependencies] builds is what [getReadyTasks] returns for
    the same completed set, in reverse order. *)
Theorem first_wave_is_ready (tasks : list Task) (completed : gset string)
    (first : list Task) (later : list (list Task)) :
  (∀ t, t ∈ tasks → status t = pending) →
  buildWavesWithDependencies tasks completed = Ok (first :: later) →
  first = reverse (getReadyTasks tasks completed).
Proof.
  intros Hp. unfold buildWavesWithDependencies.
  destruct tasks as [|t0 tasks]; [done|].
  set (all := t0 :: tasks) in *.
  change (length all) with (S (length tasks)).
  rewrite wavesLoop_unfold by done.
  rewrite <- (sweep_ready completed all Hp).
  pose proof (sweep_spec completed all) as Hsweep.
  destruct (sweep completed all) as [wave rest]. cbn [fst].
  destruct Hsweep as (Hperm & _ & _).
  destruct (bool_decide (length wave = 0) && bool_decide (0 < length rest))
    eqn:Hstuck; [done|].
  destruct (decide (0 < length wave)) as [Hwave|Hwave].
  - rewrite bool_decide_eq_true_2 by done.
    intros (new & Heq & _)%wavesLoop_sound. simpl in Heq. by injection Heq.
  - exfalso. destruct wave; [|simpl in Hwave; lia].
    destruct rest; [|done].
    simpl in Hperm. by apply Permutation_nil_l in Hperm.
Qed.

Lemma first_wave_is_ready_witness :
  [task "A" 1 []] = reverse (getReadyTasks fanOut ∅).
Proof.
  apply (first_wave_is_ready fanOut ∅ [task "A" 1 []]
           [[task "C" 1 ["A"]; task "B" 1 ["A"]]]).
  - apply Forall_forall. apply (bool_decide_unpack _). vm_compute. reflexivity.
  - vm_compute. reflexivity.
Defined.

End PlanProofs.

(** ** Session store, the queries *)

Module SessionQueriesProofs.
Import SessionManager SessionInvariants SessionProofs SessionQueries.

#[local] Instance startedAfter_trans : Transitive startedAfter.
Proof. intros a b c Hab Hbc. unfold startedAfter in *. by etrans. Qed.

#[local] Instance startedAfter_total : Total startedAfter.
Proof. intros a b. unfold startedAfter. apply (total String.le). Qed.

Lemma selectSessions_elem d project id row :
  (id, row) ∈ selectSessions d project
  ↔ sessions d !! id = Some row ∧ row_project row = project.
Proof.
  unfold selectSessions. rewrite merge_sort_Permutation, list_elem_of_filter.
  rewrite elem_of_map_to_list. simpl. tauto.
Qed.

Lemma selectSessions_head d project first rest :
  selectSessions d project = first :: rest →
  ∀ id row, sessions d !! id = Some row → row_project row = project →
            String.le (started_at row) (started_at first.2).
Proof.
  intros Heq id row Hrow Hproj.
  assert (Hin : (id, row) ∈ selectSessions d project) by (by apply selectSessions_elem).
  assert (Hs : StronglySorted startedAfter (selectSessions d project)).
  { apply StronglySorted_merge_sort; apply _. }
  rewrite Heq in Hin, Hs. apply StronglySorted_inv in Hs as [_ Hall].
  apply elem_of_cons in Hin as [<-|Hin]; [done|].
  rewrite Forall_forall in Hall. by apply (Hall (id, row)).
Qed.

Lemma rowCompleted_false row :
  rowCompleted row = false →
  pending_tasks row ≠ [] ∨ is_Some (truthyString (current_task row)).
Proof.
  unfold rowCompleted. intros [H|H]%andb_false_iff;
    apply bool_decide_eq_false in H.
  - left. intros Hnil. by rewrite Hnil in H.
  - right. by destruct (truthyString (current_task row)).
Qed.

(** X17.  What [getActiveSession] returns is stored under the project asked
    for, has work left, and no session of the project was started later; the
    call changes nothing. *)
Theorem getActiveSession_is_latest (E : Env) (project : string) (w w' : World)
    (s : Session.t) :
  getActiveSession E project w = (Ok (Some s), w') →
  w' = w
  ∧ stored E (db w) (Session.id s) s
  ∧ Session.project s = project
  ∧ unfinished s
  ∧ ∀ id row, sessions (db w) !! id = Some row → row_project row = project →
              String.le (started_at row) (Session.startedAt s).
Proof.
  unfold getActiveSession, readDb, mbind, eff_bind.
  destruct (selectSessions (db w) project) as [|[id row] rest] eqn:Hsel; [done|].
  destruct (rowCompleted row) eqn:Hdone; [done|].
  unfold lift. rewrite rowToSession_eq.
  destruct (sessionOk E (sessionOfRow (db w) id row)) eqn:Hok; [|done].
  intros [= <- <-].
  assert (Hin : (id, row) ∈ selectSessions (db w) project).
  { rewrite Hsel. by apply elem_of_cons; left. }
  apply selectSessions_elem in Hin as [Hrow Hproj].
  split_and!; [done| |done| |].
  - by exists row.
  - apply rowCompleted_false in Hdone. by destruct Hdone; [left|right].
  - intros id' row' Hrow' Hproj'.
    apply (selectSessions_head _ _ _ _ Hsel id' row' Hrow' Hproj').
Qed.

(** X18.  Only the session started last counts: when it has no work left,
    [getActiveSession] returns null, whatever work the older sessions of the
    project have left. *)
Theorem getActiveSession_ignores_older (E : Env) (project : string) (w : World)
    (id : string) (row : SessionRow) :
  sessions (db w) !! id = Some row → row_project row = project →
  rowCompleted row = true →
  (∀ id' row', id' ≠ id → sessions (db w) !! id' = Some row' →
               row_project row' = project →
               ¬ String.le (started_at row) (started_at row')) →
  getActiveSession E project w = (Ok None, w).
Proof.
  intros Hrow Hproj Hdone Hlast.
  unfold getActiveSession, readDb, mbind, eff_bind.
  destruct (selectSessions (db w) project) as [|[id0 row0] rest] eqn:Hsel; [done|].
  assert (Hin : (id0, row0) ∈ selectSessions (db w) project).
  { rewrite Hsel. by apply elem_of_cons; left. }
  apply selectSessions_elem in Hin as [Hrow0 Hproj0].
  pose proof (selectSessions_head _ _ _ _ Hsel id row Hrow Hproj) as Hle.
  destruct (decide (id0 = id)) as [->|Hne].
  - assert (row0 = row) as -> by congruence. by rewrite Hdone.
  - by destruct (Hlast id0 row0 Hne Hrow0 Hproj0).
Qed.

(** X19.  [getAllSessions] is all or nothing: it returns the sessions of the
    project, every one of them as [getSession] reads it, when all of them pass
    the schema, and throws when one of them does not. *)
Theorem getAllSessions_all_or_nothing (E : Env) (project : string) (w : World) :
  ((∀ id row, sessions (db w) !! id = Some row → row_project row = project →
              sessionOk E (sessionOfRow (db w) id row) = true) →
   ∃ found, getAllSessions E project w = (Ok found, w)
            ∧ ∀ s, s ∈ found
                   ↔ stored E (db w) (Session.id s) s ∧ Session.project s = project)
  ∧ ((∃ id row, sessions (db w) !! id = Some row ∧ row_project row = project
                ∧ sessionOk E (sessionOfRow (db w) id row) = false) →
     getAllSessions E project w = (Throw SchemaError, w)).
Proof.
  unfold getAllSessions, readDb, mbind, eff_bind, lift.
  assert (Hmap : ∀ rows : list (string * SessionRow),
    mapM (λ r, rowToSession E (db w) r.1 r.2) rows
    = if forallb (λ r, sessionOk E (sessionOfRow (db w) r.1 r.2)) rows
      then Ok ((λ r, sessionOfRow (db w) r.1 r.2) <$> rows)
      else Throw SchemaError).
  { induction rows as [|r rows IH]; [done|].
    cbn [mapM forallb]. rewrite IH, rowToSession_eq.
    destruct (sessionOk E _); [|done]. by destruct (forallb _ rows). }
  rewrite Hmap. split.
  - intros Hall.
    rewrite (proj2 (forallb_forall _ _)).
    2:{ intros [id row] Hin%list_elem_of_In%selectSessions_elem.
        destruct Hin as [Hrow Hproj]. by apply Hall. }
    eexists. split; [done|]. intros s. rewrite list_elem_of_fmap. split.
    + intros ([id row] & -> & [Hrow Hproj]%selectSessions_elem). simpl.
      split; [|done]. exists row. split_and!; [done|done|by apply Hall].
    + intros [(row & Hrow & Heq & Hok) Hproj]. exists (Session.id s, row).
      split; [done|]. apply selectSessions_elem. split; [done|].
      rewrite Heq in Hproj. done.
  - intros (id & row & Hrow & Hproj & Hbad).
    destruct (forallb _ _) eqn:Hall; [|done]. exfalso.
    rewrite forallb_forall in Hall.
    assert (Hin : (id, row) ∈ selectSessions (db w) project)
      by (by apply selectSessions_elem).
    apply list_elem_of_In, Hall in Hin. simpl in Hin. congruence.
Qed.

Import StoreExamples QueryExamples.

Lemma getActiveSession_is_latest_witness :
  world0 = world0
  ∧ stored env0 (db world0) (Session.id session0) session0
  ∧ Session.project session0 = "demo"
  ∧ unfinished session0
  ∧ ∀ id row, sessions (db world0) !! id = Some row → row_project row = "demo" →
              String.le (started_at row) (Session.startedAt session0).
Proof.
  apply (getActiveSession_is_latest env0 "demo" world0 world0 session0).
  vm_compute. reflexivity.
Defined.

Lemma worldDone_sessions : sessions (db worldDone) = {[ sessionId0 := rowDone ]}.
Proof. vm_compute. reflexivity. Qed.

Lemma getActiveSession_ignores_older_witness :
  (sessions (db worldTwoSessions) !! sessionIdOlder = Some rowUnfinished
   ∧ row_project rowUnfinished = "demo"
   ∧ rowCompleted rowUnfinished = false)
  ∧ getActiveSession env0 "demo" worldTwoSessions = (Ok None, worldTwoSessions).
Proof.
  split; [by split_and!|].
  apply (getActiveSession_ignores_older env0 "demo" worldTwoSessions sessionId0
           rowLater).
  - reflexivity.
  - reflexivity.
  - reflexivity.
  - intros id' row' Hne Hrow' _. simpl in Hrow'.
    rewrite lookup_insert_ne in Hrow' by done.
    apply lookup_singleton_Some in Hrow' as [_ <-].
    vm_compute. by intros [].
Defined.

End SessionQueriesProofs.

(** ** Session store, creation and missing sessions *)

Module StoreProofs.
Import SessionManager SessionInvariants SessionProofs SessionQueries.

Lemma selectCheckpoints_none d id :
  (∀ row, row ∈ checkpointRows d → session_id row ≠ id) →
  selectCheckpoints d id = [].
Proof.
  intros Hnone. unfold selectCheckpoints.
  assert (filter (λ row, session_id row = id) (checkpointRows d) = []) as ->; [|done].
  induction (checkpointRows d) as [|row rows IH]; [done|].
  rewrite filter_cons_False by (apply Hnone; by apply elem_of_cons; left).
  apply IH. intros r Hr. apply Hnone. by apply elem_of_cons; right.
Qed.

Lemma createSession_eq E project phase tasks w :
  sqlFails E (S (S (tick w))) = false →
  sessions (db w) !! randomUUID E (tick w) = None →
  let id := randomUUID E (tick w) in
  let started := now E (S (tick w)) in
  createSession E project phase tasks w
  = (Ok (Session.mk id project phase started None None [] [] tasks ∅ ∅ ∅ [] ∅),
     mkWorld (mkDatabase
                (<[id := mkSessionRow project phase started None None [] []
                           tasks ∅ ∅ ∅ ∅]> (sessions (db w)))
                (checkpointRows (db w)))
             (console w) (S (S (S (tick w))))).
Proof.
  intros Hsql Hfresh id started. unfold createSession.
  rewrite (bind_ok _ _ _ _ _ (ask_eq _ _)).
  rewrite (bind_ok _ _ _ _ _ (ask_eq _ _)). simpl.
  set (w2 := mkWorld (db w) (console w) (S (S (tick w)))).
  set (d' := mkDatabase
               (<[id := mkSessionRow project phase started None None [] []
                          tasks ∅ ∅ ∅ ∅]> (sessions (db w)))
               (checkpointRows (db w))).
  assert (Hrun : run E (InsertSession id project phase started tasks) w2
                 = (Ok (), mkWorld d' (console w2) (S (tick w2)))).
  { apply run_ok; [exact Hsql|]. simpl. unfold id. by rewrite Hfresh. }
  by rewrite (bind_ok _ _ _ _ _ Hrun).
Qed.

(** X13.  A session that [createSession] has written reads back from
    [getSession] as the object [createSession] returned, when the id is new
    and the values pass the schema. *)
Theorem createSession_round_trip (E : Env) (project phase : string)
    (tasks : list string) (w : World) :
  sqlFails E (S (S (tick w))) = false →
  sessions (db w) !! randomUUID E (tick w) = None →
  (∀ row, row ∈ checkpointRows (db w) → session_id row ≠ randomUUID E (tick w)) →
  isUuid E (randomUUID E (tick w)) = true →
  isDatetime E (now E (S (tick w))) = true →
  project ≠ "" → phaseOk phase = true →
  ∃ s w', createSession E project phase tasks w = (Ok s, w')
          ∧ getSession E (Session.id s) w' = (Ok (Some s), w')
          ∧ taskState s = (None, tasks, [], [])
          ∧ sessions (db w') = <[Session.id s :=
                                   mkSessionRow project phase (Session.startedAt s)
                                     None None [] [] tasks ∅ ∅ ∅ ∅]> (sessions (db w)).
Proof.
  intros Hsql Hfresh Hrows Huuid Hdate Hproject Hphase.
  rewrite createSession_eq by done.
  eexists _, _. split; [reflexivity|]. split_and!; [|done|done].
  apply getSession_stored. simpl.
  eexists. split; [apply lookup_insert_eq|]. unfold sessionOfRow, checkpointsOf.
  simpl. rewrite selectCheckpoints_none by done. simpl. split; [done|].
  unfold sessionOk. simpl. rewrite Huuid, Hphase, Hdate. simpl.
  rewrite bool_decide_eq_true_2 by done. simpl.
  apply bool_decide_eq_true. apply map_Forall_empty.
Qed.

(** X14.  [createSession] checks nothing.  With a phase or a project that
    the schema refuses, the session is written all the same, and from then
    on every read of it, and every operation that starts with a read,
    throws the schema error. *)
Theorem createSession_checks_nothing (E : Env) (project phase : string)
    (tasks : list string) (w : World) :
  sqlFails E (S (S (tick w))) = false →
  sessions (db w) !! randomUUID E (tick w) = None →
  phaseOk phase = false ∨ project = "" →
  ∃ s w', createSession E project phase tasks w = (Ok s, w')
          ∧ is_Some (sessions (db w') !! Session.id s)
          ∧ getSession E (Session.id s) w' = (Throw SchemaError, w')
          ∧ (∀ taskId, startTask E (Session.id s) taskId w' = (Throw SchemaError, w'))
          ∧ (∀ taskId status options,
               saveCheckpoint E (Session.id s) taskId status options w'
               = (Throw SchemaError, w')).
Proof.
  intros Hsql Hfresh Hbad. rewrite createSession_eq by done.
  eexists _, _. split; [reflexivity|]. simpl.
  set (id := randomUUID E (tick w)). set (w' := mkWorld _ _ _).
  assert (Hget : getSession E id w' = (Throw SchemaError, w')).
  { unfold getSession, readDb, mbind, eff_bind. simpl.
    rewrite lookup_insert_eq. unfold lift. rewrite rowToSession_eq.
    destruct (sessionOk E _) eqn:Hok; [|done]. exfalso.
    unfold sessionOk in Hok. simpl in Hok.
    repeat (apply andb_prop in Hok as [Hok ?]).
    destruct Hbad as [Hb|Hb]; [congruence|].
    match goal with
    | H : bool_decide (_ ≠ _) = true |- _ => apply bool_decide_eq_true in H; done
    end. }
  split_and!.
  - rewrite lookup_insert_eq. by eexists.
  - done.
  - intros taskId. unfold startTask, requireSession.
    by rewrite (bind_throw _ _ _ _ _ (bind_throw _ _ _ _ _ Hget)).
  - intros taskId status options. unfold saveCheckpoint, requireSession.
    by rewrite (bind_throw _ _ _ _ _ (bind_throw _ _ _ _ _ Hget)).
Qed.

Lemma requireSession_missing E w id :
  sessions (db w) !! id = None →
  requireSession E id w = (Throw (SessionNotFound id), w).
Proof.
  intros Hnone. unfold requireSession, getSession, readDb, mbind, eff_bind.
  by rewrite Hnone.
Qed.

(** X15.  Every operation on a session that is not in the store throws
    "Session ... not found" before it writes anything: the database, the
    console and the statement counter stay as they were. *)
Theorem operations_need_the_session (E : Env) (w : World) (id : string) :
  sessions (db w) !! id = None →
  (∀ taskId, startTask E id taskId w = (Throw (SessionNotFound id), w))
  ∧ (∀ taskId status options,
       saveCheckpoint E id taskId status options w = (Throw (SessionNotFound id), w))
  ∧ (∀ taskId error, recordError E id taskId error w = (Throw (SessionNotFound id), w))
  ∧ (∀ taskId, resolveError E id taskId w = (Throw (SessionNotFound id), w))
  ∧ (∀ taskId path, registerWorktree E id taskId path w = (Throw (SessionNotFound id), w))
  ∧ (∀ taskId branch, registerBranch E id taskId branch w = (Throw (SessionNotFound id), w))
  ∧ (∀ taskId url, registerPR E id taskId url w = (Throw (SessionNotFound id), w))
  ∧ getSession E id w = (Ok None, w).
Proof.
  intros Hnone. pose proof (requireSession_missing E w id Hnone) as Hreq.
  split_and!; intros;
    try (unfold startTask, saveCheckpoint, recordError, resolveError,
           registerWorktree, registerBranch, registerPR;
         by rewrite (bind_throw _ _ _ _ _ Hreq)).
  unfold getSession, readDb, mbind, eff_bind. by rewrite Hnone.
Qed.

Import StoreExamples.

Lemma createSession_round_trip_witness :
  ∃ s w', createSession env0 "demo" "p00" ["T00-001"; "T00-002"] emptyWorld = (Ok s, w')
          ∧ getSession env0 (Session.id s) w' = (Ok (Some s), w')
          ∧ taskState s = (None, ["T00-001"; "T00-002"], [], [])
          ∧ sessions (db w')
            = <[Session.id s :=
                  mkSessionRow "demo" "p00" (Session.startedAt s)
                    None None [] [] ["T00-001"; "T00-002"] ∅ ∅ ∅ ∅]>
                (sessions (db emptyWorld)).
Proof.
  apply (createSession_round_trip env0 "demo" "p00" ["T00-001"; "T00-002"] emptyWorld);
    try reflexivity.
  - by intros row ?%elem_of_nil.
  - done.
Defined.

Lemma createSession_checks_nothing_witness :
  ∃ s w', createSession env0 "demo" "phase-1" ["T00-001"] emptyWorld = (Ok s, w')
          ∧ is_Some (sessions (db w') !! Session.id s)
          ∧ getSession env0 (Session.id s) w' = (Throw SchemaError, w')
          ∧ (∀ taskId, startTask env0 (Session.id s) taskId w' = (Throw SchemaError, w'))
          ∧ (∀ taskId status options,
               saveCheckpoint env0 (Session.id s) taskId status options w'
               = (Throw SchemaError, w')).
Proof.
  apply (createSession_checks_nothing env0 "demo" "phase-1" ["T00-001"] emptyWorld);
    try reflexivity.
  left. reflexivity.
Defined.

Lemma operations_need_the_session_witness :
  (∀ taskId, startTask env0 "gone" taskId emptyWorld
             = (Throw (SessionNotFound "gone"), emptyWorld))
  ∧ (∀ taskId status options,
       saveCheckpoint env0 "gone" taskId status options emptyWorld
       = (Throw (SessionNotFound "gone"), emptyWorld))
  ∧ (∀ taskId error, recordError env0 "gone" taskId error emptyWorld
                     = (Throw (SessionNotFound "gone"), emptyWorld))
  ∧ (∀ taskId, resolveError env0 "gone" taskId emptyWorld
               = (Throw (SessionNotFound "gone"), emptyWorld))
  ∧ (∀ taskId path, registerWorktree env0 "gone" taskId path emptyWorld
                    = (Throw (SessionNotFound "gone"), emptyWorld))
  ∧ (∀ taskId branch, registerBranch env0 "gone" taskId branch emptyWorld
                      = (Throw (SessionNotFound "gone"), emptyWorld))
  ∧ (∀ taskId url, registerPR env0 "gone" taskId url emptyWorld
                   = (Throw (SessionNotFound "gone"), emptyWorld))
  ∧ getSession env0 "gone" emptyWorld = (Ok None, emptyWorld).
Proof. apply (operations_need_the_session env0 emptyWorld "gone"). reflexivity. Defined.

End StoreProofs.

(** ** Session store, one session at a time *)

Module IsolationProofs.
Import SessionManager SessionInvariants SessionProofs StoreSpec.

Lemma sameElsewhere_refl id d : sameElsewhere id d d.
Proof. by intros other _. Qed.

Lemma sameElsewhere_trans id d1 d2 d3 :
  sameElsewhere id d1 d2 → sameElsewhere id d2 d3 → sameElsewhere id d1 d3.
Proof.
  intros H12 H23 other Hne.
  destruct (H12 other Hne) as [Ha Hb], (H23 other Hne) as [Hc Hd].
  split; congruence.
Qed.

Lemma applyStmt_sameElsewhere id st d d' :
  targets id st → applyStmt st d = Some d' → sameElsewhere id d d'.
Proof.
  destruct st as [| s | row | sid | sid]; simpl; [done|..].
  - intros <- [= <-] other Hne. simpl. split; [|done].
    by apply lookup_alter_ne.
  - intros <- [= <-] other Hne. simpl. split; [done|].
    rewrite filter_app, filter_cons_False, filter_nil by done.
    by rewrite (right_id_L [] (++)).
  - intros -> [= <-] other Hne. simpl. split; [done|].
    rewrite list_filter_filter. apply list_filter_iff.
    intros row. split; [tauto|]. intros Hrow. split; [done|]. congruence.
  - intros -> [= <-] other Hne. simpl. split; [|done].
    by apply lookup_delete_ne.
Qed.

Section WithEnv.
Context (E : Env).

Lemma keepsOthers_bind {A B} id (m : Eff A) (f : A → Eff B) (P : A → Prop) :
  keepsOthers id m →
  (∀ w a w', m w = (Ok a, w') → P a) →
  (∀ a, P a → keepsOthers id (f a)) →
  keepsOthers id (m ≫= f).
Proof.
  intros Hm HP Hf w. unfold mbind, eff_bind.
  specialize (Hm w). destruct (m w) as [[a| |] w'] eqn:Heq; simpl in *; try done.
  eapply sameElsewhere_trans; [exact Hm|]. apply Hf. by eapply HP.
Qed.

Lemma keepsOthers_seq {A B} id (m : Eff A) (f : A → Eff B) :
  keepsOthers id m → (∀ a, keepsOthers id (f a)) → keepsOthers id (m ≫= f).
Proof. intros Hm Hf. by apply (keepsOthers_bind id m f (λ _, True)). Qed.

Lemma keepsOthers_ret {A} id (a : A) : keepsOthers id (mret a : Eff A).
Proof. intros w. apply sameElsewhere_refl. Qed.

Lemma keepsOthers_throw {A} id e : keepsOthers id (throw e : Eff A).
Proof. intros w. apply sameElsewhere_refl. Qed.

Lemma keepsOthers_ask {A} id (oracle : nat → A) : keepsOthers id (ask oracle).
Proof. intros w. rewrite ask_eq. apply sameElsewhere_refl. Qed.

Lemma keepsOthers_run id st : targets id st → keepsOthers id (run E st).
Proof.
  intros Hst w. unfold run, nextTick, mbind, eff_bind, readDb, writeDb, throw. simpl.
  destruct (sqlFails E (tick w)); simpl; [apply sameElsewhere_refl|].
  destruct (applyStmt st (db w)) as [d'|] eqn:Hd; simpl;
    [|apply sameElsewhere_refl].
  by apply (applyStmt_sameElsewhere id st).
Qed.

Lemma keepsOthers_requireSession id : keepsOthers id (requireSession E id).
Proof.
  intros w. unfold requireSession, getSession, readDb, mbind, eff_bind, lift. simpl.
  destruct (sessions (db w) !! id); simpl; [|apply sameElsewhere_refl].
  destruct (rowToSession E (db w) id _); apply sameElsewhere_refl.
Qed.

Lemma requireSession_id id w s w' :
  requireSession E id w = (Ok s, w') → Session.id s = id.
Proof.
  unfold requireSession, getSession, readDb, mbind, eff_bind, lift. simpl.
  destruct (sessions (db w) !! id) as [row|]; [|done].
  rewrite rowToSession_eq. destruct (sessionOk E _); [|done].
  by intros [= <- _].
Qed.

Lemma keepsOthers_modify id (f : Session.t → Session.t) :
  (∀ s, Session.id (f s) = Session.id s) →
  keepsOthers id (requireSession E id ≫= λ session, updateSession E (f session)).
Proof.
  intros Hid.
  apply (keepsOthers_bind id _ _ (λ s, Session.id s = id)).
  - apply keepsOthers_requireSession.
  - apply requireSession_id.
  - intros s Hs. apply keepsOthers_run. simpl. by rewrite Hid.
Qed.

Lemma keepsOthers_transaction {A} id (fn : Eff A) :
  keepsOthers id fn → keepsOthers id (transaction fn).
Proof.
  intros Hfn w. unfold transaction. specialize (Hfn w).
  destruct (fn w) as [[a| |] w']; simpl in *; try done.
Qed.

Lemma keepsOthers_startTask id taskId : keepsOthers id (startTask E id taskId).
Proof. by apply (keepsOthers_modify id (λ s, started taskId s)). Qed.

Lemma keepsOthers_saveCheckpoint id taskId status options :
  keepsOthers id (saveCheckpoint E id taskId status options).
Proof.
  unfold saveCheckpoint.
  apply (keepsOthers_bind id _ _ (λ s, Session.id s = id));
    [apply keepsOthers_requireSession|apply requireSession_id|].
  intros s Hs. apply keepsOthers_seq; [apply keepsOthers_ask|]. intros now.
  apply keepsOthers_seq; [by apply keepsOthers_run|]. intros _.
  apply keepsOthers_run. simpl. by repeat case_decide.
Qed.

Lemma keepsOthers_recordError id taskId error :
  keepsOthers id (recordError E id taskId error).
Proof.
  by apply (keepsOthers_modify id
    (λ session,
       Session.setErrors
         (<[taskId := match Session.errors session !! taskId with
                      | Some existing =>
                          TaskError.mk (TaskError.iterations existing + 1) error true false
                      | None => TaskError.mk 1 error false false
                      end]> (Session.errors session)) session)).
Qed.

Lemma keepsOthers_resolveError id taskId : keepsOthers id (resolveError E id taskId).
Proof.
  unfold resolveError.
  apply (keepsOthers_bind id _ _ (λ s, Session.id s = id));
    [apply keepsOthers_requireSession|apply requireSession_id|].
  intros s Hs. destruct (Session.errors s !! taskId); [|apply keepsOthers_ret].
  by apply keepsOthers_run.
Qed.

Lemma keepsOthers_deleteSession id : keepsOthers id (deleteSession E id).
Proof.
  apply keepsOthers_transaction, keepsOthers_seq; [by apply keepsOthers_run|].
  intros _. by apply keepsOthers_run.
Qed.

Lemma getSession_sameElsewhere id other w w' :
  sameElsewhere id (db w) (db w') → other ≠ id →
  (getSession E other w').1 = (getSession E other w).1.
Proof.
  intros Hsame Hne. destruct (Hsame other Hne) as [Hrow Hcps].
  unfold getSession, readDb, mbind, eff_bind, lift. simpl. rewrite Hrow.
  destruct (sessions (db w) !! other) as [row|]; [|done].
  unfold rowToSession, selectCheckpoints. rewrite Hcps.
  by destruct (_ ≫= _).
Qed.

End WithEnv.

(** X16.  An operation on one session leaves every other session as it was:
    whether the operation succeeds, throws half-way or finds no session,
    [getSession] answers the same for every other id after it as before. *)
Theorem operations_touch_one_session (E : Env) (w : World) (id other : string) :
  other ≠ id →
  let same (r : outcome unit * World) :=
    (getSession E other r.2).1 = (getSession E other w).1 in
  (∀ taskId, same (startTask E id taskId w))
  ∧ (∀ taskId status options, same (saveCheckpoint E id taskId status options w))
  ∧ (∀ taskId error, same (recordError E id taskId error w))
  ∧ (∀ taskId, same (resolveError E id taskId w))
  ∧ (∀ taskId path, same (registerWorktree E id taskId path w))
  ∧ (∀ taskId branch, same (registerBranch E id taskId branch w))
  ∧ (∀ taskId url, same (registerPR E id taskId url w))
  ∧ same (deleteSession E id w).
Proof.
  intros Hne same. subst same. simpl.
  split_and!; intros; apply (getSession_sameElsewhere E id); try done.
  - apply keepsOthers_startTask.
  - apply keepsOthers_saveCheckpoint.
  - apply keepsOthers_recordError.
  - apply keepsOthers_resolveError.
  - by apply (keepsOthers_modify E id
      (λ session, Session.setWorktrees (<[_ := _]> (Session.worktrees session)) session)).
  - by apply (keepsOthers_modify E id
      (λ session, Session.setBranches (<[_ := _]> (Session.branches session)) session)).
  - by apply (keepsOthers_modify E id
      (λ session, Session.setPrs (<[_ := _]> (Session.prs session)) session)).
  - apply keepsOthers_deleteSession.
Qed.

Import StoreExamples.

Lemma operations_touch_one_session_witness :
  let same (r : outcome unit * World) :=
    (getSession env0 "another" r.2).1 = (getSession env0 "another" world0).1 in
  (∀ taskId, same (startTask env0 sessionId0 taskId world0))
  ∧ (∀ taskId status options,
       same (saveCheckpoint env0 sessionId0 taskId status options world0))
  ∧ (∀ taskId error, same (recordError env0 sessionId0 taskId error world0))
  ∧ (∀ taskId, same (resolveError env0 sessionId0 taskId world0))
  ∧ (∀ taskId path, same (registerWorktree env0 sessionId0 taskId path world0))
  ∧ (∀ taskId branch, same (registerBranch env0 sessionId0 taskId branch world0))
  ∧ (∀ taskId url, same (registerPR env0 sessionId0 taskId url world0))
  ∧ same (deleteSession env0 sessionId0 world0).
Proof. apply (operations_touch_one_session env0 world0 sessionId0 "another"). done. Defined.

End IsolationProofs.

(** ** Session store, deletion and the error table *)

Module BookkeepingProofs.
Import SessionManager SessionInvariants SessionProofs StoreSpec.

(** X21.  After [deleteSession] has run, the session is gone: [getSession]
    returns null for it and no checkpoint of it is left in the table. Deleting
    a session that was never stored succeeds as well. *)
Theorem deleteSession_forgets (E : Env) (w : World) (id : string) :
  sqlFails E (tick w) = false → sqlFails E (S (tick w)) = false →
  ∃ w', deleteSession E id w = (Ok (), w')
        ∧ getSession E id w' = (Ok None, w')
        ∧ (∀ row, row ∈ checkpointRows (db w') → session_id row ≠ id)
        ∧ console w' = console w.
Proof.
  intros H1 H2. unfold deleteSession, transaction.
  erewrite bind_ok by (by apply run_ok).
  erewrite run_ok by done. eexists. split; [reflexivity|]. simpl.
  split_and!; [|by intros row [? _]%list_elem_of_filter|done].
  unfold getSession, readDb, mbind, eff_bind. simpl.
  by rewrite lookup_delete_eq.
Qed.

Section WithEnv.
Context (E : Env) (HE : Reliable E).

Lemma recordError_step w id s taskId error :
  stored E (db w) id s →
  ∃ w' s', recordError E id taskId error w = (Ok (), w')
           ∧ stored E (db w') id s'
           ∧ s' = Session.setErrors
                    (<[taskId := errorAfter (Session.errors s !! taskId) 1 error]>
                       (Session.errors s)) s
           ∧ console w' = console w
           ∧ checkpointRows (db w') = checkpointRows (db w).
Proof.
  intros Hs.
  set (f := λ session : Session.t,
         Session.setErrors
           (<[taskId := match Session.errors session !! taskId with
                        | Some existing =>
                            TaskError.mk (TaskError.iterations existing + 1) error
                              true false
                        | None => TaskError.mk 1 error false false
                        end]> (Session.errors session)) session).
  destruct (modify_ok E HE w id s f) as [Heq Hst]; auto.
  { simpl. apply map_Forall_insert_2.
    - unfold taskErrorOk. apply bool_decide_eq_true.
      destruct (Session.errors s !! taskId); simpl; lia.
    - by apply (sessionOk_errors E), (stored_sessionOk _ _ _ _ Hs). }
  eexists _, _. split; [exact Heq|]. split; [exact Hst|]. split_and!; [|done|done].
  unfold f, errorAfter. do 2 f_equal.
  destruct (Session.errors s !! taskId) as [e|]; simpl; [|done].
  f_equal.
Qed.

Lemma errorAfter_again prior e0 count error :
  1 ≤ count →
  errorAfter (Some (errorAfter prior 1 e0)) count error
  = errorAfter prior (S count) error.
Proof.
  intros Hcount. unfold errorAfter. simpl. f_equal; [lia|].
  symmetry. by rewrite bool_decide_eq_true_2 by (right; lia).
Qed.

Lemma recordError_loop errors : ∀ w id s taskId last,
  stored E (db w) id s →
  ∃ w' s', forEachEff (recordError E id taskId) (errors ++ [last]) w = (Ok (), w')
           ∧ stored E (db w') id s'
           ∧ s' = Session.setErrors
                    (<[taskId := errorAfter (Session.errors s !! taskId)
                                   (S (length errors)) last]> (Session.errors s)) s
           ∧ console w' = console w
           ∧ checkpointRows (db w') = checkpointRows (db w).
Proof.
  induction errors as [|e0 errors IH]; intros w id s taskId last Hs.
  - destruct (recordError_step w id s taskId last Hs)
      as (w' & s' & Heq & Hst & Hs' & Hcon & Hrows).
    exists w', s'. split_and!; try done.
    simpl. by rewrite (bind_ok _ _ _ _ _ Heq).
  - destruct (recordError_step w id s taskId e0 Hs)
      as (w1 & s1 & Heq & Hst & Hs1 & Hcon & Hrows).
    destruct (IH w1 id s1 taskId last Hst)
      as (w' & s' & Heq' & Hst' & Hs' & Hcon' & Hrows').
    exists w', s'. split_and!; try congruence.
    + change ((e0 :: errors) ++ [last]) with (e0 :: (errors ++ [last])).
      cbn [forEachEff]. by rewrite (bind_ok _ _ _ _ _ Heq).
    + rewrite Hs', Hs1. simpl. rewrite lookup_insert_eq, insert_insert_eq.
      by rewrite errorAfter_again by lia.
Qed.

End WithEnv.

(** X22.  The error table counts the failures of a task whose id has the
    shape the loader accepts (T and two digits first; no such id is a member
    the table inherits from Object.prototype): after n calls of
    [recordError] for it, its entry holds the number of failures recorded so
    far, the message of the last one, [retried] from the second failure on and
    [resolved = false], also when the entry had been resolved before; the
    entries of the other tasks and the task lists are as they were. *)
Theorem recordError_counts (E : Env) (w : World) (id : string) (s : Session.t)
    (taskId : string) (errors : list string) (last : string) :
  Reliable E → stored E (db w) id s →
  is_Some (TaskLoader.matchTaskPhase taskId) →
  ∃ w' s', forEachEff (recordError E id taskId) (errors ++ [last]) w = (Ok (), w')
           ∧ stored E (db w') id s'
           ∧ Session.errors s' !! taskId
             = Some (TaskError.mk
                       (default 0 (TaskError.iterations <$> Session.errors s !! taskId)
                        + S (length errors))
                       last
                       (bool_decide (is_Some (Session.errors s !! taskId)
                                     ∨ errors ≠ []))
                       false)
           ∧ (∀ other, other ≠ taskId →
                Session.errors s' !! other = Session.errors s !! other)
           ∧ taskState s' = taskState s.
Proof.
  intros HE Hs _.
  destruct (recordError_loop E HE errors w id s taskId last Hs)
    as (w' & s' & Heq & Hst & -> & _ & _).
  eexists w', _. split_and!; [done|done| | |done].
  - simpl. rewrite lookup_insert_eq. unfold errorAfter. do 2 f_equal.
    apply bool_decide_ext. split; (intros [?|?]; [by left|right]).
    + intros ->. simpl in *. lia.
    + destruct errors; [done|simpl; lia].
  - intros other Hne. simpl. by rewrite lookup_insert_ne.
Qed.

Import StoreExamples ExecutorProofs.

Lemma deleteSession_forgets_witness :
  ∃ w', deleteSession env0 sessionId0 world0 = (Ok (), w')
        ∧ getSession env0 sessionId0 w' = (Ok None, w')
        ∧ (∀ row, row ∈ checkpointRows (db w') → session_id row ≠ sessionId0)
        ∧ console w' = console world0.
Proof. apply (deleteSession_forgets env0 world0 sessionId0); reflexivity. Defined.

Lemma recordError_counts_witness :
  ∃ w' s',
    forEachEff (recordError env0 sessionId0 "T00-001") (["lint failed"] ++ ["boom"])
      world0 = (Ok (), w')
    ∧ stored env0 (db w') sessionId0 s'
    ∧ Session.errors s' !! "T00-001"
      = Some (TaskError.mk
                (default 0 (TaskError.iterations
                              <$> Session.errors session0 !! "T00-001")
                 + S (length ["lint failed"]))
                "boom"
                (bool_decide (is_Some (Session.errors session0 !! "T00-001")
                              ∨ ["lint failed"] ≠ []))
                false)
    ∧ (∀ other, other ≠ "T00-001" →
         Session.errors s' !! other = Session.errors session0 !! other)
    ∧ taskState s' = taskState session0.
Proof.
  apply (recordError_counts env0 world0 sessionId0 session0 "T00-001"
           ["lint failed"] "boom").
  - apply env_reliable.
  - apply world0_stored.
  - by eexists.
Defined.

End BookkeepingProofs.

(** ** A run of the executor *)

Module RunProofs.
Import SessionManager SessionInvariants SessionProofs ExecutorSpec ExecutorProofs.
Import HooksProofs StoreSpec WavesProofs.






Section WithEnv.
Context (E : Env) (HE : Reliable E) (HC : Cooperative E).
Context (projectConfig : option ProjectConfig) (project cwd : string).

(** What the handler of the retry loop does before the next turn. *)
Lemma cleanup_ok (attempt : nat) (task : Task) w :
  (∀ k taskId, removeWorktree E k taskId ≠ OutOfFuel) →
  ∃ w', ((if bool_decide (attempt < TaskExecutor.maxRetries) then
            log ("  Retry " +:+ pretty (attempt + 1) +:+ "/"
                 +:+ pretty TaskExecutor.maxRetries
                 +:+ " for " +:+ id task +:+ "...");;
            tryCatch (askOutcome (λ k, removeWorktree E k (id task)))
                     (λ _, mret ())
          else mret ()) : Eff unit) w = (Ok (), w')
        ∧ db w' = db w.
Proof.
  intros Hremove. destruct (bool_decide _); [|by exists w].
  unfold log at 1. unfold mbind at 1, eff_bind at 1.
  unfold tryCatch. rewrite askOutcome_eq. simpl.
  specialize (Hremove (tick w) (id task)).
  destruct (removeWorktree E (tick w) (id task)) as [[]| |]; [| |done];
    by eexists.
Qed.

Lemma retryLoop_rejected (r : ExecutionResult.t) (sid : string) (task : Task)
    (fast : bool) (turns : nat) : ∀ attempt lastError w s,
  (∀ k taskId, removeWorktree E k taskId ≠ OutOfFuel) →
  engineAnswers E r → accepted r = false → stored E (db w) sid s →
  endsIn E w sid (Throw (rejection r))
    (None, filter (λ t, t ≠ id task) (Session.pendingTasks s),
     Session.completedTasks s,
     Session.failedTasks s ++ replicate (S turns) (id task))
    (id task) failed
    (TaskExecutor.retryLoop E projectConfig project cwd (S turns) attempt lastError
       sid task fast w).
Proof.
  induction turns as [|turns IH]; intros attempt lastError w s Hremove Hengine Hacc Hs.
  - destruct (run_executeTask_rejected E HE HC projectConfig project cwd
                w sid s task fast r Hengine Hacc Hs)
      as (w1 & s1 & Heq & Hst & Hts & Hlast).
    destruct (cleanup_ok attempt task w1 Hremove) as (w2 & Hclean & Hdb).
    exists w2, s1. rewrite Hdb. split_and!; [|done|done|done].
    cbn [TaskExecutor.retryLoop].
    rewrite (tryCatch_throw _ _ _ _ _ (bind_throw _ _ _ _ _ Heq)).
    by rewrite (bind_ok _ _ _ _ _ Hclean).
  - destruct (run_executeTask_rejected E HE HC projectConfig project cwd
                w sid s task fast r Hengine Hacc Hs)
      as (w1 & s1 & Heq & Hst & Hts & Hlast).
    destruct (cleanup_ok attempt task w1 Hremove) as (w2 & Hclean & Hdb).
    rewrite <- Hdb in Hst.
    destruct (IH (S attempt) (Some (rejection r)) w2 s1 Hremove Hengine Hacc Hst)
      as (w3 & s3 & Heq3 & Hst3 & Hts3 & Hlast3).
    exists w3, s3. split_and!; [|done| |done].
    + change (TaskExecutor.retryLoop E projectConfig project cwd (S (S turns))
                attempt lastError sid task fast w)
        with (tryCatch
                (TaskExecutor.executeTask E projectConfig project cwd sid task fast;;
                 resolveError E sid (id task))
                (λ error,
                   (if bool_decide (attempt < TaskExecutor.maxRetries) then
                      log ("  Retry " +:+ pretty (attempt + 1) +:+ "/"
                           +:+ pretty TaskExecutor.maxRetries
                           +:+ " for " +:+ id task +:+ "...");;
                      tryCatch (askOutcome (λ k, removeWorktree E k (id task)))
                               (λ _, mret ())
                    else mret ());;
                   TaskExecutor.retryLoop E projectConfig project cwd (S turns)
                     (S attempt) (Some error) sid task fast) w).
      rewrite (tryCatch_throw _ _ _ _ _ (bind_throw _ _ _ _ _ Heq)).
      by rewrite (bind_ok _ _ _ _ _ Hclean).
    + rewrite Hts3. apply taskState_inv in Hts as (_ & -> & -> & ->).
      rewrite <- (assoc_L (++)), list_filter_filter.
      by rewrite (list_filter_iff _ (λ t, t ≠ id task)) by tauto.
Qed.








End WithEnv.


(** X24.  When the engine never returns an accepted result,
    [executeTaskWithRetry] runs the task three times (maxRetries = 2) and then
    throws the rejection of the last attempt. Each attempt appends the task id
    to failedTasks, so the id ends up there three times; the last checkpoint
    is a failed one. *)
Theorem retries_exhausted (E : Env) (projectConfig : option ProjectConfig)
    (project cwd : string) (w : World) (sid : string) (s : Session.t)
    (task : Task) (fast : bool) (r : ExecutionResult.t) :
  Reliable E → Cooperative E →
  (∀ k taskId, removeWorktree E k taskId ≠ OutOfFuel) →
  engineAnswers E r → accepted r = false → stored E (db w) sid s →
  endsIn E w sid (Throw (rejection r))
    (None, filter (λ t, t ≠ id task) (Session.pendingTasks s),
     Session.completedTasks s,
     Session.failedTasks s ++ [id task; id task; id task])
    (id task) failed
    (TaskExecutor.executeTaskWithRetry E projectConfig project cwd sid task fast w).
Proof.
  intros HE HC Hremove Hengine Hacc Hs.
  by apply (retryLoop_rejected E HE HC projectConfig project cwd r sid task fast 2).
Qed.

Import StoreExamples.



Lemma world0_stored_rejecting :
  stored envCompletedButFailed (db world0) sessionId0 session0.
Proof.
  apply (stored_inv envCompletedButFailed world0 _ _ world0). vm_compute. reflexivity.
Qed.

Lemma retries_exhausted_witness :
  endsIn envCompletedButFailed world0 sessionId0 (Throw (rejection completedButFailed))
    (None, filter (λ t, t ≠ id task1) (Session.pendingTasks session0),
     Session.completedTasks session0,
     Session.failedTasks session0 ++ [id task1; id task1; id task1])
    (id task1) failed
    (TaskExecutor.executeTaskWithRetry envCompletedButFailed None "demo" "/repo"
       sessionId0 task1 false world0).
Proof.
  apply (retries_exhausted envCompletedButFailed None "demo" "/repo" world0
           sessionId0 session0 task1 false completedButFailed).
  - apply env_reliable.
  - apply env_cooperative.
  - done.
  - by intros k prompt dir.
  - reflexivity.
  - apply world0_stored_rejecting.
Defined.


End RunProofs.

(** ** Chunks *)

Module ChunksProofs.
Import Chunks.

Lemma slice_step {A} (array : list A) (p : nat) (n : Z) :
  (1 ≤ n)%Z → p < length array →
  slice array (Int (Z.of_nat p)) (add (Int (Z.of_nat p)) (Int n))
  = take (Z.to_nat n) (drop p array).
Proof.
  intros Hn Hp. unfold slice, relativeIndex, add.
  rewrite !bool_decide_eq_false_2 by lia.
  replace (Z.to_nat (Z.min (Z.of_nat p) (Z.of_nat (length array)))) with p by lia.
  destruct (decide (Z.of_nat p + n ≤ Z.of_nat (length array))%Z).
  - f_equal. lia.
  - rewrite !take_ge; [done| |]; rewrite length_drop; lia.
Qed.

Lemma chunkLoop_spec {A} (array : list A) (n : Z) (Hn : (1 ≤ n)%Z) (fuel : nat) :
  ∀ p acc, length array - p < fuel →
  ∃ chunks,
    chunkLoop fuel array (Int n) (Int (Z.of_nat p)) acc = Ok (acc ++ chunks)
    ∧ concat chunks = drop p array
    ∧ Forall (λ c, c ≠ [] ∧ (Z.of_nat (length c) ≤ n)%Z) chunks
    ∧ fullButLast n chunks.
Proof.
  induction fuel as [|fuel IH]; intros p acc Hfuel; [lia|].
  cbn [chunkLoop ltLength]. case_bool_decide as Hlt.
  - assert (Hp : p < length array) by lia.
    rewrite slice_step by done. cbn [add].
    replace (Z.of_nat p + n)%Z with (Z.of_nat (p + Z.to_nat n)) by lia.
    destruct (IH (p + Z.to_nat n) (acc ++ [take (Z.to_nat n) (drop p array)]))
      as (chunks & -> & Hconcat & Hall & Hfull); [lia|].
    exists (take (Z.to_nat n) (drop p array) :: chunks).
    split_and!.
    + by rewrite <- (assoc_L (++)).
    + rewrite concat_cons, Hconcat, <- drop_drop. apply take_drop.
    + constructor; [|done]. split.
      * intros Hnil%(f_equal length). rewrite length_take, length_drop in Hnil. simpl in Hnil. lia.
      * rewrite length_take. lia.
    + intros [|i] chunk Hi Hlen.
      * injection Hi as <-. rewrite length_take, length_drop.
        destruct chunks as [|c chunks]; [simpl in Hlen; lia|].
        assert (Hc : drop (p + Z.to_nat n) array ≠ []).
        { rewrite <- Hconcat. apply Forall_cons in Hall as [[Hc _] _].
          simpl. by destruct c. }
        assert (p + Z.to_nat n < length array).
        { destruct (decide (p + Z.to_nat n < length array)); [done|].
          destruct Hc. apply drop_ge. lia. }
        lia.
      * apply (Hfull i chunk Hi). simpl in Hlen. lia.
  - exists []. rewrite (right_id_L [] (++)). split_and!; [done| |done|].
    + simpl. symmetry. apply drop_ge. lia.
    + by intros i chunk.
Qed.

(** X26.  For a size of at least 1, [chunkArray] returns, and what it returns
    is the array cut into consecutive chunks: joined they give the array back,
    none is empty, none is longer than [size], and every one but the last has
    exactly [size] elements. *)
Theorem chunkArray_partitions {A} (array : list A) (n : Z) (fuel : nat) :
  (1 ≤ n)%Z → length array < fuel →
  ∃ chunks,
    chunkArray fuel array (Int n) = Ok chunks
    ∧ concat chunks = array
    ∧ Forall (λ c, c ≠ [] ∧ (Z.of_nat (length c) ≤ n)%Z) chunks
    ∧ fullButLast n chunks.
Proof.
  intros Hn Hfuel.
  destruct (chunkLoop_spec array n Hn fuel 0 []) as (chunks & Heq & H); [lia|].
  exists chunks. split; [exact Heq|]. by rewrite drop_0 in H.
Qed.

Lemma chunkLoop_stuck {A} (array : list A) (n : Z) (fuel : nat) :
  array ≠ [] → (n ≤ 0)%Z →
  ∀ i acc, (i ≤ 0)%Z → chunkLoop fuel array (Int n) (Int i) acc = OutOfFuel.
Proof.
  intros Hne Hn. induction fuel as [|fuel IH]; intros i acc Hi; [done|].
  cbn [chunkLoop ltLength]. rewrite bool_decide_eq_true_2.
  - cbn [add]. apply IH. lia.
  - destruct array; [done|]. simpl. lia.
Qed.

(** X27.  With a size that is not a positive integer [chunkArray] is of no
    use. With a size of 0 or less the loop never ends, whatever time it is
    given; with NaN it returns one chunk, the empty one, so that no element of
    the array is in any chunk. *)
Theorem chunkArray_bad_size {A} (array : list A) :
  array ≠ [] →
  (∀ n fuel, (n ≤ 0)%Z → chunkArray fuel array (Int n) = OutOfFuel)
  ∧ (∀ fuel, 2 ≤ fuel → chunkArray fuel array NaN = Ok [[]]).
Proof.
  intros Hne. split.
  - intros n fuel Hn. by apply chunkLoop_stuck.
  - intros [|[|fuel]] Hfuel; [lia|lia|].
    unfold chunkArray. cbn [chunkLoop ltLength add].
    rewrite bool_decide_eq_true_2 by (destruct array; [done|simpl; lia]).
    by destruct array.
Qed.

Lemma chunkArray_partitions_witness :
  ∃ chunks,
    chunkArray 6 ["a"; "b"; "c"; "d"; "e"] (Int 2) = Ok chunks
    ∧ concat chunks = ["a"; "b"; "c"; "d"; "e"]
    ∧ Forall (λ c, c ≠ [] ∧ (Z.of_nat (length c) ≤ 2)%Z) chunks
    ∧ fullButLast 2 chunks.
Proof.
  apply (chunkArray_partitions ["a"; "b"; "c"; "d"; "e"] 2 6); [lia|simpl; lia].
Defined.

Lemma chunkArray_bad_size_witness :
  (∀ n fuel, (n ≤ 0)%Z → chunkArray fuel ["a"; "b"] (Int n) = OutOfFuel)
  ∧ (∀ fuel, 2 ≤ fuel → chunkArray fuel ["a"; "b"] NaN = Ok [[]]).
Proof. apply (chunkArray_bad_size ["a"; "b"]). done. Defined.

End ChunksProofs.

(** ** Branch names *)

Module BranchProofs.
Import WorktreeManager.

Lemma taskSlug_nonempty task : name task ≠ "" → taskSlug task ≠ "".
Proof.
  unfold taskSlug. destruct (name task) as [|c rest]; [done|]. intros _.
  cbn [toLowerCase mapString dashSpaces].
  by destruct (isSpace (toLower c)).
Qed.

Lemma append_empty (s : string) : s +:+ "" = s.
Proof.
  induction s as [|c s IH]; [done|].
  change (String c (s +:+ "") = String c s). by rewrite IH.
Qed.

Lemma append_assoc (a b c : string) : (a +:+ b) +:+ c = a +:+ b +:+ c.
Proof.
  induction a as [|x a IH]; [done|].
  change (String x ((a +:+ b) +:+ c) = String x (a +:+ b +:+ c)). by rewrite IH.
Qed.

(** X28.  The branch that is pushed is never the branch that was created: for
    a task with a name, [createWorktree] works on the branch with the slug of
    the name at its end, and [pushBranch] pushes the branch without it. *)
Theorem pushed_branch_is_not_created (project : string) (task : Task) :
  name task ≠ "" →
  createdBranch project task
  = pushedBranch project task +:+ "-" +:+ taskSlug task
  ∧ createdBranch project task ≠ pushedBranch project task.
Proof.
  intros Hname%taskSlug_nonempty.
  unfold createdBranch, pushedBranch, getBranchName, truthyString.
  rewrite decide_False by done. rewrite append_empty, !append_assoc.
  split; [done|]. intros Heq.
  rewrite <- (append_empty (toLowerCase (id task))) in Heq at 2.
  do 3 apply (inj (String.app _)) in Heq.
  by destruct (taskSlug task).
Qed.

Import StoreExamples.

Lemma pushed_branch_is_not_created_witness :
  createdBranch "demo" task1 = pushedBranch "demo" task1 +:+ "-" +:+ taskSlug task1
  ∧ createdBranch "demo" task1 ≠ pushedBranch "demo" task1.
Proof. apply (pushed_branch_is_not_created "demo" task1). done. Defined.

End BranchProofs.

(** ** Task loader, order and ids *)

Module LoaderOrderProofs.
Import TaskLoader LoaderProofs.

#[local] Instance idLe_trans : Transitive idLe.
Proof.
  intros a b c. unfold idLe. rewrite <- !Is_true_true.
  apply (transitivity (R := String.le)).
Qed.

#[local] Instance idLe_total : Total idLe.
Proof.
  intros a b. unfold idLe. rewrite <- !Is_true_true. apply (total String.le).
Qed.

Lemma overlay_id metaTask task : id (overlay metaTask task) = id task.
Proof. done. Qed.

(** The directory entries the phase loop makes a task of, by the id it
    gives the task. *)
Lemma loaded_ids (metaTaskMap : gmap string PhaseTaskEntry) (entries : list TaskEntry) :
  id <$> omap (λ entry,
           match matchTaskDir (entryName entry) with
           | Some taskId =>
               if entryIsDirectory entry then
                 task ← loadTaskFromDir entry taskId;
                 match metaTaskMap !! id task with
                 | Some metaTask => Some (overlay metaTask task)
                 | None => Some task
                 end
               else None
           | None => None
           end) entries
  = omap (λ entry, if entryIsDirectory entry then matchTaskDir (entryName entry)
                   else None) entries.
Proof.
  rewrite list_fmap_omap. apply list_omap_ext. apply Forall_Forall2_diag.
  apply Forall_forall. intros entry _.
  destruct (matchTaskDir (entryName entry)) as [taskId|],
           (entryIsDirectory entry); cbn -[matchTaskDir]; try done.
  by destruct (metaTaskMap !! taskId).
Qed.

(** X29.  Loading a phase gives one task for each task directory of the phase
    folder, under the id at the head of the directory name, in ascending order
    of the ids, whatever the order of the directory listing. *)
Theorem loadPhase_lists_directories (specs : Specs) (phase : string)
    (folder : PhaseFolder) :
  specsDirExists specs = true →
  findPhaseFolder (specEntries specs) (toUpperCase phase) = Some folder →
  folderIsDirectory folder = true →
  StronglySorted idLe (loadPhase specs phase)
  ∧ id <$> loadPhase specs phase
    ≡ₚ omap (λ entry, if entryIsDirectory entry then matchTaskDir (entryName entry)
                      else None) (folderEntries folder).
Proof.
  intros Hdir Hfolder Hisdir. unfold loadPhase.
  rewrite Hdir, Hfolder, Hisdir. cbn [negb]. split.
  - apply StronglySorted_merge_sort; apply _.
  - rewrite merge_sort_Permutation. by rewrite loaded_ids.
Qed.

Lemma loadPhase_lists_directories_witness :
  StronglySorted idLe (loadPhase LoaderExamples.specs0 "p00")
  ∧ id <$> loadPhase LoaderExamples.specs0 "p00"
    ≡ₚ omap (λ entry, if entryIsDirectory entry then matchTaskDir (entryName entry)
                      else None)
         [mkTaskEntry "T00-001-setup" true
            (mkTask "" "setup" None pending 1 [] None None None);
          mkTaskEntry "T00-002-build" true
            (mkTask "" "build" None pending 1 [] (Some "1h") (Some P2) None);
          mkTaskEntry "meta.json" false
            (mkTask "" "meta.json" None pending 1 [] None None None)].
Proof.
  apply (loadPhase_lists_directories LoaderExamples.specs0 "p00"
           (mkFolder "P00-foundation" true
              (MetaValid (mkMeta
                 [mkEntry "T00-001" "setup" "Setup" 2 P1 meta_not_started [];
                  mkEntry "T00-002" "build" "Build" 3 P0 meta_not_started ["T00-001"]]))
              [mkTaskEntry "T00-001-setup" true
                 (mkTask "" "setup" None pending 1 [] None None None);
               mkTaskEntry "T00-002-build" true
                 (mkTask "" "build" None pending 1 [] (Some "1h") (Some P2) None);
               mkTaskEntry "meta.json" false
                 (mkTask "" "meta.json" None pending 1 [] None None None)]));
    vm_compute; reflexivity.
Defined.

Lemma loadTask_id specs taskId t : loadTask specs taskId = Some t → id t = taskId.
Proof. by intros (folder & dir & _ & _ & ->)%loadTask_returns_descriptor. Qed.

(** X30.  Loading by ids keeps the order of the request and drops, without a
    word, every id for which no task directory is found; each task that is
    loaded carries the id it was asked by. An empty list of ids is no request:
    the phase is loaded. *)
Theorem loadTasks_by_ids (specs : Specs) (phase : option string) (ids : list string) :
  (ids ≠ [] →
   id <$> loadTasks specs (mkLoadOptions phase (Some ids))
   = filter (λ taskId, is_Some (loadTask specs taskId)) ids)
  ∧ loadTasks specs (mkLoadOptions phase (Some []))
    = loadTasks specs (mkLoadOptions phase None).
Proof.
  split; [|done]. intros Hne.
  assert (Hall : ∀ l : list string, id <$> omap (loadTask specs) l
                      = filter (λ taskId, is_Some (loadTask specs taskId)) l).
  { induction l as [|taskId l IH]; [done|].
    change (taskId :: l) with ([taskId] ++ l).
    rewrite omap_app, fmap_app, filter_app, IH. f_equal.
    cbn [omap list_omap].
    destruct (loadTask specs taskId) as [t|] eqn:Ht.
    - rewrite filter_cons_True by (by rewrite Ht).
      simpl. f_equal. by apply (loadTask_id specs).
    - by rewrite filter_cons_False by (rewrite Ht; by intros []). }
  destruct ids as [|taskId ids]; [done|]. apply Hall.
Qed.

End LoaderOrderProofs.

(** ** Valid DAGs, accepted and refused *)

Module ValidDagProofs.
Import Scheduler SchedulerSpec SchedulerInvariants SchedulerExamples.
Import SchedulerProofs SchedulerQueries WavesProofs.

(** The loop of [buildWavesWithDependencies] ends within the turns it is
    given, in waves or in the error that names the tasks left over. *)
Lemma wavesLoop_outcome (fuel : nat) : ∀ remaining allCompleted waves,
  length remaining ≤ fuel →
  (∃ result, wavesLoop fuel remaining allCompleted waves = Ok result)
  ∨ (∃ left, left ≠ []
             ∧ wavesLoop fuel remaining allCompleted waves
               = Throw (UnschedulableTasks left)).
Proof.
  induction fuel as [|fuel IH]; intros remaining C waves Hlen.
  { destruct remaining; [|simpl in Hlen; lia]. left. by eexists. }
  destruct (decide (remaining = [])) as [->|Hne]; [left; by eexists|].
  rewrite wavesLoop_unfold by done.
  pose proof (sweep_spec C remaining) as Hsweep.
  destruct (sweep C remaining) as [wave rest].
  destruct Hsweep as (Hperm & _ & _).
  assert (Hlens : length wave + length rest = length remaining).
  { by rewrite <- length_app, Hperm. }
  destruct wave as [|t wave].
  - destruct rest as [|u rest].
    { destruct remaining; [done|simpl in Hlens; lia]. }
    right. exists (id <$> u :: rest). split; [done|].
    rewrite (bool_decide_eq_true_2 (length [] = 0)) by done.
    by rewrite (bool_decide_eq_true_2 (0 < length (u :: rest))) by (simpl; lia).
  - rewrite (bool_decide_eq_false_2 (length (t :: wave) = 0)) by done.
    rewrite (bool_decide_eq_true_2 (0 < length (t :: wave))) by (simpl; lia).
    cbn [andb]. apply IH. simpl in Hlens. lia.
Qed.

Lemma scheduleGroups_outcome groups (groupNums : list Z) : ∀ allWaves completed,
  (∃ result, scheduleGroups groups groupNums allWaves completed = Ok result)
  ∨ (∃ left, left ≠ []
             ∧ scheduleGroups groups groupNums allWaves completed
               = Throw (UnschedulableTasks left)).
Proof.
  induction groupNums as [|g gs IH]; intros allWaves completed; simpl.
  { left. by eexists. }
  unfold buildWavesWithDependencies.
  destruct (wavesLoop_outcome (length (default [] (groups !! g)))
              (default [] (groups !! g)) completed [])
    as [(result & ->)|(left & Hne & ->)]; [done| |].
  - simpl. destruct (pushWaves result allWaves completed). apply IH.
  - right. by exists left.
Qed.

Lemma returned_waves_follow_groups tasks waves :
  uniqueIds tasks → buildExecutionWaves tasks = Ok waves →
  groupsFollowDependencies tasks.
Proof.
  intros Hu Hok t u Ht Hu' Hdep.
  pose proof (waves_permutation _ _ Hok) as Hperm.
  pose proof (waves_deps_earlier _ _ Hok) as Hearly.
  pose proof (waves_in_order _ _ Hok) as Horder.
  destruct (Z.le_gt_cases (parallelGroup u) (parallelGroup t)) as [?|Hlt]; [done|].
  exfalso.
  assert (Hwave : ∀ v, v ∈ tasks → ∃ k w, waves !! k = Some w ∧ v ∈ w).
  { intros v Hv. rewrite <- Hperm in Hv.
    apply elem_of_concat in Hv as (w & [k Hk]%list_elem_of_lookup_1 & Hv). eauto. }
  destruct (Hwave t Ht) as (i & w1 & Hi & Htw).
  destruct (Hwave u Hu') as (j & w2 & Hj & Huw).
  pose proof (Horder i j w1 w2 t u Hi Hj Htw Huw Hlt) as Hij.
  destruct (Hearly i w1 t (id u) Hi Htw Hdep) as (k & w3 & u' & Hk & Hk' & Hu3 & Hid).
  assert (Hnd : NoDup (id <$> concat waves)) by (by rewrite Hperm).
  apply (waves_disjoint waves Hnd k j w3 w2 u' u); auto. lia.
Qed.

(** C1 (as amended).  A task list that forms a valid DAG (unique ids, all
    dependencies present, no cycle) is scheduled exactly when no task
    depends on a task of a higher parallel group.  In that case
    [buildExecutionWaves] returns waves that are a permutation of the input
    cut into pieces: their union is the input, two different waves share no
    task, every dependency of a task of wave k sits in a wave k' < k, and
    no wave contains a dependency edge.  Otherwise it throws
    "Could not schedule tasks", naming at least one task. *)
Theorem buildExecutionWaves_valid_dag (tasks : list Task) :
  uniqueIds tasks → depsPresent tasks → acyclic tasks →
  (groupsFollowDependencies tasks →
   ∃ waves, buildExecutionWaves tasks = Ok waves
            ∧ concat waves ≡ₚ tasks
            ∧ unionIsInput tasks waves
            ∧ pairwiseDisjoint waves
            ∧ depsInEarlierWave waves
            ∧ noEdgeWithinWave waves)
  ∧ (¬ groupsFollowDependencies tasks →
     ∃ left, left ≠ []
             ∧ buildExecutionWaves tasks = Throw (UnschedulableTasks left)).
Proof.
  intros Huniq Hpres Hac. split.
  - intros Hmono. by apply valid_dag_waves.
  - intros Hback.
    assert (Hne : tasks ≠ []).
    { intros ->. apply Hback. intros t u Ht. by apply elem_of_nil in Ht. }
    pose proof (returned_waves_follow_groups tasks) as Hok.
    rewrite buildExecutionWaves_unfold in Hok |- * by done.
    apply depsPresent_validate in Hpres as Hval. rewrite Hval in Hok |- *.
    rewrite detect_acyclic in Hok |- * by done. simpl in Hok |- *.
    destruct (scheduleGroups_outcome (groupTasks tasks)
                (sortedGroupNums (groupTasks tasks)) [] ∅)
      as [(waves & Heq)|(left & Hleft & Heq)].
    + destruct Hback. by apply (Hok waves).
    + by exists left.
Qed.

Lemma backwardGroup_backward : ¬ groupsFollowDependencies backwardGroup.
Proof.
  intros H.
  assert (Hle : (2 ≤ 1)%Z); [|lia].
  apply (H (task "A" 1 ["B"]) (task "B" 2 [])).
  - apply list_elem_of_In. simpl. tauto.
  - apply list_elem_of_In. simpl. tauto.
  - apply list_elem_of_In. simpl. tauto.
Qed.

Lemma buildExecutionWaves_valid_dag_witness :
  (∃ waves, buildExecutionWaves fanOut = Ok waves
            ∧ concat waves ≡ₚ fanOut
            ∧ unionIsInput fanOut waves
            ∧ pairwiseDisjoint waves
            ∧ depsInEarlierWave waves
            ∧ noEdgeWithinWave waves)
  ∧ (∃ left, left ≠ []
             ∧ buildExecutionWaves backwardGroup = Throw (UnschedulableTasks left)).
Proof.
  split.
  - apply (proj1 (buildExecutionWaves_valid_dag fanOut
                    ltac:(by_evaluation) ltac:(by_evaluation) ltac:(by_evaluation))).
    by_evaluation.
  - apply (proj2 (buildExecutionWaves_valid_dag backwardGroup
                    ltac:(by_evaluation) ltac:(by_evaluation) ltac:(by_evaluation))).
    exact backwardGroup_backward.
Defined.

End ValidDagProofs.

(** ** What the executors accept *)

Module AcceptanceProofs.
Import SessionManager SessionInvariants SessionProofs ExecutorSpec ExecutorProofs.
Import RunProofs StoreExamples.

(** C4 (as amended).  Both executors treat the task as completed, and go on
    to the completed checkpoint, exactly when the result of the engine has
    success = true and completed = true.  With any other result, completed
    = true and success = false included, they throw (the error of the
    result, or "Execution failed") and save a failed checkpoint that puts
    the id in failedTasks; the retry loop of run.ts does not stop at such a
    result: it runs the task in each of its three attempts and then throws.
    Stated for an engine that answers [r], collaborators that do their job
    and a session that is stored. *)
Theorem executors_require_success_and_completed
    (E : Env) (projectConfig : option ProjectConfig) (project cwd : string)
    (w : World) (sid : string) (s : Session.t) (task : Task) (fast : bool)
    (r : ExecutionResult.t) :
  Reliable E → Cooperative E → engineAnswers E r → stored E (db w) sid s →
  let remaining := filter (λ t, t ≠ id task) (Session.pendingTasks s) in
  let verdict (run : outcome unit * World) :=
    if ExecutionResult.success r && ExecutionResult.completed r
    then endsIn E w sid (Ok ())
           (None, remaining, Session.completedTasks s ++ [id task],
            Session.failedTasks s)
           (id task) completed run
    else endsIn E w sid (Throw (rejection r))
           (None, remaining, Session.completedTasks s,
            Session.failedTasks s ++ [id task])
           (id task) failed run in
  verdict (TaskExecutor.executeTask E projectConfig project cwd sid task fast w)
  ∧ verdict (ResumeExecutor.executeTask E sid task fast w)
  ∧ (ExecutionResult.success r && ExecutionResult.completed r = false →
     (∀ k taskId, removeWorktree E k taskId ≠ OutOfFuel) →
     endsIn E w sid (Throw (rejection r))
       (None, remaining, Session.completedTasks s,
        Session.failedTasks s ++ [id task; id task; id task])
       (id task) failed
       (TaskExecutor.executeTaskWithRetry E projectConfig project cwd sid task
          fast w)).
Proof.
  intros HE HC Hengine Hs remaining verdict.
  destruct (executors_verdict E projectConfig project cwd w sid s task fast r
              HE HC Hengine Hs) as [Hrun Hresume].
  split_and!; [exact Hrun|exact Hresume|].
  intros Hacc Hremove.
  by apply (retryLoop_rejected E HE HC projectConfig project cwd r sid task fast 2).
Qed.

Lemma executors_require_success_and_completed_witness :
  (endsIn env0 world0 sessionId0 (Ok ())
     (None, ["T00-002"], ["T00-001"], []) "T00-001" completed
     (TaskExecutor.executeTask env0 None "demo" "/repo" sessionId0 task1 false world0)
   ∧ endsIn env0 world0 sessionId0 (Ok ())
       (None, ["T00-002"], ["T00-001"], []) "T00-001" completed
       (ResumeExecutor.executeTask env0 sessionId0 task1 false world0))
  ∧ (endsIn envCompletedButFailed world0 sessionId0
       (Throw (ExecutionFailed "Execution failed"))
       (None, ["T00-002"], [], ["T00-001"]) "T00-001" failed
       (TaskExecutor.executeTask envCompletedButFailed None "demo" "/repo"
          sessionId0 task1 false world0)
     ∧ endsIn envCompletedButFailed world0 sessionId0
         (Throw (ExecutionFailed "Execution failed"))
         (None, ["T00-002"], [], ["T00-001"]) "T00-001" failed
         (ResumeExecutor.executeTask envCompletedButFailed sessionId0 task1 false
            world0)
     ∧ endsIn envCompletedButFailed world0 sessionId0
         (Throw (ExecutionFailed "Execution failed"))
         (None, ["T00-002"], [], ["T00-001"; "T00-001"; "T00-001"]) "T00-001" failed
         (TaskExecutor.executeTaskWithRetry envCompletedButFailed None "demo" "/repo"
            sessionId0 task1 false world0)).
Proof.
  split.
  - destruct (executors_require_success_and_completed env0 None "demo" "/repo"
                world0 sessionId0 session0 task1 false goodResult)
      as (Hrun & Hresume & _).
    + apply env_reliable.
    + apply env_cooperative.
    + by intros k prompt dir.
    + exact world0_stored.
    + by split.
  - destruct (executors_require_success_and_completed envCompletedButFailed None
                "demo" "/repo" world0 sessionId0 session0 task1 false
                completedButFailed)
      as (Hrun & Hresume & Hretry).
    + apply env_reliable.
    + apply env_cooperative.
    + by intros k prompt dir.
    + exact world0_stored_rejecting.
    + split_and!; [exact Hrun|exact Hresume|]. by apply Hretry.
Defined.

End AcceptanceProofs.

(** ** Resume *)

Module ResumeProofs.
Import SessionManager SessionInvariants SessionProofs ExecutorSpec ExecutorProofs.
Import RunProofs WavesProofs LoaderOrderProofs StoreExamples LoaderExamples.
Import ResumeExamples.

Section WithEnv.
Context (E : Env) (HE : Reliable E) (HC : Cooperative E).




End WithEnv.





End ResumeProofs.

(** ** Hooks that fail *)

Module HookFailureProofs.
Import HooksExecutor HooksSpec HooksProofs SessionProofs ExecutorProofs.
Import StoreExamples HookExamples.

Section WithEnv.
Context (E : Env) (hooks : option HooksConfig) (cwd : string).

Lemma run_fails h context w :
  hookFails E hooks h w →
  ∃ out, run E hooks h context w
         = (Ok (mkResult false out), mkWorld (db w) (console w) (S (tick w))).
Proof.
  intros (cmd & Hconf & Hfail).
  rewrite (run_configured E hooks h context cmd w Hconf). cbv zeta.
  rewrite failure_result by (by apply Hfail). by eexists.
Qed.

Lemma warning_hook_fails (label : string) h context w :
  hookFails E hooks h w →
  ∃ out, onlyWarns [label +:+ out] w
     ((result ← run E hooks h context;
       if negb (hookSuccess result)
       then log (label +:+ hookOutput result)
       else mret ()) w).
Proof.
  intros Hfail. destruct (run_fails h context w Hfail) as (out & Hrun).
  exists out. rewrite (bind_ok _ _ _ _ _ Hrun). simpl.
  eexists. split; [reflexivity|done].
Qed.

Lemma forEachEff_app {A} (body : A → Eff unit) l1 l2 w :
  forEachEff body (l1 ++ l2) w = (forEachEff body l1;; forEachEff body l2) w.
Proof.
  revert w. induction l1 as [|a l1 IH]; intros w; [done|].
  simpl. unfold mbind, eff_bind. destruct (body a w) as [[[]|e|] w']; [|done|done].
  apply IH.
Qed.

Lemma forEachEff_concat {A} (body : A → Eff unit) (ls : list (list A)) w :
  forEachEff (λ l, forEachEff body l) ls w = forEachEff body (concat ls) w.
Proof.
  revert w. induction ls as [|l ls IH]; intros w; [done|].
  rewrite concat_cons, forEachEff_app. simpl. unfold mbind, eff_bind.
  destruct (forEachEff body l w) as [[[]|e|] w']; [|done|done]. apply IH.
Qed.

Lemma forEachEff_guarded {A} (body : A → Eff unit) handler l w w' :
  forEachEff body l w = (Ok (), w') →
  forEachEff (λ a, tryCatch (body a) (handler a)) l w = (Ok (), w').
Proof.
  revert w. induction l as [|a l IH]; intros w; [done|]. cbn [forEachEff].
  destruct (body a w) as [[[]|e|] w1] eqn:Hbody.
  - rewrite (bind_ok _ _ _ _ _ Hbody).
    rewrite (bind_ok _ _ _ _ _ (tryCatch_ok _ (handler a) _ _ _ Hbody)). apply IH.
  - by rewrite (bind_throw _ _ _ _ _ Hbody).
  - unfold mbind, eff_bind. by rewrite Hbody.
Qed.

End WithEnv.

Lemma bind_same {A B} (m m' : Eff A) (f : A → Eff B) w :
  m w = m' w → (m ≫= f) w = (m' ≫= f) w.
Proof. intros H. unfold mbind, eff_bind. by rewrite H. Qed.

Lemma lookup_withoutHook_ne h h' config :
  h' ≠ h → lookupHook (withoutHook h config) h' = lookupHook config h'.
Proof. destruct config as [c|]; [|done]. by destruct h, h'. Qed.

Lemma lookup_withoutHook h config : lookupHook (withoutHook h config) h = None.
Proof. destruct config as [c|]; [|done]. by destruct h. Qed.

Lemma hooksConfig_dropHook h projectConfig :
  TaskExecutor.hooksConfig (dropHook h projectConfig)
  = withoutHook h (TaskExecutor.hooksConfig projectConfig).
Proof. by destruct projectConfig as [[config c]|]. Qed.

Lemma commands_dropHook h projectConfig :
  dropHook h projectConfig ≫= commands = projectConfig ≫= commands.
Proof. by destruct projectConfig as [[config c]|]. Qed.

Lemma run_same E config config' h :
  lookupHook config h = lookupHook config' h → run E config h = run E config' h.
Proof. intros H. unfold run. by rewrite H. Qed.

Lemma executeTask_same E projectConfig projectConfig' project cwd sid task fast :
  let config := TaskExecutor.hooksConfig projectConfig in
  let config' := TaskExecutor.hooksConfig projectConfig' in
  lookupHook config BeforeTask = lookupHook config' BeforeTask →
  lookupHook config AfterTask = lookupHook config' AfterTask →
  projectConfig ≫= commands = projectConfig' ≫= commands →
  TaskExecutor.executeTask E projectConfig project cwd sid task fast
  = TaskExecutor.executeTask E projectConfig' project cwd sid task fast.
Proof.
  intros config config' Hbefore Hafter Hcommands.
  unfold TaskExecutor.executeTask, TaskExecutor.attemptTask, TaskExecutor.runValidation,
    beforeTask, afterTask.
  fold config config'.
  by rewrite (run_same E config config' BeforeTask Hbefore),
    (run_same E config config' AfterTask Hafter), Hcommands.
Qed.

Lemma retryLoop_same E projectConfig projectConfig' project cwd sid task fast turns :
  TaskExecutor.executeTask E projectConfig project cwd sid task fast
  = TaskExecutor.executeTask E projectConfig' project cwd sid task fast →
  ∀ attempt lastError w,
    TaskExecutor.retryLoop E projectConfig project cwd turns attempt lastError sid
      task fast w
    = TaskExecutor.retryLoop E projectConfig' project cwd turns attempt lastError sid
        task fast w.
Proof.
  intros Hsame. induction turns as [|turns IH]; intros attempt lastError w; [done|].
  cbn [TaskExecutor.retryLoop]. rewrite Hsame. unfold tryCatch.
  destruct ((TaskExecutor.executeTask E projectConfig' project cwd sid task fast;;
             SessionManager.resolveError E sid (id task)) w) as [[[]|e|] w1];
    [done| |done].
  set (cleanup := if bool_decide (attempt < TaskExecutor.maxRetries)
                  then _ else mret ()).
  unfold mbind, eff_bind.
  destruct (cleanup w1) as [[[]|e'|] w2]; [|done|done].
  apply IH.
Qed.

(** The afterTask hook, whatever it does, leaves [executeTask] where the
    run without the hook ends. *)
Lemma executeTask_quiet E projectConfig project cwd sid task fast w :
  endAlike
    (TaskExecutor.executeTask E projectConfig project cwd sid task fast w)
    (TaskExecutor.executeTask E (dropHook AfterTask projectConfig) project cwd sid
       task fast w).
Proof.
  set (config := TaskExecutor.hooksConfig projectConfig).
  set (quiet := dropHook AfterTask projectConfig).
  assert (Hattempt : TaskExecutor.attemptTask E quiet sid task fast
                     = TaskExecutor.attemptTask E projectConfig sid task fast).
  { unfold TaskExecutor.attemptTask, TaskExecutor.runValidation, quiet.
    by rewrite commands_dropHook. }
  assert (Hbefore : beforeTask E (TaskExecutor.hooksConfig quiet) cwd project task
                    = beforeTask E config cwd project task).
  { unfold beforeTask, quiet. rewrite hooksConfig_dropHook. fold config.
    by rewrite (run_same E _ config BeforeTask
                  (lookup_withoutHook_ne AfterTask BeforeTask config ltac:(done))). }
  unfold TaskExecutor.executeTask. fold config. rewrite Hbefore, Hattempt.
  unfold mbind, eff_bind.
  destruct (beforeTask E config cwd project task w) as [[[]|e|] w0]; [|done|done].
  unfold tryFinally.
  destruct (tryCatch _ _ w0) as [result w1].
  destruct (afterTask_total E config cwd project task (ranToEnd result) w1)
    as (lines & w2 & -> & Hdb & _).
  assert (Hquiet : afterTask E (TaskExecutor.hooksConfig quiet) cwd project task
                     (ranToEnd result) w1 = (Ok (), w1)).
  { unfold afterTask, quiet. rewrite hooksConfig_dropHook. fold config.
    assert (Hnone : truthyString (lookupHook (withoutHook AfterTask config) AfterTask)
                    = None) by (by rewrite lookup_withoutHook).
    by rewrite (bind_ok _ _ _ _ _ (run_unconfigured E _ AfterTask _ w1 Hnone)). }
  rewrite Hquiet. by split.
Qed.

(** The onError and onSuccess hooks, whatever they do, leave [execute] where
    the run without them ends. *)
Lemma execute_quiet E projectConfig project cwd sid tasks fast phase w :
  endAlike
    (TaskExecutor.execute E projectConfig project cwd sid tasks fast phase w)
    (TaskExecutor.execute E (dropHook OnError (dropHook OnSuccess projectConfig))
       project cwd sid tasks fast phase w).
Proof.
  set (config := TaskExecutor.hooksConfig projectConfig).
  set (quiet := dropHook OnError (dropHook OnSuccess projectConfig)).
  assert (Hconfig : TaskExecutor.hooksConfig quiet
                    = withoutHook OnError (withoutHook OnSuccess config)).
  { unfold quiet. by rewrite !hooksConfig_dropHook. }
  assert (Hlookup : ∀ h, h ≠ OnError → h ≠ OnSuccess →
            lookupHook (TaskExecutor.hooksConfig quiet) h = lookupHook config h).
  { intros h H1 H2. by rewrite Hconfig, !lookup_withoutHook_ne. }
  assert (Hsilent : ∀ h, h = OnError ∨ h = OnSuccess →
            truthyString (lookupHook (TaskExecutor.hooksConfig quiet) h) = None).
  { intros h [->| ->]; rewrite Hconfig.
    - by rewrite lookup_withoutHook.
    - rewrite lookup_withoutHook_ne by done. by rewrite lookup_withoutHook. }
  assert (Htask : ∀ task,
            TaskExecutor.executeTask E quiet project cwd sid task fast
            = TaskExecutor.executeTask E projectConfig project cwd sid task fast).
  { intros task. apply executeTask_same; [by apply Hlookup..|].
    unfold quiet. by rewrite !commands_dropHook. }
  assert (Hretry : ∀ task w0,
            TaskExecutor.executeTaskWithRetry E quiet project cwd sid task fast w0
            = TaskExecutor.executeTaskWithRetry E projectConfig project cwd sid task
                fast w0).
  { intros task w0. by apply retryLoop_same. }
  assert (Hbefore : beforePhase E (TaskExecutor.hooksConfig quiet) cwd project phase
                    = beforePhase E config cwd project phase).
  { unfold beforePhase.
    by rewrite (run_same E _ config BeforePhase
                  (Hlookup BeforePhase ltac:(done) ltac:(done))). }
  set (body := λ task : Task,
         tryCatch (TaskExecutor.executeTaskWithRetry E projectConfig project cwd sid
                     task fast)
           (λ error, onError E config cwd project (message error) (Some task);;
                     throw error)).
  set (body' := λ task : Task,
         tryCatch (TaskExecutor.executeTaskWithRetry E quiet project cwd sid task fast)
           (λ error,
              onError E (TaskExecutor.hooksConfig quiet) cwd project (message error)
                (Some task);;
              throw error)).
  assert (Hloop : ∀ l w0,
            (∃ w1, forEachEff body l w0 = (Ok (), w1)
                   ∧ forEachEff body' l w0 = (Ok (), w1))
            ∨ ((forEachEff body l w0).1 ≠ Ok ()
               ∧ endAlike (forEachEff body l w0) (forEachEff body' l w0))).
  { assert (Hstep : ∀ task w0,
              (∃ w1, body task w0 = (Ok (), w1) ∧ body' task w0 = (Ok (), w1))
              ∨ (∃ out w1 w1', out ≠ Ok () ∧ body task w0 = (out, w1)
                               ∧ body' task w0 = (out, w1') ∧ db w1 = db w1')).
    { intros task w0. unfold body, body', tryCatch. rewrite Hretry.
      destruct (TaskExecutor.executeTaskWithRetry E projectConfig project cwd sid
                  task fast w0) as [[[]|e|] w1].
      - left. by exists w1.
      - right.
        destruct (onError_total E config cwd project (message e) (Some task) w1)
          as (lines & w2 & Hon & Hdb & _).
        rewrite (bind_ok _ _ _ _ _ Hon).
        assert (Hquiet : onError E (TaskExecutor.hooksConfig quiet) cwd project
                           (message e) (Some task) w1 = (Ok (), w1)).
        { unfold onError.
          by rewrite (bind_ok _ _ _ _ _
                        (run_unconfigured E _ OnError _ w1
                           (Hsilent _ (or_introl eq_refl)))). }
        rewrite (bind_ok _ _ _ _ _ Hquiet). by exists (Throw e), w2, w1.
      - right. by exists OutOfFuel, w1, w1. }
    clearbody body body'.
    induction l as [|task l IH]; intros w0; [left; by exists w0|].
    cbn [forEachEff].
    destruct (Hstep task w0) as [(w1 & Hb & Hb')|(out & w1 & w1' & Hout & Hb & Hb' & Hdb)].
    - rewrite (bind_ok _ _ _ _ _ Hb), (bind_ok _ _ _ _ _ Hb'). apply IH.
    - right. unfold mbind, eff_bind. rewrite Hb, Hb'.
      destruct out as [[]|e|]; [done|by split..]. }
  unfold TaskExecutor.execute. fold config. rewrite Hbefore.
  destruct (Scheduler.buildExecutionWaves tasks) as [waves|e|]; [|by split..].
  change ((lift (Ok waves) ≫= ?f) w) with (f waves w). cbv beta.
  destruct (beforePhase E config cwd project phase w) as [[[]|e|] w0] eqn:Hphase.
  2:{ rewrite !(bind_throw _ _ _ _ _ Hphase). by split. }
  2:{ unfold mbind at 1 4, eff_bind at 1 4. rewrite Hphase. by split. }
  rewrite !(bind_ok _ _ _ _ _ Hphase).
  rewrite (bind_same _ _ _ _ (forEachEff_concat body waves w0)).
  rewrite (bind_same _ _ _ _ (forEachEff_concat body' waves w0)).
  destruct (Hloop (concat waves) w0) as [(w1 & Hl & Hl')|[Hfail [Hout Hdb]]].
  - rewrite (bind_ok _ _ _ _ _ Hl), (bind_ok _ _ _ _ _ Hl').
    destruct (onSuccess_total E config cwd project (Some phase) w1)
      as (lines & w2 & -> & Hdb & _).
    assert (Hquiet : onSuccess E (TaskExecutor.hooksConfig quiet) cwd project
                       (Some phase) w1 = (Ok (), w1)).
    { unfold onSuccess.
      by rewrite (bind_ok _ _ _ _ _
                    (run_unconfigured E _ OnSuccess _ w1
                       (Hsilent _ (or_intror eq_refl)))). }
    rewrite Hquiet. by split.
  - unfold mbind, eff_bind.
    destruct (forEachEff body (concat waves) w0) as [[[]|e|] w1],
      (forEachEff body' (concat waves) w0) as [[[]|e'|] w1']; simpl in *;
      try done; by split.
Qed.

(** C8.  A hook fails when the process started with its command line
    closes with a code other than 0 or cannot be spawned; nothing is
    assumed of any other process.  A configured beforePhase hook that fails
    raises an error, and with it [execute] ends before any task is run; a
    configured beforeTask hook that fails raises an error, and with it
    [executeTask] ends before the task is started.  A configured afterTask,
    onSuccess or onError hook that fails returns normally and prints one
    warning.  [executeTask] ends as its try/catch block ended, whatever the
    afterTask hook does; [execute] throws the error of the task that failed,
    whatever the onError hook does, and returns normally when every task
    did, whatever the onSuccess hook does; the database is as the task left
    it, and a hook that fails adds its warning to the console.  Taking the
    afterTask hook out of the configuration changes neither the outcome of
    [executeTask] nor the database it leaves, and the same holds of
    [execute] and the onError and onSuccess hooks. *)
Theorem hook_failure_policy (E : Env) (projectConfig : option ProjectConfig)
    (project cwd sid : string) (fast : bool) (w : World) :
  let hooks := TaskExecutor.hooksConfig projectConfig in
  let retry task :=
    TaskExecutor.executeTaskWithRetry E projectConfig project cwd sid task fast in
  (∀ phase, hookFails E hooks BeforePhase w →
     ∃ out w', beforePhase E hooks cwd project phase w
               = (Throw (HookFailed "beforePhase" out), w')
               ∧ db w' = db w
               ∧ ∀ tasks waves,
                   Scheduler.buildExecutionWaves tasks = Ok waves →
                   TaskExecutor.execute E projectConfig project cwd sid tasks fast
                     phase w
                   = (Throw (HookFailed "beforePhase" out), w'))
  ∧ (∀ task, hookFails E hooks BeforeTask w →
     ∃ out w', beforeTask E hooks cwd project task w
               = (Throw (HookFailed "beforeTask" out), w')
               ∧ db w' = db w
               ∧ TaskExecutor.executeTask E projectConfig project cwd sid task fast w
                 = (Throw (HookFailed "beforeTask" out), w'))
  ∧ (∀ task success, hookFails E hooks AfterTask w →
     ∃ out, onlyWarns ["Warning: afterTask hook failed: " +:+ out] w
              (afterTask E hooks cwd project task success w))
  ∧ (∀ phase, hookFails E hooks OnSuccess w →
     ∃ out, onlyWarns ["Warning: onSuccess hook failed: " +:+ out] w
              (onSuccess E hooks cwd project phase w))
  ∧ (∀ error task, hookFails E hooks OnError w →
     ∃ out, onlyWarns ["Warning: onError hook failed: " +:+ out] w
              (onError E hooks cwd project error task w))
  ∧ (∀ task w0 result w1,
       beforeTask E hooks cwd project task w = (Ok (), w0) →
       tryCatch (TaskExecutor.attemptTask E projectConfig sid task fast)
                (TaskExecutor.recordFailure E sid task) w0 = (result, w1) →
       ∃ w2,
         TaskExecutor.executeTask E projectConfig project cwd sid task fast w
         = (result, w2)
         ∧ db w2 = db w1
         ∧ (hookFails E hooks AfterTask w1 →
            ∃ out, console w2
                   = console w1 ++ ["Warning: afterTask hook failed: " +:+ out]))
  ∧ (∀ tasks phase waves w0 before task after w1 error w2,
       Scheduler.buildExecutionWaves tasks = Ok waves →
       beforePhase E hooks cwd project phase w = (Ok (), w0) →
       concat waves = before ++ task :: after →
       forEachEff retry before w0 = (Ok (), w1) →
       retry task w1 = (Throw error, w2) →
       ∃ w3,
         TaskExecutor.execute E projectConfig project cwd sid tasks fast phase w
         = (Throw error, w3)
         ∧ db w3 = db w2
         ∧ (hookFails E hooks OnError w2 →
            ∃ out, console w3
                   = console w2 ++ ["Warning: onError hook failed: " +:+ out]))
  ∧ (∀ tasks phase waves w0 w1,
       Scheduler.buildExecutionWaves tasks = Ok waves →
       beforePhase E hooks cwd project phase w = (Ok (), w0) →
       forEachEff retry (concat waves) w0 = (Ok (), w1) →
       ∃ w2,
         TaskExecutor.execute E projectConfig project cwd sid tasks fast phase w
         = (Ok (), w2)
         ∧ db w2 = db w1
         ∧ (hookFails E hooks OnSuccess w1 →
            ∃ out, console w2
                   = console w1 ++ ["Warning: onSuccess hook failed: " +:+ out]))
  ∧ (∀ task,
       endAlike
         (TaskExecutor.executeTask E projectConfig project cwd sid task fast w)
         (TaskExecutor.executeTask E (dropHook AfterTask projectConfig) project cwd
            sid task fast w))
  ∧ (∀ tasks phase,
       endAlike
         (TaskExecutor.execute E projectConfig project cwd sid tasks fast phase w)
         (TaskExecutor.execute E (dropHook OnError (dropHook OnSuccess projectConfig))
            project cwd sid tasks fast phase w)).
Proof.
  intros hooks retry.
  assert (Hexecute : ∀ tasks phase waves w0,
    Scheduler.buildExecutionWaves tasks = Ok waves →
    beforePhase E hooks cwd project phase w = (Ok (), w0) →
    TaskExecutor.execute E projectConfig project cwd sid tasks fast phase w
    = (forEachEff (λ task,
         tryCatch (retry task)
           (λ error, onError E hooks cwd project (message error) (Some task);;
                     throw error)) (concat waves);;
       onSuccess E hooks cwd project (Some phase)) w0).
  { intros tasks phase waves w0 Hwaves Hbefore. unfold TaskExecutor.execute.
    rewrite Hwaves. change ((lift (Ok waves) ≫= ?f) w) with (f waves w). cbv beta.
    fold hooks. rewrite (bind_ok _ _ _ _ _ Hbefore).
    unfold mbind, eff_bind. by rewrite forEachEff_concat. }
  split_and!.
  - intros phase Hfail. unfold beforePhase.
    destruct (run_fails E hooks BeforePhase
                (mkContext project (Some phase) None None None None cwd) w Hfail)
      as (out & Hrun).
    assert (Hthrow : beforePhase E hooks cwd project phase w
                     = (Throw (HookFailed "beforePhase" out),
                        mkWorld (db w) (console w) (S (tick w)))).
    { unfold beforePhase. by rewrite (bind_ok _ _ _ _ _ Hrun). }
    eexists out, _. split_and!; [exact Hthrow|done|].
    intros tasks waves Hwaves. unfold TaskExecutor.execute. rewrite Hwaves.
    change ((lift (Ok waves) ≫= ?f) w) with (f waves w). cbv beta.
    fold hooks. by rewrite (bind_throw _ _ _ _ _ Hthrow).
  - intros task Hfail.
    destruct (run_fails E hooks BeforeTask
                (mkContext project (phase task) (Some (id task)) (Some (name task))
                   None None cwd) w Hfail) as (out & Hrun).
    assert (Hthrow : beforeTask E hooks cwd project task w
                     = (Throw (HookFailed "beforeTask" out),
                        mkWorld (db w) (console w) (S (tick w)))).
    { unfold beforeTask. by rewrite (bind_ok _ _ _ _ _ Hrun). }
    eexists out, _. split_and!; [exact Hthrow|done|].
    unfold TaskExecutor.executeTask. fold hooks.
    by rewrite (bind_throw _ _ _ _ _ Hthrow).
  - intros task success Hfail. by apply warning_hook_fails.
  - intros phase Hfail. by apply warning_hook_fails.
  - intros error task Hfail. by apply warning_hook_fails.
  - intros task w0 result w1 Hbefore Hbody.
    destruct (afterTask_total E hooks cwd project task (ranToEnd result) w1)
      as (lines & w2 & Hafter & Hdb & Hcon).
    exists w2. split_and!; [|done|].
    + unfold TaskExecutor.executeTask. fold hooks.
      rewrite (bind_ok _ _ _ _ _ Hbefore).
      by apply (tryFinally_total _ _ _ _ w1).
    + intros Hfail.
      destruct (warning_hook_fails E hooks "Warning: afterTask hook failed: "
                  AfterTask
                  (mkContext project (phase task) (Some (id task)) (Some (name task))
                     (Some (if ranToEnd result then StatusSuccess else StatusError))
                     None cwd) w1 Hfail) as (out & w2' & Heq & _ & Hcon').
      exists out. unfold afterTask in Hafter. rewrite Hafter in Heq.
      by injection Heq as <-.
  - intros tasks ph waves w0 before task after w1 error w2
      Hwaves Hbefore Hsplit Hdone Hthrow.
    destruct (onError_total E hooks cwd project (message error) (Some task) w2)
      as (lines & w3 & Hon & Hdb & Hcon).
    exists w3. split_and!; [|done|].
    + rewrite (Hexecute tasks ph waves w0 Hwaves Hbefore), Hsplit.
      unfold mbind at 1, eff_bind at 1. rewrite forEachEff_app.
      rewrite (bind_ok _ _ _ _ _
                 (forEachEff_guarded retry _ before w0 w1 Hdone)).
      cbn [forEachEff]. unfold mbind at 1, eff_bind at 1.
      rewrite (tryCatch_throw _ _ _ _ _ Hthrow).
      by rewrite (bind_ok _ _ _ _ _ Hon).
    + intros Hfail.
      destruct (warning_hook_fails E hooks "Warning: onError hook failed: "
                  OnError
                  (mkContext project (Some task ≫= phase) (id <$> Some task)
                     (name <$> Some task) (Some StatusError) (Some (message error))
                     cwd) w2 Hfail) as (out & w3' & Heq & _ & Hcon').
      exists out. unfold onError in Hon. rewrite Hon in Heq.
      by injection Heq as <-.
  - intros tasks phase waves w0 w1 Hwaves Hbefore Hdone.
    destruct (onSuccess_total E hooks cwd project (Some phase) w1)
      as (lines & w2 & Hon & Hdb & Hcon).
    exists w2. split_and!; [|done|].
    + rewrite (Hexecute tasks phase waves w0 Hwaves Hbefore).
      by rewrite (bind_ok _ _ _ _ _
                    (forEachEff_guarded retry _ (concat waves) w0 w1 Hdone)).
    + intros Hfail.
      destruct (warning_hook_fails E hooks "Warning: onSuccess hook failed: "
                  OnSuccess
                  (mkContext project (Some phase) None None (Some StatusSuccess)
                     None cwd) w1 Hfail) as (out & w2' & Heq & _ & Hcon').
      exists out. unfold onSuccess in Hon. rewrite Hon in Heq.
      by injection Heq as <-.
  - intros task. apply executeTask_quiet.
  - intros tasks ph. apply execute_quiet.
Qed.

Lemma envHookFails_fails failing hooks h w :
  configured hooks h failing → hookFails (envHookFails failing) hooks h w.
Proof.
  intros Hconf. exists failing. split; [done|]. intros request Heq. simpl.
  rewrite (bool_decide_eq_true_2 _ Heq). simpl. discriminate.
Qed.

Lemma hook_failure_policy_witness :
  (∃ out w',
     beforePhase (envHookFails "./before-phase.sh") allHooks "/repo" "demo" "p00"
       world0 = (Throw (HookFailed "beforePhase" out), w')
     ∧ db w' = db world0
     ∧ ∀ tasks waves,
         Scheduler.buildExecutionWaves tasks = Ok waves →
         TaskExecutor.execute (envHookFails "./before-phase.sh") hookedProject "demo"
           "/repo" sessionId0 tasks false "p00" world0
         = (Throw (HookFailed "beforePhase" out), w'))
  ∧ (∃ out w',
       beforeTask (envHookFails "./before-task.sh") allHooks "/repo" "demo" task1
         world0 = (Throw (HookFailed "beforeTask" out), w')
       ∧ db w' = db world0
       ∧ TaskExecutor.executeTask (envHookFails "./before-task.sh") hookedProject
           "demo" "/repo" sessionId0 task1 false world0
         = (Throw (HookFailed "beforeTask" out), w'))
  ∧ (∃ w2,
       TaskExecutor.executeTask (envHookFails "./after-task.sh") hookedProject "demo"
         "/repo" sessionId0 task1 false world0 = (Ok (), w2)
       ∧ db w2 = db hookedEnd
       ∧ ∃ out, console w2
                = console hookedEnd ++ ["Warning: afterTask hook failed: " +:+ out]).
Proof.
  split_and!.
  - apply (hook_failure_policy (envHookFails "./before-phase.sh") hookedProject
             "demo" "/repo" sessionId0 false world0).
    apply envHookFails_fails. by split.
  - apply (hook_failure_policy (envHookFails "./before-task.sh") hookedProject
             "demo" "/repo" sessionId0 false world0).
    apply envHookFails_fails. by split.
  - destruct (hook_failure_policy (envHookFails "./after-task.sh") hookedProject
                "demo" "/repo" sessionId0 false world0)
      as (_ & _ & _ & _ & _ & Hafter & _).
    destruct (Hafter task1 hookedStart (Ok ()) hookedEnd) as (w2 & Heq & Hdb & Hwarn).
    + vm_compute. reflexivity.
    + vm_compute. reflexivity.
    + exists w2. split_and!; [exact Heq|exact Hdb|].
      apply Hwarn. apply envHookFails_fails. by split.
Defined.

End HookFailureProofs.
